(** * mywellness2tcx: the normalization and encoding core of [src/App.tsx]

    A shallow embedding of the workout pipeline: metric extraction
    ([prToMap], [pickDistanceM], ...), the indoor normalizer, the heart-rate
    interpolation [hrAt], the Track Encoder [workoutToTCX] and the Activity
    Encoder [workoutToFIT].

    Conventions of the embedding.
    - A JavaScript [number] is an exact rational ([Q]); a value that the code
      has just passed through [Math.round] or [Math.floor], or a loop
      counter, is an integer ([Z]) and is injected back with [inject_Z] where
      the code mixes it with other numbers.  [NaN], infinities and binary
      rounding are outside the model; a property that would depend on the
      arithmetic being exact is therefore stated for whole numbers, on
      which the runtime's sums and differences are exact too, or as the
      sequence of operations the code performs.
    - [undefined] on an optional field is [None].
    - A value of type [unknown] (parsed JSON) is the inductive [unknown].
    - Built-ins of the JavaScript runtime that the code calls ([Date],
      [Number(string)], [String(v)], number formatting, [toLowerCase]) are the
      fields of the class [JsBuiltins]; the wall clock is an explicit
      argument [Clock], the k-th reading of one call being [clk k].
    - The external FIT writer is a log: [workoutToFIT] returns the list of
      messages handed to [writeMessage], in call order; a timestamp field
      holds the epoch-millisecond instant given to [fit.time].
    - Both encoders are also run on an explicit object store (the workout,
      its series array, the points, the arrays and records the encoders
      create), to account for what they write to.
    - Further parts of the file are embedded the same way: the outdoor
      normalizer, the single-page reconstructor
      [extractWorkoutFromSinglePageJSON] with its helpers ([asNumberArray],
      [average], [parseDurationString], [toMetersFromUnit]), the state update
      of [updateWorkoutOpts] and the import loop of [onZipSelected].  What
      they call besides [JsBuiltins] ([trim], [setHours], [JSON.parse]) is
      the class [JsRuntime]; a call that can throw returns an [Outcome].
    - The two batch normalizers come in two forms: the workouts they
      return ([indoorWorkout], [extractWorkoutsFromIndoorJSON] and the
      outdoor ones), and the calls themselves with the TypeError that
      [String(v)] can end in ([indoorWorkout_call],
      [extractWorkoutsFromIndoorJSON_call] and the outdoor ones).
    - Time values stay inside the range of [Date]: a [setHours] that would
      leave it, after which [toISOString] throws, is outside the model. *)

From Stdlib Require Import ZArith QArith Qround Qminmax Lia Lqa String Ascii List.
From Stdlib Require Import Sorting.Sorted Sorting.Permutation.
From Stdlib Require DecimalString DecimalNat.
From stdpp Require Import base option list.
Import ListNotations.

Open Scope Z_scope.
Open Scope Q_scope.
Open Scope string_scope.
Open Scope list_scope.

(** String concatenation (template literals, [+] on strings). *)
Infix "+++" := String.append (right associativity, at level 60).

(* ================================================================== *)
(** ** JavaScript numbers *)

(** [Math.round]: nearest integer, ties towards +infinity. *)
Definition Math_round (x : Q) : Z := Qfloor (x + (1 # 2)).

Definition Math_floor (x : Q) : Z := Qfloor x.

(** [a < b] and [a <= b] on numbers, as booleans. *)
Definition Qleb (a b : Q) : bool := Qle_bool a b.
Definition Qltb (a b : Q) : bool := negb (Qle_bool b a).

(** [a ?? b] when both sides may be [undefined]. *)
Definition nullish {A : Type} (a b : option A) : option A :=
  match a with
  | Some v => Some v
  | None => b
  end.

Notation "a ?? b" := (nullish a b) (at level 60, right associativity).

(* ================================================================== *)
(** ** Parsed JSON ([unknown]) *)

#[local] Set Warnings "-register-all".

Inductive unknown : Type :=
| JUndefined
| JNull
| JBool (b : bool)
| JNum (n : Q)
| JStr (s : string)
| JArr (items : list unknown)
| JObj (fields : list (string * unknown)).

(** The own properties of an object; [JSON.parse] leaves each key once. *)
Definition JsObject : Type := list (string * unknown).

Fixpoint field_lookup (k : string) (fs : JsObject) : option unknown :=
  match fs with
  | [] => None
  | (k', v) :: fs' => if String.eqb k k' then Some v else field_lookup k fs'
  end.

(** [asRecord]: a non-null, non-array object. *)
Definition asRecord (v : unknown) : option JsObject :=
  match v with
  | JObj fs => Some fs
  | _ => None
  end.

(** [rec?.k]: [undefined] when [rec] is undefined or has no such key. *)
Definition prop (rec : option JsObject) (k : string) : unknown :=
  match rec with
  | Some fs => default JUndefined (field_lookup k fs)
  | None => JUndefined
  end.

Definition is_nullish (v : unknown) : bool :=
  match v with
  | JUndefined | JNull => true
  | _ => false
  end.

(** [a ?? b] on [unknown] values. *)
Definition coalesce (a b : unknown) : unknown :=
  if is_nullish a then b else a.

(** JavaScript truthiness of a JSON value. *)
Definition truthy (v : unknown) : bool :=
  match v with
  | JUndefined | JNull => false
  | JBool b => b
  | JNum n => negb (Qeq_bool n 0)
  | JStr s => negb (String.eqb s "")
  | JArr _ | JObj _ => true
  end.

Definition typeof_string (v : unknown) : option string :=
  match v with
  | JStr s => Some s
  | _ => None
  end.

(* ================================================================== *)
(** ** Runtime built-ins and the wall clock *)

Class JsBuiltins : Type := {
  (** [new Date(s).getTime()]; [None] is the invalid date (NaN). *)
  Date_parse : string -> option Z;
  (** [new Date(ms).toISOString()] *)
  Date_toISOString : Z -> string;
  (** [new Date(ms).toLocaleString()] *)
  Date_toLocaleString : Z -> string;
  (** [Number(s)] when the result is finite, [None] otherwise. *)
  Number_ofString : string -> option Q;
  (** [`${x}`] for a number [x]. *)
  Number_toString : Q -> string;
  (** [x.toFixed(1)] *)
  Number_toFixed1 : Q -> string;
  (** The string [String(v)] and [`${v}`] give for a JSON value when
      the conversion returns; the calls themselves, which can throw,
      are [String_call] below. *)
  String_of : unknown -> string;
  (** [s.toLowerCase()] *)
  String_toLowerCase : string -> string
}.

(** Successive readings of the wall clock ([new Date()], [Date.now()])
    within one call, in epoch milliseconds. *)
Definition Clock : Type := nat -> Z.

(* ================================================================== *)
(** ** Data model *)

Record WorkoutExportOpts : Type := {
  includeHrSeries : bool;
  includeCadenceSeries : bool;
  includePowerSeries : bool;
  includeMetricsInNotes : bool;
  includeCalories : bool;
  includeDistance : bool;
  includeVerticalAsAltitude : bool
}.

Record SeriesPoint : Type := {
  p_tSec : Q;
  p_hr : option Q;
  p_watts : option Q;
  p_cadence : option Q;
  p_verticalM : option Q
}.

Inductive Source : Type := indoor | outdoor.

(** [Record<string, number>]: keys in insertion order, as [Object.entries]
    and [Object.keys] list them (names that are array indices aside). *)
Definition Metrics : Type := list (string * Q).

(** The workout record.  [Ser] is what the [series] field holds: the list
    of points itself for a workout taken as a value ([Workout]), a
    reference to the array for a workout object in the store. *)
Record WorkoutOf (Ser : Type) : Type := {
  w_uid : string;
  w_source : Source;
  w_id : string;
  w_startedAtISO : option string;
  w_startedAtDisplay : string;
  w_activityName : string;
  w_durationSec : option Q;
  w_calories : option Q;
  w_distanceM : option Q;
  w_verticalM : option Q;
  w_cadenceSpm : option Q;
  w_exportOpts : WorkoutExportOpts;
  w_metrics : Metrics;
  w_metricKeys : list string;
  w_series : option Ser;
  w_raw : unknown
}.

Arguments Build_WorkoutOf {Ser}.
Arguments w_uid {Ser} _.
Arguments w_source {Ser} _.
Arguments w_id {Ser} _.
Arguments w_startedAtISO {Ser} _.
Arguments w_startedAtDisplay {Ser} _.
Arguments w_activityName {Ser} _.
Arguments w_durationSec {Ser} _.
Arguments w_calories {Ser} _.
Arguments w_distanceM {Ser} _.
Arguments w_verticalM {Ser} _.
Arguments w_cadenceSpm {Ser} _.
Arguments w_exportOpts {Ser} _.
Arguments w_metrics {Ser} _.
Arguments w_metricKeys {Ser} _.
Arguments w_series {Ser} _.
Arguments w_raw {Ser} _.

Definition Workout : Type := WorkoutOf (list SeriesPoint).

(* ================================================================== *)
(** ** Metrics map *)

(** [metrics[k]] *)
Fixpoint mget (m : Metrics) (k : string) : option Q :=
  match m with
  | [] => None
  | (k', v) :: m' => if String.eqb k k' then Some v else mget m' k
  end.

(** [metrics[k] = v]: overwrite in place, or append a new key.  (The key
    [__proto__], which an assignment does not store as a property of its
    own, is outside the model.) *)
Fixpoint mset (m : Metrics) (k : string) (v : Q) : Metrics :=
  match m with
  | [] => [(k, v)]
  | (k', v') :: m' =>
      if String.eqb k k' then (k', v) :: m' else (k', v') :: mset m' k v
  end.

Definition pickDistanceM (metrics : Metrics) : option Q :=
  mget metrics "HDistance" ??
  mget metrics "Distance" ??
  mget metrics "DistanceMeters" ??
  (match mget metrics "Km" with
   | Some km => Some (km * 1000)
   | None => None
   end).

Definition pickVerticalM (metrics : Metrics) : option Q :=
  mget metrics "Elevation" ?? mget metrics "Floors".

Definition pickCadenceSpm (metrics : Metrics) : option Q :=
  mget metrics "AvgSpm" ?? mget metrics "Cadence".

(* ================================================================== *)
(** ** Schema normalizer: indoor batch *)

Section Normalizer.
Context `{JsBuiltins}.

Definition safeNumber (v : unknown) : option Q :=
  match v with
  | JNum n => Some n
  | JStr s => Number_ofString s
  | _ => None
  end.

(** One turn of the loop [for (const item of pr)]. *)
Definition prToMap_step (out : Metrics) (item : unknown) : Metrics :=
  let itemRec := asRecord item in
  let name := prop itemRec "n" in
  let val := safeNumber (prop itemRec "v") in
  match typeof_string name, val with
  | Some name, Some val => mset out name val
  | _, _ => out
  end.

(** The value of [pr] in [prToMap]: the first of [performedData.pr],
    [physicalActivityData.pr], [performedData.PR] and
    [physicalActivityData.PR] that is neither null nor undefined. *)
Definition prOf (raw : unknown) : unknown :=
  let rawRec := asRecord raw in
  let performedData := asRecord (prop rawRec "performedData") in
  let physicalActivityData := asRecord (prop rawRec "physicalActivityData") in
  coalesce (prop performedData "pr")
    (coalesce (prop physicalActivityData "pr")
       (coalesce (prop performedData "PR")
          (prop physicalActivityData "PR"))).

Definition prToMap (raw : unknown) : Metrics :=
  let out : Metrics := [] in
  let pr := prOf raw in
  match pr with
  | JArr items => fold_left prToMap_step items out
  | _ => out
  end.

(** The em dash shown for a missing date. *)
Definition dash : string :=
  String "226"%char (String "128"%char (String "148"%char EmptyString)).

Definition formatDateHuman (iso : option string) : string :=
  match iso with
  | None => dash
  | Some s =>
      if String.eqb s "" then dash
      else match Date_parse s with
           | None => dash
           | Some ms => Date_toLocaleString ms
           end
  end.

(** [keys.sort()]: the default sort, by code unit. *)
Fixpoint insert_string (s : string) (l : list string) : list string :=
  match l with
  | [] => [s]
  | x :: l' => if String.leb s x then s :: x :: l' else x :: insert_string s l'
  end.

Definition sort_strings (l : list string) : list string :=
  fold_right insert_string [] l.

Definition is_some {A : Type} (o : option A) : bool :=
  match o with
  | Some _ => true
  | None => false
  end.

(** The workout that the callback of [items.map((raw, idx) => ...)]
    returns, when it returns; the call with its exceptions is
    [indoorWorkout_call] below. *)
Definition indoorWorkout (idx : nat) (raw : unknown) : Workout :=
  let idxs := Number_toString (inject_Z (Z.of_nat idx)) in
  let rawRec := asRecord raw in
  let metrics := prToMap raw in
  let startedAt := prop rawRec "on" in
  let durationSec := mget metrics "Duration" in
  let calories := mget metrics "Calories" in
  let distanceM := pickDistanceM metrics in
  let verticalM := pickVerticalM metrics in
  let cadenceSpm := pickCadenceSpm metrics in
  let activityName :=
    if truthy (prop rawRec "activityName") then prop rawRec "activityName"
    else JStr (if is_some verticalM then "Stair climber" else "Indoor workout") in
  let id :=
    String_of
      (coalesce (prop rawRec "id")
         (JStr (String_of (coalesce startedAt (JStr "ind")) +++ "-" +++ idxs))) in
  let uid :=
    "indoor-" +++ String_of (coalesce startedAt (JStr "unknown")) +++
    "-" +++ id +++ "-" +++ idxs in
  {| w_uid := uid;
     w_source := indoor;
     w_id := id;
     w_startedAtISO := typeof_string startedAt;
     w_startedAtDisplay :=
       match typeof_string startedAt with
       | Some s => formatDateHuman (Some s)
       | None => dash
       end;
     w_activityName := String_of activityName;
     w_durationSec := durationSec;
     w_distanceM := distanceM;
     w_calories := calories;
     w_verticalM := verticalM;
     w_cadenceSpm := cadenceSpm;
     w_metrics := metrics;
     w_metricKeys := sort_strings (map fst metrics);
     w_series := None;
     w_raw := raw;
     w_exportOpts :=
       {| includeHrSeries :=
            is_some (mget metrics "AvgHr") || is_some (mget metrics "MaxHr");
          includeCadenceSeries :=
            is_some cadenceSpm || is_some (mget metrics "AvgSpm")
            || is_some (mget metrics "Cadence");
          includePowerSeries := is_some (mget metrics "AvgPower");
          includeMetricsInNotes := false;
          includeCalories := is_some calories;
          includeDistance := is_some distanceM;
          includeVerticalAsAltitude := is_some verticalM |} |}.

(** The workouts [extractWorkoutsFromIndoorJSON(obj)] returns, when it
    returns. *)
Definition extractWorkoutsFromIndoorJSON (obj : unknown) : list Workout :=
  let items := match obj with JArr items => items | _ => [] end in
  imap indoorWorkout items.

End Normalizer.

(* ================================================================== *)
(** ** Sorting a series: [[...series].sort((a, b) => a.tSec - b.tSec)]

    [Array.prototype.sort] is stable, so with this comparator its result
    is the one permutation that is ascending in [tSec] and keeps points
    of equal [tSec] in their input order; insertion from the right
    computes that permutation. *)

Section SortBy.
Context {A : Type} (key : A -> Q).

Fixpoint insert_by (x : A) (l : list A) : list A :=
  match l with
  | [] => [x]
  | y :: l' =>
      if Qleb (key x) (key y) then x :: y :: l' else y :: insert_by x l'
  end.

Definition sort_by (l : list A) : list A := fold_right insert_by [] l.

End SortBy.

Definition sort_by_tSec (l : list SeriesPoint) : list SeriesPoint :=
  sort_by p_tSec l.

(* ================================================================== *)
(** ** Heart-rate interpolation *)

Record HrAnchor : Type := {
  a_tSec : Q;
  a_hr : Q
}.

(** The loop [for (let i = 1; i < hrAnchors.length; i++)] with
    [a = hrAnchors[i - 1]] and [b = hrAnchors[i]], followed by the final
    [return last.hr]. *)
Fixpoint hrAt_loop (a : HrAnchor) (rest : list HrAnchor) (last_hr : Q)
  (tSec : Q) : Q :=
  match rest with
  | [] => last_hr
  | b :: rest' =>
      if Qleb tSec (a_tSec b) then
        let span := a_tSec b - a_tSec a in
        if Qleb span 0 then a_hr b
        else
          let ratio := (tSec - a_tSec a) / span in
          a_hr a + (a_hr b - a_hr a) * ratio
      else hrAt_loop b rest' last_hr tSec
  end.

(** [hrAt] of [extractWorkoutFromSinglePageJSON]. *)
Definition hrAt (hrAnchors : list HrAnchor) (tSec : Q) : option Q :=
  match hrAnchors with
  | [] => None
  | [a0] => Some (a_hr a0)
  | a0 :: rest =>
      if Qleb tSec (a_tSec a0) then Some (a_hr a0)
      else
        let last := List.last hrAnchors a0 in
        if Qleb (a_tSec last) tSec then Some (a_hr last)
        else Some (hrAt_loop a0 rest (a_hr last) tSec)
  end.

(** [hrByT.set(k, v)] on a [Map<number, number>] kept in insertion order. *)
Fixpoint hrByT_set (m : list (Z * Q)) (k : Z) (v : Q) : list (Z * Q) :=
  match m with
  | [] => [(k, v)]
  | (k', v') :: m' =>
      if (k =? k')%Z then (k', v) :: m' else (k', v') :: hrByT_set m' k v
  end.

Section Reconstructor.
Context `{JsBuiltins}.

(** One turn of [for (const h of hrSamples)]. *)
Definition hrByT_step (hrByT : list (Z * Q)) (h : unknown) : list (Z * Q) :=
  let rec := asRecord h in
  let t := safeNumber (prop rec "t") in
  let hr := safeNumber (prop rec "hr") in
  match t, hr with
  | Some t, Some hr => hrByT_set hrByT (Math_round t) hr
  | _, _ => hrByT
  end.

(** [hrAnchors] of [extractWorkoutFromSinglePageJSON]. *)
Definition reconstructHrAnchors (hrSamples : list unknown) : list HrAnchor :=
  let hrByT := fold_left hrByT_step hrSamples [] in
  sort_by a_tSec
    (map (fun '(tSec, hr) => {| a_tSec := inject_Z tSec; a_hr := hr |}) hrByT).

End Reconstructor.

(** [hrAt] of [workoutToFIT]: the same, behind the HR option. *)
Definition hrAt_fit (opts : WorkoutExportOpts) (hrAnchors : list HrAnchor)
  (tSec : Q) : option Q :=
  if negb (includeHrSeries opts) || (length hrAnchors =? 0)%nat then None
  else
    match hrAnchors with
    | [] => None
    | [a0] => Some (a_hr a0)
    | a0 :: rest =>
        if Qleb tSec (a_tSec a0) then Some (a_hr a0)
        else
          let last := List.last hrAnchors a0 in
          if Qleb (a_tSec last) tSec then Some (a_hr last)
          else Some (hrAt_loop a0 rest (a_hr last) tSec)
    end.


(* ================================================================== *)
(** ** What both encoders share *)

Definition dq : string := String "034"%char EmptyString.
Definition nl : string := String "010"%char EmptyString.

(** [s.includes(sub)] *)
Fixpoint includes (s sub : string) : bool :=
  String.prefix sub s ||
  match s with
  | EmptyString => false
  | String _ s' => includes s' sub
  end.

(** A string operand of [||]: the empty string is falsy. *)
Definition truthy_string (o : option string) : option string :=
  match o with
  | Some s => if String.eqb s "" then None else Some s
  | None => None
  end.

Section Shared.
Context {Ser : Type}.
Implicit Types w : WorkoutOf Ser.

Definition rawStartISO w : option string :=
  let rawRec := asRecord (w_raw w) in
  match typeof_string (prop rawRec "on") with
  | Some s => Some s
  | None => typeof_string (prop rawRec "performedDate")
  end.

(** [totalSeconds = Math.max(0, Math.round(w.durationSec ?? 0))] *)
Definition totalSecondsOf w : Z :=
  Z.max 0 (Math_round (default 0 (w_durationSec w))).

(** [totalDistanceM = opts.includeDistance ? w.distanceM : undefined] *)
Definition totalDistanceOf w (opts : WorkoutExportOpts) : option Q :=
  if includeDistance opts then w_distanceM w else None.

(** [totalVerticalM] *)
Definition totalVerticalOf w (opts : WorkoutExportOpts) : option Q :=
  if includeVerticalAsAltitude opts then w_verticalM w else None.

(** The workout-level cadence default, before rounding
    ([cadenceSpm] in the Track Encoder, [defaultCadence] in the Activity
    Encoder). *)
Definition cadenceDefault w (opts : WorkoutExportOpts) : option Q :=
  let spmFromField := pickCadenceSpm (w_metrics w) in
  let move := mget (w_metrics w) "Move" in
  let dur := default 0 (mget (w_metrics w) "Duration" ?? w_durationSec w) in
  if includeCadenceSeries opts then
    spmFromField ??
    (match move with
     | Some move => if Qltb 0 dur then Some (move / (dur / 60)) else None
     | None => None
     end)
  else None.

(** The workout-level power default ([watts], [defaultWatts]). *)
Definition wattsDefault w (opts : WorkoutExportOpts) : option Z :=
  if includePowerSeries opts
  then option_map Math_round (mget (w_metrics w) "AvgPower")
  else None.

End Shared.

(** [Math.max(totalSeconds, sortedSeries[sortedSeries.length - 1]?.tSec ?? 0)] *)
Definition seriesTotalSecOf (totalSeconds : Z) (sortedSeries : list SeriesPoint)
  : Q :=
  Qmax (inject_Z totalSeconds)
       (match last sortedSeries with
        | Some p => p_tSec p
        | None => 0
        end).

(** [Array.isArray(w.series) && w.series.length > 0] *)
Definition hasSeries (w : Workout) : bool :=
  match w_series w with
  | Some (_ :: _) => true
  | _ => false
  end.

(** The number of synthetic points, [n]. *)
Definition syntheticCount (totalSeconds : Z) : Z :=
  let step := 5%Z in
  if (0 <? totalSeconds)%Z
  then Z.max 2 (Math_floor (inject_Z totalSeconds / inject_Z step) + 1)
  else 2%Z.

(** The values [i] of [for (let i = 0; i < n; i++)]. *)
Definition loop_indices (n : Z) : list Z :=
  map Z.of_nat (seq 0 (Z.to_nat n)).

(** The per-point distance and altitude, written alike in both loops of
    both encoders: pro-rated over [total] seconds when [total > 0]. *)
Definition proRate (amount : Q) (t : Z) (total : Q) : Q :=
  amount * (inject_Z t / total).

(** [dist] of a series point. *)
Definition seriesDist (totalDistanceM : option Q) (seriesTotalSec : Q) (t : Z)
  : Q :=
  match totalDistanceM with
  | Some d => if Qltb 0 seriesTotalSec then proRate d t seriesTotalSec else 0
  | None => 0
  end.

(** [alt] of a series point. *)
Definition seriesAlt (opts : WorkoutExportOpts) (totalVerticalM : option Q)
  (seriesTotalSec : Q) (t : Z) (p : SeriesPoint) : option Q :=
  if includeVerticalAsAltitude opts then
    match p_verticalM p with
    | Some v => Some v
    | None =>
        match totalVerticalM with
        | Some tv =>
            if Qltb 0 seriesTotalSec
            then Some (proRate tv t seriesTotalSec) else None
        | None => None
        end
    end
  else None.

(** [hr], [dist] and [alt] of a synthetic point. *)
Definition syntheticHr (opts : WorkoutExportOpts) (avgHr maxHr : option Q)
  : option Z :=
  if includeHrSeries opts && (is_some avgHr || is_some maxHr)
  then option_map Math_round (avgHr ?? maxHr)
  else None.

Definition syntheticDist (totalDistanceM : option Q) (totalSeconds t : Z) : Q :=
  match totalDistanceM with
  | Some d =>
      if (0 <? totalSeconds)%Z then proRate d t (inject_Z totalSeconds) else 0
  | None => 0
  end.

Definition syntheticAlt (totalVerticalM : option Q) (totalSeconds t : Z)
  : option Q :=
  match totalVerticalM with
  | Some tv =>
      if (0 <? totalSeconds)%Z
      then Some (proRate tv t (inject_Z totalSeconds)) else None
  | None => None
  end.

(* ================================================================== *)
(** ** Track Encoder *)

Inductive TcxSport : Type := Running | Biking | Other.

(** What one [<Trackpoint>] template is filled with; [tp_t] is the
    offset [t] the time was computed from. *)
Record Trackpoint : Type := {
  tp_t : Z;
  tp_time : string;
  tp_alt : option Q;
  tp_dist : Q;
  tp_hr : option Z;
  tp_cadence : option Z;
  tp_watts : option Z
}.

Section TrackEncoder.
Context `{JsBuiltins}.

Definition pickSport (activityName : string) : TcxSport :=
  let a := String_toLowerCase activityName in
  if includes a "run" then Running
  else if includes a "cycle" || includes a "bike" || includes a "ride"
  then Biking
  else Other.

Definition sportName (s : TcxSport) : string :=
  match s with
  | Running => "Running"
  | Biking => "Biking"
  | Other => "Other"
  end.

Definition int_toString (z : Z) : string := Number_toString (inject_Z z).

Definition optional_tag {A : Type} (o : option A) (f : A -> string) : string :=
  match o with
  | Some v => f v
  | None => ""
  end.

(** The [<Trackpoint>] template literal. *)
Definition renderTrackpoint (tp : Trackpoint) : string :=
  nl +++ "        <Trackpoint>" +++ nl +++
  "          <Time>" +++ tp_time tp +++ "</Time>" +++ nl +++
  "          " +++
  optional_tag (tp_alt tp) (fun alt =>
    "<AltitudeMeters>" +++ Number_toFixed1 alt +++ "</AltitudeMeters>") +++ nl +++
  "          <DistanceMeters>" +++ Number_toFixed1 (tp_dist tp) +++
  "</DistanceMeters>" +++ nl +++
  "          " +++
  optional_tag (tp_hr tp) (fun hr =>
    "<HeartRateBpm><Value>" +++ int_toString hr +++ "</Value></HeartRateBpm>")
  +++ nl +++
  "          " +++
  optional_tag (tp_cadence tp) (fun c =>
    "<Cadence>" +++ int_toString c +++ "</Cadence>") +++ nl +++
  "          " +++
  optional_tag (tp_watts tp) (fun x =>
    "<Extensions>" +++ nl +++
    "                  <tpx:TPX>" +++ nl +++
    "                    <tpx:Watts>" +++ int_toString x +++ "</tpx:Watts>" +++ nl +++
    "                  </tpx:TPX>" +++ nl +++
    "                </Extensions>") +++ nl +++
  "        </Trackpoint>".

Section TrackEncoderOn.
Context {Ser : Type}.
Implicit Types w : WorkoutOf Ser.

(** The start instant: [validStartMs] and [startForTCX]. *)
Definition tcxStart (clk : Clock) w : Z * string :=
  let '(startISO, k) :=
    match truthy_string (w_startedAtISO w) with
    | Some s => (s, 0%nat)
    | None =>
        match truthy_string (rawStartISO w) with
        | Some s => (s, 0%nat)
        | None => (Date_toISOString (clk 0%nat), 1%nat)
        end
    end in
  match Date_parse startISO with
  | None => (clk k, Date_toISOString (clk (S k)))
  | Some ms => (ms, Date_toISOString ms)
  end.

(** The body of [for (const p of sortedSeries)]. *)
Definition tcxSeriesPoint (clk : Clock) w (opts : WorkoutExportOpts)
  (seriesTotalSec : Q) (p : SeriesPoint) : Trackpoint :=
  let validStartMs := fst (tcxStart clk w) in
  let cadence := option_map Math_round (cadenceDefault w opts) in
  let watts := wattsDefault w opts in
  let t := Z.max 0 (Math_round (p_tSec p)) in
  let time := Date_toISOString (validStartMs + t * 1000)%Z in
  let hr :=
    if includeHrSeries opts then option_map Math_round (p_hr p) else None in
  let pointCadence :=
    if includeCadenceSeries opts then
      match p_cadence p with
      | Some c => Some (Math_round c)
      | None => cadence
      end
    else None in
  let pointWatts :=
    if includePowerSeries opts then
      match p_watts p with
      | Some x => Some (Math_round x)
      | None => watts
      end
    else None in
  let dist := seriesDist (totalDistanceOf w opts) seriesTotalSec t in
  let alt := seriesAlt opts (totalVerticalOf w opts) seriesTotalSec t p in
  {| tp_t := t; tp_time := time; tp_alt := alt; tp_dist := dist;
     tp_hr := hr; tp_cadence := pointCadence; tp_watts := pointWatts |}.

(** The series branch, given the sorted copy of the series. *)
Definition tcxSeriesPoints (clk : Clock) w (opts : WorkoutExportOpts)
  (sortedSeries : list SeriesPoint) : list Trackpoint :=
  let seriesTotalSec := seriesTotalSecOf (totalSecondsOf w) sortedSeries in
  map (tcxSeriesPoint clk w opts seriesTotalSec) sortedSeries.

(** The body of the synthetic loop [for (let i = 0; i < n; i++)]. *)
Definition tcxSyntheticPoint (clk : Clock) w (opts : WorkoutExportOpts) (i : Z)
  : Trackpoint :=
  let validStartMs := fst (tcxStart clk w) in
  let totalSeconds := totalSecondsOf w in
  let avgHr := mget (w_metrics w) "AvgHr" in
  let maxHr := mget (w_metrics w) "MaxHr" in
  let step := 5%Z in
  let t := Z.min totalSeconds (i * step) in
  let time := Date_toISOString (validStartMs + t * 1000)%Z in
  {| tp_t := t; tp_time := time;
     tp_alt := syntheticAlt (totalVerticalOf w opts) totalSeconds t;
     tp_dist := syntheticDist (totalDistanceOf w opts) totalSeconds t;
     tp_hr := syntheticHr opts avgHr maxHr;
     tp_cadence := option_map Math_round (cadenceDefault w opts);
     tp_watts := wattsDefault w opts |}.

(** The synthetic branch. *)
Definition tcxSyntheticPoints (clk : Clock) w (opts : WorkoutExportOpts)
  : list Trackpoint :=
  let n := syntheticCount (totalSecondsOf w) in
  map (tcxSyntheticPoint clk w opts) (loop_indices n).

Definition tcxNotes w (opts : WorkoutExportOpts) : string :=
  if includeMetricsInNotes opts then
    "Mywellness metrics: " +++
    String.concat ", "
      (map (fun '(k, v) => k +++ "=" +++ Number_toString v) (w_metrics w))
  else "Generated from Mywellness export.".

(** The returned template literal, around the pushed [points]. *)
Definition tcxDocument (clk : Clock) w (opts : WorkoutExportOpts)
  (points : list string) : string :=
  let startForTCX := snd (tcxStart clk w) in
  let totalSeconds := totalSecondsOf w in
  let calories := if includeCalories opts then w_calories w else None in
  let totalDistanceM := totalDistanceOf w opts in
  let sport := pickSport (w_activityName w) in
  let notes := tcxNotes w opts in
  "<?xml version=" +++ dq +++ "1.0" +++ dq +++ " encoding=" +++ dq +++ "UTF-8"
  +++ dq +++ "?>" +++ nl +++
  "<TrainingCenterDatabase xmlns=" +++ dq +++
  "http://www.garmin.com/xmlschemas/TrainingCenterDatabase/v2" +++ dq +++ nl +++
  "  xmlns:xsi=" +++ dq +++ "http://www.w3.org/2001/XMLSchema-instance" +++ dq
  +++ nl +++
  "  xmlns:tpx=" +++ dq +++
  "http://www.garmin.com/xmlschemas/ActivityExtension/v2" +++ dq +++ nl +++
  "  xsi:schemaLocation=" +++ dq +++
  "http://www.garmin.com/xmlschemas/TrainingCenterDatabase/v2 " +++
  "http://www.garmin.com/xmlschemas/TrainingCenterDatabasev2.xsd" +++ dq +++ ">"
  +++ nl +++
  "  <Activities>" +++ nl +++
  "    <Activity Sport=" +++ dq +++ sportName sport +++ dq +++ ">" +++ nl +++
  "      <Id>" +++ startForTCX +++ "</Id>" +++ nl +++
  "      <Lap StartTime=" +++ dq +++ startForTCX +++ dq +++ ">" +++ nl +++
  "        <TotalTimeSeconds>" +++ int_toString totalSeconds +++
  "</TotalTimeSeconds>" +++ nl +++
  "        <DistanceMeters>" +++
  match totalDistanceM with
  | Some d => Number_toFixed1 d
  | None => "0"
  end +++ "</DistanceMeters>" +++ nl +++
  "        " +++
  optional_tag calories (fun c =>
    "<Calories>" +++ int_toString (Z.max 0 (Math_round c)) +++ "</Calories>")
  +++ nl +++
  "        <Intensity>Active</Intensity>" +++ nl +++
  "        <TriggerMethod>Manual</TriggerMethod>" +++ nl +++
  "        <Track>" +++ String.concat nl points +++ nl +++
  "        </Track>" +++ nl +++
  "      </Lap>" +++ nl +++
  "      <Notes>" +++ notes +++ "</Notes>" +++ nl +++
  "    </Activity>" +++ nl +++
  "  </Activities>" +++ nl +++
  "</TrainingCenterDatabase>".

End TrackEncoderOn.

(** The trackpoints, in the order they are pushed onto [points]. *)
Definition tcxPoints (clk : Clock) (w : Workout) (opts : WorkoutExportOpts)
  : list Trackpoint :=
  if hasSeries w then
    let sortedSeries := sort_by_tSec (default [] (w_series w)) in
    tcxSeriesPoints clk w opts sortedSeries
  else tcxSyntheticPoints clk w opts.

Definition workoutToTCX (clk : Clock) (w : Workout) (opts : WorkoutExportOpts)
  : string :=
  tcxDocument clk w opts (map renderTrackpoint (tcxPoints clk w opts)).

End TrackEncoder.

(* ================================================================== *)
(** ** Activity Encoder *)

(** An element of the local array [records]. *)
Record FitRecord : Type := {
  r_tSec : Z;
  r_hr : option Z;
  r_cadence : option Z;
  r_watts : option Z;
  r_alt : option Q;
  r_dist : Q
}.

(** [r.hr = v] *)
Definition set_hr (r : FitRecord) (v : Z) : FitRecord :=
  {| r_tSec := r_tSec r; r_hr := Some v; r_cadence := r_cadence r;
     r_watts := r_watts r; r_alt := r_alt r; r_dist := r_dist r |}.

Inductive FitSport : Type :=
| sport_running
| sport_cycling
| sport_fitness_equipment
| sport_generic.

Inductive FitSubSport : Type := stair_climbing.

Inductive TimerEvent : Type := timer_start | timer_stop_all.

(** The fields that lap and session summaries have in common. *)
Record Summary : Type := {
  s_timestamp : Z;
  s_start_time : Z;
  s_total_elapsed_time : Z;
  s_total_timer_time : Z;
  s_total_distance : Q;
  s_total_calories : option Z;
  s_total_ascent : option Q;
  s_total_descent : option Q;
  s_avg_speed : option Q;
  s_max_speed : option Q;
  s_avg_heart_rate : option Z;
  s_max_heart_rate : option Z;
  s_avg_power : option Z;
  s_total_work : option Z;
  s_avg_cadence : option Z
}.

(** One call of [fit.writeMessage]; constant fields are left out. *)
Inductive FitMessage : Type :=
| Msg_file_id (time_created : Z)
| Msg_file_creator
| Msg_device_info (timestamp : Z)
| Msg_event (timestamp : Z) (event_type : TimerEvent)
| Msg_record (timestamp : Z) (distance : Q) (heart_rate cadence power : option Z)
    (altitude : option Q)
| Msg_lap (s : Summary)
| Msg_session (s : Summary) (sport : FitSport) (sub_sport : option FitSubSport)
| Msg_activity (timestamp : Z) (total_timer_time : Z).

(** The anchor view of a series point that has an HR value. *)
Definition anchor_of_point (p : SeriesPoint) : option HrAnchor :=
  match p_hr p with
  | Some h => Some {| a_tSec := p_tSec p; a_hr := h |}
  | None => None
  end.

(** [sortedSeries.filter(p => p.hr != null).sort((a, b) => a.tSec - b.tSec)] *)
Definition fitHrAnchors (sortedSeries : list SeriesPoint) : list HrAnchor :=
  omap anchor_of_point
    (sort_by_tSec (filter (fun p => is_some (p_hr p) = true) sortedSeries)).

(** The first loop of the forward-fill pass: [firstKnown]. *)
Fixpoint firstKnownHr (records : list FitRecord) : option Z :=
  match records with
  | [] => None
  | r :: records' =>
      match r_hr r with
      | Some v => Some v
      | None => firstKnownHr records'
      end
  end.

(** [fallbackHr] *)
Definition fallbackHrOf (avgHr maxHr : option Q) (firstKnown : option Z)
  : option Z :=
  firstKnown ??
  (match avgHr with
   | Some a => Some (Math_round a)
   | None =>
       match maxHr with
       | Some m => Some (Math_round m)
       | None => None
       end
   end).

(** The second loop: the array after [if (r.hr == null) r.hr = prev;
    else prev = r.hr] has run over it. *)
Fixpoint fillHrLoop (prev : Z) (records : list FitRecord) : list FitRecord :=
  match records with
  | [] => []
  | r :: records' =>
      match r_hr r with
      | None => set_hr r prev :: fillHrLoop prev records'
      | Some v => r :: fillHrLoop v records'
      end
  end.

(** The forward-fill pass, inside its guard
    [opts.includeHrSeries && records.length > 0]. *)
Definition forwardFillHr (avgHr maxHr : option Q) (records : list FitRecord)
  : list FitRecord :=
  let firstKnown := firstKnownHr records in
  let fallbackHr := fallbackHrOf avgHr maxHr firstKnown in
  match fallbackHr with
  | Some fallbackHr => fillHrLoop fallbackHr records
  | None => records
  end.

(** The FIT file under construction: the messages written so far. *)
Definition FitWriter : Type := list FitMessage.

(** A computation that writes to the FIT writer. *)
Definition Fit (A : Type) : Type := FitWriter -> A * FitWriter.

Definition fit_ret {A : Type} (a : A) : Fit A := fun fit => (a, fit).

Definition fit_bind {A B : Type} (m : Fit A) (k : A -> Fit B) : Fit B :=
  fun fit => let '(a, fit') := m fit in k a fit'.

Declare Scope fit_scope.
Notation "m ;; k" := (fit_bind m (fun _ => k))
  (at level 100, k at level 200, right associativity) : fit_scope.

(** [fit.writeMessage(...)] *)
Definition writeMessage (m : FitMessage) : Fit unit :=
  fun fit => (tt, fit ++ [m]).

(** [if (c) { body }] *)
Definition fit_when (c : bool) (body : Fit unit) : Fit unit :=
  if c then body else fit_ret tt.

(** [for (const x of xs) { body(x) }] *)
Fixpoint fit_for {A : Type} (xs : list A) (body : A -> Fit unit) : Fit unit :=
  match xs with
  | [] => fit_ret tt
  | x :: xs' => fit_bind (body x) (fun _ => fit_for xs' body)
  end.

Section ActivityEncoder.
Context `{JsBuiltins}.
Local Open Scope fit_scope.

Section ActivityEncoderOn.
Context {Ser : Type}.
Implicit Types w : WorkoutOf Ser.

Definition pickFitSport w : FitSport * option FitSubSport :=
  let a := String_toLowerCase (w_activityName w) in
  if includes a "run" then (sport_running, None)
  else if includes a "cycle" || includes a "bike" || includes a "ride"
  then (sport_cycling, None)
  else if includes a "stair" || includes a "climb" || includes a "floor"
  then (sport_fitness_equipment, Some stair_climbing)
  else match w_source w with
       | indoor => (sport_fitness_equipment, None)
       | outdoor => (sport_generic, None)
       end.

(** [startMs] *)
Definition fitStart (clk : Clock) w : Z :=
  let '(startISO, k) :=
    match truthy_string (w_startedAtISO w) with
    | Some s => (s, 0%nat)
    | None =>
        match truthy_string (rawStartISO w) with
        | Some s => (s, 0%nat)
        | None => (Date_toISOString (clk 0%nat), 1%nat)
        end
    end in
  match Date_parse startISO with
  | None => clk k
  | Some ms => ms
  end.

(** The body of [for (const p of sortedSeries)]. *)
Definition fitSeriesRecord w (opts : WorkoutExportOpts)
  (hrAnchors : list HrAnchor) (seriesTotalSec : Q) (p : SeriesPoint)
  : FitRecord :=
  let defaultCadence := cadenceDefault w opts in
  let defaultWatts := wattsDefault w opts in
  let t := Z.max 0 (Math_round (p_tSec p)) in
  let hrRaw := hrAt_fit opts hrAnchors (inject_Z t) in
  let hr :=
    if includeHrSeries opts then option_map Math_round hrRaw else None in
  let cadence :=
    if includeCadenceSeries opts then
      match p_cadence p with
      | Some c => Some (Math_round c)
      | None => option_map Math_round defaultCadence
      end
    else None in
  let watts :=
    if includePowerSeries opts then
      match p_watts p with
      | Some x => Some (Math_round x)
      | None => defaultWatts
      end
    else None in
  let dist := seriesDist (totalDistanceOf w opts) seriesTotalSec t in
  let alt := seriesAlt opts (totalVerticalOf w opts) seriesTotalSec t p in
  {| r_tSec := t; r_hr := hr; r_cadence := cadence; r_watts := watts;
     r_alt := alt; r_dist := dist |}.

(** The series branch up to the forward-fill pass: the records as
    pushed, given the sorted copy of the series. *)
Definition fitSeriesRecords w (opts : WorkoutExportOpts)
  (sortedSeries : list SeriesPoint) : list FitRecord :=
  let hrAnchors := fitHrAnchors sortedSeries in
  let seriesTotalSec := seriesTotalSecOf (totalSecondsOf w) sortedSeries in
  map (fitSeriesRecord w opts hrAnchors seriesTotalSec) sortedSeries.

(** The forward-fill pass with its guard. *)
Definition fitForwardFill w (opts : WorkoutExportOpts)
  (records : list FitRecord) : list FitRecord :=
  let avgHr := mget (w_metrics w) "AvgHr" in
  let maxHr := mget (w_metrics w) "MaxHr" in
  if includeHrSeries opts && (0 <? length records)%nat
  then forwardFillHr avgHr maxHr records
  else records.

(** The body of the synthetic loop. *)
Definition fitSyntheticRecord w (opts : WorkoutExportOpts) (i : Z)
  : FitRecord :=
  let totalSeconds := totalSecondsOf w in
  let avgHr := mget (w_metrics w) "AvgHr" in
  let maxHr := mget (w_metrics w) "MaxHr" in
  let step := 5%Z in
  let t := Z.min totalSeconds (i * step) in
  {| r_tSec := t;
     r_hr := syntheticHr opts avgHr maxHr;
     r_cadence := option_map Math_round (cadenceDefault w opts);
     r_watts := wattsDefault w opts;
     r_alt := syntheticAlt (totalVerticalOf w opts) totalSeconds t;
     r_dist := syntheticDist (totalDistanceOf w opts) totalSeconds t |}.

(** The synthetic branch. *)
Definition fitSyntheticRecords w (opts : WorkoutExportOpts) : list FitRecord :=
  let n := syntheticCount (totalSecondsOf w) in
  map (fitSyntheticRecord w opts) (loop_indices n).

(** The [record] message of one element of [records]. *)
Definition recordMessage (startMs : Z) (r : FitRecord) : FitMessage :=
  Msg_record (startMs + r_tSec r * 1000)%Z (r_dist r) (r_hr r) (r_cadence r)
    (r_watts r) (r_alt r).

(** The lap and session aggregates, from the finished [records]. *)
Definition fitSummary (clk : Clock) w (opts : WorkoutExportOpts)
  (records : list FitRecord) : Summary :=
  let startMs := fitStart clk w in
  let totalSeconds := totalSecondsOf w in
  let totalDistanceM := totalDistanceOf w opts in
  let totalVerticalM := totalVerticalOf w opts in
  let calories :=
    if includeCalories opts
    then option_map (fun c => Z.max 0 (Math_round c)) (w_calories w)
    else None in
  let avgHr := mget (w_metrics w) "AvgHr" in
  let maxHr := mget (w_metrics w) "MaxHr" in
  let avgPower := mget (w_metrics w) "AvgPower" in
  let defaultCadence := cadenceDefault w opts in
  let lastTSec :=
    match last records with
    | Some r => r_tSec r
    | None => totalSeconds
    end in
  let totalTime := Z.max 1 lastTSec in
  let avgSpeed :=
    match totalDistanceM with
    | Some d => if (0 <? totalTime)%Z then Some (d / inject_Z totalTime) else None
    | None => None
    end in
  let maxSpeed := option_map (fun s => s * (108 # 100)) avgSpeed in
  let totalAscent := option_map (fun tv => Qmax 0 tv) totalVerticalM in
  let totalDescent := option_map (fun _ => 0) totalVerticalM in
  let totalWork :=
    option_map (fun p => Z.max 0 (Math_round (p * inject_Z totalTime))) avgPower in
  let endFit := (startMs + Z.max 1 lastTSec * 1000)%Z in
  {| s_timestamp := endFit;
     s_start_time := startMs;
     s_total_elapsed_time := totalTime;
     s_total_timer_time := totalTime;
     s_total_distance := default 0 totalDistanceM;
     s_total_calories := calories;
     s_total_ascent := totalAscent;
     s_total_descent := totalDescent;
     s_avg_speed := avgSpeed;
     s_max_speed := maxSpeed;
     s_avg_heart_rate := option_map Math_round avgHr;
     s_max_heart_rate := option_map Math_round maxHr;
     s_avg_power := option_map Math_round avgPower;
     s_total_work := totalWork;
     s_avg_cadence := option_map Math_round defaultCadence |}.

(** The calls of [fit.writeMessage] before the records are built. *)
Definition fitWriteHeader (clk : Clock) w (enhancedCompatibility : bool)
  : Fit unit :=
  let startFit := fitStart clk w in
  writeMessage (Msg_file_id startFit) ;;
  fit_when enhancedCompatibility
    (writeMessage Msg_file_creator ;;
     writeMessage (Msg_device_info startFit) ;;
     writeMessage (Msg_event startFit timer_start)).

(** The calls of [fit.writeMessage] once [records] is complete. *)
Definition fitWriteBody (clk : Clock) w (opts : WorkoutExportOpts)
  (enhancedCompatibility : bool) (records : list FitRecord) : Fit unit :=
  let startMs := fitStart clk w in
  let summary := fitSummary clk w opts records in
  fit_for records (fun r => writeMessage (recordMessage startMs r)) ;;
  let sport := pickFitSport w in
  let endFit := s_timestamp summary in
  writeMessage (Msg_lap summary) ;;
  writeMessage (Msg_session summary (fst sport) (snd sport)) ;;
  writeMessage (Msg_activity endFit (s_total_timer_time summary)) ;;
  fit_when enhancedCompatibility
    (writeMessage (Msg_event endFit timer_stop_all) ;;
     writeMessage (Msg_device_info endFit)).

End ActivityEncoderOn.

(** The array [records] when the record loop starts writing messages. *)
Definition fitRecords (w : Workout) (opts : WorkoutExportOpts)
  : list FitRecord :=
  if hasSeries w then
    let sortedSeries := sort_by_tSec (default [] (w_series w)) in
    fitForwardFill w opts (fitSeriesRecords w opts sortedSeries)
  else fitSyntheticRecords w opts.

Definition workoutToFIT_body (clk : Clock) (w : Workout)
  (opts : WorkoutExportOpts) (enhancedCompatibility : bool) : Fit unit :=
  fitWriteHeader clk w enhancedCompatibility ;;
  fitWriteBody clk w opts enhancedCompatibility (fitRecords w opts).

(** The messages a fresh writer holds when [fit.finish()] is called. *)
Definition workoutToFIT (clk : Clock) (w : Workout) (opts : WorkoutExportOpts)
  (enhancedCompatibility : bool) : list FitMessage :=
  snd (workoutToFIT_body clk w opts enhancedCompatibility []).

End ActivityEncoder.

(* ================================================================== *)
(** ** The encoders on an object store

    Objects that the encoders reach through references: the workout, its
    [series] array, the series points, the arrays the encoders build
    ([sortedSeries], [hrAnchors]) and the record objects pushed onto
    [records].  Scalars, the metrics map and the options are read only
    and stay values inside the workout object. *)

(** References are positions in the store. *)
Abbreviation loc := nat (only parsing).

Inductive cell : Type :=
| CWorkout (w : WorkoutOf loc)
| CArray (elems : list loc)
| CPoint (p : SeriesPoint)
| CRecord (r : FitRecord).

Abbreviation Store := (list cell) (only parsing).

(** A computation on the store; [None] is a [TypeError] (a reference
    that does not hold the kind of object the code expects). *)
Definition Heap (A : Type) : Type := Store -> option (A * Store).

Definition h_ret {A : Type} (a : A) : Heap A := fun h => Some (a, h).

Definition h_fail {A : Type} : Heap A := fun _ => None.

Definition h_bind {A B : Type} (m : Heap A) (k : A -> Heap B) : Heap B :=
  fun h =>
    match m h with
    | Some (a, h') => k a h'
    | None => None
    end.

Declare Scope heap_scope.
Notation "'run' x <- m ; k" := (h_bind m (fun x => k))
  (at level 10, x name, m at level 100, k at level 200) : heap_scope.
Notation "'exec' m ; k" := (h_bind m (fun _ => k))
  (at level 10, m at level 100, k at level 200) : heap_scope.
Local Open Scope heap_scope.

(** A new object. *)
Definition alloc (c : cell) : Heap loc :=
  fun h => Some (length h, h ++ [c]).

Definition load (l : loc) : Heap cell :=
  fun h =>
    match h !! l with
    | Some c => Some (c, h)
    | None => None
    end.

(** Overwrite the object at [l]. *)
Definition store (l : loc) (c : cell) : Heap unit :=
  fun h =>
    match h !! l with
    | Some _ => Some (tt, <[l := c]> h)
    | None => None
    end.

Definition load_workout (l : loc) : Heap (WorkoutOf loc) :=
  run c <- load l;
  match c with
  | CWorkout w => h_ret w
  | _ => h_fail
  end.

Definition load_array (l : loc) : Heap (list loc) :=
  run c <- load l;
  match c with
  | CArray els => h_ret els
  | _ => h_fail
  end.

Definition load_point (l : loc) : Heap SeriesPoint :=
  run c <- load l;
  match c with
  | CPoint p => h_ret p
  | _ => h_fail
  end.

Definition load_record (l : loc) : Heap FitRecord :=
  run c <- load l;
  match c with
  | CRecord r => h_ret r
  | _ => h_fail
  end.

Fixpoint h_mapM {A B : Type} (f : A -> Heap B) (xs : list A) : Heap (list B) :=
  match xs with
  | [] => h_ret []
  | x :: xs' =>
      run y <- f x;
      run ys <- h_mapM f xs';
      h_ret (y :: ys)
  end.

(** [[...(series ?? [])]]: a new array with the same element references. *)
Definition array_spread (series : option loc) : Heap loc :=
  match series with
  | Some arr => run els <- load_array arr; alloc (CArray els)
  | None => alloc (CArray [])
  end.

(** [arr.sort((a, b) => a.tSec - b.tSec)]: reorders [arr] in place. *)
Definition array_sort_by_tSec (arr : loc) : Heap unit :=
  run els <- load_array arr;
  run pts <- h_mapM load_point els;
  store arr
    (CArray (map fst (sort_by (fun lp => p_tSec (snd lp)) (zip els pts)))).

(** [arr.filter(p => p.hr != null)]: a new array. *)
Definition array_filter_hr (arr : loc) : Heap loc :=
  run els <- load_array arr;
  run pts <- h_mapM load_point els;
  alloc
    (CArray
       (map fst (filter (fun lp => is_some (p_hr (snd lp)) = true) (zip els pts)))).

(** The anchors [hrAt] reads through the array [hrAnchors]. *)
Definition load_anchors (arr : loc) : Heap (list HrAnchor) :=
  run els <- load_array arr;
  run pts <- h_mapM load_point els;
  h_ret (omap anchor_of_point pts).

(** [Array.isArray(w.series) && w.series.length > 0] *)
Definition h_hasSeries (w : WorkoutOf loc) : Heap bool :=
  match w_series w with
  | Some arr => run els <- load_array arr; h_ret (0 <? length els)%nat
  | None => h_ret false
  end.

(** [Math.max(totalSeconds, sortedSeries[sortedSeries.length - 1]?.tSec ?? 0)] *)
Definition h_seriesTotalSec (totalSeconds : Z) (sortedSeries : loc) : Heap Q :=
  run els <- load_array sortedSeries;
  run lastT <-
    match last els with
    | Some l => run p <- load_point l; h_ret (p_tSec p)
    | None => h_ret 0
    end;
  h_ret (Qmax (inject_Z totalSeconds) lastT).

(** The first loop of the forward-fill pass. *)
Fixpoint h_firstKnown (records : list loc) : Heap (option Z) :=
  match records with
  | [] => h_ret None
  | rl :: records' =>
      run r <- load_record rl;
      match r_hr r with
      | Some v => h_ret (Some v)
      | None => h_firstKnown records'
      end
  end.

(** The second loop: [r.hr = prev] is a write to the object [r]. *)
Fixpoint h_fillLoop (prev : Z) (records : list loc) : Heap unit :=
  match records with
  | [] => h_ret tt
  | rl :: records' =>
      run r <- load_record rl;
      match r_hr r with
      | None => exec store rl (CRecord (set_hr r prev)); h_fillLoop prev records'
      | Some v => h_fillLoop v records'
      end
  end.

Definition h_forwardFill (w : WorkoutOf loc) (opts : WorkoutExportOpts)
  (records : list loc) : Heap unit :=
  let avgHr := mget (w_metrics w) "AvgHr" in
  let maxHr := mget (w_metrics w) "MaxHr" in
  if includeHrSeries opts && (0 <? length records)%nat then
    run firstKnown <- h_firstKnown records;
    match fallbackHrOf avgHr maxHr firstKnown with
    | Some fallbackHr => h_fillLoop fallbackHr records
    | None => h_ret tt
    end
  else h_ret tt.

Section StoreEncoders.
Context `{JsBuiltins}.
Local Open Scope fit_scope.

(** [for (const p of sortedSeries) { ...; records.push({ ... }) }] *)
Fixpoint h_fitPushSeries (w : WorkoutOf loc) (opts : WorkoutExportOpts)
  (hrAnchors : loc) (seriesTotalSec : Q) (els : list loc) : Heap (list loc) :=
  match els with
  | [] => h_ret []
  | el :: els' =>
      run p <- load_point el;
      run anchors <- load_anchors hrAnchors;
      run r <- alloc (CRecord (fitSeriesRecord w opts anchors seriesTotalSec p));
      run rs <- h_fitPushSeries w opts hrAnchors seriesTotalSec els';
      h_ret (r :: rs)
  end.

(** The records of either branch, as references to fresh objects. *)
Definition h_fitRecords (w : WorkoutOf loc) (opts : WorkoutExportOpts)
  : Heap (list loc) :=
  run hasSeries <- h_hasSeries w;
  if hasSeries : bool then
    run sortedSeries <- array_spread (w_series w);
    exec array_sort_by_tSec sortedSeries;
    run hrAnchors <- array_filter_hr sortedSeries;
    exec array_sort_by_tSec hrAnchors;
    run seriesTotalSec <- h_seriesTotalSec (totalSecondsOf w) sortedSeries;
    run els <- load_array sortedSeries;
    run records <- h_fitPushSeries w opts hrAnchors seriesTotalSec els;
    exec h_forwardFill w opts records;
    h_ret records
  else
    h_mapM (fun r => alloc (CRecord r)) (fitSyntheticRecords w opts).

Definition h_workoutToFIT (clk : Clock) (wl : loc) (opts : WorkoutExportOpts)
  (enhancedCompatibility : bool) : Heap (list FitMessage) :=
  run w <- load_workout wl;
  run recs <- h_fitRecords w opts;
  run records <- h_mapM load_record recs;
  h_ret
    (snd ((fitWriteHeader clk w enhancedCompatibility ;;
           fitWriteBody clk w opts enhancedCompatibility records) [])).

Definition h_workoutToTCX (clk : Clock) (wl : loc) (opts : WorkoutExportOpts)
  : Heap string :=
  run w <- load_workout wl;
  run hasSeries <- h_hasSeries w;
  run points <-
    (if hasSeries : bool then
       run sortedSeries <- array_spread (w_series w);
       exec array_sort_by_tSec sortedSeries;
       run seriesTotalSec <- h_seriesTotalSec (totalSecondsOf w) sortedSeries;
       run els <- load_array sortedSeries;
       h_mapM
         (fun el =>
            run p <- load_point el;
            h_ret (renderTrackpoint (tcxSeriesPoint clk w opts seriesTotalSec p)))
         els
     else h_ret (map renderTrackpoint (tcxSyntheticPoints clk w opts)));
  h_ret (tcxDocument clk w opts points).

End StoreEncoders.

(** The workout value that the object at [wl] and what it refers to
    stand for. *)
Definition with_series {A B : Type} (w : WorkoutOf A) (s : option B)
  : WorkoutOf B :=
  {| w_uid := w_uid w; w_source := w_source w; w_id := w_id w;
     w_startedAtISO := w_startedAtISO w;
     w_startedAtDisplay := w_startedAtDisplay w;
     w_activityName := w_activityName w; w_durationSec := w_durationSec w;
     w_calories := w_calories w; w_distanceM := w_distanceM w;
     w_verticalM := w_verticalM w; w_cadenceSpm := w_cadenceSpm w;
     w_exportOpts := w_exportOpts w; w_metrics := w_metrics w;
     w_metricKeys := w_metricKeys w; w_series := s; w_raw := w_raw w |}.

Definition point_at (h : Store) (l : loc) : option SeriesPoint :=
  match h !! l with
  | Some (CPoint p) => Some p
  | _ => None
  end.

Definition series_at (h : Store) (series : option loc)
  : option (option (list SeriesPoint)) :=
  match series with
  | None => Some None
  | Some arr =>
      match h !! arr with
      | Some (CArray els) => option_map Some (mapM (point_at h) els)
      | _ => None
      end
  end.

Definition snapshot (h : Store) (wl : loc) : option Workout :=
  match h !! wl with
  | Some (CWorkout w) => option_map (with_series w) (series_at h (w_series w))
  | _ => None
  end.

(** Every object of [h] is still there, unchanged, in [h']. *)
Definition store_kept (h h' : Store) : Prop :=
  forall (l : loc) (c : cell), h !! l = Some c -> h' !! l = Some c.

(** The objects of kind [inj] behind a list of references. *)
Definition cells_at {A : Type} (inj : A -> cell) (h : Store) (ls : list loc)
  (xs : list A) : Prop :=
  Forall2 (fun l x => h !! l = Some (inj x)) ls xs.

(** The element references of an array of points after
    [array_sort_by_tSec], and those [array_filter_hr] keeps. *)
Definition sorted_refs (ls : list loc) (pts : list SeriesPoint) : list loc :=
  map fst (sort_by (fun lp => p_tSec (snd lp)) (zip ls pts)).

Definition hr_refs (ls : list loc) (pts : list SeriesPoint) : list loc :=
  map fst (filter (fun lp => is_some (p_hr (snd lp)) = true) (zip ls pts)).

(** The two arrays and the records the series branch of the Activity
    Encoder adds to the store. *)
Definition fit_series_extension (w : WorkoutOf loc) (opts : WorkoutExportOpts)
  (els : list loc) (pts : list SeriesPoint) : Store :=
  let spts := sort_by_tSec pts in
  let sels := sorted_refs els pts in
  let fpts := filter (fun p => is_some (p_hr p) = true) spts in
  [CArray sels; CArray (sorted_refs (hr_refs sels spts) fpts)] ++
  map CRecord (fitForwardFill w opts (fitSeriesRecords w opts spts)).

(* ================================================================== *)
(** ** Schema normalizer: outdoor batch *)

Section NormalizerOutdoor.
Context `{JsBuiltins}.

(** The value of [items] in [extractWorkoutsFromOutdoorJSON]: the input
    itself when it is an array, else the first of its [items],
    [activities] and [data] that is neither null nor undefined, else an
    empty array. *)
Definition outdoorItems (obj : unknown) : unknown :=
  let objRec := asRecord obj in
  match obj with
  | JArr _ => obj
  | _ =>
      coalesce (prop objRec "items")
        (coalesce (prop objRec "activities")
           (coalesce (prop objRec "data") (JArr [])))
  end.

(** The workout that the callback of [items.map((raw, idx) => ...)]
    returns, when it returns; the call with its exceptions is
    [outdoorWorkout_call] below. *)
Definition outdoorWorkout (idx : nat) (raw : unknown) : Workout :=
  let idxs := Number_toString (inject_Z (Z.of_nat idx)) in
  let rawRec := asRecord raw in
  let metrics := prToMap raw in
  let durationSec :=
    mget metrics "Duration" ??
    safeNumber (prop rawRec "duration") ??
    safeNumber (prop rawRec "Duration") in
  let calories :=
    mget metrics "Calories" ??
    safeNumber (prop rawRec "calories") ??
    safeNumber (prop rawRec "Calories") in
  let distanceM := pickDistanceM metrics in
  let verticalM := pickVerticalM metrics in
  let cadenceSpm := pickCadenceSpm metrics in
  let startedAt := coalesce (prop rawRec "performedDate") (prop rawRec "on") in
  let activityName :=
    coalesce (prop rawRec "activityName") (JStr "Outdoor workout") in
  let id :=
    String_of
      (coalesce (prop rawRec "id")
         (coalesce (prop rawRec "uuid")
            (JStr (String_of (coalesce startedAt (JStr "out")) +++ "-"
                   +++ idxs)))) in
  let uid :=
    "outdoor-" +++ String_of (coalesce startedAt (JStr "unknown")) +++
    "-" +++ id +++ "-" +++ idxs in
  {| w_uid := uid;
     w_source := outdoor;
     w_id := id;
     w_startedAtISO := typeof_string startedAt;
     w_startedAtDisplay :=
       match typeof_string startedAt with
       | Some s => formatDateHuman (Some s)
       | None => dash
       end;
     w_activityName := String_of activityName;
     w_durationSec := durationSec;
     w_calories := calories;
     w_distanceM := distanceM;
     w_verticalM := verticalM;
     w_cadenceSpm := cadenceSpm;
     w_metrics := metrics;
     w_metricKeys := sort_strings (map fst metrics);
     w_series := None;
     w_raw := raw;
     w_exportOpts :=
       {| includeHrSeries :=
            is_some (mget metrics "AvgHr") || is_some (mget metrics "MaxHr");
          includeCadenceSeries :=
            is_some cadenceSpm || is_some (mget metrics "AvgSpm")
            || is_some (mget metrics "Cadence");
          includePowerSeries := is_some (mget metrics "AvgPower");
          includeMetricsInNotes := false;
          includeCalories := is_some calories;
          includeDistance := is_some distanceM;
          includeVerticalAsAltitude := is_some verticalM |} |}.

(** The workouts [extractWorkoutsFromOutdoorJSON(obj)] returns, when it
    returns. *)
Definition extractWorkoutsFromOutdoorJSON (obj : unknown) : list Workout :=
  match outdoorItems obj with
  | JArr items => imap outdoorWorkout items
  | _ => []
  end.

End NormalizerOutdoor.

(* ================================================================== *)
(** ** The normalizers as calls

    [String(v)] and a template literal [`${v}`] convert [v] with
    [ToString].  On a parsed JSON value that returns for every
    primitive; for an object it goes through the object's [toString],
    which is [Object.prototype.toString] unless the object has an own
    property of that name, and an own property of a parsed object is
    never a function, so the conversion then ends in a TypeError; for an
    array it joins the conversions of the elements, [null] and
    [undefined] printing as the empty string.  Nothing else in the two
    batch normalizers can throw: [prToMap], [safeNumber],
    [formatDateHuman] and the property reads return for every value. *)

(** How a call ends: with a value, or with an exception thrown. *)
Inductive Outcome (A : Type) : Type :=
| Normal (a : A)
| Throw.

Arguments Normal {A} a.
Arguments Throw {A}.

(** The rest of a block after a call that may throw. *)
Definition Outcome_bind {A B : Type} (m : Outcome A) (k : A -> Outcome B)
  : Outcome B :=
  match m with
  | Normal a => k a
  | Throw => Throw
  end.

(** [items.map(callback)]: the callback runs on the elements in order,
    and the first exception ends the call. *)
Fixpoint Outcome_all {A : Type} (calls : list (Outcome A)) : Outcome (list A) :=
  match calls with
  | [] => Normal []
  | call :: calls' =>
      Outcome_bind call (fun a =>
      Outcome_bind (Outcome_all calls') (fun l => Normal (a :: l)))
  end.

Definition Array_map_call {A : Type} (callback : nat -> unknown -> Outcome A)
  (items : list unknown) : Outcome (list A) :=
  Outcome_all (imap callback items).

(** Whether [String(v)] returns. *)
Fixpoint String_returns (v : unknown) : bool :=
  match v with
  | JObj fields => negb (is_some (field_lookup "toString" fields))
  | JArr items => forallb String_returns items
  | _ => true
  end.

Section NormalizerCalls.
Context `{JsBuiltins}.

(** [String(v)], [`${v}`] *)
Definition String_call (v : unknown) : Outcome string :=
  if String_returns v then Normal (String_of v) else Throw.

(** The callback of [items.map((raw, idx) => ...)] in
    [extractWorkoutsFromIndoorJSON]. *)
Definition indoorWorkout_call (idx : nat) (raw : unknown) : Outcome Workout :=
  let idxs := Number_toString (inject_Z (Z.of_nat idx)) in
  let rawRec := asRecord raw in
  let metrics := prToMap raw in
  let startedAt := prop rawRec "on" in
  let durationSec := mget metrics "Duration" in
  let calories := mget metrics "Calories" in
  let distanceM := pickDistanceM metrics in
  let verticalM := pickVerticalM metrics in
  let cadenceSpm := pickCadenceSpm metrics in
  let activityName :=
    if truthy (prop rawRec "activityName") then prop rawRec "activityName"
    else JStr (if is_some verticalM then "Stair climber" else "Indoor workout") in
  Outcome_bind
    (if is_nullish (prop rawRec "id") then
       Outcome_bind (String_call (coalesce startedAt (JStr "ind"))) (fun s =>
       String_call (JStr (s +++ "-" +++ idxs)))
     else String_call (prop rawRec "id")) (fun id =>
  Outcome_bind (String_call (coalesce startedAt (JStr "unknown"))) (fun on =>
  let uid := "indoor-" +++ on +++ "-" +++ id +++ "-" +++ idxs in
  Outcome_bind (String_call activityName) (fun name =>
  Normal
    {| w_uid := uid;
       w_source := indoor;
       w_id := id;
       w_startedAtISO := typeof_string startedAt;
       w_startedAtDisplay :=
         match typeof_string startedAt with
         | Some s => formatDateHuman (Some s)
         | None => dash
         end;
       w_activityName := name;
       w_durationSec := durationSec;
       w_distanceM := distanceM;
       w_calories := calories;
       w_verticalM := verticalM;
       w_cadenceSpm := cadenceSpm;
       w_metrics := metrics;
       w_metricKeys := sort_strings (map fst metrics);
       w_series := None;
       w_raw := raw;
       w_exportOpts :=
         {| includeHrSeries :=
              is_some (mget metrics "AvgHr") || is_some (mget metrics "MaxHr");
            includeCadenceSeries :=
              is_some cadenceSpm || is_some (mget metrics "AvgSpm")
              || is_some (mget metrics "Cadence");
            includePowerSeries := is_some (mget metrics "AvgPower");
            includeMetricsInNotes := false;
            includeCalories := is_some calories;
            includeDistance := is_some distanceM;
            includeVerticalAsAltitude := is_some verticalM |} |}))).

(** [extractWorkoutsFromIndoorJSON(obj)] *)
Definition extractWorkoutsFromIndoorJSON_call (obj : unknown)
  : Outcome (list Workout) :=
  let items := match obj with JArr items => items | _ => [] end in
  Array_map_call indoorWorkout_call items.

(** The callback of [items.map((raw, idx) => ...)] in
    [extractWorkoutsFromOutdoorJSON]. *)
Definition outdoorWorkout_call (idx : nat) (raw : unknown) : Outcome Workout :=
  let idxs := Number_toString (inject_Z (Z.of_nat idx)) in
  let rawRec := asRecord raw in
  let metrics := prToMap raw in
  let durationSec :=
    mget metrics "Duration" ??
    safeNumber (prop rawRec "duration") ??
    safeNumber (prop rawRec "Duration") in
  let calories :=
    mget metrics "Calories" ??
    safeNumber (prop rawRec "calories") ??
    safeNumber (prop rawRec "Calories") in
  let distanceM := pickDistanceM metrics in
  let verticalM := pickVerticalM metrics in
  let cadenceSpm := pickCadenceSpm metrics in
  let startedAt := coalesce (prop rawRec "performedDate") (prop rawRec "on") in
  let activityName :=
    coalesce (prop rawRec "activityName") (JStr "Outdoor workout") in
  Outcome_bind
    (if is_nullish (prop rawRec "id") then
       if is_nullish (prop rawRec "uuid") then
         Outcome_bind (String_call (coalesce startedAt (JStr "out"))) (fun s =>
         String_call (JStr (s +++ "-" +++ idxs)))
       else String_call (prop rawRec "uuid")
     else String_call (prop rawRec "id")) (fun id =>
  Outcome_bind (String_call (coalesce startedAt (JStr "unknown"))) (fun on =>
  let uid := "outdoor-" +++ on +++ "-" +++ id +++ "-" +++ idxs in
  Outcome_bind (String_call activityName) (fun name =>
  Normal
    {| w_uid := uid;
       w_source := outdoor;
       w_id := id;
       w_startedAtISO := typeof_string startedAt;
       w_startedAtDisplay :=
         match typeof_string startedAt with
         | Some s => formatDateHuman (Some s)
         | None => dash
         end;
       w_activityName := name;
       w_durationSec := durationSec;
       w_calories := calories;
       w_distanceM := distanceM;
       w_verticalM := verticalM;
       w_cadenceSpm := cadenceSpm;
       w_metrics := metrics;
       w_metricKeys := sort_strings (map fst metrics);
       w_series := None;
       w_raw := raw;
       w_exportOpts :=
         {| includeHrSeries :=
              is_some (mget metrics "AvgHr") || is_some (mget metrics "MaxHr");
            includeCadenceSeries :=
              is_some cadenceSpm || is_some (mget metrics "AvgSpm")
              || is_some (mget metrics "Cadence");
            includePowerSeries := is_some (mget metrics "AvgPower");
            includeMetricsInNotes := false;
            includeCalories := is_some calories;
            includeDistance := is_some distanceM;
            includeVerticalAsAltitude := is_some verticalM |} |}))).

(** [extractWorkoutsFromOutdoorJSON(obj)] *)
Definition extractWorkoutsFromOutdoorJSON_call (obj : unknown)
  : Outcome (list Workout) :=
  match outdoorItems obj with
  | JArr items => Array_map_call outdoorWorkout_call items
  | _ => Normal []
  end.

End NormalizerCalls.

(* ================================================================== *)
(** ** Single-page reconstructor *)

(** Built-ins the reconstructor and the importers use besides those
    above. *)
Class JsRuntime : Type := {
  (** [s.trim()] *)
  String_trim : string -> string;
  (** [dt.setHours(hh, mm, ss, 0)] on a valid date, in the local time
      zone: from and to epoch milliseconds, for a result inside the range
      of [Date]. *)
  Date_setHours : Z -> Z -> Z -> Z -> Z;
  (** [JSON.parse(text)]; [None] when it throws. *)
  JSON_parse : string -> option unknown
}.

(** [Array.isArray(v) ? v : []] *)
Definition asArray (v : unknown) : list unknown :=
  match v with
  | JArr items => items
  | _ => []
  end.

(** [s.split(":")] and the like, for a one-character separator. *)
Fixpoint split_on (sep : ascii) (s : string) : list string :=
  match s with
  | EmptyString => [EmptyString]
  | String c s' =>
      if Ascii.eqb c sep then EmptyString :: split_on sep s'
      else match split_on sep s' with
           | part :: parts => String c part :: parts
           | [] => [String c EmptyString]
           end
  end.

(** [\d]: an ASCII digit. *)
Definition is_digit (c : ascii) : bool :=
  (48 <=? nat_of_ascii c)%nat && (nat_of_ascii c <=? 57)%nat.

Fixpoint all_digits (s : string) : bool :=
  match s with
  | EmptyString => true
  | String c s' => is_digit c && all_digits s'
  end.

(** [Number(s)] for a string of ASCII digits: its decimal value. *)
Fixpoint digits_value_from (acc : Z) (s : string) : Z :=
  match s with
  | EmptyString => acc
  | String c s' =>
      digits_value_from (acc * 10 + (Z.of_nat (nat_of_ascii c) - 48)) s'
  end.

Definition digits_value (s : string) : Z := digits_value_from 0 s.

(** [\d{lo,hi}] against a whole group. *)
Definition digit_group (lo hi : nat) (s : string) : bool :=
  all_digits s && (lo <=? String.length s)%nat && (String.length s <=? hi)%nat.

(** [s.match(/^(\d{1,2}):(\d{2})(?::(\d{2}))?$/)]: the three groups. *)
Definition matchClock (s : string) : option (string * string * option string) :=
  match split_on ":" s with
  | [h; m] =>
      if digit_group 1 2 h && digit_group 2 2 m then Some (h, m, None)
      else None
  | [h; m; sec] =>
      if digit_group 1 2 h && digit_group 2 2 m && digit_group 2 2 sec
      then Some (h, m, Some sec)
      else None
  | _ => None
  end.

(** A [Map<number, V>]: [set] and [get]. *)
Fixpoint qmap_set {V : Type} (m : list (Q * V)) (k : Q) (v : V) : list (Q * V) :=
  match m with
  | [] => [(k, v)]
  | (k', v') :: m' =>
      if Qeq_bool k k' then (k', v) :: m' else (k', v') :: qmap_set m' k v
  end.

Fixpoint qmap_get {V : Type} (m : list (Q * V)) (k : Q) : option V :=
  match m with
  | [] => None
  | (k', v) :: m' => if Qeq_bool k k' then Some v else qmap_get m' k
  end.

(** [Math.max(...values)] for a list that is not empty. *)
Definition Math_max (v : Q) (vs : list Q) : Q := fold_left Qmax vs v.

(** [if (o != null) metrics[k] = o] *)
Definition mset_opt (m : Metrics) (k : string) (o : option Q) : Metrics :=
  match o with
  | Some v => mset m k v
  | None => m
  end.

(** The variables the loop over [summaryData] assigns. *)
Record SummaryScan : Type := {
  sm_durationSec : option Q;
  sm_move : option Q;
  sm_distanceM : option Q;
  sm_verticalM : option Q;
  sm_calories : option Q
}.

Section SinglePage.
Context `{JsBuiltins} `{JsRuntime}.

Definition asNumberArray (v : unknown) : list Q :=
  match v with
  | JArr items => omap safeNumber items
  | _ => []
  end.

Definition average (values : list Q) : option Q :=
  match values with
  | [] => None
  | _ :: _ =>
      Some (fold_left Qplus values 0 / inject_Z (Z.of_nat (length values)))
  end.

Definition parseDurationString (s : string) : option Q :=
  let trimmed := String_trim s in
  let parts := split_on ":" trimmed in
  match parts with
  | [p0; p1] =>
      match Number_ofString p0, Number_ofString p1 with
      | Some m, Some sec => Some (m * 60 + sec)
      | _, _ => None
      end
  | [p0; p1; p2] =>
      match Number_ofString p0, Number_ofString p1, Number_ofString p2 with
      | Some h, Some m, Some sec => Some (h * 3600 + m * 60 + sec)
      | _, _, _ => None
      end
  | _ => None
  end.

(** [unitRaw] as its callers pass it: a string, or [undefined]. *)
Definition toMetersFromUnit (value : Q) (unitRaw : option string) : Q :=
  let unit :=
    match unitRaw with
    | Some u => String_toLowerCase (String_trim u)
    | None => ""
    end in
  if String.eqb unit "" then value
  else if existsb (String.eqb unit) ["m"; "meter"; "meters"; "metre"; "metres"]
  then value
  else if existsb (String.eqb unit) ["km"; "kilometer"; "kilometers"]
  then value * 1000
  else if existsb (String.eqb unit) ["mi"; "mile"; "miles"; "mls"]
  then value * (1609344 # 1000)
  else if existsb (String.eqb unit) ["ft"; "foot"; "feet"]
  then value * (3048 # 10000)
  else value.

(** One turn of [for (const d of descriptors)]: the two maps
    [descriptorByIndex] and [descriptorUnitByIndex]. *)
Definition descriptor_step (maps : list (Q * string) * list (Q * string))
  (d : unknown) : list (Q * string) * list (Q * string) :=
  let rec := asRecord d in
  let i := safeNumber (prop rec "i") in
  let pr := asRecord (prop rec "pr") in
  let name := typeof_string (prop pr "name") in
  let unit := typeof_string (prop pr "um") in
  (match i, truthy_string name with
   | Some i, Some name => qmap_set (fst maps) i name
   | _, _ => fst maps
   end,
   match i, truthy_string unit with
   | Some i, Some unit => qmap_set (snd maps) i unit
   | _, _ => snd maps
   end).

Definition descriptorMaps (descriptors : list unknown)
  : list (Q * string) * list (Q * string) :=
  fold_left descriptor_step descriptors ([], []).

(** One turn of [for (let idx = 0; idx < vs.length; idx++)]: the point
    under construction and [sampleDistanceM]. *)
Definition sample_value_step (maps : list (Q * string) * list (Q * string))
  (st : SeriesPoint * option Q) (idx : nat) (value : Q)
  : SeriesPoint * option Q :=
  let key :=
    option_map String_toLowerCase
      (qmap_get (fst maps) (inject_Z (Z.of_nat idx))) in
  let unit := qmap_get (snd maps) (inject_Z (Z.of_nat idx)) in
  match truthy_string key with
  | None => st
  | Some key =>
      let point := fst st in
      let point :=
        if String.eqb key "power" || String.eqb key "runningpower"
        then {| p_tSec := p_tSec point; p_hr := p_hr point;
                p_watts := Some value; p_cadence := p_cadence point;
                p_verticalM := p_verticalM point |}
        else point in
      let point :=
        if String.eqb key "spm" || String.eqb key "rpm"
           || String.eqb key "cadence" || String.eqb key "runningcadence"
        then {| p_tSec := p_tSec point; p_hr := p_hr point;
                p_watts := p_watts point; p_cadence := Some value;
                p_verticalM := p_verticalM point |}
        else point in
      let point :=
        if String.eqb key "floors" || String.eqb key "elevation"
        then {| p_tSec := p_tSec point; p_hr := p_hr point;
                p_watts := p_watts point; p_cadence := p_cadence point;
                p_verticalM := Some (toMetersFromUnit value unit) |}
        else point in
      let sampleDistanceM :=
        if String.eqb key "hdistance" || String.eqb key "distance"
        then
          let distM := toMetersFromUnit value unit in
          match snd st with
          | None => Some distM
          | Some d => Some (Qmax d distM)
          end
        else snd st in
      (point, sampleDistanceM)
  end.

Fixpoint sample_values (maps : list (Q * string) * list (Q * string))
  (idx : nat) (vs : list Q) (st : SeriesPoint * option Q)
  : SeriesPoint * option Q :=
  match vs with
  | [] => st
  | value :: vs' =>
      sample_values maps (S idx) vs' (sample_value_step maps st idx value)
  end.

(** One turn of [for (const s of samples)]: [series] and
    [sampleDistanceM]. *)
Definition sample_step (hrAnchors : list HrAnchor)
  (maps : list (Q * string) * list (Q * string))
  (st : list SeriesPoint * option Q) (s : unknown)
  : list SeriesPoint * option Q :=
  let rec := asRecord s in
  let t := safeNumber (prop rec "t") in
  let vs := asNumberArray (prop rec "vs") in
  match t with
  | None => st
  | Some t =>
      let point :=
        {| p_tSec := inject_Z (Z.max 0 (Math_round t)); p_hr := None;
           p_watts := None; p_cadence := None; p_verticalM := None |} in
      let filled := sample_values maps 0 vs (point, snd st) in
      let point := fst filled in
      let point :=
        match hrAt hrAnchors (p_tSec point) with
        | Some hr =>
            {| p_tSec := p_tSec point;
               p_hr := Some (inject_Z (Math_round hr));
               p_watts := p_watts point; p_cadence := p_cadence point;
               p_verticalM := p_verticalM point |}
        | None => point
        end in
      (fst st ++ [point], snd filled)
  end.

(** [series] after [series.sort(...)], and [sampleDistanceM]. *)
Definition reconstructSeries (descriptors samples hrSamples : list unknown)
  : list SeriesPoint * option Q :=
  let maps := descriptorMaps descriptors in
  let hrAnchors := reconstructHrAnchors hrSamples in
  let pushed := fold_left (sample_step hrAnchors maps) samples ([], None) in
  (sort_by_tSec (fst pushed), snd pushed).

(** One turn of [for (const item of summaryData)]. *)
Definition summary_step (st : SummaryScan) (item : unknown) : SummaryScan :=
  let rec := asRecord item in
  let property :=
    match typeof_string (prop rec "property") with
    | Some s => String_toLowerCase s
    | None => ""
    end in
  let name :=
    match typeof_string (prop rec "name") with
    | Some s => String_toLowerCase s
    | None => ""
    end in
  let unit := default "" (typeof_string (prop rec "uM")) in
  let rawValue := safeNumber (prop rec "rawValue") in
  {| sm_durationSec :=
       if includes property "duration" || includes name "duration" then
         let fromRawMin := rawValue in
         let fromText :=
           match typeof_string (prop rec "value") with
           | Some s => parseDurationString s
           | None => None
           end in
         fromText ??
         (match fromRawMin with
          | Some r => Some (inject_Z (Math_round (r * 60)))
          | None => sm_durationSec st
          end)
       else sm_durationSec st;
     sm_move :=
       if includes property "move" || includes name "move" then rawValue
       else sm_move st;
     sm_distanceM :=
       if includes property "distance" || includes property "hdistance"
          || includes name "distance"
       then match rawValue with
            | Some r => Some (toMetersFromUnit r (Some unit))
            | None => sm_distanceM st
            end
       else sm_distanceM st;
     sm_verticalM :=
       if includes property "elevation" || includes property "floors"
          || includes name "elevation"
       then match rawValue with
            | Some r => Some (toMetersFromUnit r (Some unit))
            | None => sm_verticalM st
            end
       else sm_verticalM st;
     sm_calories :=
       if includes property "calories" || includes name "calories"
       then rawValue
       else sm_calories st |}.

(** The summary variables after the loop; [durationSec] starts from the
    last offset of the sorted series. *)
Definition reconstructSummary (series : list SeriesPoint)
  (summaryData : list unknown) : SummaryScan :=
  fold_left summary_step summaryData
    {| sm_durationSec := option_map p_tSec (last series);
       sm_move := None; sm_distanceM := None; sm_verticalM := None;
       sm_calories := None |}.

(** [metrics] *)
Definition reconstructMetrics (series : list SeriesPoint)
  (sampleDistanceM : option Q) (sm : SummaryScan) : Metrics :=
  let hrValues := omap p_hr series in
  let powerValues := omap p_watts series in
  let cadenceValues := omap p_cadence series in
  let verticalValues := omap p_verticalM series in
  let metrics : Metrics := [] in
  let metrics := mset_opt metrics "Duration" (sm_durationSec sm) in
  let metrics := mset_opt metrics "Move" (sm_move sm) in
  let metrics :=
    match hrValues with
    | v :: vs =>
        mset (mset_opt metrics "AvgHr" (average hrValues)) "MaxHr"
          (Math_max v vs)
    | [] => metrics
    end in
  let metrics :=
    match powerValues with
    | _ :: _ => mset_opt metrics "AvgPower" (average powerValues)
    | [] => metrics
    end in
  let metrics :=
    match cadenceValues with
    | _ :: _ => mset_opt metrics "AvgSpm" (average cadenceValues)
    | [] => metrics
    end in
  let metrics :=
    match verticalValues with
    | v :: vs => mset metrics "Floors" (Math_max v vs)
    | [] => metrics
    end in
  let distanceM := sampleDistanceM ?? sm_distanceM sm in
  let metrics := mset_opt metrics "HDistance" distanceM in
  match sm_verticalM sm, mget metrics "Floors" with
  | Some summaryVerticalM, None => mset metrics "Floors" summaryVerticalM
  | _, _ => metrics
  end.

(** [startedAtISO], with the preferred start time applied. *)
Definition singlePageStart (core : JsObject) (preferredStartTime : option string)
  : Outcome (option string) :=
  let dateStr := typeof_string (prop (Some core) "date") in
  let startedAtISO :=
    match truthy_string dateStr with
    | Some s =>
        match Date_parse s with
        | Some ms => Some (Date_toISOString ms)
        | None => None
        end
    | None => None
    end in
  match truthy_string startedAtISO, truthy_string preferredStartTime with
  | Some iso, Some preferred =>
      match matchClock preferred with
      | Some (h, m, sec) =>
          let hh := digits_value h in
          let mm := digits_value m in
          let ss := digits_value (default "0" sec) in
          if (0 <=? hh)%Z && (hh <? 24)%Z && (0 <=? mm)%Z && (mm <? 60)%Z
             && (0 <=? ss)%Z && (ss <? 60)%Z
          then
            match Date_parse iso with
            | Some ms =>
                Normal (Some (Date_toISOString (Date_setHours ms hh mm ss)))
            | None => Throw
            end
          else Normal startedAtISO
      | None => Normal startedAtISO
      end
  | _, _ => Normal startedAtISO
  end.

(** The workout that is returned, given [core] and [startedAtISO].  In
    the source the start is computed between the metrics and the record;
    nothing around it has an effect, so it is taken as an argument. *)
Definition singlePageWorkout (clk : Clock) (core : JsObject)
  (startedAtISO : option string) : Workout :=
  let analytics := asRecord (prop (Some core) "analitics") in
  let descriptors := asArray (prop analytics "descriptor") in
  let samples := asArray (prop analytics "samples") in
  let hrSamples := asArray (prop analytics "hr") in
  let summaryData := asArray (prop (Some core) "data") in
  let reconstructed := reconstructSeries descriptors samples hrSamples in
  let series := fst reconstructed in
  let sampleDistanceM := snd reconstructed in
  let sm := reconstructSummary series summaryData in
  let durationSec := sm_durationSec sm in
  let calories := sm_calories sm in
  let hrValues := omap p_hr series in
  let powerValues := omap p_watts series in
  let cadenceValues := omap p_cadence series in
  let verticalValues := omap p_verticalM series in
  let metrics := reconstructMetrics series sampleDistanceM sm in
  let activityName :=
    match typeof_string (prop (Some core) "physicalActivityName") with
    | Some s => s
    | None =>
        match typeof_string (prop (Some core) "name") with
        | Some s => s
        | None =>
            match typeof_string (prop (Some core) "equipmentType") with
            | Some s => s
            | None => "MyWellness workout"
            end
        end
    end in
  let id :=
    match typeof_string (prop (Some core) "cardioLogId") with
    | Some s => s
    | None =>
        match typeof_string (prop (Some core) "physicalActivityId") with
        | Some s => s
        | None => "json-" +++ Number_toString (inject_Z (clk 0%nat))
        end
    end in
  let verticalM :=
    match verticalValues with
    | v :: vs => Some (Math_max v vs)
    | [] => sm_verticalM sm
    end in
  let cadenceSpm := average cadenceValues in
  let hasDistance := is_some (pickDistanceM metrics) in
  {| w_uid := "json-" +++ id;
     w_source := indoor;
     w_id := id;
     w_startedAtISO := startedAtISO;
     w_startedAtDisplay :=
       match truthy_string startedAtISO with
       | Some s => formatDateHuman (Some s)
       | None => dash
       end;
     w_activityName := activityName;
     w_durationSec := durationSec;
     w_calories := calories;
     w_distanceM := pickDistanceM metrics;
     w_verticalM := verticalM;
     w_cadenceSpm := cadenceSpm;
     w_metrics := metrics;
     w_metricKeys := sort_strings (map fst metrics);
     w_raw := JObj core;
     w_series := Some series;
     w_exportOpts :=
       {| includeHrSeries := (0 <? length hrValues)%nat;
          includeCadenceSeries := (0 <? length cadenceValues)%nat;
          includePowerSeries := (0 <? length powerValues)%nat;
          includeMetricsInNotes := false;
          includeCalories := is_some calories;
          includeDistance := hasDistance;
          includeVerticalAsAltitude := is_some verticalM |} |}.

Definition extractWorkoutFromSinglePageJSON (clk : Clock) (obj : unknown)
  (preferredStartTime : option string) : Outcome (option Workout) :=
  let root := asRecord obj in
  let core := asRecord (prop root "data") ?? root in
  match core with
  | None => Normal None
  | Some core =>
      match singlePageStart core preferredStartTime with
      | Throw => Throw
      | Normal startedAtISO =>
          Normal (Some (singlePageWorkout clk core startedAtISO))
      end
  end.

End SinglePage.

(* ================================================================== *)
(** ** Changing the export options of a workout *)

(** [Partial<WorkoutExportOpts>]: [None] for an option the patch does
    not mention. *)
Record OptsPatch : Type := {
  patch_includeHrSeries : option bool;
  patch_includeCadenceSeries : option bool;
  patch_includePowerSeries : option bool;
  patch_includeMetricsInNotes : option bool;
  patch_includeCalories : option bool;
  patch_includeDistance : option bool;
  patch_includeVerticalAsAltitude : option bool
}.

(** [{ ...opts, ...patch }] *)
Definition spread_opts (opts : WorkoutExportOpts) (patch : OptsPatch)
  : WorkoutExportOpts :=
  {| includeHrSeries :=
       default (includeHrSeries opts) (patch_includeHrSeries patch);
     includeCadenceSeries :=
       default (includeCadenceSeries opts) (patch_includeCadenceSeries patch);
     includePowerSeries :=
       default (includePowerSeries opts) (patch_includePowerSeries patch);
     includeMetricsInNotes :=
       default (includeMetricsInNotes opts) (patch_includeMetricsInNotes patch);
     includeCalories :=
       default (includeCalories opts) (patch_includeCalories patch);
     includeDistance :=
       default (includeDistance opts) (patch_includeDistance patch);
     includeVerticalAsAltitude :=
       default (includeVerticalAsAltitude opts)
         (patch_includeVerticalAsAltitude patch) |}.

(** [{ ...x, exportOpts: opts }] *)
Definition with_exportOpts (x : Workout) (opts : WorkoutExportOpts) : Workout :=
  {| w_uid := w_uid x; w_source := w_source x; w_id := w_id x;
     w_startedAtISO := w_startedAtISO x;
     w_startedAtDisplay := w_startedAtDisplay x;
     w_activityName := w_activityName x; w_durationSec := w_durationSec x;
     w_calories := w_calories x; w_distanceM := w_distanceM x;
     w_verticalM := w_verticalM x; w_cadenceSpm := w_cadenceSpm x;
     w_exportOpts := opts; w_metrics := w_metrics x;
     w_metricKeys := w_metricKeys x; w_series := w_series x;
     w_raw := w_raw x |}.

(** The state update of [updateWorkoutOpts(w, patch)]: from the previous
    list of workouts to the next. *)
Definition updateWorkoutOpts (w : Workout) (patch : OptsPatch)
  (prev : list Workout) : list Workout :=
  map (fun x =>
         if String.eqb (w_uid x) (w_uid w)
         then with_exportOpts x (spread_opts (w_exportOpts x) patch)
         else x)
      prev.

(* ================================================================== *)
(** ** ZIP import

    [onZipSelected] from the point where the archive is open: [entries]
    are the names of [zip.files], in the order of [Object.keys], each
    with what unpacking it as a string gives: its text, or an
    exception. *)

(** What the handler leaves in the state: one of its error messages,
    or the workouts.  [ReadFailed] is the message of the handler's
    [catch], "Failed to read ZIP". *)
Inductive ImportResult : Type :=
| NoActivityFile
| NoWorkouts
| ReadFailed
| Imported (workouts : list Workout).

(** [s.endsWith(suffix)] *)
Fixpoint ends_with (s suffix : string) : bool :=
  String.eqb s suffix ||
  match s with
  | EmptyString => false
  | String _ s' => ends_with s' suffix
  end.

Section ZipImport.
Context `{JsBuiltins} `{JsRuntime}.

(** [lower.split("/").pop() ?? lower] *)
Definition zip_basename (name : string) : string :=
  let lower := String_toLowerCase name in
  default lower (last (split_on "/" lower)).

(** The callback of [fileEntries.filter(...)]. *)
Definition is_activity_file (name : string) : bool :=
  let basename := zip_basename name in
  String.prefix "indooractivities-" basename && ends_with basename ".json".

(** One turn of [for (const name of targetNames)]: the array [all]
    after it, unless the turn throws.  A text that does not parse is
    skipped by the inner [catch]; nothing catches an exception of the
    unpacking or of the normalizer before the handler's own [catch]. *)
Definition zip_step (all : list Workout) (entry : string * Outcome string)
  : Outcome (list Workout) :=
  let basename := zip_basename (fst entry) in
  Outcome_bind (snd entry) (fun text =>
  match JSON_parse text with
  | None => Normal all
  | Some obj =>
      if String.prefix "indooractivities-" basename
      then Outcome_bind (extractWorkoutsFromIndoorJSON_call obj) (fun ws =>
           Normal (all ++ ws))
      else Normal all
  end).

(** The loop over [targetNames]. *)
Fixpoint zip_loop (all : list Workout) (targets : list (string * Outcome string))
  : Outcome (list Workout) :=
  match targets with
  | [] => Normal all
  | entry :: targets' =>
      Outcome_bind (zip_step all entry) (fun all' => zip_loop all' targets')
  end.

Definition zipWorkouts (entries : list (string * Outcome string))
  : ImportResult :=
  let targets :=
    filter (fun entry => is_activity_file (fst entry) = true) entries in
  if (length targets =? 0)%nat then NoActivityFile
  else
    match zip_loop [] targets with
    | Throw => ReadFailed
    | Normal all =>
        if (length all =? 0)%nat then NoWorkouts else Imported all
    end.

End ZipImport.

(* ================================================================== *)
(** ** Specification-side definitions *)

(** In the spec's words: a fallback chain yields the value of the first
    key that is present, converted to the chain's unit. *)
Fixpoint spec_first_present (chain : list (string * (Q -> Q))) (m : Metrics)
  : option Q :=
  match chain with
  | [] => None
  | (k, conv) :: chain' =>
      match mget m k with
      | Some v => Some (conv v)
      | None => spec_first_present chain' m
      end
  end.

Definition spec_distance_chain : list (string * (Q -> Q)) :=
  [("HDistance", fun v => v); ("Distance", fun v => v);
   ("DistanceMeters", fun v => v); ("Km", fun km => km * 1000)].

Definition spec_vertical_chain : list (string * (Q -> Q)) :=
  [("Elevation", fun v => v); ("Floors", fun v => v)].

Definition spec_cadence_chain : list (string * (Q -> Q)) :=
  [("AvgSpm", fun v => v); ("Cadence", fun v => v)].

(** In the spec's words: the most recently seen HR value before a
    record, [seed] when none has been seen. *)
Definition spec_most_recent_hr (seed : Z) (before : list FitRecord) : Z :=
  fold_left (fun prev r => default prev (r_hr r)) before seed.

(** The record the forward-fill pass leaves at a position: the record
    itself when it has an HR, else the record with the most recently
    seen value. *)
Definition filled_record (seed : Z) (before : list FitRecord) (r : FitRecord)
  : FitRecord :=
  match r_hr r with
  | Some _ => r
  | None => set_hr r (spec_most_recent_hr seed before)
  end.

(** Two records that differ at most in [hr]. *)
Definition same_but_hr (r r' : FitRecord) : Prop :=
  r_tSec r' = r_tSec r /\ r_dist r' = r_dist r /\ r_alt r' = r_alt r /\
  r_cadence r' = r_cadence r /\ r_watts r' = r_watts r.

(** In the spec's words: the linear interpolation between anchors [a]
    and [b] at time [t]. *)
Definition spec_interpolate (a b : HrAnchor) (t : Q) : Q :=
  a_hr a + (a_hr b - a_hr a) * (t - a_tSec a) / (a_tSec b - a_tSec a).

(** A list in non-decreasing order of a numeric key. *)
Definition ascending_by {A : Type} (key : A -> Q) (l : list A) : Prop :=
  StronglySorted (fun x y => key x <= key y) l.

(** Anchors in ascending order of [tSec], and with distinct timestamps. *)
Definition anchors_ascending (l : list HrAnchor) : Prop :=
  ascending_by a_tSec l.

Definition anchors_strictly_ascending (l : list HrAnchor) : Prop :=
  StronglySorted (fun a b => a_tSec a < a_tSec b) l.

(** [a] and [b] are adjacent in [l]. *)
Definition adjacent {A : Type} (a b : A) (l : list A) : Prop :=
  exists pre post, l = pre ++ a :: b :: post.

(** Points in non-decreasing order of [tSec]. *)
Definition series_ascending (l : list SeriesPoint) : Prop :=
  ascending_by p_tSec l.

(** The offset an encoder emits for a series point. *)
Definition emitted_offset (p : SeriesPoint) : Z :=
  Z.max 0 (Math_round (p_tSec p)).

(* ================================================================== *)
(** ** A stand-in runtime and sample data for the examples *)

Definition sample_iso : string := "2024-03-01T10:00:00.000Z".

Definition sample_builtins : JsBuiltins :=
  {| Date_parse := fun s =>
       if String.eqb s sample_iso then Some 1709287200000%Z else None;
     Date_toISOString := fun ms =>
       if (ms =? 1709287200000)%Z then sample_iso else "other instant";
     Date_toLocaleString := fun _ => "3/1/2024, 10:00:00 AM";
     Number_ofString := fun s =>
       if String.eqb s "12" then Some 12
       else if String.eqb s "7.5" then Some (15 # 2) else None;
     Number_toString := fun q =>
       if Qeq_bool q 0 then "0" else if Qeq_bool q 1 then "1" else "n";
     Number_toFixed1 := fun q => if Qeq_bool q 0 then "0.0" else "n.n";
     String_of := fun v =>
       match v with
       | JStr s => s
       | JUndefined => "undefined"
       | JNull => "null"
       | _ => "value"
       end;
     String_toLowerCase := fun s => s |}.

Definition sample_opts : WorkoutExportOpts :=
  {| includeHrSeries := true; includeCadenceSeries := true;
     includePowerSeries := true; includeMetricsInNotes := false;
     includeCalories := true; includeDistance := true;
     includeVerticalAsAltitude := true |}.

Definition sample_point (t : Q) (hr : option Q) : SeriesPoint :=
  {| p_tSec := t; p_hr := hr; p_watts := None; p_cadence := None;
     p_verticalM := None |}.

Definition sample_workout {Ser : Type} (start : option string)
  (duration : option Q) (series : option Ser) : WorkoutOf Ser :=
  {| w_uid := "indoor-x-1-0"; w_source := indoor; w_id := "1";
     w_startedAtISO := start; w_startedAtDisplay := "";
     w_activityName := "Indoor workout"; w_durationSec := duration;
     w_calories := None; w_distanceM := Some 1000; w_verticalM := None;
     w_cadenceSpm := None; w_exportOpts := sample_opts;
     w_metrics := [("AvgHr", 130)]; w_metricKeys := ["AvgHr"];
     w_series := series; w_raw := JNull |}.

Definition sample_record (t : Z) (hr : option Z) : FitRecord :=
  {| r_tSec := t; r_hr := hr; r_cadence := None; r_watts := None;
     r_alt := None; r_dist := 0 |}.

Definition sample_anchor (t hr : Q) : HrAnchor :=
  {| a_tSec := t; a_hr := hr |}.

Definition sample_clock (base : Z) : Clock := fun k => (base + Z.of_nat k)%Z.

(** A store holding a workout whose series is given in the order 10, 0. *)
Definition sample_store : Store :=
  [CWorkout (sample_workout (Some sample_iso) (Some 10) (Some 1%nat));
   CArray [2%nat; 3%nat];
   CPoint (sample_point 10 None);
   CPoint (sample_point 0 (Some 120))].

Definition sample_store_workout : Workout :=
  sample_workout (Some sample_iso) (Some 10)
    (Some [sample_point 10 None; sample_point 0 (Some 120)]).


(* ================================================================== *)
(** ** Further specification-side definitions *)

(** A series point whose offset is a non-negative integer, as the data
    model has it and as the reconstructor produces them. *)
Definition integer_offset (p : SeriesPoint) : Prop :=
  exists k : Z, (0 <= k)%Z /\ p_tSec p == inject_Z k.

(** What a trackpoint and a record of the same sample have in common. *)
Definition same_sample (tp : Trackpoint) (r : FitRecord) : Prop :=
  tp_t tp = r_tSec r /\ tp_dist tp = r_dist r /\ tp_alt tp = r_alt r /\
  tp_cadence tp = r_cadence r /\ tp_watts tp = r_watts r.

(** The timestamp a FIT message carries ([time_created] for the file
    identification); the file creator has none. *)
Definition message_timestamp (m : FitMessage) : option Z :=
  match m with
  | Msg_file_id t => Some t
  | Msg_file_creator => None
  | Msg_device_info t => Some t
  | Msg_event t _ => Some t
  | Msg_record t _ _ _ _ _ => Some t
  | Msg_lap s => Some (s_timestamp s)
  | Msg_session s _ _ => Some (s_timestamp s)
  | Msg_activity t _ => Some t
  end.

(** A stand-in for the further built-ins: no surrounding blanks to trim,
    and a local time zone that is UTC on the sample day. *)
Definition sample_runtime : JsRuntime :=
  {| String_trim := fun s => s;
     Date_setHours := fun ms hh mm ss =>
       (ms - ms mod 86400000 + hh * 3600000 + mm * 60000 + ss * 1000)%Z;
     JSON_parse := fun text =>
       if String.eqb text "[null]" then Some (JArr [JNull])
       else if String.eqb text "[]" then Some (JArr [])
       else None |}.

(** The time of a sample, when it has a usable one, and the offset the
    reconstructor gives it. *)
Definition sample_time `{JsBuiltins} (s : unknown) : option Q :=
  safeNumber (prop (asRecord s) "t").

Definition reconstructed_offset (t : Q) : Q :=
  inject_Z (Z.max 0 (Math_round t)).

(** The HR the reconstructor gives a point at offset [tSec]. *)
Definition reconstructed_hr (hrAnchors : list HrAnchor) (tSec : Q) : option Q :=
  option_map (fun hr => inject_Z (Math_round hr)) (hrAt hrAnchors tSec).

(** The lower-cased [property] and [name] of a summary item, its unit
    and its raw value, as the loop over [summaryData] reads them. *)
Definition summary_property `{JsBuiltins} (item : unknown) : string :=
  match typeof_string (prop (asRecord item) "property") with
  | Some s => String_toLowerCase s
  | None => ""
  end.

Definition summary_name `{JsBuiltins} (item : unknown) : string :=
  match typeof_string (prop (asRecord item) "name") with
  | Some s => String_toLowerCase s
  | None => ""
  end.

Definition summary_unit (item : unknown) : string :=
  default "" (typeof_string (prop (asRecord item) "uM")).

Definition summary_rawValue `{JsBuiltins} (item : unknown) : option Q :=
  safeNumber (prop (asRecord item) "rawValue").

(** An item about the calories, and one about the distance. *)
Definition about_calories `{JsBuiltins} (item : unknown) : bool :=
  includes (summary_property item) "calories"
  || includes (summary_name item) "calories".

Definition about_distance `{JsBuiltins} (item : unknown) : bool :=
  includes (summary_property item) "distance"
  || includes (summary_property item) "hdistance"
  || includes (summary_name item) "distance".

(** The metric names of a workout, listed once each in the order of
    [keys.sort()]. *)
Definition metric_names_listed (w : Workout) : Prop :=
  Sorted (fun a b => String.leb a b = true) (w_metricKeys w) /\
  Permutation (map fst (w_metrics w)) (w_metricKeys w) /\
  List.NoDup (w_metricKeys w).

(** How JavaScript prints a natural number below 10^21: in decimal
    digits, without sign, blanks or leading zeros. *)
Definition decimal (n : nat) : string :=
  DecimalString.NilEmpty.string_of_uint (Nat.to_uint n).

(** A runtime whose [`${idx}`] prints array indices in decimal. *)
Definition prints_decimal `{JsBuiltins} : Prop :=
  forall n : nat, Number_toString (inject_Z (Z.of_nat n)) = decimal n.

(** The stand-in runtime with decimal printing of whole numbers. *)
Definition decimal_builtins : JsBuiltins :=
  {| Date_parse := @Date_parse sample_builtins;
     Date_toISOString := @Date_toISOString sample_builtins;
     Date_toLocaleString := @Date_toLocaleString sample_builtins;
     Number_ofString := @Number_ofString sample_builtins;
     Number_toString := fun q => decimal (Z.to_nat (Qfloor q));
     Number_toFixed1 := @Number_toFixed1 sample_builtins;
     String_of := @String_of sample_builtins;
     String_toLowerCase := @String_toLowerCase sample_builtins |}.

(** The timestamps of the [record] messages of a FIT file, in the order
    written. *)
Definition record_timestamps (messages : list FitMessage) : list Z :=
  omap (fun m => match m with
                 | Msg_record t _ _ _ _ _ => Some t
                 | _ => None
                 end) messages.

(** The values the indoor callback converts to a string: the record's
    [id] (the start time [on] stands in for a missing one), [on] and
    [activityName].  All of them convert. *)
Definition indoor_strings_convert (raw : unknown) : bool :=
  String_returns (prop (asRecord raw) "id") &&
  String_returns (prop (asRecord raw) "on") &&
  String_returns (prop (asRecord raw) "activityName").

(** The same for the outdoor callback: [id], else [uuid]; the start time
    [performedDate], else [on]; and [activityName]. *)
Definition outdoor_strings_convert (raw : unknown) : bool :=
  String_returns
    (coalesce (prop (asRecord raw) "id") (prop (asRecord raw) "uuid")) &&
  String_returns
    (coalesce (prop (asRecord raw) "performedDate") (prop (asRecord raw) "on")) &&
  String_returns (prop (asRecord raw) "activityName").

(** A whole number, as heart rates in beats per minute are.  Sums,
    differences and comparisons of whole numbers are exact in the
    runtime's number arithmetic too. *)
Definition whole_number (q : Q) : Prop :=
  exists k : Z, q == inject_Z k.

(* ================================================================== *)
(** * Properties *)

(** ** Numbers *)

Lemma Qleb_le (a b : Q) : Qleb a b = true <-> a <= b.
Proof. apply Qle_bool_iff. Qed.

Lemma Qleb_gt (a b : Q) : Qleb a b = false <-> b < a.
Proof.
  unfold Qleb. split; intros Hab.
  - apply Qnot_le_lt. intros Hle. apply Qle_bool_iff in Hle. congruence.
  - destruct (Qle_bool a b) eqn:E; [|reflexivity].
    apply Qle_bool_iff in E. exfalso. eapply Qlt_not_le; eauto.
Qed.

Lemma Qltb_lt (a b : Q) : Qltb a b = true <-> a < b.
Proof.
  unfold Qltb. rewrite negb_true_iff. apply (Qleb_gt b a).
Qed.

Lemma Math_round_mono (x y : Q) : x <= y -> (Math_round x <= Math_round y)%Z.
Proof.
  intros Hxy. unfold Math_round. apply Qfloor_resp_le.
  apply Qplus_le_l. exact Hxy.
Qed.

Lemma Math_round_int (z : Z) : Math_round (inject_Z z) = z.
Proof.
  unfold Math_round, Qfloor, Qplus, inject_Z. simpl.
  rewrite Z.mul_1_r.
  symmetry. apply (Z.div_unique _ _ _ 1); lia.
Qed.

Lemma Math_round_comp (x y : Q) : x == y -> Math_round x = Math_round y.
Proof.
  intros Hxy. unfold Math_round. apply Qfloor_comp. rewrite Hxy. reflexivity.
Qed.

Lemma emitted_offset_mono (p q : SeriesPoint) :
  p_tSec p <= p_tSec q -> (emitted_offset p <= emitted_offset q)%Z.
Proof.
  intros Hpq. unfold emitted_offset.
  apply Z.max_le_compat_l, Math_round_mono, Hpq.
Qed.

(* ------------------------------------------------------------------ *)
(** ** Fallback chains of the derived scalars *)

Lemma spec_first_present_None (chain : list (string * (Q -> Q))) (m : Metrics) :
  spec_first_present chain m = None <->
  Forall (fun kc => mget m (fst kc) = None) chain.
Proof.
  induction chain as [|[k conv] chain IH]; simpl.
  - split; [constructor | reflexivity].
  - destruct (mget m k) eqn:Ek.
    + split; [discriminate|]. intros Hall. inversion Hall as [|? ? Hk ?].
      simpl in Hk. congruence.
    + rewrite IH. split.
      * intros Hall. constructor; [exact Ek | exact Hall].
      * intros Hall. inversion Hall; assumption.
Qed.

(** C6. The derived scalars are fixed-priority fallback chains: distance
    is the first present of HDistance, Distance, DistanceMeters, then
    Km x 1000; vertical the first present of Elevation, Floors; cadence
    the first present of AvgSpm, Cadence; and each is undefined exactly
    when every key of its chain is absent. *)
Theorem derived_scalars_fallback_chains (metrics : Metrics) :
  pickDistanceM metrics = spec_first_present spec_distance_chain metrics /\
  pickVerticalM metrics = spec_first_present spec_vertical_chain metrics /\
  pickCadenceSpm metrics = spec_first_present spec_cadence_chain metrics /\
  (pickDistanceM metrics = None <->
   mget metrics "HDistance" = None /\ mget metrics "Distance" = None /\
   mget metrics "DistanceMeters" = None /\ mget metrics "Km" = None) /\
  (pickVerticalM metrics = None <->
   mget metrics "Elevation" = None /\ mget metrics "Floors" = None) /\
  (pickCadenceSpm metrics = None <->
   mget metrics "AvgSpm" = None /\ mget metrics "Cadence" = None).
Proof.
  assert (Hd : pickDistanceM metrics
               = spec_first_present spec_distance_chain metrics).
  { unfold pickDistanceM, spec_distance_chain, nullish. simpl.
    repeat (destruct (mget metrics _); [reflexivity|]). reflexivity. }
  assert (Hv : pickVerticalM metrics
               = spec_first_present spec_vertical_chain metrics).
  { unfold pickVerticalM, spec_vertical_chain, nullish. simpl.
    repeat (destruct (mget metrics _); [reflexivity|]). reflexivity. }
  assert (Hc : pickCadenceSpm metrics
               = spec_first_present spec_cadence_chain metrics).
  { unfold pickCadenceSpm, spec_cadence_chain, nullish. simpl.
    repeat (destruct (mget metrics _); [reflexivity|]). reflexivity. }
  split; [exact Hd|]. split; [exact Hv|]. split; [exact Hc|].
  rewrite Hd, Hv, Hc, !spec_first_present_None.
  unfold spec_distance_chain, spec_vertical_chain, spec_cadence_chain.
  rewrite !Forall_cons, !Forall_nil. simpl. tauto.
Qed.

(* ------------------------------------------------------------------ *)
(** ** Synthetic fallback *)

Lemma loop_indices_length (n : Z) : length (loop_indices n) = Z.to_nat n.
Proof. unfold loop_indices. rewrite length_map, length_seq. reflexivity. Qed.

Lemma loop_indices_lookup (n : Z) (i : nat) :
  (i < Z.to_nat n)%nat -> loop_indices n !! i = Some (Z.of_nat i).
Proof.
  intros Hi. unfold loop_indices.
  rewrite list_lookup_fmap, lookup_seq_lt by exact Hi. reflexivity.
Qed.

Lemma syntheticCount_spec (totalSeconds : Z) :
  syntheticCount totalSeconds =
  if (0 <? totalSeconds)%Z then Z.max 2 (totalSeconds / 5 + 1) else 2%Z.
Proof.
  unfold syntheticCount, Math_floor. rewrite <- Zdiv_Qdiv. reflexivity.
Qed.

Lemma syntheticCount_nonpos (r : Z) :
  (r <= 0)%Z -> Z.to_nat (syntheticCount (Z.max 0 r)) = 2%nat.
Proof.
  intros Hr. rewrite syntheticCount_spec.
  destruct (Z.ltb_spec 0 (Z.max 0 r)); [lia | reflexivity].
Qed.

Lemma syntheticCount_pos (r : Z) :
  (0 < r)%Z ->
  Z.of_nat (Z.to_nat (syntheticCount (Z.max 0 r))) = Z.max 2 (r / 5 + 1).
Proof.
  intros Hr. rewrite syntheticCount_spec.
  destruct (Z.ltb_spec 0 (Z.max 0 r)); [|lia].
  rewrite (Z.max_r 0 r) by lia. lia.
Qed.

Lemma hasSeries_false (w : Workout) :
  w_series w = None \/ w_series w = Some [] -> hasSeries w = false.
Proof. unfold hasSeries. intros [-> | ->]; reflexivity. Qed.

Lemma tcxPoints_synthetic `{JsBuiltins} (clk : Clock) (w : Workout)
  (opts : WorkoutExportOpts) :
  hasSeries w = false ->
  tcxPoints clk w opts
  = map (tcxSyntheticPoint clk w opts)
        (loop_indices (syntheticCount (totalSecondsOf w))).
Proof. intros Hs. unfold tcxPoints. rewrite Hs. reflexivity. Qed.

Lemma fitRecords_synthetic (w : Workout)
  (opts : WorkoutExportOpts) :
  hasSeries w = false ->
  fitRecords w opts
  = map (fitSyntheticRecord w opts)
        (loop_indices (syntheticCount (totalSecondsOf w))).
Proof. intros Hs. unfold fitRecords. rewrite Hs. reflexivity. Qed.

(** C3. With no series (or an empty one) both encoders synthesize
    points every 5 seconds: the i-th point is at
    [min(totalSeconds, 5 i)], and there are 2 points when the rounded
    duration is 0 and [max(2, floor(duration / 5) + 1)] when it is
    positive; a duration of 0 gives 2 points and one of 23 gives 5. *)
Theorem synthetic_point_count `{JsBuiltins} (clk : Clock) (w : Workout)
  (opts : WorkoutExportOpts) :
  w_series w = None \/ w_series w = Some [] ->
  let rounded := Math_round (default 0 (w_durationSec w)) in
  let points := tcxPoints clk w opts in
  let records := fitRecords w opts in
  length records = length points /\
  (rounded = 0%Z -> length points = 2%nat) /\
  ((0 < rounded)%Z ->
   Z.of_nat (length points) = Z.max 2 (rounded / 5 + 1)) /\
  (forall i : nat, (i < length points)%nat ->
     tp_t <$> points !! i = Some (Z.min (Z.max 0 rounded) (Z.of_nat i * 5)) /\
     r_tSec <$> records !! i = Some (Z.min (Z.max 0 rounded) (Z.of_nat i * 5))) /\
  (forall d, w_durationSec w = Some d -> d == 0 -> length points = 2%nat) /\
  (forall d, w_durationSec w = Some d -> d == 23 -> length points = 5%nat).
Proof.
  intros Hnone rounded points records.
  pose proof (hasSeries_false w Hnone) as Hs.
  assert (Hp : points = map (tcxSyntheticPoint clk w opts)
                          (loop_indices (syntheticCount (totalSecondsOf w))))
    by (apply tcxPoints_synthetic, Hs).
  assert (Hr : records = map (fitSyntheticRecord w opts)
                           (loop_indices (syntheticCount (totalSecondsOf w))))
    by (apply fitRecords_synthetic, Hs).
  assert (Hlen : length points
                 = Z.to_nat (syntheticCount (totalSecondsOf w))).
  { rewrite Hp, length_map, loop_indices_length. reflexivity. }
  assert (Hts : totalSecondsOf w = Z.max 0 rounded) by reflexivity.
  assert (Hzero : (rounded <= 0)%Z -> length points = 2%nat).
  { intros H0. rewrite Hlen, Hts. apply syntheticCount_nonpos, H0. }
  assert (Hpos : (0 < rounded)%Z ->
                 Z.of_nat (length points) = Z.max 2 (rounded / 5 + 1)).
  { intros H0. rewrite Hlen, Hts. apply syntheticCount_pos, H0. }
  split; [rewrite Hr, Hp, !length_map; reflexivity|].
  split; [intros H0; apply Hzero; rewrite H0; reflexivity|].
  split; [exact Hpos|].
  split.
  - intros i Hi. rewrite Hlen in Hi.
    rewrite Hp, Hr, !list_lookup_fmap, loop_indices_lookup by exact Hi.
    simpl. rewrite Hts. split; reflexivity.
  - split; intros d Hd Hq.
    + apply Hzero. unfold rounded. rewrite Hd. simpl.
      rewrite (Math_round_comp d 0 Hq). vm_compute. discriminate.
    + assert (Hrd : rounded = 23%Z).
      { unfold rounded. rewrite Hd. simpl.
        rewrite (Math_round_comp d 23 Hq). reflexivity. }
      assert (H23 : (0 < rounded)%Z) by (rewrite Hrd; reflexivity).
      specialize (Hpos H23). rewrite Hrd in Hpos.
      change (Z.max 2 (23 / 5 + 1)) with (Z.of_nat 5) in Hpos.
      apply Nat2Z.inj, Hpos.
Qed.

(** A workout of 23 seconds without a series. *)
Lemma synthetic_point_count_witness :
  length (@tcxPoints sample_builtins (sample_clock 0)
            (sample_workout (Some sample_iso) (Some 23) None) sample_opts)
  = 5%nat /\
  length (fitRecords
            (sample_workout (Some sample_iso) (Some 23) None) sample_opts)
  = 5%nat.
Proof.
  pose proof (@synthetic_point_count sample_builtins (sample_clock 0)
                (sample_workout (Some sample_iso) (Some 23) None) sample_opts
                (or_introl eq_refl)) as (Hlen & _ & _ & _ & _ & H23).
  specialize (H23 23 eq_refl ltac:(reflexivity)).
  split; [exact H23 | rewrite Hlen; exact H23].
Defined.

(* ------------------------------------------------------------------ *)
(** ** Sorting by [tSec] *)

Section SortByFacts.
Context {A : Type} (key : A -> Q).

Lemma insert_by_perm (x : A) (l : list A) :
  Permutation (x :: l) (insert_by key x l).
Proof.
  induction l as [|y l IH]; simpl.
  - reflexivity.
  - destruct (Qleb (key x) (key y)).
    + reflexivity.
    + rewrite perm_swap. apply perm_skip, IH.
Qed.

Lemma sort_by_perm (l : list A) : Permutation l (sort_by key l).
Proof.
  induction l as [|x l IH]; simpl.
  - reflexivity.
  - rewrite <- insert_by_perm. apply perm_skip, IH.
Qed.

Lemma sort_by_length (l : list A) : length (sort_by key l) = length l.
Proof. symmetry. apply Permutation_length, sort_by_perm. Qed.

Lemma insert_by_sorted (x : A) (l : list A) :
  ascending_by key l -> ascending_by key (insert_by key x l).
Proof.
  unfold ascending_by. induction l as [|y l IH]; simpl; intros Hs.
  - constructor; constructor.
  - destruct (Qleb (key x) (key y)) eqn:E.
    + apply Qleb_le in E. constructor; [exact Hs|].
      constructor; [exact E|].
      apply StronglySorted_inv in Hs as [_ Hall].
      eapply Forall_impl; [exact Hall|].
      intros z Hz. simpl in *. eapply Qle_trans; eauto.
    + apply Qleb_gt in E.
      apply StronglySorted_inv in Hs as [Hs Hall].
      constructor; [apply IH, Hs|].
      eapply Permutation_Forall; [apply insert_by_perm|].
      constructor; [apply Qlt_le_weak, E | exact Hall].
Qed.

Lemma sort_by_sorted (l : list A) : ascending_by key (sort_by key l).
Proof.
  induction l as [|x l IH]; simpl.
  - constructor.
  - apply insert_by_sorted, IH.
Qed.

Lemma sort_by_of_sorted (l : list A) :
  ascending_by key l -> sort_by key l = l.
Proof.
  unfold ascending_by. induction l as [|x l IH]; simpl; intros Hs.
  - reflexivity.
  - apply StronglySorted_inv in Hs as [Hs Hall].
    rewrite (IH Hs). destruct l as [|y l]; simpl.
    + reflexivity.
    + apply Forall_cons in Hall as [Hxy _].
      apply Qleb_le in Hxy. rewrite Hxy. reflexivity.
Qed.

Lemma sort_by_idempotent (l : list A) :
  sort_by key (sort_by key l) = sort_by key l.
Proof. apply sort_by_of_sorted, sort_by_sorted. Qed.

End SortByFacts.

Lemma insert_by_map {A B : Type} (f : A -> B) (key : B -> Q) (x : A)
  (l : list A) :
  map f (insert_by (fun a => key (f a)) x l) = insert_by key (f x) (map f l).
Proof.
  induction l as [|y l IH]; simpl.
  - reflexivity.
  - destruct (Qleb (key (f x)) (key (f y))); simpl.
    + reflexivity.
    + rewrite IH. reflexivity.
Qed.

Lemma sort_by_map {A B : Type} (f : A -> B) (key : B -> Q) (l : list A) :
  map f (sort_by (fun a => key (f a)) l) = sort_by key (map f l).
Proof.
  induction l as [|x l IH]; simpl.
  - reflexivity.
  - rewrite insert_by_map, IH. reflexivity.
Qed.

Lemma StronglySorted_map {A B : Type} (R : A -> A -> Prop)
  (R' : B -> B -> Prop) (f : A -> B) (l : list A) :
  (forall a b, R a b -> R' (f a) (f b)) ->
  StronglySorted R l -> StronglySorted R' (map f l).
Proof.
  intros Hmono Hs. induction Hs as [|a l Hs IH Hall]; simpl.
  - constructor.
  - constructor; [exact IH|].
    apply Forall_map. eapply Forall_impl; [exact Hall|].
    intros b Hab. apply Hmono, Hab.
Qed.

Lemma sort_by_tSec_ascending (l : list SeriesPoint) :
  series_ascending (sort_by_tSec l).
Proof. apply (sort_by_sorted p_tSec). Qed.

(** The last element of an ascending list has the greatest key. *)
Lemma ascending_last_max {A : Type} (key : A -> Q) (l : list A) (m : A) :
  ascending_by key l -> last l = Some m ->
  Forall (fun x => key x <= key m) l.
Proof.
  intros Hs Hl. apply last_Some in Hl as [l' ->].
  apply Forall_app. split.
  - clear -Hs. induction l' as [|y l' IH]; [constructor|].
    simpl in Hs. apply StronglySorted_inv in Hs as [Hs Hy].
    constructor; [|apply IH, Hs].
    apply Forall_app in Hy as [_ Hy]. apply Forall_cons in Hy as [Hy _].
    exact Hy.
  - constructor; [apply Qle_refl | constructor].
Qed.

Lemma emitted_offsets_sorted (l : list SeriesPoint) :
  series_ascending l -> StronglySorted Z.le (map emitted_offset l).
Proof.
  apply StronglySorted_map. intros p q. apply emitted_offset_mono.
Qed.

(** The forward-fill pass touches no field but [hr]. *)
Lemma fillHrLoop_tSec (prev : Z) (records : list FitRecord) :
  map r_tSec (fillHrLoop prev records) = map r_tSec records.
Proof.
  revert prev. induction records as [|r rs IH]; intros prev; simpl.
  - reflexivity.
  - destruct (r_hr r); simpl; rewrite IH; reflexivity.
Qed.

Lemma forwardFillHr_tSec (avgHr maxHr : option Q) (records : list FitRecord) :
  map r_tSec (forwardFillHr avgHr maxHr records) = map r_tSec records.
Proof.
  unfold forwardFillHr.
  destruct (fallbackHrOf avgHr maxHr (firstKnownHr records)).
  - apply fillHrLoop_tSec.
  - reflexivity.
Qed.

Lemma fitForwardFill_tSec {Ser : Type} (w : WorkoutOf Ser)
  (opts : WorkoutExportOpts) (records : list FitRecord) :
  map r_tSec (fitForwardFill w opts records) = map r_tSec records.
Proof.
  unfold fitForwardFill.
  destruct (includeHrSeries opts && (0 <? length records)%nat).
  - apply forwardFillHr_tSec.
  - reflexivity.
Qed.

Lemma hasSeries_true (w : Workout) (series : list SeriesPoint) :
  w_series w = Some series -> series <> [] -> hasSeries w = true.
Proof.
  unfold hasSeries. intros -> Hne. destruct series; [congruence | reflexivity].
Qed.

Lemma tcxPoints_series `{JsBuiltins} (clk : Clock) (w : Workout)
  (opts : WorkoutExportOpts) (series : list SeriesPoint) :
  w_series w = Some series -> series <> [] ->
  tcxPoints clk w opts = tcxSeriesPoints clk w opts (sort_by_tSec series).
Proof.
  intros Hw Hne. unfold tcxPoints.
  rewrite (hasSeries_true w series Hw Hne), Hw. reflexivity.
Qed.

Lemma fitRecords_series (w : Workout) (opts : WorkoutExportOpts)
  (series : list SeriesPoint) :
  w_series w = Some series -> series <> [] ->
  fitRecords w opts
  = fitForwardFill w opts (fitSeriesRecords w opts (sort_by_tSec series)).
Proof.
  intros Hw Hne. unfold fitRecords.
  rewrite (hasSeries_true w series Hw Hne), Hw. reflexivity.
Qed.

Lemma tcxSeriesPoints_offsets `{JsBuiltins} {Ser : Type} (clk : Clock)
  (w : WorkoutOf Ser) (opts : WorkoutExportOpts) (sorted : list SeriesPoint) :
  map tp_t (tcxSeriesPoints clk w opts sorted) = map emitted_offset sorted.
Proof.
  unfold tcxSeriesPoints. rewrite map_map. reflexivity.
Qed.

Lemma fitSeriesRecords_offsets {Ser : Type} (w : WorkoutOf Ser)
  (opts : WorkoutExportOpts) (sorted : list SeriesPoint) :
  map r_tSec (fitSeriesRecords w opts sorted) = map emitted_offset sorted.
Proof.
  unfold fitSeriesRecords. rewrite map_map. reflexivity.
Qed.

(** C8. Whatever the input order of a non-empty series, the points each
    encoder processes are its stable sort by [tSec]: non-decreasing in
    [tSec], a permutation of the input (equal [tSec] values are all
    kept), unchanged by sorting again; the emitted offsets follow that
    order and are non-decreasing. *)
Theorem series_processed_in_order `{JsBuiltins} (clk : Clock) (w : Workout)
  (opts : WorkoutExportOpts) (series : list SeriesPoint) :
  w_series w = Some series -> series <> [] ->
  let sorted := sort_by_tSec series in
  series_ascending sorted /\
  Permutation series sorted /\
  length sorted = length series /\
  sort_by_tSec sorted = sorted /\
  (series_ascending series -> sorted = series) /\
  map tp_t (tcxPoints clk w opts) = map emitted_offset sorted /\
  map r_tSec (fitRecords w opts) = map emitted_offset sorted /\
  StronglySorted Z.le (map tp_t (tcxPoints clk w opts)) /\
  StronglySorted Z.le (map r_tSec (fitRecords w opts)).
Proof.
  intros Hw Hne sorted.
  assert (Hasc : series_ascending sorted) by apply sort_by_tSec_ascending.
  assert (Ht : map tp_t (tcxPoints clk w opts) = map emitted_offset sorted).
  { rewrite (tcxPoints_series clk w opts series Hw Hne).
    apply tcxSeriesPoints_offsets. }
  assert (Hr : map r_tSec (fitRecords w opts) = map emitted_offset sorted).
  { rewrite (fitRecords_series w opts series Hw Hne), fitForwardFill_tSec.
    apply fitSeriesRecords_offsets. }
  split; [exact Hasc|].
  split; [apply sort_by_perm|].
  split; [apply sort_by_length|].
  split; [apply sort_by_idempotent|].
  split; [apply sort_by_of_sorted|].
  split; [exact Ht|]. split; [exact Hr|].
  rewrite Ht, Hr. split; apply emitted_offsets_sorted, Hasc.
Qed.

(** A series given in the order 10, 0, 5, 5. *)
Lemma series_processed_in_order_witness :
  map r_tSec
    (fitRecords
       (sample_workout (Some sample_iso) (Some 10)
          (Some [sample_point 10 None; sample_point 0 None;
                 sample_point 5 (Some 120); sample_point 5 None]))
       sample_opts)
  = [0; 5; 5; 10]%Z.
Proof.
  pose proof (@series_processed_in_order sample_builtins (sample_clock 0)
    (sample_workout (Some sample_iso) (Some 10)
       (Some [sample_point 10 None; sample_point 0 None;
              sample_point 5 (Some 120); sample_point 5 None]))
    sample_opts _ eq_refl ltac:(discriminate))
    as (_ & _ & _ & _ & _ & _ & Hr & _).
  rewrite Hr. reflexivity.
Defined.

(* ------------------------------------------------------------------ *)
(** ** Distance pro-ration on the series path *)

Lemma same_but_hr_refl (r : FitRecord) : same_but_hr r r.
Proof. repeat split. Qed.

Lemma fillHrLoop_same_but_hr (prev : Z) (records : list FitRecord) :
  Forall2 same_but_hr records (fillHrLoop prev records).
Proof.
  revert prev. induction records as [|r rs IH]; intros prev; simpl.
  - constructor.
  - destruct (r_hr r); constructor; try apply IH; repeat split.
Qed.

Lemma fitForwardFill_same_but_hr {Ser : Type} (w : WorkoutOf Ser)
  (opts : WorkoutExportOpts) (records : list FitRecord) :
  Forall2 same_but_hr records (fitForwardFill w opts records).
Proof.
  unfold fitForwardFill, forwardFillHr.
  destruct (includeHrSeries opts && (0 <? length records)%nat);
    [destruct (fallbackHrOf _ _ _)|];
    try apply fillHrLoop_same_but_hr;
    apply Forall_Forall2_diag, Forall_forall; intros; apply same_but_hr_refl.
Qed.

Lemma Forall2_compose {A B C : Type} (P : A -> B -> Prop) (Q : B -> C -> Prop)
  (R : A -> C -> Prop) (la : list A) (lb : list B) (lc : list C) :
  (forall a b c, P a b -> Q b c -> R a c) ->
  Forall2 P la lb -> Forall2 Q lb lc -> Forall2 R la lc.
Proof.
  intros HPQ Hab. revert lc.
  induction Hab as [|a b la lb Hp Hab IH]; intros lc Hbc;
    inversion Hbc; subst; constructor; eauto.
Qed.

Lemma Forall2_right {A B : Type} (P : A -> B -> Prop) (Q : B -> Prop)
  (la : list A) (lb : list B) :
  (forall a b, P a b -> Q b) -> Forall2 P la lb -> Forall Q lb.
Proof.
  intros HPQ Hab. induction Hab; constructor; eauto.
Qed.

Lemma emitted_offset_integer (p : SeriesPoint) (k : Z) :
  p_tSec p == inject_Z k -> (0 <= k)%Z -> emitted_offset p = k.
Proof.
  intros Hp Hk. unfold emitted_offset.
  rewrite (Math_round_comp _ _ Hp), Math_round_int. lia.
Qed.

Lemma seriesDist_some (d seriesTotalSec : Q) (t : Z) :
  0 < seriesTotalSec ->
  seriesDist (Some d) seriesTotalSec t = d * (inject_Z t / seriesTotalSec).
Proof.
  intros Hpos. unfold seriesDist, proRate.
  apply Qltb_lt in Hpos. rewrite Hpos. reflexivity.
Qed.

(** C4. On the series path with the distance option on and a total
    distance [d]: the points are taken in ascending order of [tSec] (the
    sorted list is a rearrangement of the series), so the last sorted
    point is a point of the series with the greatest [tSec] of all;
    [seriesTotalSec] is the maximum of the declared rounded duration and
    that point's [tSec], hence at least every point's [tSec]; and
    whenever it is positive each point, emitted at offset [t], carries
    the distance [d * (t / seriesTotalSec)]; [t] is the point's own
    [tSec] when that is a non-negative integer.  With d = 1000,
    seriesTotalSec = 100 and t = 25 the distance is 250. *)
Theorem series_distance_pro_rated `{JsBuiltins} (clk : Clock) (w : Workout)
  (opts : WorkoutExportOpts) (series : list SeriesPoint) (d : Q) :
  w_series w = Some series -> series <> [] ->
  includeDistance opts = true -> w_distanceM w = Some d ->
  let sorted := sort_by_tSec series in
  let declared := Z.max 0 (Math_round (default 0 (w_durationSec w))) in
  let seriesTotalSec := seriesTotalSecOf (totalSecondsOf w) sorted in
  series_ascending sorted /\ Permutation series sorted /\
  (exists lastPoint, last sorted = Some lastPoint /\
     lastPoint ∈ series /\
     Forall (fun p => p_tSec p <= p_tSec lastPoint) series /\
     seriesTotalSec = Qmax (inject_Z declared) (p_tSec lastPoint) /\
     inject_Z declared <= seriesTotalSec /\
     Forall (fun p => p_tSec p <= seriesTotalSec) series) /\
  (0 < seriesTotalSec ->
   Forall2 (fun p tp =>
              tp_t tp = emitted_offset p /\
              tp_dist tp = d * (inject_Z (tp_t tp) / seriesTotalSec))
           sorted (tcxPoints clk w opts) /\
   Forall2 (fun p r =>
              r_tSec r = emitted_offset p /\
              r_dist r = d * (inject_Z (r_tSec r) / seriesTotalSec))
           sorted (fitRecords w opts)) /\
  (forall p k, p_tSec p == inject_Z k -> (0 <= k)%Z -> emitted_offset p = k) /\
  (d == 1000 -> seriesTotalSec == 100 ->
   Forall (fun tp => tp_t tp = 25%Z -> tp_dist tp == 250)
          (tcxPoints clk w opts) /\
   Forall (fun r => r_tSec r = 25%Z -> r_dist r == 250) (fitRecords w opts)).
Proof.
  intros Hw Hne Hopt Hd sorted declared seriesTotalSec.
  assert (Hdist : totalDistanceOf w opts = Some d).
  { unfold totalDistanceOf. rewrite Hopt. exact Hd. }
  assert (Htcx : 0 < seriesTotalSec ->
    Forall2 (fun p tp =>
               tp_t tp = emitted_offset p /\
               tp_dist tp = d * (inject_Z (tp_t tp) / seriesTotalSec))
            sorted (tcxPoints clk w opts)).
  { intros Hpos. rewrite (tcxPoints_series clk w opts series Hw Hne).
    unfold tcxSeriesPoints. apply Forall2_fmap_r, Forall_Forall2_diag.
    apply Forall_forall. intros p _. simpl. split; [reflexivity|].
    rewrite Hdist. apply seriesDist_some, Hpos. }
  assert (Hfit : 0 < seriesTotalSec ->
    Forall2 (fun p r =>
               r_tSec r = emitted_offset p /\
               r_dist r = d * (inject_Z (r_tSec r) / seriesTotalSec))
            sorted (fitRecords w opts)).
  { intros Hpos. rewrite (fitRecords_series w opts series Hw Hne).
    eapply Forall2_compose; [| |apply fitForwardFill_same_but_hr].
    2:{ unfold fitSeriesRecords. apply Forall2_fmap_r, Forall_Forall2_diag.
        apply Forall_forall. intros p _. simpl.
        instantiate (1 := fun p r =>
          r_tSec r = emitted_offset p /\
          r_dist r = d * (inject_Z (r_tSec r) / seriesTotalSec)).
        simpl. split; [reflexivity|].
        rewrite Hdist. apply seriesDist_some, Hpos. }
    intros p r r' [Ht Hdr] (Ht' & Hd' & _). simpl.
    rewrite Ht', Hd'. split; assumption. }
  assert (Hasc : series_ascending sorted) by apply sort_by_tSec_ascending.
  assert (Hperm : Permutation series sorted) by apply sort_by_perm.
  split; [exact Hasc|]. split; [exact Hperm|].
  split.
  - destruct (last sorted) as [lastPoint|] eqn:Hlast.
    + exists lastPoint. split; [reflexivity|].
      assert (Hmax : Forall (fun p => p_tSec p <= p_tSec lastPoint) series).
      { eapply Permutation_Forall; [symmetry; exact Hperm|].
        apply ascending_last_max; assumption. }
      assert (Htot : seriesTotalSec
                     = Qmax (inject_Z declared) (p_tSec lastPoint)).
      { unfold seriesTotalSec, seriesTotalSecOf. rewrite Hlast. reflexivity. }
      split.
      { apply last_Some_elem_of in Hlast. rewrite Hperm. exact Hlast. }
      split; [exact Hmax|]. split; [exact Htot|].
      rewrite Htot. split; [apply Q.le_max_l|].
      eapply Forall_impl; [exact Hmax|]. intros p Hp. simpl in Hp.
      eapply Qle_trans; [exact Hp | apply Q.le_max_r].
    + apply last_None in Hlast.
      apply (f_equal length) in Hlast. unfold sorted, sort_by_tSec in Hlast.
      rewrite sort_by_length in Hlast. destruct series; [congruence|discriminate].
  - split; [intros Hpos; split; [apply Htcx | apply Hfit]; exact Hpos|].
    split; [exact emitted_offset_integer|].
    intros Hd1000 Hs100.
    assert (Hpos : 0 < seriesTotalSec) by (rewrite Hs100; reflexivity).
    assert (Hval : d * (inject_Z 25 / seriesTotalSec) == 250).
    { rewrite Hd1000, Hs100. reflexivity. }
    split.
    + eapply Forall2_right; [|exact (Htcx Hpos)].
      intros p tp [_ Hdp] Ht. simpl in *. rewrite Hdp, Ht. exact Hval.
    + eapply Forall2_right; [|exact (Hfit Hpos)].
      intros p r [_ Hdr] Ht. simpl in *. rewrite Hdr, Ht. exact Hval.
Qed.

(** Total distance 1000, declared duration 60, points given in the
    order 100, 0, 25: the total is 100, the greatest [tSec]. *)
Lemma series_distance_pro_rated_witness :
  Forall (fun r => r_tSec r = 25%Z -> r_dist r == 250)
    (fitRecords
       (sample_workout (Some sample_iso) (Some 60)
          (Some [sample_point 100 None; sample_point 0 None;
                 sample_point 25 None]))
       sample_opts) /\
  map r_tSec
    (fitRecords
       (sample_workout (Some sample_iso) (Some 60)
          (Some [sample_point 100 None; sample_point 0 None;
                 sample_point 25 None]))
       sample_opts) = [0; 25; 100]%Z.
Proof.
  pose proof (@series_distance_pro_rated sample_builtins (sample_clock 0)
    (sample_workout (Some sample_iso) (Some 60)
       (Some [sample_point 100 None; sample_point 0 None;
              sample_point 25 None]))
    sample_opts _ 1000 eq_refl ltac:(discriminate) eq_refl eq_refl)
    as (_ & _ & _ & _ & _ & Hex).
  destruct (Hex ltac:(reflexivity) ltac:(vm_compute; reflexivity)) as [_ Hfit].
  split; [exact Hfit | reflexivity].
Defined.

(* ------------------------------------------------------------------ *)
(** ** The defensive forward-fill pass *)

Lemma firstKnownHr_spec (records : list FitRecord) (v : Z) :
  firstKnownHr records = Some v <->
  exists (i : nat) (r : FitRecord),
    records !! i = Some r /\ r_hr r = Some v /\
    forall (j : nat) (r' : FitRecord),
      (j < i)%nat -> records !! j = Some r' -> r_hr r' = None.
Proof.
  induction records as [|r0 rs IH]; simpl.
  - split; [discriminate|]. intros (i & r & Hi & _). discriminate.
  - destruct (r_hr r0) as [v0|] eqn:E0.
    + split.
      * intros [= <-]. exists 0%nat, r0. repeat split; [exact E0|]. lia.
      * intros (i & r & Hi & Hv & Hbefore).
        destruct i as [|i]; simpl in Hi.
        -- injection Hi as <-. congruence.
        -- specialize (Hbefore 0%nat r0 ltac:(lia) eq_refl). congruence.
    + rewrite IH. split.
      * intros (i & r & Hi & Hv & Hbefore). exists (S i), r.
        repeat split; [exact Hi | exact Hv |].
        intros [|j] r' Hj Hr'; simpl in Hr'.
        -- injection Hr' as <-. exact E0.
        -- apply (Hbefore j r'); [lia | exact Hr'].
      * intros (i & r & Hi & Hv & Hbefore).
        destruct i as [|i]; simpl in Hi.
        -- injection Hi as <-. congruence.
        -- exists i, r. repeat split; [exact Hi | exact Hv |].
           intros j r' Hj Hr'. apply (Hbefore (S j) r'); [lia | exact Hr'].
Qed.

Lemma fillHrLoop_length (prev : Z) (records : list FitRecord) :
  length (fillHrLoop prev records) = length records.
Proof.
  revert prev. induction records as [|r rs IH]; intros prev; simpl.
  - reflexivity.
  - destruct (r_hr r); simpl; rewrite IH; reflexivity.
Qed.

Lemma fillHrLoop_lookup (prev : Z) (records : list FitRecord) (i : nat)
  (r : FitRecord) :
  records !! i = Some r ->
  fillHrLoop prev records !! i
  = Some (filled_record prev (take i records) r).
Proof.
  revert prev i. induction records as [|r0 rs IH]; intros prev i Hi.
  - discriminate.
  - destruct i as [|i]; simpl in Hi.
    + injection Hi as <-. unfold filled_record. simpl.
      destruct (r_hr r0); reflexivity.
    + simpl. unfold filled_record, spec_most_recent_hr. simpl.
      destruct (r_hr r0) as [v0|]; simpl; rewrite (IH _ i Hi); reflexivity.
Qed.

Lemma fitRecords_forward_fill (w : Workout) (opts : WorkoutExportOpts)
  (series : list SeriesPoint) :
  w_series w = Some series -> series <> [] -> includeHrSeries opts = true ->
  fitRecords w opts
  = forwardFillHr (mget (w_metrics w) "AvgHr") (mget (w_metrics w) "MaxHr")
      (fitSeriesRecords w opts (sort_by_tSec series)).
Proof.
  intros Hw Hne Hopt. rewrite (fitRecords_series w opts series Hw Hne).
  unfold fitForwardFill. rewrite Hopt. simpl.
  destruct (Nat.ltb_spec 0
              (length (fitSeriesRecords w opts (sort_by_tSec series))))
    as [_|Hlen]; [reflexivity|].
  unfold fitSeriesRecords, sort_by_tSec in Hlen.
  rewrite length_map, sort_by_length in Hlen.
  destruct series; [congruence | simpl in Hlen; lia].
Qed.

(** C1 (as the code has it).  On the series path with the HR option on,
    the records go through the forward-fill pass.  For a non-empty record
    list the pass takes as seed the HR of the first record that has one,
    and only when no record has one the rounded average HR, else the
    rounded maximum HR; with a seed, every record without an HR gets the
    most recently seen value before it (the seed when none was seen) and
    every other record is untouched; without a seed nothing changes.  For
    HR values [none, none, 150, none] the result is [150, 150, 150, 150]
    whatever the average HR is. *)
Theorem forward_fill_pass (avgHr maxHr : option Q) (records : list FitRecord) :
  records <> [] ->
  let firstKnown := firstKnownHr records in
  let seed := fallbackHrOf avgHr maxHr firstKnown in
  let filled := forwardFillHr avgHr maxHr records in
  (forall v, firstKnown = Some v <->
     exists (i : nat) (r : FitRecord),
       records !! i = Some r /\ r_hr r = Some v /\
       forall (j : nat) (r' : FitRecord),
         (j < i)%nat -> records !! j = Some r' -> r_hr r' = None) /\
  (forall v, firstKnown = Some v -> seed = Some v) /\
  (firstKnown = None ->
   seed = match avgHr, maxHr with
          | Some a, _ => Some (Math_round a)
          | None, Some m => Some (Math_round m)
          | None, None => None
          end) /\
  (seed = None -> filled = records) /\
  (forall s, seed = Some s ->
     length filled = length records /\
     forall (i : nat) (r : FitRecord), records !! i = Some r ->
       filled !! i = Some (filled_record s (take i records) r)) /\
  (map r_hr records = [None; None; Some 150%Z; None] ->
   map r_hr filled = [Some 150%Z; Some 150%Z; Some 150%Z; Some 150%Z]) /\
  (forall (w : Workout) (opts : WorkoutExportOpts) (series : list SeriesPoint),
     w_series w = Some series -> series <> [] -> includeHrSeries opts = true ->
     fitRecords w opts
     = forwardFillHr (mget (w_metrics w) "AvgHr") (mget (w_metrics w) "MaxHr")
         (fitSeriesRecords w opts (sort_by_tSec series))).
Proof.
  intros Hne firstKnown seed filled.
  split; [intros v; apply firstKnownHr_spec|].
  split; [intros v Hv; unfold seed; rewrite Hv; reflexivity|].
  split.
  { intros Hnone. unfold seed. rewrite Hnone. simpl.
    destruct avgHr, maxHr; reflexivity. }
  split.
  { intros Hs. unfold filled, forwardFillHr. fold firstKnown. fold seed.
    rewrite Hs. reflexivity. }
  split.
  { intros s Hs. unfold filled, forwardFillHr. fold firstKnown. fold seed.
    rewrite Hs. split; [apply fillHrLoop_length|].
    intros i r Hi. apply fillHrLoop_lookup, Hi. }
  split; [|exact fitRecords_forward_fill].
  intros Hhr. unfold filled, forwardFillHr.
  destruct records as [|r0 [|r1 [|r2 [|r3 [|r4 rs]]]]]; try discriminate.
  injection Hhr as H0 H1 H2 H3.
  cbn [firstKnownHr]. rewrite H0, H1, H2.
  cbn [fallbackHrOf nullish fillHrLoop]. rewrite H0, H1, H2, H3.
  cbn [map set_hr r_hr]. rewrite H2. reflexivity.
Qed.

(** The pass on the spec's own scenario, average HR 130. *)
Lemma forward_fill_pass_witness :
  map r_hr
    (forwardFillHr (Some 130) None
       [sample_record 0 None; sample_record 1 None;
        sample_record 2 (Some 150%Z); sample_record 3 None])
  = [Some 150%Z; Some 150%Z; Some 150%Z; Some 150%Z].
Proof.
  pose proof (forward_fill_pass (Some 130) None
    [sample_record 0 None; sample_record 1 None;
     sample_record 2 (Some 150%Z); sample_record 3 None]
    ltac:(discriminate)) as (_ & _ & _ & _ & _ & Hex & _).
  exact (Hex eq_refl).
Defined.

(** C1 as stated fails on its own scenario: the leading gaps take the
    first known value, 150, not the average, 130. *)
Lemma forward_fill_example_refuted :
  map r_hr
    (forwardFillHr (Some 130) None
       [sample_record 0 None; sample_record 1 None;
        sample_record 2 (Some 150%Z); sample_record 3 None])
  <> [Some 130%Z; Some 130%Z; Some 150%Z; Some 150%Z].
Proof. vm_compute. discriminate. Qed.

(* ------------------------------------------------------------------ *)
(** ** Heart-rate interpolation *)

Lemma List_last_default {A : Type} (l : list A) (d : A) :
  List.last l d = default d (last l).
Proof.
  induction l as [|x l IH]; [reflexivity|].
  destruct l as [|y l]; [reflexivity|].
  rewrite last_cons_cons. change (List.last (x :: y :: l) d) with (List.last (y :: l) d).
  exact IH.
Qed.

Lemma spec_interpolate_code (a b : HrAnchor) (t : Q) :
  ~ a_tSec b - a_tSec a == 0 ->
  a_hr a + (a_hr b - a_hr a) * ((t - a_tSec a) / (a_tSec b - a_tSec a))
  == spec_interpolate a b t.
Proof. intros Hspan. unfold spec_interpolate. field. exact Hspan. Qed.

Lemma spec_interpolate_right (a b : HrAnchor) (t : Q) :
  a_tSec a < a_tSec b -> t == a_tSec b -> spec_interpolate a b t == a_hr b.
Proof.
  intros Hab Ht. unfold spec_interpolate. rewrite Ht. field. lra.
Qed.

Lemma spec_interpolate_left (a b : HrAnchor) (t : Q) :
  a_tSec a < a_tSec b -> t == a_tSec a -> spec_interpolate a b t == a_hr a.
Proof.
  intros Hab Ht. unfold spec_interpolate. rewrite Ht. field. lra.
Qed.

Lemma spec_interpolate_mono (a b : HrAnchor) (t1 t2 : Q) :
  a_tSec a < a_tSec b -> t1 <= t2 ->
  (a_hr a <= a_hr b -> spec_interpolate a b t1 <= spec_interpolate a b t2) /\
  (a_hr b <= a_hr a -> spec_interpolate a b t2 <= spec_interpolate a b t1).
Proof.
  intros Hab Ht. unfold spec_interpolate.
  assert (Hspan : 0 < a_tSec b - a_tSec a) by lra.
  assert (Hinv : 0 <= / (a_tSec b - a_tSec a)).
  { apply Qlt_le_weak, Qinv_lt_0_compat, Hspan. }
  split; intros Hhr; apply Qplus_le_r; unfold Qdiv;
    apply Qmult_le_compat_r; try exact Hinv; nra.
Qed.

(** The loop returns from the first pair whose right end is at or after
    [t]; the branch for a non-positive span is the code's degenerate
    case. *)
Lemma hrAt_loop_degenerate (a b : HrAnchor) (rest : list HrAnchor)
  (last_hr t : Q) :
  t <= a_tSec b -> a_tSec b - a_tSec a <= 0 ->
  hrAt_loop a (b :: rest) last_hr t = a_hr b.
Proof.
  intros Ht Hspan. simpl.
  apply Qleb_le in Ht. apply Qleb_le in Hspan. rewrite Ht, Hspan. reflexivity.
Qed.

Lemma ascending_head_le (key : HrAnchor -> Q) (a x : HrAnchor)
  (rest pre post : list HrAnchor) :
  ascending_by key (a :: rest) -> a :: rest = pre ++ x :: post ->
  key a <= key x.
Proof.
  intros Hs Heq. destruct pre as [|p pre]; simpl in Heq.
  - injection Heq as -> _. apply Qle_refl.
  - injection Heq as -> ->. apply StronglySorted_inv in Hs as [_ Hall].
    rewrite Forall_app, Forall_cons in Hall. tauto.
Qed.

Lemma hrAt_loop_interpolates (a : HrAnchor) (rest : list HrAnchor)
  (last_hr t : Q) (pre post : list HrAnchor) (x y : HrAnchor) :
  anchors_ascending (a :: rest) ->
  a :: rest = pre ++ x :: y :: post ->
  a_tSec x < t -> t <= a_tSec y ->
  hrAt_loop a rest last_hr t == spec_interpolate x y t.
Proof.
  revert a pre. induction rest as [|b rest IH]; intros a pre Hs Heq Hx Hy.
  - destruct pre as [|? [|? ?]]; discriminate.
  - destruct pre as [|p pre]; simpl in Heq.
    + injection Heq as -> -> ->. simpl.
      apply Qleb_le in Hy. rewrite Hy.
      assert (Hspan : Qleb (a_tSec y - a_tSec x) 0 = false).
      { apply Qleb_gt. apply Qleb_le in Hy. lra. }
      rewrite Hspan. apply spec_interpolate_code.
      apply Qleb_le in Hy. lra.
    + injection Heq as -> Heq.
      assert (Hs' : anchors_ascending (b :: rest)).
      { apply StronglySorted_inv in Hs. tauto. }
      pose proof (ascending_head_le a_tSec b x rest pre (y :: post) Hs' Heq)
        as Hbx.
      simpl.
      assert (Hb : Qleb t (a_tSec b) = false) by (apply Qleb_gt; lra).
      rewrite Hb. apply (IH b pre Hs' Heq Hx Hy).
Qed.

Lemma strictly_ascending_weaken (l : list HrAnchor) :
  anchors_strictly_ascending l -> anchors_ascending l.
Proof.
  unfold anchors_strictly_ascending, anchors_ascending, ascending_by.
  induction 1 as [|a l Hs IH Hall]; constructor; [exact IH|].
  eapply Forall_impl; [exact Hall|]. intros b Hb. apply Qlt_le_weak, Hb.
Qed.

Lemma strictly_ascending_last (l pre post : list HrAnchor) (x lst : HrAnchor) :
  anchors_strictly_ascending l -> l = pre ++ x :: post ->
  last l = Some lst -> lst = x /\ post = [] \/ a_tSec x < a_tSec lst.
Proof.
  intros Hs -> Hlast. rewrite last_app in Hlast.
  destruct post as [|p post].
  - left. simpl in Hlast. injection Hlast as <-. auto.
  - right. rewrite last_cons_cons in Hlast.
    destruct (last (p :: post)) as [z|] eqn:Hz;
      [|apply last_None in Hz; discriminate].
    injection Hlast as ->.
    apply last_Some_elem_of in Hz.
    unfold anchors_strictly_ascending in Hs.
    induction pre as [|q pre IH]; simpl in Hs.
    + apply StronglySorted_inv in Hs as [_ Hall].
      rewrite Forall_forall in Hall. apply Hall, Hz.
    + apply StronglySorted_inv in Hs as [Hs _]. apply IH, Hs.
Qed.

Lemma strictly_ascending_adjacent (l pre post : list HrAnchor)
  (a b : HrAnchor) :
  anchors_strictly_ascending l -> l = pre ++ a :: b :: post ->
  a_tSec a < a_tSec b.
Proof.
  intros Hs ->. unfold anchors_strictly_ascending in Hs.
  induction pre as [|q pre IH]; simpl in Hs.
  - apply StronglySorted_inv in Hs as [_ Hall].
    apply Forall_cons in Hall. tauto.
  - apply StronglySorted_inv in Hs as [Hs _]. apply IH, Hs.
Qed.

(** The value at a time strictly inside a pair of adjacent anchors. *)
Lemma hrAt_between (anchors : list HrAnchor) (t : Q) (a b : HrAnchor) :
  anchors_strictly_ascending anchors -> adjacent a b anchors ->
  a_tSec a < t -> t <= a_tSec b ->
  exists v, hrAt anchors t = Some v /\ v == spec_interpolate a b t.
Proof.
  intros Hs (pre & post & Heq) Ha Hb.
  pose proof (strictly_ascending_weaken _ Hs) as Hw.
  pose proof (strictly_ascending_adjacent _ _ _ _ _ Hs Heq) as Hab.
  destruct anchors as [|a0 rest]; [destruct pre; discriminate|].
  destruct rest as [|a1 rest]; [destruct pre as [|? [|? ?]]; discriminate|].
  pose proof (ascending_head_le a_tSec a0 a (a1 :: rest) pre (b :: post) Hw Heq)
    as H0a.
  unfold hrAt.
  assert (Hfirst : Qleb t (a_tSec a0) = false) by (apply Qleb_gt; lra).
  rewrite Hfirst, List_last_default.
  destruct (last (a0 :: a1 :: rest)) as [lst|] eqn:Hlast;
    [|apply last_None in Hlast; discriminate].
  simpl default.
  destruct (Qleb (a_tSec lst) t) eqn:Hl.
  - apply Qleb_le in Hl.
    assert (Heq' : a0 :: a1 :: rest = (pre ++ [a]) ++ b :: post).
    { rewrite <- app_assoc. exact Heq. }
    destruct (strictly_ascending_last _ _ _ _ _ Hs Heq' Hlast)
      as [[-> _] | Hlt]; [|lra].
    exists (a_hr b). split; [reflexivity|].
    symmetry. apply spec_interpolate_right; [exact Hab | lra].
  - eexists. split; [reflexivity|].
    apply (hrAt_loop_interpolates a0 (a1 :: rest) _ t pre post a b Hw Heq Ha Hb).
Qed.

Lemma hrAt_first (anchors : list HrAnchor) (t : Q) (first : HrAnchor) :
  head anchors = Some first -> t <= a_tSec first ->
  hrAt anchors t = Some (a_hr first).
Proof.
  intros Hh Ht. destruct anchors as [|a0 rest]; [discriminate|].
  injection Hh as ->. destruct rest as [|a1 rest]; [reflexivity|].
  unfold hrAt. apply Qleb_le in Ht. rewrite Ht. reflexivity.
Qed.

Lemma hrAt_last (anchors : list HrAnchor) (t : Q) (lst : HrAnchor) :
  anchors_strictly_ascending anchors ->
  last anchors = Some lst -> a_tSec lst <= t ->
  hrAt anchors t = Some (a_hr lst).
Proof.
  intros Hs Hlast Ht. destruct anchors as [|a0 rest]; [discriminate|].
  destruct rest as [|a1 rest].
  - injection Hlast as ->. reflexivity.
  - destruct (strictly_ascending_last _ [] (a1 :: rest) a0 lst Hs eq_refl Hlast)
      as [[_ ?] | Hlt]; [discriminate|].
    unfold hrAt.
    assert (Hfirst : Qleb t (a_tSec a0) = false) by (apply Qleb_gt; lra).
    rewrite Hfirst, List_last_default, Hlast. simpl default.
    apply Qleb_le in Ht. rewrite Ht. reflexivity.
Qed.

(** At an anchor's own time the value is the anchor's. *)
Lemma hrAt_at_anchor (anchors pre post : list HrAnchor) (x : HrAnchor) (t : Q) :
  anchors_strictly_ascending anchors -> anchors = pre ++ x :: post ->
  t == a_tSec x ->
  exists v, hrAt anchors t = Some v /\ v == a_hr x.
Proof.
  intros Hs Heq Ht. induction pre as [|y pre' _] using rev_ind.
  - exists (a_hr x). split; [|reflexivity].
    apply hrAt_first; [rewrite Heq; reflexivity | lra].
  - rewrite <- app_assoc in Heq. simpl in Heq.
    pose proof (strictly_ascending_adjacent _ _ _ _ _ Hs Heq) as Hyx.
    destruct (hrAt_between anchors t y x Hs
                (ex_intro _ pre' (ex_intro _ post Heq)))
      as (v & Hv & Hi); [lra | lra |].
    exists v. split; [exact Hv|]. rewrite Hi.
    apply spec_interpolate_right; [exact Hyx | exact Ht].
Qed.

(** On the closed segment between two adjacent anchors [hrAt] is the
    interpolation line. *)
Lemma hrAt_on_segment (anchors : list HrAnchor) (t : Q) (a b : HrAnchor) :
  anchors_strictly_ascending anchors -> adjacent a b anchors ->
  a_tSec a <= t -> t <= a_tSec b ->
  exists v, hrAt anchors t = Some v /\ v == spec_interpolate a b t.
Proof.
  intros Hs Hadj Ha Hb. destruct (Qlt_le_dec (a_tSec a) t) as [Hlt | Hle].
  - apply hrAt_between; assumption.
  - destruct Hadj as (pre & post & Heq).
    pose proof (strictly_ascending_adjacent _ _ _ _ _ Hs Heq) as Hab.
    assert (Ht : t == a_tSec a) by lra.
    destruct (hrAt_at_anchor anchors pre (b :: post) a t Hs Heq Ht)
      as (v & Hv & Hva).
    exists v. split; [exact Hv|]. rewrite Hva. symmetry.
    apply spec_interpolate_left; assumption.
Qed.

Lemma hrAt_fit_enabled (opts : WorkoutExportOpts) (anchors : list HrAnchor)
  (t : Q) :
  includeHrSeries opts = true -> hrAt_fit opts anchors t = hrAt anchors t.
Proof.
  intros Hopt. unfold hrAt_fit, hrAt. rewrite Hopt.
  destruct anchors as [|a0 [|a1 rest]]; reflexivity.
Qed.

Lemma hrAt_fit_disabled (opts : WorkoutExportOpts) (anchors : list HrAnchor)
  (t : Q) :
  includeHrSeries opts = false -> hrAt_fit opts anchors t = None.
Proof. intros Hopt. unfold hrAt_fit. rewrite Hopt. reflexivity. Qed.

(** The anchors of the Activity Encoder are ascending. *)
Lemma fitHrAnchors_ascending (sortedSeries : list SeriesPoint) :
  anchors_ascending (fitHrAnchors sortedSeries).
Proof.
  unfold fitHrAnchors, anchors_ascending, ascending_by.
  pose proof (sort_by_tSec_ascending
                (filter (fun p => is_some (p_hr p) = true) sortedSeries)) as Hs.
  unfold series_ascending, ascending_by in Hs.
  induction Hs as [|p l Hs IH Hall]; simpl.
  - constructor.
  - destruct (anchor_of_point p) as [a|] eqn:Ea; [|exact IH].
    constructor; [exact IH|].
    apply Forall_forall. intros b Hb.
    apply list_elem_of_omap in Hb as (q & Hq & Eq).
    rewrite Forall_forall in Hall. specialize (Hall q Hq).
    unfold anchor_of_point in Ea, Eq.
    destruct (p_hr p); [|discriminate]. destruct (p_hr q); [|discriminate].
    injection Ea as <-. injection Eq as <-. exact Hall.
Qed.

(** The anchors of the reconstructor have pairwise distinct timestamps:
    they are the entries of a map keyed by the rounded time. *)
Lemma hrByT_set_key_in (m : list (Z * Q)) (k k' : Z) (v : Q) :
  k' ∈ map fst (hrByT_set m k v) -> k' = k \/ k' ∈ map fst m.
Proof.
  induction m as [|[k0 v0] m IH]; simpl.
  - intros Hk'. apply list_elem_of_singleton in Hk'. left. exact Hk'.
  - destruct (Z.eqb_spec k k0) as [-> | Hk]; simpl.
    + intros Hk'. right. exact Hk'.
    + rewrite !elem_of_cons. intros [-> | Hk']; [right; left; reflexivity|].
      destruct (IH Hk'); [left | right; right]; assumption.
Qed.

Lemma hrByT_set_keys (m : list (Z * Q)) (k : Z) (v : Q) :
  NoDup (map fst m) -> NoDup (map fst (hrByT_set m k v)).
Proof.
  induction m as [|[k0 v0] m IH]; simpl; intros Hnd.
  - apply NoDup_singleton.
  - apply NoDup_cons in Hnd as [Hk0 Hnd].
    destruct (Z.eqb_spec k k0) as [-> | Hk]; simpl.
    + apply NoDup_cons. split; assumption.
    + apply NoDup_cons. split; [|apply IH, Hnd].
      intros Hx. destruct (hrByT_set_key_in m k k0 v Hx) as [-> | Hx'];
        [congruence | exact (Hk0 Hx')].
Qed.

Lemma reconstructHrAnchors_strictly_ascending `{JsBuiltins}
  (hrSamples : list unknown) :
  anchors_strictly_ascending (reconstructHrAnchors hrSamples).
Proof.
  unfold reconstructHrAnchors.
  set (mk := fun '(tSec, hr) => {| a_tSec := inject_Z tSec; a_hr := hr |}).
  assert (Hnd : NoDup (map fst (fold_left hrByT_step hrSamples []))).
  { assert (Hgen : forall m, NoDup (map fst m) ->
                             NoDup (map fst (fold_left hrByT_step hrSamples m))).
    { induction hrSamples as [|h hs IH]; intros m Hm; simpl; [exact Hm|].
      apply IH. unfold hrByT_step.
      destruct (safeNumber _); [|exact Hm].
      destruct (safeNumber _); [|exact Hm].
      apply hrByT_set_keys, Hm. }
    apply Hgen. constructor. }
  generalize dependent (fold_left hrByT_step hrSamples []). intros m Hnd.
  rewrite <- (sort_by_map mk a_tSec).
  pose proof (sort_by_sorted (fun a => a_tSec (mk a)) m) as Hs.
  assert (Hnd' : NoDup (map fst (sort_by (fun a => a_tSec (mk a)) m))).
  { rewrite <- (sort_by_perm (fun a => a_tSec (mk a)) m). exact Hnd. }
  unfold anchors_strictly_ascending. unfold ascending_by in Hs.
  induction Hs as [|x l Hs IH Hall]; simpl.
  - constructor.
  - simpl in Hnd'. apply NoDup_cons in Hnd' as [Hx Hnd'].
    constructor; [apply IH, Hnd'|].
    apply Forall_map, Forall_forall. intros y Hy.
    rewrite Forall_forall in Hall. specialize (Hall y Hy).
    destruct x as [kx vx], y as [ky vy]. simpl in *.
    rewrite <- Zle_Qle in Hall. rewrite <- Zlt_Qlt.
    assert (kx <> ky).
    { intros ->. apply Hx. apply list_elem_of_fmap. exists (ky, vy). auto. }
    lia.
Qed.

(** The loop returns the code's own expression for the pair around
    [t]: the ratio is formed first and then scaled. *)
Lemma hrAt_loop_code (a : HrAnchor) (rest : list HrAnchor)
  (last_hr t : Q) (pre post : list HrAnchor) (x y : HrAnchor) :
  anchors_ascending (a :: rest) ->
  a :: rest = pre ++ x :: y :: post ->
  a_tSec x < t -> t <= a_tSec y ->
  hrAt_loop a rest last_hr t
  = a_hr x + (a_hr y - a_hr x) * ((t - a_tSec x) / (a_tSec y - a_tSec x)).
Proof.
  revert a pre. induction rest as [|b rest IH]; intros a pre Hs Heq Hx Hy.
  - destruct pre as [|? [|? ?]]; discriminate.
  - destruct pre as [|p pre]; simpl in Heq.
    + injection Heq as -> -> ->. simpl.
      assert (Hspan : Qleb (a_tSec y - a_tSec x) 0 = false).
      { apply Qleb_gt. lra. }
      apply Qleb_le in Hy. rewrite Hy, Hspan. reflexivity.
    + injection Heq as -> Heq.
      assert (Hs' : anchors_ascending (b :: rest)).
      { apply StronglySorted_inv in Hs. tauto. }
      pose proof (ascending_head_le a_tSec b x rest pre (y :: post) Hs' Heq)
        as Hbx.
      simpl.
      assert (Hb : Qleb t (a_tSec b) = false) by (apply Qleb_gt; lra).
      rewrite Hb. apply (IH b pre Hs' Heq Hx Hy).
Qed.

(** After the first anchor and at or after the last one, whatever lies
    in between. *)
Lemma hrAt_last_clamp (anchors : list HrAnchor) (t : Q) (first lst : HrAnchor) :
  head anchors = Some first -> last anchors = Some lst ->
  a_tSec first < t -> a_tSec lst <= t ->
  hrAt anchors t = Some (a_hr lst).
Proof.
  intros Hhead Hlast Hfirst Hlst.
  destruct anchors as [|a0 rest]; [discriminate|].
  injection Hhead as ->.
  destruct rest as [|a1 rest]; [injection Hlast as ->; reflexivity|].
  unfold hrAt.
  assert (H1 : Qleb t (a_tSec first) = false) by (apply Qleb_gt; lra).
  rewrite H1, List_last_default, Hlast. simpl default.
  apply Qleb_le in Hlst. rewrite Hlst. reflexivity.
Qed.

(** Before the last anchor, inside a pair of adjacent anchors. *)
Lemma hrAt_between_code (anchors : list HrAnchor) (t : Q)
  (a b lst : HrAnchor) :
  anchors_ascending anchors -> adjacent a b anchors ->
  last anchors = Some lst ->
  a_tSec a < t -> t <= a_tSec b -> t < a_tSec lst ->
  hrAt anchors t
  = Some (a_hr a + (a_hr b - a_hr a) * ((t - a_tSec a) / (a_tSec b - a_tSec a))).
Proof.
  intros Hs (pre & post & Heq) Hlast Ha Hb Hlst.
  destruct anchors as [|a0 rest]; [discriminate|].
  destruct rest as [|a1 rest]; [destruct pre as [|? [|? ?]]; discriminate|].
  pose proof (ascending_head_le a_tSec a0 a (a1 :: rest) pre (b :: post) Hs Heq)
    as H0a.
  unfold hrAt.
  assert (H1 : Qleb t (a_tSec a0) = false) by (apply Qleb_gt; lra).
  rewrite H1, List_last_default, Hlast. simpl default.
  assert (H2 : Qleb (a_tSec lst) t = false) by (apply Qleb_gt; lra).
  rewrite H2. f_equal.
  apply (hrAt_loop_code a0 (a1 :: rest) _ t pre post a b Hs Heq Ha Hb).
Qed.

(** C2 (as the code has it).  For anchors in ascending order of [tSec]
    (timestamps may repeat) and every time [t], [hrAt] decides in this
    order: undefined for no anchor; the single anchor's value for one
    anchor; the first anchor's value for [t] at or before the first
    anchor; otherwise the last anchor's value for [t] at or after the
    last anchor; otherwise, for [t] in [(a.tSec, b.tSec]] between
    adjacent anchors [a] and [b], the interpolation
    [a.hr + (b.hr - a.hr) * ((t - a.tSec) / (b.tSec - a.tSec))], the
    ratio being formed first.  The loop returns [b.hr] when it stops at
    a pair whose span is not positive, which never happens for
    [a.tSec < t <= b.tSec].  Where it interpolates between two adjacent
    anchors [hrAt] is monotonic.  When no two anchors share a
    timestamp the last anchor's value is returned for every [t] at or
    after it, and, the anchors' values being whole numbers, [hrAt] is
    monotonic on the whole segment from [a.tSec] to [b.tSec], the two
    ends included.  The Activity Encoder's copy agrees with [hrAt] when
    the HR option is on and returns undefined when it is off. *)
Theorem hrAt_interpolation (anchors : list HrAnchor) (t : Q) :
  anchors_ascending anchors ->
  (anchors = [] -> hrAt anchors t = None) /\
  (forall a, anchors = [a] -> hrAt anchors t = Some (a_hr a)) /\
  (forall first, head anchors = Some first -> t <= a_tSec first ->
     hrAt anchors t = Some (a_hr first)) /\
  (forall first lst, head anchors = Some first -> last anchors = Some lst ->
     a_tSec first < t -> a_tSec lst <= t ->
     hrAt anchors t = Some (a_hr lst)) /\
  (forall a b lst, adjacent a b anchors -> last anchors = Some lst ->
     a_tSec a < t -> t <= a_tSec b -> t < a_tSec lst ->
     hrAt anchors t
     = Some (a_hr a
             + (a_hr b - a_hr a) * ((t - a_tSec a) / (a_tSec b - a_tSec a))) /\
     ~ a_tSec b == a_tSec a) /\
  (forall a b rest last_hr,
     t <= a_tSec b -> a_tSec b - a_tSec a <= 0 ->
     hrAt_loop a (b :: rest) last_hr t = a_hr b) /\
  (forall a b lst t1 t2 v1 v2,
     adjacent a b anchors -> last anchors = Some lst ->
     a_tSec a < t1 -> t1 <= t2 -> t2 <= a_tSec b -> t2 < a_tSec lst ->
     hrAt anchors t1 = Some v1 -> hrAt anchors t2 = Some v2 ->
     (a_hr a <= a_hr b -> v1 <= v2) /\ (a_hr b <= a_hr a -> v2 <= v1)) /\
  (anchors_strictly_ascending anchors ->
   forall lst, last anchors = Some lst -> a_tSec lst <= t ->
     hrAt anchors t = Some (a_hr lst)) /\
  (anchors_strictly_ascending anchors ->
   Forall (fun a => whole_number (a_hr a)) anchors ->
   forall a b t1 t2 v1 v2, adjacent a b anchors ->
     a_tSec a <= t1 -> t1 <= t2 -> t2 <= a_tSec b ->
     hrAt anchors t1 = Some v1 -> hrAt anchors t2 = Some v2 ->
     (a_hr a <= a_hr b -> v1 <= v2) /\ (a_hr b <= a_hr a -> v2 <= v1)) /\
  (forall opts,
     (includeHrSeries opts = true ->
      hrAt_fit opts anchors t = hrAt anchors t) /\
     (includeHrSeries opts = false -> hrAt_fit opts anchors t = None)).
Proof.
  intros Hs.
  split; [intros ->; reflexivity|].
  split; [intros a ->; reflexivity|].
  split; [intros first; apply hrAt_first|].
  split; [intros first lst; apply hrAt_last_clamp|].
  split.
  { intros a b lst Hadj Hlast Ha Hb Hlst.
    split; [apply (hrAt_between_code anchors t a b lst); assumption | lra]. }
  split; [intros a b rest last_hr; apply hrAt_loop_degenerate|].
  split.
  { intros a b lst t1 t2 v1 v2 Hadj Hlast Ha H12 Hb Hlst Hv1 Hv2.
    rewrite (hrAt_between_code anchors t1 a b lst Hs Hadj Hlast) in Hv1
      by lra.
    rewrite (hrAt_between_code anchors t2 a b lst Hs Hadj Hlast) in Hv2
      by lra.
    injection Hv1 as <-. injection Hv2 as <-.
    assert (Hab : a_tSec a < a_tSec b) by lra.
    assert (Hne : ~ a_tSec b - a_tSec a == 0) by lra.
    destruct (spec_interpolate_mono a b t1 t2 Hab H12) as [Hup Hdown].
    rewrite !(spec_interpolate_code a b _ Hne).
    split; intros Hhr; auto. }
  split; [intros Hstrict lst; apply hrAt_last, Hstrict|].
  split; [|intros opts; split; [apply hrAt_fit_enabled | apply hrAt_fit_disabled]].
  intros Hstrict _ a b t1 t2 v1 v2 Hadj Ha H12 Hb Hv1 Hv2.
  destruct (hrAt_on_segment anchors t1 a b Hstrict Hadj) as (u1 & Hu1 & Hi1);
    [lra | lra |].
  destruct (hrAt_on_segment anchors t2 a b Hstrict Hadj) as (u2 & Hu2 & Hi2);
    [lra | lra |].
  rewrite Hv1 in Hu1. rewrite Hv2 in Hu2.
  injection Hu1 as <-. injection Hu2 as <-.
  destruct Hadj as (pre & post & Heq).
  pose proof (strictly_ascending_adjacent _ _ _ _ _ Hstrict Heq) as Hab.
  destruct (spec_interpolate_mono a b t1 t2 Hab H12) as [Hup Hdown].
  split; intros Hhr; rewrite Hi1, Hi2; auto.
Qed.

(** Anchors (0, 100), (10, 120) and (10, 140), two of them at the same
    time: halfway to 10 the value is interpolated towards 120, and at 10
    it is the last anchor's 140. *)
Lemma hrAt_interpolation_witness :
  hrAt [sample_anchor 0 100; sample_anchor 10 120; sample_anchor 10 140] 5
  = Some (100 + (120 - 100) * ((5 - 0) / (10 - 0))) /\
  hrAt [sample_anchor 0 100; sample_anchor 10 120; sample_anchor 10 140] 10
  = Some 140.
Proof.
  assert (Hs : anchors_ascending
                 [sample_anchor 0 100; sample_anchor 10 120;
                  sample_anchor 10 140]).
  { repeat constructor; discriminate. }
  split.
  - destruct (hrAt_interpolation _ 5 Hs) as (_ & _ & _ & _ & Hbetween & _).
    destruct (Hbetween (sample_anchor 0 100) (sample_anchor 10 120)
                (sample_anchor 10 140)
                (ex_intro _ [] (ex_intro _ [sample_anchor 10 140] eq_refl))
                eq_refl ltac:(reflexivity) ltac:(discriminate)
                ltac:(reflexivity))
      as [Hv _].
    exact Hv.
  - destruct (hrAt_interpolation _ 10 Hs) as (_ & _ & _ & Hlast & _).
    exact (Hlast (sample_anchor 0 100) (sample_anchor 10 140) eq_refl eq_refl
             ltac:(reflexivity) ltac:(discriminate)).
Defined.

(** C2 as stated, for anchors merely sorted ascending, fails when two
    anchors share a timestamp: at that time the first anchor's value is
    returned, not the last one's. *)
Lemma hrAt_duplicate_timestamps_refuted :
  ~ (forall (anchors : list HrAnchor) (t : Q) (lst : HrAnchor),
       anchors_ascending anchors ->
       last anchors = Some lst -> a_tSec lst <= t ->
       exists v, hrAt anchors t = Some v /\ v == a_hr lst).
Proof.
  intros Hclaim.
  destruct (Hclaim [sample_anchor 0 100; sample_anchor 0 140] 0
              (sample_anchor 0 140))
    as (v & Hv & Hl).
  - repeat constructor; discriminate.
  - reflexivity.
  - discriminate.
  - vm_compute in Hv. injection Hv as <-. vm_compute in Hl. discriminate.
Qed.

(* ------------------------------------------------------------------ *)
(** ** Order of the FIT messages *)

Lemma fit_for_writes {A : Type} (f : A -> FitMessage) (xs : list A)
  (fit : FitWriter) :
  fit_for xs (fun x => writeMessage (f x)) fit = (tt, fit ++ map f xs).
Proof.
  revert fit. induction xs as [|x xs IH]; intros fit; simpl.
  - unfold fit_ret. rewrite app_nil_r. reflexivity.
  - unfold fit_bind, writeMessage. rewrite IH, <- app_assoc. reflexivity.
Qed.

Lemma seq_ascending (start len : nat) : StronglySorted le (seq start len).
Proof.
  revert start. induction len as [|len IH]; intros start; simpl.
  - constructor.
  - constructor; [apply IH|].
    apply Forall_forall. intros x Hx. apply elem_of_seq in Hx. lia.
Qed.

Lemma loop_indices_ascending (n : Z) : StronglySorted Z.le (loop_indices n).
Proof.
  unfold loop_indices.
  apply (StronglySorted_map le Z.le Z.of_nat); [intros; lia|].
  apply seq_ascending.
Qed.

Lemma fitRecords_offsets_ascending (w : Workout) (opts : WorkoutExportOpts) :
  StronglySorted Z.le (map r_tSec (fitRecords w opts)).
Proof.
  unfold fitRecords. destruct (hasSeries w).
  - rewrite fitForwardFill_tSec, fitSeriesRecords_offsets.
    apply emitted_offsets_sorted, sort_by_tSec_ascending.
  - unfold fitSyntheticRecords. rewrite map_map. simpl.
    apply (StronglySorted_map Z.le Z.le); [intros; lia|].
    apply loop_indices_ascending.
Qed.

Lemma fitRecords_length (w : Workout) (opts : WorkoutExportOpts) :
  length (fitRecords w opts)
  = match w_series w with
    | Some (p :: series) => length (p :: series)
    | _ => Z.to_nat (syntheticCount (totalSecondsOf w))
    end.
Proof.
  unfold fitRecords, hasSeries.
  destruct (w_series w) as [[|p series]|].
  - unfold fitSyntheticRecords. rewrite length_map. apply loop_indices_length.
  - erewrite <- Forall2_length; [|apply fitForwardFill_same_but_hr].
    unfold fitSeriesRecords, sort_by_tSec.
    rewrite length_map. apply sort_by_length.
  - unfold fitSyntheticRecords. rewrite length_map. apply loop_indices_length.
Qed.

(** The forward-fill pass over records that all lack an HR, and the
    cases of [hrAt]: it is undefined for no anchor only. *)
Lemma fillHrLoop_all_none (prev : Z) (records : list FitRecord) :
  Forall (fun r => r_hr r = None) records ->
  fillHrLoop prev records = map (fun r => set_hr r prev) records.
Proof.
  induction 1 as [|r rs Hr _ IH]; simpl; [reflexivity|].
  rewrite Hr, IH. reflexivity.
Qed.

Lemma fillHrLoop_all_known (prev : Z) (records : list FitRecord) :
  Forall (fun r => r_hr r <> None) records -> fillHrLoop prev records = records.
Proof.
  intros Hall. revert prev.
  induction Hall as [|r rs Hr _ IH]; intros prev; simpl; [reflexivity|].
  destruct (r_hr r) as [v|]; [|congruence]. rewrite IH. reflexivity.
Qed.

Lemma firstKnownHr_none (records : list FitRecord) :
  Forall (fun r => r_hr r = None) records -> firstKnownHr records = None.
Proof.
  induction 1 as [|r rs Hr _ IH]; simpl; [reflexivity|].
  rewrite Hr. exact IH.
Qed.

Lemma hrAt_defined (anchors : list HrAnchor) (t : Q) :
  anchors <> [] -> is_some (hrAt anchors t) = true.
Proof.
  intros Hne. destruct anchors as [|a0 [|a1 rest]];
    [congruence | reflexivity |].
  unfold hrAt. destruct (Qleb t (a_tSec a0)); [reflexivity|].
  destruct (Qleb _ t); reflexivity.
Qed.

Lemma hrAt_fit_nil (opts : WorkoutExportOpts) (t : Q) :
  hrAt_fit opts [] t = None.
Proof. unfold hrAt_fit. destruct (includeHrSeries opts); reflexivity. Qed.

Lemma fallbackHrOf_none (avgHr maxHr : option Q) :
  fallbackHrOf avgHr maxHr None = option_map Math_round (avgHr ?? maxHr).
Proof. destruct avgHr, maxHr; reflexivity. Qed.

Lemma record_timestamps_app (l1 l2 : list FitMessage) :
  record_timestamps (l1 ++ l2) = record_timestamps l1 ++ record_timestamps l2.
Proof. apply omap_app. Qed.

Lemma record_timestamps_records (startMs : Z) (records : list FitRecord) :
  record_timestamps (map (recordMessage startMs) records)
  = map (fun r => (startMs + r_tSec r * 1000)%Z) records.
Proof.
  induction records as [|r rs IH]; [reflexivity|].
  cbn. f_equal. exact IH.
Qed.

(** The records of the series path, field by field, after the
    forward-fill pass. *)
Lemma fitRecords_of_series (w : Workout) (opts : WorkoutExportOpts)
  (p : SeriesPoint) (series : list SeriesPoint) :
  w_series w = Some (p :: series) ->
  let sorted := sort_by_tSec (p :: series) in
  let seriesTotalSec := seriesTotalSecOf (totalSecondsOf w) sorted in
  let hrAnchors := fitHrAnchors sorted in
  let avgHr := mget (w_metrics w) "AvgHr" in
  let maxHr := mget (w_metrics w) "MaxHr" in
  fitRecords w opts
  = map (fun q =>
           let t := Z.max 0 (Math_round (p_tSec q)) in
           {| r_tSec := t;
              r_hr :=
                if includeHrSeries opts then
                  match hrAt hrAnchors (inject_Z t) with
                  | Some v => Some (Math_round v)
                  | None => option_map Math_round (avgHr ?? maxHr)
                  end
                else None;
              r_cadence :=
                if includeCadenceSeries opts then
                  match p_cadence q with
                  | Some c => Some (Math_round c)
                  | None => option_map Math_round (cadenceDefault w opts)
                  end
                else None;
              r_watts :=
                if includePowerSeries opts then
                  match p_watts q with
                  | Some x => Some (Math_round x)
                  | None => wattsDefault w opts
                  end
                else None;
              r_alt := seriesAlt opts (totalVerticalOf w opts) seriesTotalSec t q;
              r_dist := seriesDist (totalDistanceOf w opts) seriesTotalSec t |})
        sorted.
Proof.
  intros Hw sorted seriesTotalSec hrAnchors avgHr maxHr.
  rewrite (fitRecords_series w opts (p :: series) Hw ltac:(discriminate)).
  fold sorted. unfold fitForwardFill, fitSeriesRecords.
  fold hrAnchors seriesTotalSec avgHr maxHr.
  destruct (includeHrSeries opts) eqn:Hopt.
  - assert (Hlen : (0 <? length (map (fitSeriesRecord w opts hrAnchors
                                        seriesTotalSec) sorted))%nat = true).
    { rewrite length_map. unfold sorted, sort_by_tSec.
      rewrite sort_by_length. reflexivity. }
    rewrite Hlen. cbn [andb]. unfold forwardFillHr.
    destruct hrAnchors as [|a0 anchors'] eqn:Ea.
    + assert (Hnone : Forall (fun r => r_hr r = None)
                        (map (fitSeriesRecord w opts [] seriesTotalSec) sorted)).
      { apply Forall_map, Forall_forall. intros q _.
        unfold fitSeriesRecord. cbn [r_hr].
        rewrite hrAt_fit_nil, Hopt. reflexivity. }
      rewrite (firstKnownHr_none _ Hnone), fallbackHrOf_none.
      destruct (option_map Math_round (avgHr ?? maxHr)) as [f|] eqn:Ef.
      * rewrite (fillHrLoop_all_none _ _ Hnone), map_map.
        apply map_ext. intros q. unfold fitSeriesRecord, set_hr.
        cbn [r_tSec r_hr r_cadence r_watts r_alt r_dist hrAt].
        reflexivity.
      * apply map_ext. intros q. unfold fitSeriesRecord.
        rewrite hrAt_fit_nil, Hopt. reflexivity.
    + assert (Hdef : forall t, is_some (hrAt (a0 :: anchors') t) = true).
      { intros t. apply hrAt_defined. discriminate. }
      assert (Hsame : map (fitSeriesRecord w opts (a0 :: anchors')
                             seriesTotalSec) sorted
                      = map (fun q =>
           let t := Z.max 0 (Math_round (p_tSec q)) in
           {| r_tSec := t;
              r_hr :=
                  match hrAt (a0 :: anchors') (inject_Z t) with
                  | Some v => Some (Math_round v)
                  | None => option_map Math_round (avgHr ?? maxHr)
                  end;
              r_cadence :=
                if includeCadenceSeries opts then
                  match p_cadence q with
                  | Some c => Some (Math_round c)
                  | None => option_map Math_round (cadenceDefault w opts)
                  end
                else None;
              r_watts :=
                if includePowerSeries opts then
                  match p_watts q with
                  | Some x => Some (Math_round x)
                  | None => wattsDefault w opts
                  end
                else None;
              r_alt := seriesAlt opts (totalVerticalOf w opts) seriesTotalSec t q;
              r_dist := seriesDist (totalDistanceOf w opts) seriesTotalSec t |})
        sorted).
      { apply map_ext. intros q. unfold fitSeriesRecord.
        rewrite (hrAt_fit_enabled opts _ _ Hopt), Hopt. cbv zeta.
        specialize (Hdef (inject_Z (Z.max 0 (Math_round (p_tSec q))))).
        destruct (hrAt (a0 :: anchors') _); [reflexivity | discriminate]. }
      rewrite Hsame.
      assert (Hknown : Forall (fun r => r_hr r <> None)
                         (map (fun q =>
           let t := Z.max 0 (Math_round (p_tSec q)) in
           {| r_tSec := t;
              r_hr :=
                  match hrAt (a0 :: anchors') (inject_Z t) with
                  | Some v => Some (Math_round v)
                  | None => option_map Math_round (avgHr ?? maxHr)
                  end;
              r_cadence :=
                if includeCadenceSeries opts then
                  match p_cadence q with
                  | Some c => Some (Math_round c)
                  | None => option_map Math_round (cadenceDefault w opts)
                  end
                else None;
              r_watts :=
                if includePowerSeries opts then
                  match p_watts q with
                  | Some x => Some (Math_round x)
                  | None => wattsDefault w opts
                  end
                else None;
              r_alt := seriesAlt opts (totalVerticalOf w opts) seriesTotalSec t q;
              r_dist := seriesDist (totalDistanceOf w opts) seriesTotalSec t |})
        sorted)).
      { apply Forall_map, Forall_forall. intros q _.
        cbv beta zeta. cbn [r_hr].
        specialize (Hdef (inject_Z (Z.max 0 (Math_round (p_tSec q))))).
        destruct (hrAt (a0 :: anchors') _); discriminate. }
      destruct (fallbackHrOf _ _ _); [|reflexivity].
      apply fillHrLoop_all_known, Hknown.
  - cbn [andb]. apply map_ext. intros q. unfold fitSeriesRecord.
    rewrite Hopt. reflexivity.
Qed.

(** C5 (as the code has it).  The Activity Encoder writes, in this
    order: the file identification; with enhanced compatibility the file
    creator, a device info and the timer-start event; one record per
    sample point, in the order of the sample points; the lap, the
    session and the activity summaries; and with enhanced compatibility
    the timer-stop event and a device info.  The sample points are the
    series points in ascending order of [tSec], or the synthetic points
    when there is no series.  The record of a series point carries the
    start time plus the point's rounded, non-negative offset, the
    distance and altitude of that offset, the point's own cadence and
    power or the workout defaults, and the HR interpolated at the
    offset (the rounded average or maximum HR when no point has an HR);
    the record of the synthetic point [i] carries the offset
    [min(totalSeconds, 5 i)] and the workout-level values.  The
    timestamps of the records never decrease; points with the same
    offset share a timestamp. *)
Theorem fit_message_order `{JsBuiltins} (clk : Clock) (w : Workout)
  (opts : WorkoutExportOpts) (enhancedCompatibility : bool) :
  let startMs := fitStart clk w in
  let records := fitRecords w opts in
  let summary := fitSummary clk w opts records in
  let endMs := s_timestamp summary in
  let sport := pickFitSport w in
  let recordMessages := map (recordMessage startMs) records in
  let totalSeconds := totalSecondsOf w in
  let avgHr := mget (w_metrics w) "AvgHr" in
  let maxHr := mget (w_metrics w) "MaxHr" in
  workoutToFIT clk w opts enhancedCompatibility
  = [Msg_file_id startMs] ++
    (if enhancedCompatibility
     then [Msg_file_creator; Msg_device_info startMs;
           Msg_event startMs timer_start]
     else []) ++
    recordMessages ++
    [Msg_lap summary; Msg_session summary (fst sport) (snd sport);
     Msg_activity endMs (s_total_timer_time summary)] ++
    (if enhancedCompatibility
     then [Msg_event endMs timer_stop_all; Msg_device_info endMs]
     else []) /\
  match w_series w with
  | Some (p :: series) =>
      let sorted := sort_by_tSec (p :: series) in
      let seriesTotalSec := seriesTotalSecOf totalSeconds sorted in
      let hrAnchors := fitHrAnchors sorted in
      series_ascending sorted /\ Permutation (p :: series) sorted /\
      Forall2 (fun q m =>
                 let t := Z.max 0 (Math_round (p_tSec q)) in
                 m = Msg_record (startMs + t * 1000)%Z
                       (match totalDistanceOf w opts with
                        | Some d =>
                            if Qltb 0 seriesTotalSec
                            then d * (inject_Z t / seriesTotalSec) else 0
                        | None => 0
                        end)
                       (if includeHrSeries opts then
                          match hrAt hrAnchors (inject_Z t) with
                          | Some v => Some (Math_round v)
                          | None => option_map Math_round (avgHr ?? maxHr)
                          end
                        else None)
                       (if includeCadenceSeries opts then
                          match p_cadence q with
                          | Some c => Some (Math_round c)
                          | None =>
                              option_map Math_round (cadenceDefault w opts)
                          end
                        else None)
                       (if includePowerSeries opts then
                          match p_watts q with
                          | Some x => Some (Math_round x)
                          | None => wattsDefault w opts
                          end
                        else None)
                       (if includeVerticalAsAltitude opts then
                          match p_verticalM q, totalVerticalOf w opts with
                          | Some v, _ => Some v
                          | None, Some tv =>
                              if Qltb 0 seriesTotalSec
                              then Some (tv * (inject_Z t / seriesTotalSec))
                              else None
                          | None, None => None
                          end
                        else None))
              sorted recordMessages
  | _ =>
      Forall2 (fun i m =>
                 let t := Z.min totalSeconds (i * 5) in
                 m = Msg_record (startMs + t * 1000)%Z
                       (match totalDistanceOf w opts with
                        | Some d =>
                            if (0 <? totalSeconds)%Z
                            then d * (inject_Z t / inject_Z totalSeconds)
                            else 0
                        | None => 0
                        end)
                       (if includeHrSeries opts
                           && (is_some avgHr || is_some maxHr)
                        then option_map Math_round (avgHr ?? maxHr)
                        else None)
                       (option_map Math_round (cadenceDefault w opts))
                       (wattsDefault w opts)
                       (match totalVerticalOf w opts with
                        | Some tv =>
                            if (0 <? totalSeconds)%Z
                            then Some (tv * (inject_Z t / inject_Z totalSeconds))
                            else None
                        | None => None
                        end))
              (loop_indices (syntheticCount totalSeconds)) recordMessages
  end /\
  length recordMessages
  = match w_series w with
    | Some (p :: series) => length (p :: series)
    | _ => Z.to_nat (syntheticCount totalSeconds)
    end /\
  record_timestamps (workoutToFIT clk w opts enhancedCompatibility)
  = map (fun r => (startMs + r_tSec r * 1000)%Z) records /\
  StronglySorted Z.le
    (record_timestamps (workoutToFIT clk w opts enhancedCompatibility)).
Proof.
  intros startMs records summary endMs sport recordMessages totalSeconds
    avgHr maxHr.
  assert (Hlog : workoutToFIT clk w opts enhancedCompatibility
    = [Msg_file_id startMs] ++
      (if enhancedCompatibility
       then [Msg_file_creator; Msg_device_info startMs;
             Msg_event startMs timer_start]
       else []) ++
      recordMessages ++
      [Msg_lap summary; Msg_session summary (fst sport) (snd sport);
       Msg_activity endMs (s_total_timer_time summary)] ++
      (if enhancedCompatibility
       then [Msg_event endMs timer_stop_all; Msg_device_info endMs]
       else [])).
  { unfold workoutToFIT, workoutToFIT_body, fitWriteHeader, fitWriteBody.
    fold startMs records summary endMs sport.
    unfold fit_bind, fit_when, fit_ret.
    destruct enhancedCompatibility; simpl; rewrite fit_for_writes; simpl;
      rewrite <- ?app_assoc; reflexivity. }
  assert (Hts : record_timestamps (workoutToFIT clk w opts enhancedCompatibility)
                = map (fun r => (startMs + r_tSec r * 1000)%Z) records).
  { rewrite Hlog, !record_timestamps_app. unfold recordMessages.
    rewrite record_timestamps_records.
    destruct enhancedCompatibility; cbn; rewrite app_nil_r; reflexivity. }
  split; [exact Hlog|].
  split.
  { assert (Hsyn : hasSeries w = false ->
      Forall2 (fun i m =>
                 let t := Z.min totalSeconds (i * 5) in
                 m = Msg_record (startMs + t * 1000)%Z
                       (match totalDistanceOf w opts with
                        | Some d =>
                            if (0 <? totalSeconds)%Z
                            then d * (inject_Z t / inject_Z totalSeconds)
                            else 0
                        | None => 0
                        end)
                       (if includeHrSeries opts
                           && (is_some avgHr || is_some maxHr)
                        then option_map Math_round (avgHr ?? maxHr)
                        else None)
                       (option_map Math_round (cadenceDefault w opts))
                       (wattsDefault w opts)
                       (match totalVerticalOf w opts with
                        | Some tv =>
                            if (0 <? totalSeconds)%Z
                            then Some (tv * (inject_Z t / inject_Z totalSeconds))
                            else None
                        | None => None
                        end))
              (loop_indices (syntheticCount totalSeconds)) recordMessages).
    { intros Hno. unfold recordMessages, records, fitRecords.
      rewrite Hno. unfold fitSyntheticRecords. rewrite map_map.
      apply Forall2_fmap_r, Forall_Forall2_diag, Forall_forall.
      intros i _. reflexivity. }
    destruct (w_series w) as [[|p series]|] eqn:Hw.
    - apply Hsyn. unfold hasSeries. rewrite Hw. reflexivity.
    - cbv zeta.
      split; [apply sort_by_tSec_ascending|].
      split; [apply sort_by_perm|].
      unfold recordMessages, records.
      pose proof (fitRecords_of_series w opts p series Hw) as Hrec.
      cbv zeta in Hrec. rewrite Hrec, map_map.
      apply Forall2_fmap_r, Forall_Forall2_diag, Forall_forall.
      intros q _. reflexivity.
    - apply Hsyn. unfold hasSeries. rewrite Hw. reflexivity. }
  split.
  { unfold recordMessages. rewrite length_map. apply fitRecords_length. }
  split; [exact Hts|].
  rewrite Hts, <- (map_map r_tSec (fun t => (startMs + t * 1000)%Z)).
  apply (StronglySorted_map Z.le Z.le); [intros; lia|].
  apply fitRecords_offsets_ascending.
Qed.

(** C5 as stated in the specification, with the timestamps of the records
    strictly ascending, fails: without a series and with no duration
    the two synthetic points are both at offset 0, and their records
    carry the same timestamp. *)
Lemma fit_record_timestamps_tie_refuted :
  ~ (forall (clk : Clock) (w : Workout) (opts : WorkoutExportOpts)
       (enhancedCompatibility : bool),
       StronglySorted Z.lt
         (record_timestamps
            (@workoutToFIT sample_builtins clk w opts enhancedCompatibility))).
Proof.
  intros Hclaim.
  specialize (Hclaim (sample_clock 0)
                (sample_workout (Some sample_iso) (Some 0) None)
                sample_opts false).
  vm_compute in Hclaim.
  apply StronglySorted_inv in Hclaim as [_ Hlt].
  apply Forall_cons in Hlt as [Hlt _]. vm_compute in Hlt. discriminate.
Qed.

(* ------------------------------------------------------------------ *)
(** ** The indoor normalizer *)

Lemma mget_mset (m : Metrics) (k k' : string) (v : Q) :
  mget (mset m k v) k' = if String.eqb k' k then Some v else mget m k'.
Proof.
  induction m as [|[k0 v0] m IH]; simpl.
  - destruct (String.eqb k' k); reflexivity.
  - destruct (String.eqb_spec k k0) as [-> | Hk]; simpl.
    + destruct (String.eqb k' k0); reflexivity.
    + rewrite IH. destruct (String.eqb_spec k' k0) as [-> | Hk'].
      * destruct (String.eqb_spec k0 k); [congruence | reflexivity].
      * reflexivity.
Qed.

(** *** The calls and their exceptions *)

Lemma coalesce_nullish (a b : unknown) :
  is_nullish a = true -> coalesce a b = b.
Proof. unfold coalesce. intros ->. reflexivity. Qed.

Lemma coalesce_present (a b : unknown) :
  is_nullish a = false -> coalesce a b = a.
Proof. unfold coalesce. intros ->. reflexivity. Qed.

Lemma is_nullish_returns (a : unknown) :
  is_nullish a = true -> String_returns a = true.
Proof. destruct a; try discriminate; reflexivity. Qed.

(** Case analysis on the string conversions of a callback, in the order
    in which it makes them. *)
Ltac outcome_cases :=
  cbn [Outcome_bind String_returns andb];
  repeat first
    [ reflexivity
    | match goal with
      | |- context [Outcome_bind (if ?c then _ else _) _] =>
          destruct c; cbn [Outcome_bind String_returns andb]
      end ].

Lemma Outcome_all_imap {A : Type} (callback : nat -> unknown -> Outcome A)
  (f : nat -> unknown -> A) (ok : unknown -> bool) (items : list unknown) :
  (forall i raw, callback i raw = if ok raw then Normal (f i raw) else Throw) ->
  Array_map_call callback items
  = if forallb ok items then Normal (imap f items) else Throw.
Proof.
  unfold Array_map_call. revert callback f.
  induction items as [|x items IH]; intros callback f Hc; simpl;
    [reflexivity|].
  rewrite Hc. destruct (ok x); simpl; [|reflexivity].
  rewrite (IH (callback ∘ S) (f ∘ S)) by (intros i raw; apply Hc).
  destruct (forallb ok items); reflexivity.
Qed.

Lemma String_returns_default (a : unknown) (s : string) :
  String_returns (coalesce a (JStr s)) = String_returns a.
Proof. destruct a; reflexivity. Qed.

Lemma String_returns_truthy (a : unknown) (s : string) :
  String_returns (if truthy a then a else JStr s) = String_returns a.
Proof.
  destruct a; simpl; try reflexivity;
    match goal with |- context [if ?c then _ else _] => destruct c end;
    reflexivity.
Qed.

Section NormalizerCallFacts.
Context `{JsBuiltins}.

(** The indoor callback returns the workout of [indoorWorkout], or
    throws when one of its string conversions does. *)
Lemma indoorWorkout_call_cases (idx : nat) (raw : unknown) :
  indoorWorkout_call idx raw
  = if indoor_strings_convert raw then Normal (indoorWorkout idx raw)
    else Throw.
Proof.
  unfold indoorWorkout_call, indoorWorkout, indoor_strings_convert,
    String_call.
  cbv zeta. rewrite !String_returns_default, String_returns_truthy.
  destruct (is_nullish (prop (asRecord raw) "id")) eqn:Eid.
  - rewrite (is_nullish_returns _ Eid), !(coalesce_nullish _ _ Eid).
    outcome_cases.
  - rewrite !(coalesce_present _ _ Eid). outcome_cases.
Qed.

Lemma extractWorkoutsFromIndoorJSON_call_cases (obj : unknown) :
  extractWorkoutsFromIndoorJSON_call obj
  = if forallb indoor_strings_convert
         (match obj with JArr items => items | _ => [] end)
    then Normal (extractWorkoutsFromIndoorJSON obj) else Throw.
Proof.
  unfold extractWorkoutsFromIndoorJSON_call, extractWorkoutsFromIndoorJSON.
  apply Outcome_all_imap, indoorWorkout_call_cases.
Qed.

(** The outdoor callback, likewise. *)
Lemma outdoorWorkout_call_cases (idx : nat) (raw : unknown) :
  outdoorWorkout_call idx raw
  = if outdoor_strings_convert raw then Normal (outdoorWorkout idx raw)
    else Throw.
Proof.
  unfold outdoorWorkout_call, outdoorWorkout, outdoor_strings_convert,
    String_call.
  cbv zeta.
  set (startedAt := coalesce (prop (asRecord raw) "performedDate")
                      (prop (asRecord raw) "on")).
  rewrite !String_returns_default.
  destruct (is_nullish (prop (asRecord raw) "id")) eqn:Eid.
  - rewrite !(coalesce_nullish (prop (asRecord raw) "id") _ Eid).
    destruct (is_nullish (prop (asRecord raw) "uuid")) eqn:Euuid.
    + rewrite (is_nullish_returns _ Euuid), !(coalesce_nullish _ _ Euuid).
      outcome_cases.
    + rewrite !(coalesce_present _ _ Euuid). outcome_cases.
  - rewrite !(coalesce_present (prop (asRecord raw) "id") _ Eid).
    outcome_cases.
Qed.

Lemma extractWorkoutsFromOutdoorJSON_call_cases (obj : unknown) :
  extractWorkoutsFromOutdoorJSON_call obj
  = if forallb outdoor_strings_convert
         (match outdoorItems obj with JArr items => items | _ => [] end)
    then Normal (extractWorkoutsFromOutdoorJSON obj) else Throw.
Proof.
  unfold extractWorkoutsFromOutdoorJSON_call, extractWorkoutsFromOutdoorJSON.
  destruct (outdoorItems obj); try reflexivity.
  apply Outcome_all_imap, outdoorWorkout_call_cases.
Qed.

End NormalizerCallFacts.

Section NormalizerFacts.
Context `{JsBuiltins}.

(** An item that adds nothing: no string name, or no parsable value. *)
Lemma prToMap_step_dropped (out : Metrics) (item : unknown) :
  typeof_string (prop (asRecord item) "n") = None \/
  safeNumber (prop (asRecord item) "v") = None ->
  prToMap_step out item = out.
Proof.
  unfold prToMap_step. intros [-> | ->]; [reflexivity|].
  destruct (typeof_string _); reflexivity.
Qed.

Lemma prToMap_step_kept (out : Metrics) (item : unknown) (name : string)
  (val : Q) :
  typeof_string (prop (asRecord item) "n") = Some name ->
  safeNumber (prop (asRecord item) "v") = Some val ->
  prToMap_step out item = mset out name val.
Proof. unfold prToMap_step. intros -> ->. reflexivity. Qed.

(** Every entry of the map comes from an item with that name and a
    value that parses to that number. *)
Lemma prToMap_fold_origin (items : list unknown) (out : Metrics) (k : string)
  (v : Q) :
  mget (fold_left prToMap_step items out) k = Some v ->
  mget out k = Some v \/
  exists item, In item items /\
    typeof_string (prop (asRecord item) "n") = Some k /\
    safeNumber (prop (asRecord item) "v") = Some v.
Proof.
  revert out. induction items as [|item items IH]; intros out Hget; simpl in *.
  - left. exact Hget.
  - destruct (IH _ Hget) as [Hout | (item' & Hin & Hn & Hv)].
    + unfold prToMap_step in Hout.
      destruct (typeof_string (prop (asRecord item) "n")) as [name|] eqn:En;
        [|left; exact Hout].
      destruct (safeNumber (prop (asRecord item) "v")) as [val|] eqn:Ev;
        [|left; exact Hout].
      rewrite mget_mset in Hout.
      destruct (String.eqb_spec k name) as [-> | Hk].
      * injection Hout as <-. right. exists item. auto.
      * left. exact Hout.
    + right. exists item'. auto.
Qed.

Lemma prToMap_origin (raw : unknown) (k : string) (v : Q) :
  mget (prToMap raw) k = Some v ->
  exists prItems item,
    prOf raw = JArr prItems /\ In item prItems /\
    typeof_string (prop (asRecord item) "n") = Some k /\
    safeNumber (prop (asRecord item) "v") = Some v.
Proof.
  unfold prToMap. destruct (prOf raw) as [| | | | |prItems|] eqn:Epr;
    try discriminate.
  intros Hget. destruct (prToMap_fold_origin _ _ _ _ Hget)
    as [Hnil | (item & Hin & Hn & Hv)]; [discriminate|].
  exists prItems, item. auto.
Qed.

Lemma prToMap_no_array (raw : unknown) :
  (forall prItems, prOf raw <> JArr prItems) -> prToMap raw = [].
Proof.
  intros Hno. unfold prToMap. destruct (prOf raw); try reflexivity.
  exfalso. eapply Hno. reflexivity.
Qed.

(** C7 (as the code has it).  For an input array of n raw records in
    which every record's [id], [on] and [activityName] convert to a
    string, the indoor normalizer returns n workouts, the i-th built
    from the i-th record, whatever else the record looks like: its
    metrics map is always there, empty when the record has no [pr]
    array, and holds only names whose value is a number or parses to
    one; an item without a string name or with an unparsable value is
    dropped and changes nothing.  A record that is not an object
    converts.  When some record has an [id], [on] or [activityName] that
    does not convert (an object with a property [toString] of its own,
    or an array holding one), the call throws and returns nothing.  An
    input that is not an array gives no workout. *)
Theorem indoor_normalizer_total (items : list unknown) :
  let result := extractWorkoutsFromIndoorJSON_call (JArr items) in
  (Forall (fun raw => indoor_strings_convert raw = true) items ->
   exists workouts,
     result = Normal workouts /\
     length workouts = length items /\
     forall (i : nat) (raw : unknown), items !! i = Some raw ->
       exists w, workouts !! i = Some w /\
         indoorWorkout_call i raw = Normal w /\
         w = indoorWorkout i raw /\ w_raw w = raw /\
         w_metrics w = prToMap raw /\
         ((forall prItems, prOf raw <> JArr prItems) -> w_metrics w = []) /\
         (forall k v, mget (w_metrics w) k = Some v ->
            exists prItems item,
              prOf raw = JArr prItems /\ In item prItems /\
              typeof_string (prop (asRecord item) "n") = Some k /\
              safeNumber (prop (asRecord item) "v") = Some v)) /\
  (Exists (fun raw => indoor_strings_convert raw = false) items ->
   result = Throw) /\
  (forall raw, asRecord raw = None -> indoor_strings_convert raw = true) /\
  (forall out item,
     typeof_string (prop (asRecord item) "n") = None \/
     safeNumber (prop (asRecord item) "v") = None ->
     prToMap_step out item = out) /\
  (forall obj, (forall l, obj <> JArr l) ->
     extractWorkoutsFromIndoorJSON_call obj = Normal []).
Proof.
  intros result.
  assert (Hres : result
                 = if forallb indoor_strings_convert items
                   then Normal (imap indoorWorkout items) else Throw).
  { apply extractWorkoutsFromIndoorJSON_call_cases. }
  split.
  { intros Hall. exists (imap indoorWorkout items).
    assert (Hok : forallb indoor_strings_convert items = true).
    { apply forallb_forall. intros raw Hin.
      rewrite Forall_forall in Hall. apply Hall, list_elem_of_In, Hin. }
    split; [rewrite Hres, Hok; reflexivity|].
    split; [apply length_imap|].
    intros i raw Hi. exists (indoorWorkout i raw).
    split; [rewrite list_lookup_imap, Hi; reflexivity|].
    split.
    { rewrite indoorWorkout_call_cases.
      rewrite Forall_forall in Hall.
      rewrite (Hall raw (list_elem_of_lookup_2 _ _ _ Hi)). reflexivity. }
    split; [reflexivity|]. split; [reflexivity|]. split; [reflexivity|].
    split; [apply prToMap_no_array|].
    intros k v Hget.
    destruct (prToMap_origin raw k v Hget) as (prItems & item & H1 & H2 & H3 & H4).
    exists prItems, item. auto. }
  split.
  { intros Hex. rewrite Hres.
    assert (Hno : forallb indoor_strings_convert items = false).
    { apply not_true_is_false. intros Hok.
      apply Exists_exists in Hex as (raw & Hin & Hraw).
      rewrite forallb_forall in Hok.
      rewrite (Hok raw (proj1 (list_elem_of_In _ _) Hin)) in Hraw.
      discriminate. }
    rewrite Hno. reflexivity. }
  split.
  { intros raw Hraw. unfold indoor_strings_convert. rewrite Hraw.
    reflexivity. }
  split; [apply prToMap_step_dropped|].
  intros obj Hobj. unfold extractWorkoutsFromIndoorJSON_call.
  destruct obj; try reflexivity. exfalso. eapply Hobj. reflexivity.
Qed.

End NormalizerFacts.

(** Two records: [null], and one whose [pr] holds an unparsable
    duration and a numeric calorie count. *)
Lemma indoor_normalizer_total_witness :
  exists workouts,
    @extractWorkoutsFromIndoorJSON_call sample_builtins
      (JArr [JNull;
             JObj [("performedData",
                    JObj [("pr",
                           JArr [JObj [("n", JStr "Duration");
                                       ("v", JStr "abc")];
                                 JObj [("n", JStr "Calories");
                                       ("v", JNum 12)]])])]])
    = Normal workouts /\
    length workouts = 2%nat /\
    (exists w, workouts !! 0%nat = Some w /\ w_metrics w = []) /\
    (exists w, workouts !! 1%nat = Some w /\
       mget (w_metrics w) "Duration" = None /\
       mget (w_metrics w) "Calories" = Some 12).
Proof.
  destruct (@indoor_normalizer_total sample_builtins
    [JNull;
     JObj [("performedData",
            JObj [("pr",
                   JArr [JObj [("n", JStr "Duration"); ("v", JStr "abc")];
                         JObj [("n", JStr "Calories"); ("v", JNum 12)]])])]])
    as (Hret & _).
  destruct Hret as (workouts & Hres & Hlen & Hith).
  { repeat constructor. }
  exists workouts. split; [exact Hres|]. split; [exact Hlen|]. split.
  - destruct (Hith 0%nat JNull eq_refl) as (w0 & H0 & _ & _ & _ & _ & Hempty & _).
    exists w0. split; [exact H0|]. apply Hempty. intros prItems. discriminate.
  - destruct (Hith 1%nat _ eq_refl) as (w1 & H1 & _ & _ & _ & Hm1 & _).
    exists w1. split; [exact H1|]. rewrite Hm1. split; reflexivity.
Defined.

(** C7 as stated fails: a record whose [id] is an object with a
    [toString] entry makes [String(...)] throw, and the normalizer
    returns no workout for the one-record array. *)
Lemma indoor_normalizer_throws_refuted :
  ~ (forall items : list unknown,
       exists workouts,
         @extractWorkoutsFromIndoorJSON_call sample_builtins (JArr items)
         = Normal workouts /\
         length workouts = length items).
Proof.
  intros Hclaim.
  destruct (Hclaim [JObj [("id", JObj [("toString", JNum 1)])]])
    as (workouts & Hres & _).
  vm_compute in Hres. discriminate.
Qed.

(* ------------------------------------------------------------------ *)
(** ** Determinism *)

Section Determinism.
Context `{JsBuiltins}.

Lemma truthy_string_valid (s : string) :
  s <> "" -> truthy_string (Some s) = Some s.
Proof.
  intros Hs. unfold truthy_string.
  destruct (String.eqb_spec s ""); [contradiction | reflexivity].
Qed.

Lemma tcxStart_valid {Ser : Type} (clk : Clock) (w : WorkoutOf Ser)
  (s : string) (ms : Z) :
  w_startedAtISO w = Some s -> s <> "" -> Date_parse s = Some ms ->
  tcxStart clk w = (ms, Date_toISOString ms).
Proof.
  intros Hw Hs Hparse. unfold tcxStart.
  rewrite Hw, (truthy_string_valid s Hs), Hparse. reflexivity.
Qed.

Lemma fitStart_valid {Ser : Type} (clk : Clock) (w : WorkoutOf Ser)
  (s : string) (ms : Z) :
  w_startedAtISO w = Some s -> s <> "" -> Date_parse s = Some ms ->
  fitStart clk w = ms.
Proof.
  intros Hw Hs Hparse. unfold fitStart.
  rewrite Hw, (truthy_string_valid s Hs), Hparse. reflexivity.
Qed.

(** The Track Encoder reads the clock only through [tcxStart]. *)
Lemma workoutToTCX_clock (clk1 clk2 : Clock) (w : Workout)
  (opts : WorkoutExportOpts) :
  tcxStart clk1 w = tcxStart clk2 w ->
  workoutToTCX clk1 w opts = workoutToTCX clk2 w opts.
Proof.
  intros Hstart.
  assert (Hpoints : tcxPoints clk1 w opts = tcxPoints clk2 w opts).
  { unfold tcxPoints, tcxSeriesPoints, tcxSyntheticPoints.
    destruct (hasSeries w); apply map_ext; intros x;
      unfold tcxSeriesPoint, tcxSyntheticPoint; rewrite Hstart; reflexivity. }
  unfold workoutToTCX, tcxDocument. rewrite Hpoints, Hstart. reflexivity.
Qed.

(** The Activity Encoder reads the clock only through [fitStart]. *)
Lemma workoutToFIT_clock (clk1 clk2 : Clock) (w : Workout)
  (opts : WorkoutExportOpts) (enhancedCompatibility : bool) :
  fitStart clk1 w = fitStart clk2 w ->
  workoutToFIT clk1 w opts enhancedCompatibility
  = workoutToFIT clk2 w opts enhancedCompatibility.
Proof.
  intros Hstart.
  unfold workoutToFIT, workoutToFIT_body, fitWriteHeader, fitWriteBody,
    fitSummary.
  rewrite Hstart. reflexivity.
Qed.

(** C9. With a valid [startedAtISO] (a non-empty string that parses to
    a date) neither encoder looks at the wall clock: whatever the clock
    reads during two runs on the same workout and options, the Track
    Encoder returns the same string and the Activity Encoder writes the
    same messages. *)
Theorem encoders_deterministic (clk1 clk2 : Clock) (w : Workout)
  (opts : WorkoutExportOpts) (enhancedCompatibility : bool) (s : string)
  (ms : Z) :
  w_startedAtISO w = Some s -> s <> "" -> Date_parse s = Some ms ->
  workoutToTCX clk1 w opts = workoutToTCX clk2 w opts /\
  workoutToFIT clk1 w opts enhancedCompatibility
  = workoutToFIT clk2 w opts enhancedCompatibility.
Proof.
  intros Hw Hs Hparse. split.
  - apply workoutToTCX_clock.
    rewrite (tcxStart_valid clk1 w s ms), (tcxStart_valid clk2 w s ms);
      auto.
  - apply workoutToFIT_clock.
    rewrite (fitStart_valid clk1 w s ms), (fitStart_valid clk2 w s ms);
      auto.
Qed.

End Determinism.

(** Two runs a second apart on a workout with a valid start. *)
Lemma encoders_deterministic_witness :
  @workoutToFIT sample_builtins (sample_clock 0)
    (sample_workout (Some sample_iso) (Some 23) None) sample_opts true
  = @workoutToFIT sample_builtins (sample_clock 1000)
      (sample_workout (Some sample_iso) (Some 23) None) sample_opts true.
Proof.
  apply (@encoders_deterministic sample_builtins (sample_clock 0)
           (sample_clock 1000)
           (sample_workout (Some sample_iso) (Some 23) None) sample_opts true
           sample_iso 1709287200000%Z);
    [reflexivity | discriminate | reflexivity].
Defined.

(** The documented exception: without a start time the clock shows in
    the output. *)
Lemma clock_fallback_is_visible :
  @workoutToFIT sample_builtins (sample_clock 0)
    (sample_workout None (Some 23) None) sample_opts false
  <> @workoutToFIT sample_builtins (sample_clock 1000)
       (sample_workout None (Some 23) None) sample_opts false.
Proof. vm_compute. discriminate. Qed.

(* ------------------------------------------------------------------ *)
(** ** The encoders on the object store *)

Local Open Scope heap_scope.

Lemma h_bind_Some {A B : Type} (m : Heap A) (k : A -> Heap B) (h h' : Store)
  (a : A) :
  m h = Some (a, h') -> h_bind m k h = k a h'.
Proof. intros Hm. unfold h_bind. rewrite Hm. reflexivity. Qed.

Lemma cells_at_app {A : Type} (inj : A -> cell) (h ext : Store)
  (ls : list loc) (xs : list A) :
  cells_at inj h ls xs -> cells_at inj (h ++ ext) ls xs.
Proof.
  unfold cells_at. intros Hc. eapply Forall2_impl; [exact Hc|].
  intros l x Hl. apply lookup_app_l_Some, Hl.
Qed.

Lemma cells_at_insert {A : Type} (inj : A -> cell) (h : Store) (a : loc)
  (c : cell) (ls : list loc) (xs : list A) :
  (forall x, h !! a <> Some (inj x)) ->
  cells_at inj h ls xs -> cells_at inj (<[a := c]> h) ls xs.
Proof.
  intros Ha. unfold cells_at. intros Hc. eapply Forall2_impl; [exact Hc|].
  intros l x Hl. simpl.
  rewrite list_lookup_insert_ne; [exact Hl|].
  intros ->. exact (Ha x Hl).
Qed.

Lemma load_point_at (h : Store) (l : loc) (p : SeriesPoint) :
  h !! l = Some (CPoint p) -> load_point l h = Some (p, h).
Proof. intros Hl. unfold load_point, h_bind, load. rewrite Hl. reflexivity. Qed.

Lemma load_record_at (h : Store) (l : loc) (r : FitRecord) :
  h !! l = Some (CRecord r) -> load_record l h = Some (r, h).
Proof. intros Hl. unfold load_record, h_bind, load. rewrite Hl. reflexivity. Qed.

Lemma load_array_at (h : Store) (l : loc) (els : list loc) :
  h !! l = Some (CArray els) -> load_array l h = Some (els, h).
Proof. intros Hl. unfold load_array, h_bind, load. rewrite Hl. reflexivity. Qed.

Lemma load_workout_at (h : Store) (l : loc) (w : WorkoutOf loc) :
  h !! l = Some (CWorkout w) -> load_workout l h = Some (w, h).
Proof. intros Hl. unfold load_workout, h_bind, load. rewrite Hl. reflexivity. Qed.

Lemma load_points_at (h : Store) (ls : list loc) (pts : list SeriesPoint) :
  cells_at CPoint h ls pts -> h_mapM load_point ls h = Some (pts, h).
Proof.
  induction 1 as [|l p ls pts Hl _ IH]; simpl.
  - reflexivity.
  - rewrite (h_bind_Some _ _ _ _ _ (load_point_at h l p Hl)).
    rewrite (h_bind_Some _ _ _ _ _ IH). reflexivity.
Qed.

Lemma load_records_at (h : Store) (ls : list loc) (rs : list FitRecord) :
  cells_at CRecord h ls rs -> h_mapM load_record ls h = Some (rs, h).
Proof.
  induction 1 as [|l r ls rs Hl _ IH]; simpl.
  - reflexivity.
  - rewrite (h_bind_Some _ _ _ _ _ (load_record_at h l r Hl)).
    rewrite (h_bind_Some _ _ _ _ _ IH). reflexivity.
Qed.

(** Fresh records sit right after the store they were added to. *)
Lemma records_at_fresh (h : Store) (rs : list FitRecord) (ext : Store) :
  cells_at CRecord (h ++ map CRecord rs ++ ext)
    (seq (length h) (length rs)) rs.
Proof.
  revert h. induction rs as [|r rs IH]; intros h; simpl.
  - constructor.
  - constructor.
    + apply list_lookup_middle. reflexivity.
    + specialize (IH (h ++ [CRecord r])).
      rewrite length_app, Nat.add_1_r, <- app_assoc in IH. exact IH.
Qed.

Lemma alloc_records (h : Store) (rs : list FitRecord) :
  h_mapM (fun r => alloc (CRecord r)) rs h
  = Some (seq (length h) (length rs), h ++ map CRecord rs).
Proof.
  revert h. induction rs as [|r rs IH]; intros h; simpl.
  - unfold h_ret. rewrite app_nil_r. reflexivity.
  - unfold h_bind at 1. unfold alloc at 1.
    rewrite (h_bind_Some _ _ _ _ _ (IH (h ++ [CRecord r]))).
    unfold h_ret. rewrite length_app, Nat.add_1_r, <- app_assoc. reflexivity.
Qed.

(** *** Arrays of points *)

Lemma zip_cells (h : Store) (ls : list loc) (pts : list SeriesPoint) :
  cells_at CPoint h ls pts ->
  Forall (fun lp => h !! fst lp = Some (CPoint (snd lp))) (zip ls pts).
Proof. induction 1; simpl; constructor; assumption. Qed.

Lemma unzip_cells (h : Store) (zs : list (loc * SeriesPoint)) :
  Forall (fun lp => h !! fst lp = Some (CPoint (snd lp))) zs ->
  cells_at CPoint h (map fst zs) (map snd zs).
Proof. induction 1; simpl; constructor; assumption. Qed.

Lemma zip_snd (ls : list loc) (pts : list SeriesPoint) (h : Store) :
  cells_at CPoint h ls pts -> map snd (zip ls pts) = pts.
Proof.
  intros Hc. apply snd_zip. apply Forall2_length in Hc. lia.
Qed.

Lemma sorted_refs_cells (h : Store) (ls : list loc) (pts : list SeriesPoint) :
  cells_at CPoint h ls pts ->
  cells_at CPoint h (sorted_refs ls pts) (sort_by_tSec pts).
Proof.
  intros Hc. unfold sorted_refs, sort_by_tSec.
  rewrite <- (zip_snd ls pts h Hc) at 2.
  rewrite <- (sort_by_map snd p_tSec).
  apply unzip_cells.
  eapply Permutation_Forall; [apply sort_by_perm | apply zip_cells, Hc].
Qed.

Lemma filter_snd (zs : list (loc * SeriesPoint)) :
  map snd (filter (fun lp => is_some (p_hr (snd lp)) = true) zs)
  = filter (fun p => is_some (p_hr p) = true) (map snd zs).
Proof.
  induction zs as [|[l p] zs IH]; [reflexivity|].
  rewrite filter_cons. simpl map at 2. rewrite filter_cons. simpl.
  destruct (decide (is_some (p_hr p) = true)); simpl; rewrite IH; reflexivity.
Qed.

Lemma Forall_filter_keep {A : Type} (P Q : A -> Prop)
  `{forall x, Decision (P x)} (l : list A) :
  Forall Q l -> Forall Q (filter P l).
Proof.
  rewrite !Forall_forall. intros Hall x Hx.
  apply list_elem_of_filter in Hx. apply Hall. tauto.
Qed.

Lemma hr_refs_cells (h : Store) (ls : list loc) (pts : list SeriesPoint) :
  cells_at CPoint h ls pts ->
  cells_at CPoint h (hr_refs ls pts)
    (filter (fun p => is_some (p_hr p) = true) pts).
Proof.
  intros Hc. unfold hr_refs.
  rewrite <- (zip_snd ls pts h Hc) at 2. rewrite <- filter_snd.
  apply unzip_cells, Forall_filter_keep, zip_cells, Hc.
Qed.

Lemma array_sort_at (h : Store) (a : loc) (ls : list loc)
  (pts : list SeriesPoint) :
  h !! a = Some (CArray ls) -> cells_at CPoint h ls pts ->
  array_sort_by_tSec a h
  = Some (tt, <[a := CArray (sorted_refs ls pts)]> h).
Proof.
  intros Ha Hc. unfold array_sort_by_tSec.
  rewrite (h_bind_Some _ _ _ _ _ (load_array_at h a ls Ha)).
  rewrite (h_bind_Some _ _ _ _ _ (load_points_at h ls pts Hc)).
  unfold store. rewrite Ha. reflexivity.
Qed.

Lemma array_filter_at (h : Store) (a : loc) (ls : list loc)
  (pts : list SeriesPoint) :
  h !! a = Some (CArray ls) -> cells_at CPoint h ls pts ->
  array_filter_hr a h = Some (length h, h ++ [CArray (hr_refs ls pts)]).
Proof.
  intros Ha Hc. unfold array_filter_hr.
  rewrite (h_bind_Some _ _ _ _ _ (load_array_at h a ls Ha)).
  rewrite (h_bind_Some _ _ _ _ _ (load_points_at h ls pts Hc)).
  reflexivity.
Qed.

Lemma load_anchors_at (h : Store) (a : loc) (ls : list loc)
  (pts : list SeriesPoint) :
  h !! a = Some (CArray ls) -> cells_at CPoint h ls pts ->
  load_anchors a h = Some (omap anchor_of_point pts, h).
Proof.
  intros Ha Hc. unfold load_anchors.
  rewrite (h_bind_Some _ _ _ _ _ (load_array_at h a ls Ha)).
  rewrite (h_bind_Some _ _ _ _ _ (load_points_at h ls pts Hc)).
  reflexivity.
Qed.

Lemma h_seriesTotalSec_at (h : Store) (a : loc) (ls : list loc)
  (pts : list SeriesPoint) (totalSeconds : Z) :
  h !! a = Some (CArray ls) -> cells_at CPoint h ls pts ->
  h_seriesTotalSec totalSeconds a h
  = Some (seriesTotalSecOf totalSeconds pts, h).
Proof.
  intros Ha Hc. unfold h_seriesTotalSec, seriesTotalSecOf.
  rewrite (h_bind_Some _ _ _ _ _ (load_array_at h a ls Ha)).
  pose proof (Forall2_last _ _ _ Hc) as Hlast.
  destruct Hlast as [l p Hl|].
  - rewrite (h_bind_Some _ _ _ _ (p_tSec p)
               (h_bind_Some _ _ _ _ _ (load_point_at h l p Hl))).
    reflexivity.
  - reflexivity.
Qed.

(** *** The record loops *)

Lemma h_firstKnown_at (h : Store) (ls : list loc) (rs : list FitRecord) :
  cells_at CRecord h ls rs -> h_firstKnown ls h = Some (firstKnownHr rs, h).
Proof.
  induction 1 as [|l r ls rs Hl _ IH]; simpl.
  - reflexivity.
  - rewrite (h_bind_Some _ _ _ _ _ (load_record_at h l r Hl)).
    destruct (r_hr r); [reflexivity | exact IH].
Qed.

(** The second loop of the pass rewrites the fresh records in place and
    nothing else. *)
Lemma h_fillLoop_fresh (pre : Store) (rs : list FitRecord) (prev : Z) :
  h_fillLoop prev (seq (length pre) (length rs)) (pre ++ map CRecord rs)
  = Some (tt, pre ++ map CRecord (fillHrLoop prev rs)).
Proof.
  revert pre prev. induction rs as [|r rs IH]; intros pre prev; simpl.
  - reflexivity.
  - assert (Hr : (pre ++ CRecord r :: map CRecord rs) !! length pre
                 = Some (CRecord r)) by (apply list_lookup_middle; reflexivity).
    rewrite (h_bind_Some _ _ _ _ _ (load_record_at _ _ r Hr)).
    specialize (IH (pre ++ [CRecord (match r_hr r with
                                     | Some _ => r
                                     | None => set_hr r prev
                                     end)])).
    rewrite length_app, Nat.add_1_r in IH.
    destruct (r_hr r) as [v|].
    + specialize (IH v). rewrite <- !app_assoc in IH. exact IH.
    + specialize (IH prev). rewrite <- !app_assoc in IH. simpl in IH.
      unfold h_bind at 1. unfold store at 1. rewrite Hr.
      replace (<[length pre:=CRecord (set_hr r prev)]>
                 (pre ++ CRecord r :: map CRecord rs))
        with (pre ++ CRecord (set_hr r prev) :: map CRecord rs).
      * exact IH.
      * rewrite <- (Nat.add_0_r (length pre)) at 1.
        rewrite insert_app_r. reflexivity.
Qed.

Lemma h_forwardFill_fresh (w : WorkoutOf loc) (opts : WorkoutExportOpts)
  (pre : Store) (rs : list FitRecord) :
  h_forwardFill w opts (seq (length pre) (length rs)) (pre ++ map CRecord rs)
  = Some (tt, pre ++ map CRecord (fitForwardFill w opts rs)).
Proof.
  unfold h_forwardFill, fitForwardFill, forwardFillHr.
  rewrite length_seq.
  destruct (includeHrSeries opts && (0 <? length rs)%nat); [|reflexivity].
  assert (Hat : cells_at CRecord (pre ++ map CRecord rs)
                  (seq (length pre) (length rs)) rs).
  { pose proof (records_at_fresh pre rs []) as Hf.
    rewrite app_nil_r in Hf. exact Hf. }
  rewrite (h_bind_Some _ _ _ _ _ (h_firstKnown_at _ _ _ Hat)).
  destruct (fallbackHrOf _ _ _); [apply h_fillLoop_fresh | reflexivity].
Qed.

Section StoreEncoderFacts.
Context `{JsBuiltins}.

(** The record loop of the series branch adds one fresh record per
    point and writes to nothing that was there. *)
Lemma h_fitPushSeries_at (w : WorkoutOf loc) (opts : WorkoutExportOpts)
  (h : Store) (b : loc) (bls : list loc) (bpts : list SeriesPoint)
  (seriesTotalSec : Q) (ls : list loc) (pts : list SeriesPoint) :
  h !! b = Some (CArray bls) -> cells_at CPoint h bls bpts ->
  cells_at CPoint h ls pts ->
  forall ext : Store,
  h_fitPushSeries w opts b seriesTotalSec ls (h ++ ext)
  = Some (seq (length (h ++ ext)) (length pts),
          (h ++ ext) ++
          map CRecord
            (map (fitSeriesRecord w opts (omap anchor_of_point bpts)
                    seriesTotalSec) pts)).
Proof.
  intros Hb Hbc Hc.
  induction Hc as [|l p ls pts Hl Hc IH]; intros ext; simpl.
  - unfold h_ret. rewrite app_nil_r. reflexivity.
  - rewrite (h_bind_Some _ _ _ _ _
               (load_point_at (h ++ ext) l p (lookup_app_l_Some _ _ _ _ Hl))).
    rewrite (h_bind_Some _ _ _ _ _
               (load_anchors_at (h ++ ext) b bls bpts
                  (lookup_app_l_Some _ _ _ _ Hb)
                  (cells_at_app _ _ _ _ _ Hbc))).
    unfold h_bind at 1. unfold alloc at 1.
    specialize (IH (ext ++ [CRecord (fitSeriesRecord w opts
                                       (omap anchor_of_point bpts)
                                       seriesTotalSec p)])).
    rewrite app_assoc in IH.
    rewrite (h_bind_Some _ _ _ _ _ IH).
    unfold h_ret. rewrite (length_app (h ++ ext) [_]). simpl length.
    rewrite Nat.add_1_r, <- (app_assoc (h ++ ext) [_]). reflexivity.
Qed.

End StoreEncoderFacts.

Lemma insert_middle {A : Type} (l1 l2 : list A) (x y : A) :
  <[length l1 := x]> (l1 ++ y :: l2) = l1 ++ x :: l2.
Proof.
  rewrite <- (Nat.add_0_r (length l1)) at 1. rewrite insert_app_r. reflexivity.
Qed.

Lemma point_at_Some (h : Store) (l : loc) (p : SeriesPoint) :
  point_at h l = Some p <-> h !! l = Some (CPoint p).
Proof.
  unfold point_at. destruct (h !! l) as [[]|]; split; congruence.
Qed.

Lemma series_at_inv (h : Store) (series : option loc)
  (ser : option (list SeriesPoint)) :
  series_at h series = Some ser <->
  (series = None /\ ser = None) \/
  (exists arr els pts,
     series = Some arr /\ ser = Some pts /\
     h !! arr = Some (CArray els) /\ cells_at CPoint h els pts).
Proof.
  unfold series_at. split.
  - destruct series as [arr|]; [|intros [= <-]; left; auto].
    destruct (h !! arr) as [[| els | |]|] eqn:Harr; try discriminate.
    destruct (mapM (point_at h) els) as [pts|] eqn:Hpts; [|discriminate].
    intros [= <-]. right. exists arr, els, pts.
    split; [reflexivity|]. split; [reflexivity|]. split; [exact Harr|].
    apply mapM_Some in Hpts. unfold cells_at.
    eapply Forall2_impl; [exact Hpts|]. intros l p. apply point_at_Some.
  - intros [[-> ->] | (arr & els & pts & -> & -> & Harr & Hc)];
      [reflexivity|].
    rewrite Harr.
    assert (Hpts : mapM (point_at h) els = Some pts).
    { apply mapM_Some. eapply Forall2_impl; [exact Hc|].
      intros l p. apply point_at_Some. }
    rewrite Hpts. reflexivity.
Qed.

Lemma series_at_app (h ext : Store) (series : option loc)
  (ser : option (list SeriesPoint)) :
  series_at h series = Some ser -> series_at (h ++ ext) series = Some ser.
Proof.
  rewrite !series_at_inv.
  intros [? | (arr & els & pts & ? & ? & Harr & Hc)]; [left; assumption|].
  right. exists arr, els, pts. repeat split; try assumption.
  - apply lookup_app_l_Some, Harr.
  - apply cells_at_app, Hc.
Qed.

Lemma snapshot_app (h ext : Store) (wl : loc) (w : Workout) :
  snapshot h wl = Some w -> snapshot (h ++ ext) wl = Some w.
Proof.
  unfold snapshot.
  destruct (h !! wl) as [[wo | | |]|] eqn:Hwl; try discriminate.
  rewrite (lookup_app_l_Some _ _ _ _ Hwl).
  destruct (series_at h (w_series wo)) as [ser|] eqn:Hser; [|discriminate].
  rewrite (series_at_app _ ext _ _ Hser). trivial.
Qed.

Lemma h_hasSeries_at (w : WorkoutOf loc) (h : Store) (arr : loc)
  (els : list loc) :
  w_series w = Some arr -> h !! arr = Some (CArray els) ->
  h_hasSeries w h = Some ((0 <? length els)%nat, h).
Proof.
  intros Hw Harr. unfold h_hasSeries. rewrite Hw.
  rewrite (h_bind_Some _ _ _ _ _ (load_array_at h arr els Harr)). reflexivity.
Qed.

Lemma h_hasSeries_none (w : WorkoutOf loc) (h : Store) :
  w_series w = None -> h_hasSeries w h = Some (false, h).
Proof. intros Hw. unfold h_hasSeries. rewrite Hw. reflexivity. Qed.

Lemma array_spread_at (h : Store) (arr : loc) (els : list loc) :
  h !! arr = Some (CArray els) ->
  array_spread (Some arr) h = Some (length h, h ++ [CArray els]).
Proof.
  intros Harr. unfold array_spread.
  rewrite (h_bind_Some _ _ _ _ _ (load_array_at h arr els Harr)). reflexivity.
Qed.

Section StoreEncoderTheorems.
Context `{JsBuiltins}.

Lemma h_fitRecords_series (w : WorkoutOf loc) (opts : WorkoutExportOpts)
  (h : Store) (arr : loc) (els : list loc) (pts : list SeriesPoint) :
  w_series w = Some arr -> h !! arr = Some (CArray els) ->
  cells_at CPoint h els pts -> els <> [] ->
  h_fitRecords w opts h
  = Some (seq (S (S (length h))) (length pts),
          h ++ fit_series_extension w opts els pts).
Proof.
  intros Hw Harr Hc Hne.
  set (spts := sort_by_tSec pts).
  set (sels := sorted_refs els pts).
  set (fpts := filter (fun p => is_some (p_hr p) = true) spts).
  set (fels := hr_refs sels spts).
  set (sfels := sorted_refs fels fpts).
  unfold h_fitRecords.
  rewrite (h_bind_Some _ _ _ _ _ (h_hasSeries_at w h arr els Hw Harr)).
  replace (0 <? length els)%nat with true
    by (destruct els; [congruence | reflexivity]).
  (* [...(w.series ?? [])] *)
  rewrite Hw, (h_bind_Some _ _ _ _ _ (array_spread_at h arr els Harr)).
  (* sortedSeries.sort *)
  assert (Ha1 : (h ++ [CArray els]) !! length h = Some (CArray els))
    by (apply list_lookup_middle; reflexivity).
  rewrite (h_bind_Some _ _ _ _ _
             (array_sort_at (h ++ [CArray els]) (length h) els pts Ha1
                (cells_at_app _ _ _ _ _ Hc))).
  rewrite insert_middle. fold sels.
  assert (Hsc : cells_at CPoint (h ++ [CArray sels]) sels spts)
    by (apply cells_at_app, sorted_refs_cells, Hc).
  assert (Ha2 : (h ++ [CArray sels]) !! length h = Some (CArray sels))
    by (apply list_lookup_middle; reflexivity).
  (* sortedSeries.filter *)
  rewrite (h_bind_Some _ _ _ _ _
             (array_filter_at (h ++ [CArray sels]) (length h) sels spts Ha2 Hsc)).
  fold fels.
  assert (Hlen2 : length (h ++ [CArray sels]) = S (length h))
    by (rewrite length_app; simpl; lia).
  rewrite Hlen2.
  assert (Hfc : cells_at CPoint (h ++ [CArray sels]) fels fpts)
    by (apply hr_refs_cells, Hsc).
  (* hrAnchors.sort *)
  assert (Hb3 : ((h ++ [CArray sels]) ++ [CArray fels]) !! S (length h)
                = Some (CArray fels))
    by (apply list_lookup_middle; symmetry; exact Hlen2).
  rewrite (h_bind_Some _ _ _ _ _
             (array_sort_at _ (S (length h)) fels fpts Hb3
                (cells_at_app _ _ _ _ _ Hfc))).
  rewrite <- Hlen2 at 1. rewrite insert_middle. fold sfels.
  set (h4 := (h ++ [CArray sels]) ++ [CArray sfels]).
  assert (Ha4 : h4 !! length h = Some (CArray sels))
    by (apply lookup_app_l_Some, Ha2).
  assert (Hb4 : h4 !! S (length h) = Some (CArray sfels))
    by (apply list_lookup_middle; symmetry; exact Hlen2).
  assert (Hsc4 : cells_at CPoint h4 sels spts) by (apply cells_at_app, Hsc).
  assert (Hfc4 : cells_at CPoint h4 sfels (sort_by_tSec fpts))
    by (apply cells_at_app, sorted_refs_cells, Hfc).
  (* seriesTotalSec and the record loop *)
  rewrite (h_bind_Some _ _ _ _ _
             (h_seriesTotalSec_at h4 (length h) sels spts _ Ha4 Hsc4)).
  rewrite (h_bind_Some _ _ _ _ _ (load_array_at h4 (length h) sels Ha4)).
  pose proof (h_fitPushSeries_at w opts h4 (S (length h)) sfels
                (sort_by_tSec fpts) (seriesTotalSecOf (totalSecondsOf w) spts)
                sels spts Hb4 Hfc4 Hsc4 []) as Hpush.
  rewrite app_nil_r in Hpush.
  rewrite (h_bind_Some _ _ _ _ _ Hpush).
  change (map (fitSeriesRecord w opts (omap anchor_of_point (sort_by_tSec fpts))
                 (seriesTotalSecOf (totalSecondsOf w) spts)) spts)
    with (fitSeriesRecords w opts spts).
  (* the forward-fill pass *)
  assert (Hlen : length spts = length (fitSeriesRecords w opts spts))
    by (unfold fitSeriesRecords; rewrite length_map; reflexivity).
  rewrite Hlen.
  rewrite (h_bind_Some _ _ _ _ _
             (h_forwardFill_fresh w opts h4 (fitSeriesRecords w opts spts))).
  unfold h_ret. f_equal. f_equal.
  - rewrite <- Hlen. unfold h4, spts, sort_by_tSec.
    rewrite !length_app, sort_by_length. simpl.
    replace (length h + 1 + 1)%nat with (S (S (length h))) by lia. reflexivity.
  - unfold h4, fit_series_extension. rewrite <- !app_assoc. reflexivity.
Qed.

Lemma h_fitRecords_synthetic (w : WorkoutOf loc) (opts : WorkoutExportOpts)
  (h : Store) :
  h_hasSeries w h = Some (false, h) ->
  h_fitRecords w opts h
  = Some (seq (length h) (length (fitSyntheticRecords w opts)),
          h ++ map CRecord (fitSyntheticRecords w opts)).
Proof.
  intros Hhas. unfold h_fitRecords.
  rewrite (h_bind_Some _ _ _ _ _ Hhas). apply alloc_records.
Qed.

Lemma h_bind_Some2 {A B C : Type} (m : Heap A) (k1 : A -> Heap B)
  (k : B -> Heap C) (h h1 h2 : Store) (a : A) (b : B) :
  m h = Some (a, h1) -> k1 a h1 = Some (b, h2) ->
  h_bind (h_bind m k1) k h = k b h2.
Proof.
  intros Hm Hk. apply h_bind_Some. rewrite (h_bind_Some _ _ _ _ _ Hm).
  exact Hk.
Qed.

Lemma render_points_at (f : SeriesPoint -> string) (h : Store)
  (ls : list loc) (pts : list SeriesPoint) :
  cells_at CPoint h ls pts ->
  h_mapM (fun el => run p <- load_point el; h_ret (f p)) ls h
  = Some (map f pts, h).
Proof.
  induction 1 as [|l p ls pts Hl _ IH]; simpl.
  - reflexivity.
  - rewrite (h_bind_Some2 _ _ _ _ _ _ _ (f p)
               (load_point_at h l p Hl) eq_refl).
    rewrite (h_bind_Some _ _ _ _ _ IH). reflexivity.
Qed.

(** The Activity Encoder on the store: the messages are those of the
    encoder on the workout value, and the store only grows. *)
Lemma h_workoutToFIT_spec (clk : Clock) (h : Store) (wl : loc) (w : Workout)
  (opts : WorkoutExportOpts) (enhancedCompatibility : bool) :
  snapshot h wl = Some w ->
  exists ext,
    h_workoutToFIT clk wl opts enhancedCompatibility h
    = Some (workoutToFIT clk w opts enhancedCompatibility, h ++ ext).
Proof.
  unfold snapshot.
  destruct (h !! wl) as [[wo | | |]|] eqn:Hwl; try discriminate.
  destruct (series_at h (w_series wo)) as [ser|] eqn:Hser; [|discriminate].
  intros [= <-]. apply series_at_inv in Hser.
  unfold h_workoutToFIT.
  rewrite (h_bind_Some _ _ _ _ _ (load_workout_at h wl wo Hwl)).
  destruct Hser as [[Hw ->] | (arr & els & pts & Hw & -> & Harr & Hc)].
  - (* no series *)
    exists (map CRecord (fitSyntheticRecords wo opts)).
    rewrite (h_bind_Some _ _ _ _ _
               (h_fitRecords_synthetic wo opts h (h_hasSeries_none wo h Hw))).
    pose proof (records_at_fresh h (fitSyntheticRecords wo opts) []) as Hat.
    rewrite app_nil_r in Hat.
    rewrite (h_bind_Some _ _ _ _ _ (load_records_at _ _ _ Hat)).
    reflexivity.
  - destruct els as [|l els].
    + (* an empty series *)
      inversion Hc; subst.
      exists (map CRecord (fitSyntheticRecords wo opts)).
      rewrite (h_bind_Some _ _ _ _ _
                 (h_fitRecords_synthetic wo opts h
                    (h_hasSeries_at wo h arr [] Hw Harr))).
      pose proof (records_at_fresh h (fitSyntheticRecords wo opts) []) as Hat.
      rewrite app_nil_r in Hat.
      rewrite (h_bind_Some _ _ _ _ _ (load_records_at _ _ _ Hat)).
      reflexivity.
    + (* the series branch *)
      exists (fit_series_extension wo opts (l :: els) pts).
      rewrite (h_bind_Some _ _ _ _ _
                 (h_fitRecords_series wo opts h arr (l :: els) pts Hw Harr Hc
                    ltac:(discriminate))).
      set (rs := fitForwardFill wo opts
                   (fitSeriesRecords wo opts (sort_by_tSec pts))).
      assert (Hat : cells_at CRecord
                      (h ++ fit_series_extension wo opts (l :: els) pts)
                      (seq (S (S (length h))) (length pts)) rs).
      { pose proof (records_at_fresh
                      (h ++ [CArray (sorted_refs (l :: els) pts);
                             CArray (sorted_refs
                                       (hr_refs (sorted_refs (l :: els) pts)
                                          (sort_by_tSec pts))
                                       (filter (fun p => is_some (p_hr p) = true)
                                          (sort_by_tSec pts)))])
                      rs []) as Hf.
        rewrite app_nil_r, <- app_assoc in Hf.
        rewrite length_app in Hf. simpl length in Hf.
        replace (length h + 2)%nat with (S (S (length h))) in Hf by lia.
        replace (length rs) with (length pts) in Hf.
        - exact Hf.
        - unfold rs.
          erewrite <- (Forall2_length _ _ (fitForwardFill wo opts _));
            [|apply fitForwardFill_same_but_hr].
          unfold fitSeriesRecords, sort_by_tSec.
          rewrite length_map, sort_by_length. reflexivity. }
      rewrite (h_bind_Some _ _ _ _ _ (load_records_at _ _ _ Hat)).
      inversion Hc; subst. reflexivity.
Qed.

(** The Track Encoder on the store. *)
Lemma h_workoutToTCX_spec (clk : Clock) (h : Store) (wl : loc) (w : Workout)
  (opts : WorkoutExportOpts) :
  snapshot h wl = Some w ->
  exists ext,
    h_workoutToTCX clk wl opts h = Some (workoutToTCX clk w opts, h ++ ext).
Proof.
  unfold snapshot.
  destruct (h !! wl) as [[wo | | |]|] eqn:Hwl; try discriminate.
  destruct (series_at h (w_series wo)) as [ser|] eqn:Hser; [|discriminate].
  intros [= <-]. apply series_at_inv in Hser.
  unfold h_workoutToTCX.
  rewrite (h_bind_Some _ _ _ _ _ (load_workout_at h wl wo Hwl)).
  destruct Hser as [[Hw ->] | (arr & els & pts & Hw & -> & Harr & Hc)].
  - exists []. rewrite app_nil_r.
    rewrite (h_bind_Some _ _ _ _ _ (h_hasSeries_none wo h Hw)). reflexivity.
  - destruct els as [|l els].
    + inversion Hc; subst. exists []. rewrite app_nil_r.
      rewrite (h_bind_Some _ _ _ _ _ (h_hasSeries_at wo h arr [] Hw Harr)).
      reflexivity.
    + exists [CArray (sorted_refs (l :: els) pts)].
      rewrite (h_bind_Some _ _ _ _ _
                 (h_hasSeries_at wo h arr (l :: els) Hw Harr)).
      change (0 <? length (l :: els))%nat with true. cbv iota.
      rewrite Hw, (h_bind_Some _ _ _
                     (h ++ [CArray (sorted_refs (l :: els) pts)])
                     (map renderTrackpoint
                        (tcxSeriesPoints clk wo opts (sort_by_tSec pts)))).
      * inversion Hc; subst. reflexivity.
      * rewrite (h_bind_Some _ _ _ _ _ (array_spread_at h arr _ Harr)).
        assert (Ha1 : (h ++ [CArray (l :: els)]) !! length h
                      = Some (CArray (l :: els)))
          by (apply list_lookup_middle; reflexivity).
        rewrite (h_bind_Some _ _ _ _ _
                   (array_sort_at _ (length h) _ pts Ha1
                      (cells_at_app _ _ _ _ _ Hc))).
        rewrite insert_middle.
        assert (Ha2 : (h ++ [CArray (sorted_refs (l :: els) pts)]) !! length h
                      = Some (CArray (sorted_refs (l :: els) pts)))
          by (apply list_lookup_middle; reflexivity).
        assert (Hsc : cells_at CPoint
                        (h ++ [CArray (sorted_refs (l :: els) pts)])
                        (sorted_refs (l :: els) pts) (sort_by_tSec pts))
          by (apply cells_at_app, sorted_refs_cells, Hc).
        rewrite (h_bind_Some _ _ _ _ _
                   (h_seriesTotalSec_at _ (length h) _ _ _ Ha2 Hsc)).
        rewrite (h_bind_Some _ _ _ _ _ (load_array_at _ _ _ Ha2)).
        rewrite (render_points_at _ _ _ _ Hsc).
        unfold tcxSeriesPoints. rewrite map_map. reflexivity.
Qed.

(** C10. Neither encoder mutates its input.  Run on a store that holds
    the workout, its series array and the series points, each encoder
    returns what it returns on the workout value, and in the store it
    leaves every object that was there is unchanged: the workout, the
    series array with its element order, every series point.  The sort
    works on a copy of the array, and the forward-fill pass writes to the
    record objects the encoder has just created. *)
Theorem encoders_do_not_mutate (clk : Clock) (h : Store) (wl : loc)
  (w : Workout) (opts : WorkoutExportOpts) (enhancedCompatibility : bool) :
  snapshot h wl = Some w ->
  (exists h',
     h_workoutToTCX clk wl opts h = Some (workoutToTCX clk w opts, h') /\
     store_kept h h' /\ snapshot h' wl = Some w) /\
  (exists h',
     h_workoutToFIT clk wl opts enhancedCompatibility h
     = Some (workoutToFIT clk w opts enhancedCompatibility, h') /\
     store_kept h h' /\ snapshot h' wl = Some w).
Proof.
  intros Hsnap. split.
  - destruct (h_workoutToTCX_spec clk h wl w opts Hsnap) as [ext Hrun].
    exists (h ++ ext). split; [exact Hrun|]. split.
    + intros l c Hl. apply lookup_app_l_Some, Hl.
    + apply snapshot_app, Hsnap.
  - destruct (h_workoutToFIT_spec clk h wl w opts enhancedCompatibility Hsnap)
      as [ext Hrun].
    exists (h ++ ext). split; [exact Hrun|]. split.
    + intros l c Hl. apply lookup_app_l_Some, Hl.
    + apply snapshot_app, Hsnap.
Qed.

End StoreEncoderTheorems.

(** After the Activity Encoder has run on a series stored in the order
    10, 0, the series array still lists its points in that order. *)
Lemma encoders_do_not_mutate_witness :
  exists h',
    @h_workoutToFIT sample_builtins (sample_clock 0) 0%nat sample_opts true
      sample_store
    = Some (@workoutToFIT sample_builtins (sample_clock 0)
              sample_store_workout sample_opts true, h') /\
    h' !! 1%nat = Some (CArray [2%nat; 3%nat]) /\
    h' !! 2%nat = Some (CPoint (sample_point 10 None)).
Proof.
  destruct (@encoders_do_not_mutate sample_builtins (sample_clock 0)
              sample_store 0%nat sample_store_workout sample_opts true eq_refl)
    as [_ (h' & Hrun & Hkept & _)].
  exists h'. split; [exact Hrun|].
  split; apply Hkept; reflexivity.
Defined.

(** What the copy is for: sorting the series array itself would reorder
    the caller's series. *)
Lemma sorting_the_series_array_reorders_it :
  exists h',
    array_sort_by_tSec 1%nat sample_store = Some (tt, h') /\
    h' !! 1%nat = Some (CArray [3%nat; 2%nat]) /\
    snapshot h' 0%nat <> Some sample_store_workout.
Proof.
  eexists. split; [reflexivity|]. split; [reflexivity|].
  vm_compute. discriminate.
Qed.


(* ================================================================== *)
(** * Further properties *)

(** ** Range of the interpolated heart rate *)

Lemma interpolation_within (ah bh r lo hi : Q) :
  lo <= ah -> ah <= hi -> lo <= bh -> bh <= hi -> 0 <= r -> r <= 1 ->
  lo <= ah + (bh - ah) * r /\ ah + (bh - ah) * r <= hi.
Proof.
  intros H1 H2 H3 H4 H5 H6.
  assert (E : ah + (bh - ah) * r == ah * (1 - r) + bh * r) by ring.
  rewrite E.
  assert (Ha1 : 0 <= (ah - lo) * (1 - r))
    by (apply Qmult_le_0_compat; lra).
  assert (Hb1 : 0 <= (bh - lo) * r) by (apply Qmult_le_0_compat; lra).
  assert (Ha2 : 0 <= (hi - ah) * (1 - r))
    by (apply Qmult_le_0_compat; lra).
  assert (Hb2 : 0 <= (hi - bh) * r) by (apply Qmult_le_0_compat; lra).
  split; lra.
Qed.

Lemma ratio_within (t at_ bt : Q) :
  at_ < t -> t <= bt -> 0 <= (t - at_) / (bt - at_) /\ (t - at_) / (bt - at_) <= 1.
Proof.
  intros Ha Hb. assert (Hspan : 0 < bt - at_) by lra. split.
  - apply Qle_shift_div_l; [exact Hspan | lra].
  - apply Qle_shift_div_r; [exact Hspan | lra].
Qed.

Lemma hrAt_loop_within (a : HrAnchor) (rest : list HrAnchor)
  (last_hr t lo hi : Q) :
  a_tSec a < t ->
  lo <= a_hr a <= hi ->
  Forall (fun b => lo <= a_hr b <= hi) rest ->
  lo <= last_hr <= hi ->
  lo <= hrAt_loop a rest last_hr t <= hi.
Proof.
  revert a. induction rest as [|b rest IH]; intros a Ha Hab Hrest Hlast; simpl.
  - exact Hlast.
  - apply Forall_cons in Hrest as [Hb Hrest].
    destruct (Qleb t (a_tSec b)) eqn:Etb.
    + apply Qleb_le in Etb.
      destruct (Qleb (a_tSec b - a_tSec a) 0) eqn:Espan; [exact Hb|].
      destruct (ratio_within t (a_tSec a) (a_tSec b) Ha Etb) as [Hr0 Hr1].
      apply interpolation_within; tauto.
    + apply Qleb_gt in Etb. apply IH; assumption.
Qed.

Lemma List_last_Forall {A : Type} (P : A -> Prop) (l : list A) (d : A) :
  P d -> Forall P l -> P (List.last l d).
Proof.
  intros Hd Hall. induction Hall as [|x l Hx Hall IH]; [exact Hd|].
  destruct l as [|y l]; [exact Hx|]. exact IH.
Qed.

Lemma hrAt_bounded (anchors : list HrAnchor) (t lo hi v : Q) :
  Forall (fun a => lo <= a_hr a <= hi) anchors ->
  (hrAt anchors t = Some v -> lo <= v <= hi) /\
  (forall opts, hrAt_fit opts anchors t = Some v -> lo <= v <= hi).
Proof.
  intros Hall.
  assert (Hmain : hrAt anchors t = Some v -> lo <= v <= hi).
  { destruct anchors as [|a0 [|a1 rest]].
    - discriminate.
    - intros [= <-]. apply Forall_cons in Hall. tauto.
    - unfold hrAt. set (lst := List.last (a0 :: a1 :: rest) a0).
      assert (Hlast : lo <= a_hr lst <= hi).
      { apply (List_last_Forall (fun a => lo <= a_hr a <= hi));
          [|exact Hall]. apply Forall_cons in Hall. tauto. }
      apply Forall_cons in Hall as [H0 Hall].
      destruct (Qleb t (a_tSec a0)) eqn:E0; [intros [= <-]; exact H0|].
      apply Qleb_gt in E0.
      destruct (Qleb (a_tSec lst) t); intros [= <-]; [exact Hlast|].
      apply (hrAt_loop_within a0 (a1 :: rest) (a_hr lst) t lo hi);
        assumption. }
  split; [exact Hmain|].
  intros opts. unfold hrAt_fit.
  destruct (negb (includeHrSeries opts) || (length anchors =? 0)%nat);
    [discriminate | exact Hmain].
Qed.

(** X1. Whatever the order of the anchors, when their values are whole
    numbers the value [hrAt] returns lies within any bounds that hold
    for the anchors' values: linear interpolation never overshoots.  The
    Activity Encoder's copy has the same bounds. *)
Theorem hrAt_within_anchor_range (anchors : list HrAnchor) (t lo hi v : Q) :
  Forall (fun a => whole_number (a_hr a)) anchors ->
  Forall (fun a => lo <= a_hr a <= hi) anchors ->
  (hrAt anchors t = Some v -> lo <= v <= hi) /\
  (forall opts, hrAt_fit opts anchors t = Some v -> lo <= v <= hi).
Proof. intros _. apply hrAt_bounded. Qed.

(** Anchors 100, 180, 140 between 100 and 180. *)
Lemma hrAt_within_anchor_range_witness :
  exists v,
    hrAt [sample_anchor 0 100; sample_anchor 10 180; sample_anchor 20 140] 13
    = Some v /\ 100 <= v <= 180.
Proof.
  eexists. split; [reflexivity|].
  apply (hrAt_within_anchor_range
           [sample_anchor 0 100; sample_anchor 10 180; sample_anchor 20 140]
           13 100 180).
  - repeat (apply Forall_cons; split; [eexists; reflexivity|]).
    apply Forall_nil_2.
  - repeat constructor; simpl; discriminate.
  - reflexivity.
Defined.

(* ------------------------------------------------------------------ *)
(** ** When the forward-fill pass has anything to do *)

Lemma fillHrLoop_none_known (prev : Z) (records : list FitRecord) :
  Forall (fun r => r_hr r = None) records ->
  Forall (fun r => r_hr r = Some prev) (fillHrLoop prev records).
Proof.
  induction 1 as [|r rs Hr _ IH]; simpl; [constructor|].
  rewrite Hr. constructor; [reflexivity | exact IH].
Qed.

Lemma hrAt_fit_is_Some (opts : WorkoutExportOpts) (anchors : list HrAnchor)
  (t : Q) :
  includeHrSeries opts = true -> anchors <> [] ->
  exists v, hrAt_fit opts anchors t = Some v.
Proof.
  intros Hopt Hne. unfold hrAt_fit. rewrite Hopt.
  destruct anchors as [|a0 [|a1 rest]]; [congruence | simpl; eauto |].
  cbn [negb orb length Nat.eqb].
  destruct (Qleb t (a_tSec a0)); [eauto|].
  destruct (Qleb _ t); eauto.
Qed.

Lemma fitHrAnchors_nonempty (sortedSeries : list SeriesPoint) :
  Exists (fun p => p_hr p <> None) sortedSeries ->
  fitHrAnchors sortedSeries <> [].
Proof.
  intros Hex. apply Exists_exists in Hex as (p & Hp & Hhr).
  destruct (p_hr p) as [h|] eqn:Eh; [|congruence].
  assert (Hin : {| a_tSec := p_tSec p; a_hr := h |} ∈ fitHrAnchors sortedSeries).
  { unfold fitHrAnchors. apply list_elem_of_omap. exists p. split.
    - unfold sort_by_tSec. rewrite <- (sort_by_perm p_tSec).
      apply list_elem_of_filter. split; [|exact Hp].
      rewrite Eh. reflexivity.
    - unfold anchor_of_point. rewrite Eh. reflexivity. }
  intros Hnil. rewrite Hnil in Hin. inversion Hin.
Qed.

Lemma fitHrAnchors_empty (sortedSeries : list SeriesPoint) :
  Forall (fun p => p_hr p = None) sortedSeries -> fitHrAnchors sortedSeries = [].
Proof.
  intros Hall. unfold fitHrAnchors.
  assert (Hf : filter (fun p => is_some (p_hr p) = true) sortedSeries = []).
  { induction Hall as [|p l Hp _ IH]; [reflexivity|].
    rewrite filter_cons, IH.
    destruct (decide (is_some (p_hr p) = true)) as [Hd|]; [|reflexivity].
    rewrite Hp in Hd. discriminate. }
  rewrite Hf. reflexivity.
Qed.

Lemma fitHrAnchors_bounds (sortedSeries : list SeriesPoint) (lo hi : Q) :
  Forall (fun p => forall h, p_hr p = Some h -> lo <= h <= hi) sortedSeries ->
  Forall (fun a => lo <= a_hr a <= hi) (fitHrAnchors sortedSeries).
Proof.
  intros Hall. apply Forall_forall. intros a Ha.
  unfold fitHrAnchors in Ha. apply list_elem_of_omap in Ha as (p & Hp & Ea).
  unfold sort_by_tSec in Hp. rewrite <- (sort_by_perm p_tSec) in Hp.
  apply list_elem_of_filter in Hp as [_ Hp].
  rewrite Forall_forall in Hall. specialize (Hall p Hp).
  unfold anchor_of_point in Ea. destruct (p_hr p) as [h|]; [|discriminate].
  injection Ea as <-. simpl. apply Hall. reflexivity.
Qed.

Lemma sorted_series_Exists (P : SeriesPoint -> Prop) (series : list SeriesPoint) :
  Exists P series -> Exists P (sort_by_tSec series).
Proof.
  unfold sort_by_tSec. rewrite <- (sort_by_perm p_tSec). trivial.
Qed.

Lemma sorted_series_Forall (P : SeriesPoint -> Prop) (series : list SeriesPoint) :
  Forall P series -> Forall P (sort_by_tSec series).
Proof.
  unfold sort_by_tSec. rewrite <- (sort_by_perm p_tSec). trivial.
Qed.

Lemma fitRecords_without_fill (w : Workout)
  (opts : WorkoutExportOpts) (series : list SeriesPoint) :
  w_series w = Some series -> includeHrSeries opts = true ->
  Exists (fun p => p_hr p <> None) series ->
  fitRecords w opts = fitSeriesRecords w opts (sort_by_tSec series) /\
  Forall (fun r => r_hr r <> None) (fitRecords w opts).
Proof.
  intros Hw Hopt Hex.
  assert (Hne : series <> []) by (intros ->; inversion Hex).
  assert (Hknown : Forall (fun r => r_hr r <> None)
                     (fitSeriesRecords w opts (sort_by_tSec series))).
  { unfold fitSeriesRecords. apply Forall_map, Forall_forall. intros p _.
    simpl. rewrite Hopt.
    destruct (hrAt_fit_is_Some opts (fitHrAnchors (sort_by_tSec series))
                (inject_Z (Z.max 0 (Math_round (p_tSec p)))) Hopt
                (fitHrAnchors_nonempty _ (sorted_series_Exists _ _ Hex)))
      as [v Hv].
    rewrite Hv. discriminate. }
  assert (Hsame : fitRecords w opts
                  = fitSeriesRecords w opts (sort_by_tSec series)).
  { rewrite (fitRecords_forward_fill w opts series Hw Hne Hopt).
    unfold forwardFillHr. destruct (fallbackHrOf _ _ _); [|reflexivity].
    apply fillHrLoop_all_known, Hknown. }
  split; [exact Hsame | rewrite Hsame; exact Hknown].
Qed.

(** X2. In the Activity Encoder's series path with the HR option on, as
    soon as one series point has an HR every record already carries an
    interpolated HR when the forward-fill pass starts, so the pass
    changes nothing: the records are exactly the ones the record loop
    pushed. *)
Theorem forward_fill_idle_when_series_has_hr (w : Workout)
  (opts : WorkoutExportOpts) (series : list SeriesPoint) :
  w_series w = Some series -> includeHrSeries opts = true ->
  Exists (fun p => p_hr p <> None) series ->
  fitRecords w opts = fitSeriesRecords w opts (sort_by_tSec series) /\
  Forall (fun r => r_hr r <> None) (fitRecords w opts).
Proof. apply fitRecords_without_fill. Qed.

(** A series whose second point has an HR. *)
Lemma forward_fill_idle_when_series_has_hr_witness :
  map r_hr
    (fitRecords
       (sample_workout (Some sample_iso) (Some 10)
          (Some [sample_point 0 None; sample_point 5 (Some 120);
                 sample_point 10 None]))
       sample_opts)
  = [Some 120%Z; Some 120%Z; Some 120%Z].
Proof.
  destruct (forward_fill_idle_when_series_has_hr
              (sample_workout (Some sample_iso) (Some 10)
                 (Some [sample_point 0 None; sample_point 5 (Some 120);
                        sample_point 10 None]))
              sample_opts _ eq_refl eq_refl
              ltac:(apply Exists_cons_tl, Exists_cons_hd; discriminate))
    as [Hsame _].
  rewrite Hsame. reflexivity.
Defined.

(** X3. In the same path, when no series point has an HR, every record
    leaves the pass with the same HR: the rounded average HR of the
    metrics, else the rounded maximum HR, and no HR at all when the
    metrics have neither. *)
Theorem forward_fill_constant_without_series_hr (w : Workout)
  (opts : WorkoutExportOpts) (series : list SeriesPoint) :
  w_series w = Some series -> series <> [] -> includeHrSeries opts = true ->
  Forall (fun p => p_hr p = None) series ->
  Forall (fun r =>
            r_hr r = match mget (w_metrics w) "AvgHr",
                           mget (w_metrics w) "MaxHr" with
                     | Some a, _ => Some (Math_round a)
                     | None, Some m => Some (Math_round m)
                     | None, None => None
                     end)
         (fitRecords w opts).
Proof.
  intros Hw Hne Hopt Hnone.
  assert (Hunknown : Forall (fun r => r_hr r = None)
                       (fitSeriesRecords w opts (sort_by_tSec series))).
  { unfold fitSeriesRecords. apply Forall_map, Forall_forall. intros p _.
    simpl. rewrite Hopt.
    rewrite (fitHrAnchors_empty _ (sorted_series_Forall _ _ Hnone)).
    unfold hrAt_fit. rewrite Hopt. reflexivity. }
  rewrite (fitRecords_forward_fill w opts series Hw Hne Hopt).
  unfold forwardFillHr. rewrite (firstKnownHr_none _ Hunknown).
  unfold fallbackHrOf, nullish.
  destruct (mget (w_metrics w) "AvgHr") as [a|].
  - apply fillHrLoop_none_known, Hunknown.
  - destruct (mget (w_metrics w) "MaxHr") as [m|].
    + apply fillHrLoop_none_known, Hunknown.
    + exact Hunknown.
Qed.

(** A series without HR on a workout whose average HR is 130. *)
Lemma forward_fill_constant_without_series_hr_witness :
  Forall (fun r => r_hr r = Some 130%Z)
    (fitRecords
       (sample_workout (Some sample_iso) (Some 10)
          (Some [sample_point 0 None; sample_point 10 None]))
       sample_opts).
Proof.
  apply (forward_fill_constant_without_series_hr
           (sample_workout (Some sample_iso) (Some 10)
              (Some [sample_point 0 None; sample_point 10 None]))
           sample_opts _ eq_refl ltac:(discriminate) eq_refl).
  repeat constructor.
Defined.

(** X4. With the HR option on and a series in which some point has an
    HR, the HR values of the series being whole numbers, every record's
    HR lies between the rounded bounds of the series' own HR values:
    neither interpolation nor the forward-fill pass brings in a value
    from outside. *)
Theorem fit_hr_within_series_range (w : Workout) (opts : WorkoutExportOpts)
  (series : list SeriesPoint) (lo hi : Q) :
  w_series w = Some series -> includeHrSeries opts = true ->
  Exists (fun p => p_hr p <> None) series ->
  Forall (fun p => forall h, p_hr p = Some h -> whole_number h) series ->
  Forall (fun p => forall h, p_hr p = Some h -> lo <= h <= hi) series ->
  Forall (fun r =>
            exists h, r_hr r = Some h /\
                      (Math_round lo <= h)%Z /\ (h <= Math_round hi)%Z)
         (fitRecords w opts).
Proof.
  intros Hw Hopt Hex _ Hbounds.
  destruct (fitRecords_without_fill w opts series Hw Hopt Hex) as [Hsame _].
  rewrite Hsame. unfold fitSeriesRecords.
  apply Forall_map, Forall_forall. intros p _. simpl. rewrite Hopt.
  destruct (hrAt_fit_is_Some opts (fitHrAnchors (sort_by_tSec series))
              (inject_Z (Z.max 0 (Math_round (p_tSec p)))) Hopt
              (fitHrAnchors_nonempty _ (sorted_series_Exists _ _ Hex)))
    as [v Hv].
  rewrite Hv. simpl. exists (Math_round v). split; [reflexivity|].
  destruct (hrAt_bounded (fitHrAnchors (sort_by_tSec series))
              (inject_Z (Z.max 0 (Math_round (p_tSec p)))) lo hi v
              (fitHrAnchors_bounds _ lo hi
                 (sorted_series_Forall _ _ Hbounds)))
    as [_ Hfit].
  destruct (Hfit opts Hv) as [Hlo Hhi].
  split; apply Math_round_mono; assumption.
Qed.

(** HR values 100 and 140 in the series: every record is within them. *)
Lemma fit_hr_within_series_range_witness :
  Forall (fun r =>
            exists h, r_hr r = Some h /\ (100 <= h)%Z /\ (h <= 140)%Z)
    (fitRecords
       (sample_workout (Some sample_iso) (Some 10)
          (Some [sample_point 0 (Some 100); sample_point 5 None;
                 sample_point 10 (Some 140)]))
       sample_opts).
Proof.
  apply (fit_hr_within_series_range
           (sample_workout (Some sample_iso) (Some 10)
              (Some [sample_point 0 (Some 100); sample_point 5 None;
                     sample_point 10 (Some 140)]))
           sample_opts _ 100 140 eq_refl eq_refl).
  - apply Exists_cons_hd. discriminate.
  - repeat (apply Forall_cons; split;
            [intros h Hh; simpl in Hh;
             first [discriminate
                   | injection Hh as <-; eexists; reflexivity]|]).
    apply Forall_nil_2.
  - repeat (apply Forall_cons; split;
            [intros h Hh; simpl in Hh;
             first [discriminate | injection Hh as <-; split; discriminate]|]).
    apply Forall_nil_2.
Defined.

(* ------------------------------------------------------------------ *)
(** ** The two encoders on the same workout *)

Lemma start_instants_agree `{JsBuiltins} {Ser : Type} (clk : Clock)
  (w : WorkoutOf Ser) :
  fst (tcxStart clk w) = fitStart clk w.
Proof.
  unfold tcxStart, fitStart.
  destruct (truthy_string (w_startedAtISO w)) as [s|].
  - destruct (Date_parse s); reflexivity.
  - destruct (truthy_string (rawStartISO w)) as [s|].
    + destruct (Date_parse s); reflexivity.
    + destruct (Date_parse _); reflexivity.
Qed.

Lemma fitRecords_same_but_hr (w : Workout) (opts : WorkoutExportOpts) :
  Forall2 same_but_hr
    (if hasSeries w
     then fitSeriesRecords w opts (sort_by_tSec (default [] (w_series w)))
     else fitSyntheticRecords w opts)
    (fitRecords w opts).
Proof.
  unfold fitRecords. destruct (hasSeries w).
  - apply fitForwardFill_same_but_hr.
  - apply Forall_Forall2_diag, Forall_forall. intros r _.
    apply same_but_hr_refl.
Qed.

Lemma encoders_same_sample `{JsBuiltins} (clk : Clock) (w : Workout)
  (opts : WorkoutExportOpts) :
  Forall2 same_sample (tcxPoints clk w opts) (fitRecords w opts).
Proof.
  eapply Forall2_compose; [| |apply fitRecords_same_but_hr].
  2:{ unfold tcxPoints. destruct (hasSeries w).
      - unfold tcxSeriesPoints, fitSeriesRecords.
        apply Forall2_fmap, Forall_Forall2_diag, Forall_forall.
        intros p _.
        instantiate (1 := fun tp r =>
          tp_t tp = r_tSec r /\ tp_dist tp = r_dist r /\
          tp_alt tp = r_alt r /\ tp_cadence tp = r_cadence r /\
          tp_watts tp = r_watts r).
        simpl. repeat split.
      - unfold tcxSyntheticPoints, fitSyntheticRecords.
        apply Forall2_fmap, Forall_Forall2_diag, Forall_forall.
        intros i _. simpl. repeat split. }
  intros tp r r' (H1 & H2 & H3 & H4 & H5) (H1' & H2' & H3' & H4' & H5').
  unfold same_sample. rewrite H1', H2', H3', H4', H5'. auto.
Qed.

Lemma encoders_same_synthetic_hr `{JsBuiltins} (clk : Clock) (w : Workout)
  (opts : WorkoutExportOpts) :
  hasSeries w = false ->
  Forall2 (fun tp r => tp_hr tp = r_hr r)
    (tcxPoints clk w opts) (fitRecords w opts).
Proof.
  intros Hs. unfold tcxPoints, fitRecords. rewrite Hs.
  unfold tcxSyntheticPoints, fitSyntheticRecords.
  apply Forall2_fmap, Forall_Forall2_diag, Forall_forall.
  intros i _. reflexivity.
Qed.

Lemma tcxPoints_times `{JsBuiltins} (clk : Clock) (w : Workout)
  (opts : WorkoutExportOpts) :
  Forall (fun tp =>
            tp_time tp
            = Date_toISOString (fst (tcxStart clk w) + tp_t tp * 1000)%Z)
    (tcxPoints clk w opts).
Proof.
  unfold tcxPoints, tcxSeriesPoints, tcxSyntheticPoints.
  destruct (hasSeries w); apply Forall_map, Forall_forall; intros x _;
    reflexivity.
Qed.

(** A stored start time that parses is the start of both encoders,
    whatever the clock shows. *)
Lemma stored_start `{JsBuiltins} {Ser : Type} (clk : Clock)
  (w : WorkoutOf Ser) (s : string) (ms : Z) :
  truthy_string (w_startedAtISO w) ?? truthy_string (rawStartISO w) = Some s ->
  Date_parse s = Some ms ->
  fst (tcxStart clk w) = ms /\ fitStart clk w = ms.
Proof.
  intros Hs Hparse. unfold tcxStart, fitStart.
  destruct (truthy_string (w_startedAtISO w)) as [s1|].
  - injection Hs as ->. rewrite Hparse. auto.
  - simpl in Hs. rewrite Hs, Hparse. auto.
Qed.

(** X5. On any workout the two encoders emit the same samples: the
    i-th trackpoint and the i-th record have the same offset, distance,
    altitude, cadence and power; without a series they also have the
    same HR.  (With a series the HR can differ: the Track Encoder writes
    the point's own HR, the Activity Encoder the interpolated one.)
    Each encoder reads the clock on its own.  When the workout has a
    start time that parses, its own or else the raw record's, both
    encoders start there and the trackpoint's time is the ISO form of
    the record's timestamp; in general that holds exactly as far as the
    two start instants are the same. *)
Theorem encoders_emit_the_same_samples `{JsBuiltins} (clk clk' : Clock)
  (w : Workout) (opts : WorkoutExportOpts) :
  Forall2 same_sample (tcxPoints clk w opts) (fitRecords w opts) /\
  Forall (fun tp =>
            tp_time tp
            = Date_toISOString (fst (tcxStart clk w) + tp_t tp * 1000)%Z)
    (tcxPoints clk w opts) /\
  (fst (tcxStart clk w) = fitStart clk' w ->
   Forall2 (fun tp r =>
              tp_time tp
              = Date_toISOString (fitStart clk' w + r_tSec r * 1000)%Z)
     (tcxPoints clk w opts) (fitRecords w opts)) /\
  (forall s ms,
     truthy_string (w_startedAtISO w) ?? truthy_string (rawStartISO w) = Some s ->
     Date_parse s = Some ms ->
     fst (tcxStart clk w) = ms /\ fitStart clk' w = ms /\
     Forall2 (fun tp r =>
                tp_time tp = Date_toISOString (ms + r_tSec r * 1000)%Z)
       (tcxPoints clk w opts) (fitRecords w opts)) /\
  (w_series w = None \/ w_series w = Some [] ->
   Forall2 (fun tp r => tp_hr tp = r_hr r)
     (tcxPoints clk w opts) (fitRecords w opts)).
Proof.
  assert (Htimes : forall start, fst (tcxStart clk w) = start ->
    Forall2 (fun tp r =>
               tp_time tp = Date_toISOString (start + r_tSec r * 1000)%Z)
      (tcxPoints clk w opts) (fitRecords w opts)).
  { intros start Hstart.
    pose proof (tcxPoints_times clk w opts) as Htime.
    pose proof (encoders_same_sample clk w opts) as Hsame.
    revert Htime. induction Hsame as [|tp r tps rs Hs _ IH]; intros Htime.
    + constructor.
    + apply Forall_cons in Htime as [Ht Htime].
      constructor; [|apply IH, Htime].
      rewrite Ht, Hstart. destruct Hs as [-> _]. reflexivity. }
  split; [apply encoders_same_sample|].
  split; [apply tcxPoints_times|].
  split; [intros Hstart; apply Htimes, Hstart|].
  split.
  - intros s ms Hs Hparse.
    destruct (stored_start clk w s ms Hs Hparse) as [Htcx _].
    destruct (stored_start clk' w s ms Hs Hparse) as [_ Hfit].
    split; [exact Htcx|]. split; [exact Hfit|]. apply Htimes, Htcx.
  - intros Hnone. apply encoders_same_synthetic_hr, hasSeries_false, Hnone.
Qed.

(** A workout without a series and with a start time, encoded at two
    different times of day. *)
Lemma encoders_emit_the_same_samples_witness :
  Forall2 (fun tp r => tp_hr tp = r_hr r)
    (@tcxPoints sample_builtins (sample_clock 0)
       (sample_workout (Some sample_iso) (Some 23) None) sample_opts)
    (fitRecords (sample_workout (Some sample_iso) (Some 23) None) sample_opts) /\
  @fitStart sample_builtins _ (sample_clock 5000)
    (sample_workout (Some sample_iso) (Some 23) (@None (list SeriesPoint)))
  = fst (@tcxStart sample_builtins _ (sample_clock 0)
           (sample_workout (Some sample_iso) (Some 23)
              (@None (list SeriesPoint)))).
Proof.
  destruct (@encoders_emit_the_same_samples sample_builtins (sample_clock 0)
              (sample_clock 5000)
              (sample_workout (Some sample_iso) (Some 23) None) sample_opts)
    as (_ & _ & _ & Hstart & Hhr).
  split; [apply Hhr; left; reflexivity|].
  destruct (@Date_parse sample_builtins sample_iso) as [ms|] eqn:Hparse;
    [|discriminate].
  destruct (Hstart sample_iso ms eq_refl Hparse) as (Htcx & Hfit & _).
  rewrite Htcx, Hfit. reflexivity.
Defined.

(* ------------------------------------------------------------------ *)
(** ** Options that are off *)

Lemma Forall2_left {A B : Type} (P : A -> B -> Prop) (Q : A -> Prop)
  (la : list A) (lb : list B) :
  (forall a b, P a b -> Q a) -> Forall2 P la lb -> Forall Q la.
Proof.
  intros HPQ Hab. induction Hab; constructor; eauto.
Qed.

Lemma fitRecords_hr_off (w : Workout) (opts : WorkoutExportOpts) :
  includeHrSeries opts = false ->
  Forall (fun r => r_hr r = None) (fitRecords w opts).
Proof.
  intros Hopt. unfold fitRecords. destruct (hasSeries w).
  - unfold fitForwardFill. rewrite Hopt. simpl.
    unfold fitSeriesRecords. apply Forall_map, Forall_forall. intros p _.
    simpl. rewrite Hopt. reflexivity.
  - unfold fitSyntheticRecords. apply Forall_map, Forall_forall. intros i _.
    simpl. unfold syntheticHr. rewrite Hopt. reflexivity.
Qed.

Lemma tcxPoints_hr_off `{JsBuiltins} (clk : Clock) (w : Workout)
  (opts : WorkoutExportOpts) :
  includeHrSeries opts = false ->
  Forall (fun tp => tp_hr tp = None) (tcxPoints clk w opts).
Proof.
  intros Hopt. unfold tcxPoints, tcxSeriesPoints, tcxSyntheticPoints.
  destruct (hasSeries w); apply Forall_map, Forall_forall; intros x _; simpl.
  - rewrite Hopt. reflexivity.
  - unfold syntheticHr. rewrite Hopt. reflexivity.
Qed.

(** What holds of every record, given what holds of every record before
    the forward-fill pass, for a property that does not look at HR. *)
Lemma fitRecords_Forall (w : Workout) (opts : WorkoutExportOpts)
  (P : FitRecord -> Prop) :
  (forall r r', same_but_hr r r' -> P r -> P r') ->
  (forall sorted,
     Forall P (fitSeriesRecords w opts sorted)) ->
  Forall P (fitSyntheticRecords w opts) ->
  Forall P (fitRecords w opts).
Proof.
  intros Hcompat Hseries Hsyn.
  pose proof (fitRecords_same_but_hr w opts) as Hsame.
  assert (Hbase : Forall P
            (if hasSeries w
             then fitSeriesRecords w opts
                    (sort_by_tSec (default [] (w_series w)))
             else fitSyntheticRecords w opts))
    by (destruct (hasSeries w); [apply Hseries | exact Hsyn]).
  revert Hbase. induction Hsame as [|r r' rs rs' Hr _ IH]; intros Hbase.
  - constructor.
  - apply Forall_cons in Hbase as [Hp Hbase].
    constructor; [exact (Hcompat r r' Hr Hp) | apply IH, Hbase].
Qed.

(** X6. A channel whose option is off is absent from every sample of
    both encoders: no HR, no cadence, no power, no altitude; with the
    distance option off every sample's distance is 0 and the lap has
    distance 0 and no speed; with the calories option off the lap has no
    calories. *)
Theorem disabled_channels_are_absent `{JsBuiltins} (clk : Clock) (w : Workout)
  (opts : WorkoutExportOpts) :
  let points := tcxPoints clk w opts in
  let records := fitRecords w opts in
  let summary := fitSummary clk w opts records in
  (includeHrSeries opts = false ->
   Forall (fun tp => tp_hr tp = None) points /\
   Forall (fun r => r_hr r = None) records) /\
  (includeCadenceSeries opts = false ->
   Forall (fun tp => tp_cadence tp = None) points /\
   Forall (fun r => r_cadence r = None) records /\
   s_avg_cadence summary = None) /\
  (includePowerSeries opts = false ->
   Forall (fun tp => tp_watts tp = None) points /\
   Forall (fun r => r_watts r = None) records) /\
  (includeVerticalAsAltitude opts = false ->
   Forall (fun tp => tp_alt tp = None) points /\
   Forall (fun r => r_alt r = None) records /\
   s_total_ascent summary = None /\ s_total_descent summary = None) /\
  (includeDistance opts = false ->
   Forall (fun tp => tp_dist tp = 0) points /\
   Forall (fun r => r_dist r = 0) records /\
   s_total_distance summary = 0 /\ s_avg_speed summary = None /\
   s_max_speed summary = None) /\
  (includeCalories opts = false -> s_total_calories summary = None).
Proof.
  intros points records summary.
  pose proof (encoders_same_sample clk w opts) as Hsame.
  assert (Hfrom : forall (P : Trackpoint -> Prop) (Q : FitRecord -> Prop),
            (forall tp r, same_sample tp r -> Q r -> P tp) ->
            Forall Q records -> Forall P points).
  { intros P Q HPQ HQ. unfold points, records in *.
    induction Hsame as [|tp r tps rs Hs _ IH]; [constructor|].
    apply Forall_cons in HQ as [Hq HQ].
    constructor; [exact (HPQ tp r Hs Hq) | apply IH, HQ]. }
  split; [intros Hopt; split;
          [apply tcxPoints_hr_off | apply fitRecords_hr_off]; exact Hopt|].
  split.
  { intros Hopt.
    assert (Hr : Forall (fun r => r_cadence r = None) records).
    { apply fitRecords_Forall.
      - intros r r' (_ & _ & _ & Hc & _) Hp. congruence.
      - intros sorted. unfold fitSeriesRecords.
        apply Forall_map, Forall_forall. intros p _. simpl.
        rewrite Hopt. reflexivity.
      - unfold fitSyntheticRecords. apply Forall_map, Forall_forall.
        intros i _. simpl. unfold cadenceDefault. rewrite Hopt. reflexivity. }
    split; [|split; [exact Hr|]].
    - apply (Hfrom _ _ (fun tp r Hs Hq =>
               eq_trans (proj1 (proj2 (proj2 (proj2 Hs)))) Hq) Hr).
    - unfold summary, fitSummary. simpl. unfold cadenceDefault.
      rewrite Hopt. reflexivity. }
  split.
  { intros Hopt.
    assert (Hr : Forall (fun r => r_watts r = None) records).
    { apply fitRecords_Forall.
      - intros r r' (_ & _ & _ & _ & Hw) Hp. congruence.
      - intros sorted. unfold fitSeriesRecords.
        apply Forall_map, Forall_forall. intros p _. simpl.
        rewrite Hopt. reflexivity.
      - unfold fitSyntheticRecords. apply Forall_map, Forall_forall.
        intros i _. simpl. unfold wattsDefault. rewrite Hopt. reflexivity. }
    split; [|exact Hr].
    apply (Hfrom _ _ (fun tp r Hs Hq =>
             eq_trans (proj2 (proj2 (proj2 (proj2 Hs)))) Hq) Hr). }
  split.
  { intros Hopt.
    assert (Hr : Forall (fun r => r_alt r = None) records).
    { apply fitRecords_Forall.
      - intros r r' (_ & _ & Ha & _) Hp. congruence.
      - intros sorted. unfold fitSeriesRecords.
        apply Forall_map, Forall_forall. intros p _. simpl.
        unfold seriesAlt. rewrite Hopt. reflexivity.
      - unfold fitSyntheticRecords. apply Forall_map, Forall_forall.
        intros i _. simpl. unfold totalVerticalOf. rewrite Hopt.
        reflexivity. }
    split; [|split; [exact Hr|]].
    - apply (Hfrom _ _ (fun tp r Hs Hq =>
               eq_trans (proj1 (proj2 (proj2 Hs))) Hq) Hr).
    - unfold summary, fitSummary. simpl. unfold totalVerticalOf.
      rewrite Hopt. split; reflexivity. }
  split.
  { intros Hopt.
    assert (Hr : Forall (fun r => r_dist r = 0) records).
    { apply fitRecords_Forall.
      - intros r r' (_ & Hd & _) Hp. congruence.
      - intros sorted. unfold fitSeriesRecords.
        apply Forall_map, Forall_forall. intros p _. simpl.
        unfold totalDistanceOf. rewrite Hopt. reflexivity.
      - unfold fitSyntheticRecords. apply Forall_map, Forall_forall.
        intros i _. simpl. unfold totalDistanceOf. rewrite Hopt.
        reflexivity. }
    split; [|split; [exact Hr|]].
    - apply (Hfrom _ _ (fun tp r Hs Hq =>
               eq_trans (proj1 (proj2 Hs)) Hq) Hr).
    - unfold summary, fitSummary. simpl. unfold totalDistanceOf.
      rewrite Hopt. repeat split. }
  intros Hopt. unfold summary, fitSummary. simpl. rewrite Hopt. reflexivity.
Qed.

(** A workout with average HR 130 encoded with the HR option off. *)
Lemma disabled_channels_are_absent_witness :
  Forall (fun r => r_hr r = None)
    (fitRecords (sample_workout (Some sample_iso) (Some 23) None)
       {| includeHrSeries := false; includeCadenceSeries := true;
          includePowerSeries := true; includeMetricsInNotes := false;
          includeCalories := true; includeDistance := true;
          includeVerticalAsAltitude := true |}).
Proof.
  destruct (@disabled_channels_are_absent sample_builtins (sample_clock 0)
              (sample_workout (Some sample_iso) (Some 23) None)
              {| includeHrSeries := false; includeCadenceSeries := true;
                 includePowerSeries := true; includeMetricsInNotes := false;
                 includeCalories := true; includeDistance := true;
                 includeVerticalAsAltitude := true |})
    as [Hhr _].
  apply Hhr. reflexivity.
Defined.

(* ------------------------------------------------------------------ *)
(** ** The time line of a FIT file *)

Lemma workoutToFIT_messages `{JsBuiltins} (clk : Clock) (w : Workout)
  (opts : WorkoutExportOpts) (enhancedCompatibility : bool) :
  let startMs := fitStart clk w in
  let records := fitRecords w opts in
  let summary := fitSummary clk w opts records in
  let endMs := s_timestamp summary in
  let sport := pickFitSport w in
  workoutToFIT clk w opts enhancedCompatibility
  = [Msg_file_id startMs] ++
    (if enhancedCompatibility
     then [Msg_file_creator; Msg_device_info startMs;
           Msg_event startMs timer_start]
     else []) ++
    map (recordMessage startMs) records ++
    [Msg_lap summary; Msg_session summary (fst sport) (snd sport);
     Msg_activity endMs (s_total_timer_time summary)] ++
    (if enhancedCompatibility
     then [Msg_event endMs timer_stop_all; Msg_device_info endMs]
     else []).
Proof.
  intros startMs records summary endMs sport.
  unfold workoutToFIT, workoutToFIT_body, fitWriteHeader, fitWriteBody.
  fold startMs records summary endMs sport.
  unfold fit_bind, fit_when, fit_ret.
  destruct enhancedCompatibility; simpl; rewrite fit_for_writes; simpl;
    rewrite <- ?app_assoc; reflexivity.
Qed.

Lemma fitRecords_nonempty (w : Workout) (opts : WorkoutExportOpts) :
  fitRecords w opts <> [].
Proof.
  intros Hnil. pose proof (fitRecords_length w opts) as Hlen.
  rewrite Hnil in Hlen. simpl in Hlen.
  destruct (w_series w) as [[|p series]|]; try discriminate;
    rewrite syntheticCount_spec in Hlen;
    destruct (0 <? totalSecondsOf w)%Z; lia.
Qed.

Lemma fitRecords_offsets_nonneg (w : Workout) (opts : WorkoutExportOpts) :
  Forall (fun r => (0 <= r_tSec r)%Z) (fitRecords w opts).
Proof.
  apply fitRecords_Forall.
  - intros r r' (Ht & _) Hp. lia.
  - intros sorted. unfold fitSeriesRecords.
    apply Forall_map, Forall_forall. intros p _. simpl. lia.
  - unfold fitSyntheticRecords, loop_indices. rewrite map_map.
    apply Forall_map, Forall_forall. intros i _. simpl.
    unfold totalSecondsOf. lia.
Qed.

Lemma StronglySorted_last_max (l : list Z) (m : Z) :
  StronglySorted Z.le l -> last l = Some m -> Forall (fun x => (x <= m)%Z) l.
Proof.
  intros Hs Hl. apply last_Some in Hl as [l' ->].
  apply Forall_forall. intros x Hx.
  apply elem_of_app in Hx as [Hx | Hx].
  - clear -Hs Hx. induction l' as [|y l' IH]; [inversion Hx|].
    simpl in Hs. apply StronglySorted_inv in Hs as [Hs Hy].
    apply elem_of_cons in Hx as [-> | Hx]; [|apply IH; assumption].
    apply Forall_forall with (x := m) in Hy; [exact Hy|].
    apply elem_of_app. right. apply list_elem_of_singleton. reflexivity.
  - apply list_elem_of_singleton in Hx. lia.
Qed.

Lemma StronglySorted_append (l1 l2 : list Z) :
  StronglySorted Z.le l1 -> StronglySorted Z.le l2 ->
  (forall x y, x ∈ l1 -> y ∈ l2 -> (x <= y)%Z) ->
  StronglySorted Z.le (l1 ++ l2).
Proof.
  intros H1 H2 H12. induction l1 as [|x l1 IH]; [exact H2|].
  apply StronglySorted_inv in H1 as [H1 Hx]. simpl. constructor.
  - apply IH; [exact H1|]. intros a b Ha Hb. apply H12; [|exact Hb].
    apply elem_of_cons. right. exact Ha.
  - apply Forall_app. split; [exact Hx|].
    apply Forall_forall. intros y Hy. apply H12; [|exact Hy].
    apply elem_of_cons. left. reflexivity.
Qed.

Lemma fitSummary_total_time `{JsBuiltins} (clk : Clock) (w : Workout)
  (opts : WorkoutExportOpts) :
  let records := fitRecords w opts in
  let summary := fitSummary clk w opts records in
  (1 <= s_total_timer_time summary)%Z /\
  s_total_elapsed_time summary = s_total_timer_time summary /\
  s_start_time summary = fitStart clk w /\
  s_timestamp summary
  = (fitStart clk w + s_total_timer_time summary * 1000)%Z /\
  Forall (fun r => (0 <= r_tSec r <= s_total_timer_time summary)%Z) records /\
  exists r, last records = Some r /\
            s_total_timer_time summary = Z.max 1 (r_tSec r).
Proof.
  intros records summary.
  destruct (last records) as [rl|] eqn:Hlast.
  2:{ apply last_None in Hlast. destruct (fitRecords_nonempty w opts Hlast). }
  assert (Htot : s_total_timer_time summary = Z.max 1 (r_tSec rl)).
  { unfold summary, fitSummary. simpl. rewrite Hlast. reflexivity. }
  split; [lia|]. split; [reflexivity|]. split; [reflexivity|].
  split; [unfold summary, fitSummary; simpl; rewrite Hlast; reflexivity|].
  split; [|exists rl; split; [reflexivity | exact Htot]].
  pose proof (fitRecords_offsets_nonneg w opts) as Hnn.
  pose proof (StronglySorted_last_max (map r_tSec records) (r_tSec rl)
                (fitRecords_offsets_ascending w opts)) as Hmax.
  rewrite fmap_last, Hlast in Hmax. specialize (Hmax eq_refl).
  fold records in Hnn.
  rewrite Forall_forall in Hnn. rewrite Forall_forall in Hmax.
  apply Forall_forall. intros r Hr.
  specialize (Hnn r Hr).
  specialize (Hmax (r_tSec r) (list_elem_of_fmap_2 r_tSec records r Hr)).
  simpl in Hmax. lia.
Qed.

(** X7. The time line of a FIT file.  There is at least one record; the
    lap lasts at least one second, its elapsed time equals its timer
    time, and its end timestamp is its start plus that time; every
    record's offset lies between 0 and the lap's total time; and the
    timestamps of the messages, in the order they are written, never
    decrease, from the start instant to the lap's end. *)
Theorem fit_time_line `{JsBuiltins} (clk : Clock) (w : Workout)
  (opts : WorkoutExportOpts) (enhancedCompatibility : bool) :
  let records := fitRecords w opts in
  let summary := fitSummary clk w opts records in
  let stamps :=
    omap message_timestamp (workoutToFIT clk w opts enhancedCompatibility) in
  records <> [] /\
  (1 <= s_total_timer_time summary)%Z /\
  s_total_elapsed_time summary = s_total_timer_time summary /\
  s_timestamp summary
  = (s_start_time summary + s_total_timer_time summary * 1000)%Z /\
  Forall (fun r => (0 <= r_tSec r <= s_total_timer_time summary)%Z) records /\
  StronglySorted Z.le stamps /\
  head stamps = Some (s_start_time summary) /\
  last stamps = Some (s_timestamp summary).
Proof.
  intros records summary stamps.
  destruct (fitSummary_total_time clk w opts)
    as (H1 & Hel & Hst & Hend & Hin & _).
  fold records summary in H1, Hel, Hst, Hend, Hin.
  split; [apply fitRecords_nonempty|].
  split; [exact H1|]. split; [exact Hel|].
  split; [rewrite Hst; exact Hend|]. split; [exact Hin|].
  set (startMs := fitStart clk w) in *.
  set (endMs := s_timestamp summary) in *.
  assert (Hstamps : stamps
            = ([startMs] ++ (if enhancedCompatibility
                             then [startMs; startMs] else [])) ++
              map (fun r => (startMs + r_tSec r * 1000)%Z) records ++
              ([endMs; endMs; endMs] ++
               (if enhancedCompatibility then [endMs; endMs] else []))).
  { unfold stamps. rewrite workoutToFIT_messages.
    fold records summary startMs endMs.
    rewrite !omap_app.
    assert (Hrec : omap message_timestamp (map (recordMessage startMs) records)
                   = map (fun r => (startMs + r_tSec r * 1000)%Z) records).
    { clear. induction records as [|r rs IH]; [reflexivity|].
      simpl. rewrite <- IH. reflexivity. }
    rewrite Hrec. destruct enhancedCompatibility; reflexivity. }
  assert (Hse : (startMs <= endMs)%Z) by lia.
  assert (Hrange : forall y,
            y ∈ map (fun r => (startMs + r_tSec r * 1000)%Z) records ->
            (startMs <= y <= endMs)%Z).
  { intros y Hy. apply list_elem_of_fmap in Hy as (r & -> & Hr).
    rewrite Forall_forall in Hin. specialize (Hin r Hr). cbv beta in Hin.
    lia. }
  assert (Hall_start : forall x,
            x ∈ [startMs] ++ (if enhancedCompatibility
                              then [startMs; startMs] else []) ->
            x = startMs).
  { intros x Hx. destruct enhancedCompatibility; simpl in Hx;
      repeat (apply elem_of_cons in Hx as [-> | Hx]; [reflexivity|]);
      inversion Hx. }
  assert (Hall_end : forall x,
            x ∈ [endMs; endMs; endMs] ++
                (if enhancedCompatibility then [endMs; endMs] else []) ->
            x = endMs).
  { intros x Hx. destruct enhancedCompatibility; simpl in Hx;
      repeat (apply elem_of_cons in Hx as [-> | Hx]; [reflexivity|]);
      inversion Hx. }
  split; [|split].
  - rewrite Hstamps. apply StronglySorted_append.
    + destruct enhancedCompatibility; simpl;
        repeat (constructor; [|repeat constructor; lia]); constructor.
    + apply StronglySorted_append.
      * rewrite <- (map_map r_tSec (fun t => (startMs + t * 1000)%Z)).
        apply (StronglySorted_map Z.le Z.le); [intros; lia|].
        apply fitRecords_offsets_ascending.
      * destruct enhancedCompatibility; simpl;
          repeat (constructor; [|repeat constructor; lia]); constructor.
      * intros x y Hx Hy. apply Hall_end in Hy as ->. apply Hrange, Hx.
    + intros x y Hx Hy. apply Hall_start in Hx as ->.
      apply elem_of_app in Hy as [Hy | Hy]; [apply Hrange, Hy|].
      apply Hall_end in Hy as ->. exact Hse.
  - rewrite Hstamps, Hst. reflexivity.
  - rewrite Hstamps, !last_app.
    destruct enhancedCompatibility; reflexivity.
Qed.

(* ------------------------------------------------------------------ *)
(** ** The total time of a FIT lap *)

Lemma loop_indices_last (n : Z) :
  (1 <= n)%Z -> last (loop_indices n) = Some (n - 1)%Z.
Proof.
  intros Hn. unfold loop_indices.
  replace (Z.to_nat n) with (S (Z.to_nat (n - 1))) by lia.
  rewrite seq_S, map_app. change (map Z.of_nat [(0 + Z.to_nat (n - 1))%nat])
    with [Z.of_nat (0 + Z.to_nat (n - 1))].
  rewrite last_snoc. f_equal. lia.
Qed.

Lemma synthetic_last_offset (ts : Z) :
  (0 <= ts)%Z ->
  Z.min ts ((syntheticCount ts - 1) * 5)
  = (if (ts <? 5)%Z then ts else 5 * (ts / 5))%Z.
Proof.
  intros Hts. rewrite syntheticCount_spec.
  destruct (Z.ltb_spec 0 ts) as [Hpos | Hzero];
    destruct (Z.ltb_spec ts 5) as [Hlt | Hge]; try lia.
  pose proof (Z.mul_div_le ts 5 ltac:(lia)).
  assert (1 <= ts / 5)%Z by (apply Z.div_le_lower_bound; lia). lia.
Qed.

Lemma fitRecords_last_synthetic (w : Workout) (opts : WorkoutExportOpts) :
  hasSeries w = false ->
  r_tSec <$> last (fitRecords w opts)
  = Some (let ts := totalSecondsOf w in
          if (ts <? 5)%Z then ts else 5 * (ts / 5))%Z.
Proof.
  intros Hs. rewrite fitRecords_synthetic by exact Hs.
  rewrite fmap_last, loop_indices_last.
  2:{ rewrite syntheticCount_spec. destruct (0 <? totalSecondsOf w)%Z; lia. }
  simpl. f_equal. apply synthetic_last_offset. unfold totalSecondsOf. lia.
Qed.

Lemma fitRecords_last_series (w : Workout) (opts : WorkoutExportOpts)
  (series : list SeriesPoint) :
  w_series w = Some series -> series <> [] ->
  exists p, p ∈ series /\ Forall (fun q => p_tSec q <= p_tSec p) series /\
            r_tSec <$> last (fitRecords w opts) = Some (emitted_offset p).
Proof.
  intros Hser Hne.
  assert (Hoff : map r_tSec (fitRecords w opts)
                 = map emitted_offset (sort_by_tSec series)).
  { rewrite (fitRecords_series w opts series Hser Hne).
    rewrite fitForwardFill_tSec. apply fitSeriesRecords_offsets. }
  pose proof (sort_by_perm p_tSec series) as Hperm.
  fold (sort_by_tSec series) in Hperm.
  destruct (last (sort_by_tSec series)) as [p|] eqn:Hlast.
  2:{ apply last_None in Hlast. rewrite Hlast in Hperm.
      apply Permutation_nil_r in Hperm. contradiction. }
  exists p. split; [|split].
  - apply last_Some_elem_of in Hlast.
    apply list_elem_of_In.
    eapply Permutation_in; [symmetry; exact Hperm|].
    apply list_elem_of_In, Hlast.
  - eapply Permutation_Forall; [symmetry; exact Hperm|].
    apply ascending_last_max; [apply sort_by_tSec_ascending | exact Hlast].
  - rewrite <- fmap_last.
    change (last (map r_tSec (fitRecords w opts)) = Some (emitted_offset p)).
    rewrite Hoff.
    change (last (emitted_offset <$> sort_by_tSec series)
            = Some (emitted_offset p)).
    rewrite fmap_last, Hlast. reflexivity.
Qed.

(** X8. The total time of the FIT lap is never the declared duration
    itself but the offset of the last record, at least one second.
    Without a series that is the declared duration (rounded, not
    negative) when it is under 5 seconds and otherwise the duration
    rounded down to a multiple of 5 seconds; with a series it is the
    rounded offset of a latest series point, whatever the declared
    duration. *)
Theorem fit_total_time_is_last_offset `{JsBuiltins} (clk : Clock) (w : Workout)
  (opts : WorkoutExportOpts) :
  let summary := fitSummary clk w opts (fitRecords w opts) in
  (w_series w = None \/ w_series w = Some [] ->
   s_total_timer_time summary
   = Z.max 1 (let ts := totalSecondsOf w in
              if (ts <? 5)%Z then ts else 5 * (ts / 5))%Z) /\
  (forall series, w_series w = Some series -> series <> [] ->
   exists p, p ∈ series /\
             Forall (fun q => p_tSec q <= p_tSec p) series /\
             s_total_timer_time summary = Z.max 1 (Math_round (p_tSec p))).
Proof.
  intros summary.
  destruct (fitSummary_total_time clk w opts) as (_ & _ & _ & _ & _ & Hlast).
  destruct Hlast as (rl & Hlast & Htot). fold summary in Htot.
  split.
  - intros Hnone. apply hasSeries_false in Hnone.
    pose proof (fitRecords_last_synthetic w opts Hnone) as Hsyn.
    rewrite Hlast in Hsyn. simpl in Hsyn. injection Hsyn as Hsyn.
    rewrite Htot, Hsyn. reflexivity.
  - intros series Hser Hne.
    destruct (fitRecords_last_series w opts series Hser Hne)
      as (p & Hp & Hmax & Hoff).
    exists p. split; [exact Hp|]. split; [exact Hmax|].
    rewrite Hlast in Hoff. simpl in Hoff. injection Hoff as Hoff.
    rewrite Htot, Hoff. unfold emitted_offset. lia.
Qed.

(** A declared duration of 23 seconds without a series gives a lap of 20
    seconds. *)
Lemma fit_total_time_is_last_offset_witness :
  s_total_timer_time
    (@fitSummary sample_builtins (list SeriesPoint) (sample_clock 0)
       (sample_workout (Some sample_iso) (Some 23) None) sample_opts
       (fitRecords (sample_workout (Some sample_iso) (Some 23) None)
          sample_opts))
  = 20%Z.
Proof.
  destruct (@fit_total_time_is_last_offset sample_builtins (sample_clock 0)
              (sample_workout (Some sample_iso) (Some 23) None) sample_opts)
    as [Hsyn _].
  rewrite Hsyn; [reflexivity | left; reflexivity].
Defined.

(* ------------------------------------------------------------------ *)
(** ** The distance along the track *)

Lemma proRate_nonneg (d : Q) (t : Z) (total : Q) :
  0 <= d -> (0 <= t)%Z -> 0 < total -> 0 <= proRate d t total.
Proof.
  intros Hd Ht Htot. unfold proRate.
  apply Qmult_le_0_compat; [exact Hd|].
  apply Qle_shift_div_l; [exact Htot|].
  rewrite Qmult_0_l. change 0 with (inject_Z 0). rewrite <- Zle_Qle. exact Ht.
Qed.

Lemma proRate_mono (d : Q) (t1 t2 : Z) (total : Q) :
  0 <= d -> 0 < total -> (t1 <= t2)%Z ->
  proRate d t1 total <= proRate d t2 total.
Proof.
  intros Hd Htot Ht. unfold proRate.
  rewrite !(Qmult_comm d). apply Qmult_le_compat_r; [|exact Hd].
  unfold Qdiv. apply Qmult_le_compat_r.
  - rewrite <- Zle_Qle. exact Ht.
  - apply Qlt_le_weak, Qinv_lt_0_compat, Htot.
Qed.

Lemma proRate_le (d : Q) (t : Z) (total : Q) :
  0 <= d -> 0 < total -> inject_Z t <= total -> proRate d t total <= d.
Proof.
  intros Hd Htot Ht. unfold proRate.
  rewrite <- (Qmult_1_r d) at 2.
  rewrite !(Qmult_comm d). apply Qmult_le_compat_r; [|exact Hd].
  apply Qle_shift_div_r; [exact Htot|]. rewrite Qmult_1_l. exact Ht.
Qed.

Lemma Forall2_transfer {A B : Type} (P : A -> B -> Prop) (QA : A -> Prop)
  (QB : B -> Prop) (la : list A) (lb : list B) :
  (forall a b, P a b -> QA a -> QB b) ->
  Forall2 P la lb -> Forall QA la -> Forall QB lb.
Proof.
  intros HPQ Hab. induction Hab as [|a b la lb Hp _ IH]; intros Ha.
  - constructor.
  - apply Forall_cons in Ha as [Ha Hla]. constructor; eauto.
Qed.

(** The distance of a record as a function of its offset. *)
Lemma fitRecords_dist_of_offset (w : Workout) (opts : WorkoutExportOpts) :
  let distOf t :=
    if hasSeries w
    then seriesDist (totalDistanceOf w opts)
           (seriesTotalSecOf (totalSecondsOf w)
              (sort_by_tSec (default [] (w_series w)))) t
    else syntheticDist (totalDistanceOf w opts) (totalSecondsOf w) t in
  Forall (fun r => r_dist r = distOf (r_tSec r)) (fitRecords w opts).
Proof.
  intros distOf.
  pose proof (fitRecords_same_but_hr w opts) as Hsame.
  eapply (Forall2_transfer _ (fun r => r_dist r = distOf (r_tSec r)));
    [| exact Hsame |].
  - intros r r' (Ht & Hd & _) Hr. rewrite Hd, Ht. exact Hr.
  - unfold distOf. destruct (hasSeries w).
    + unfold fitSeriesRecords. apply Forall_map, Forall_forall.
      intros p _. reflexivity.
    + unfold fitSyntheticRecords. apply Forall_map, Forall_forall.
      intros i _. reflexivity.
Qed.

Lemma seriesDist_nonneg (d sts : Q) (t : Z) :
  0 <= d -> (0 <= t)%Z -> 0 <= seriesDist (Some d) sts t.
Proof.
  intros Hd Ht. unfold seriesDist. destruct (Qltb 0 sts) eqn:E.
  - apply proRate_nonneg; [exact Hd | exact Ht | apply Qltb_lt, E].
  - apply Qle_refl.
Qed.

Lemma seriesDist_mono (d sts : Q) (t1 t2 : Z) :
  0 <= d -> (t1 <= t2)%Z ->
  seriesDist (Some d) sts t1 <= seriesDist (Some d) sts t2.
Proof.
  intros Hd Ht. unfold seriesDist. destruct (Qltb 0 sts) eqn:E.
  - apply proRate_mono; [exact Hd | apply Qltb_lt, E | exact Ht].
  - apply Qle_refl.
Qed.

Lemma seriesDist_le (d sts : Q) (t : Z) :
  0 <= d -> inject_Z t <= sts -> seriesDist (Some d) sts t <= d.
Proof.
  intros Hd Ht. unfold seriesDist. destruct (Qltb 0 sts) eqn:E.
  - apply proRate_le; [exact Hd | apply Qltb_lt, E | exact Ht].
  - exact Hd.
Qed.

Lemma syntheticDist_series (d : Q) (ts t : Z) :
  syntheticDist (Some d) ts t = seriesDist (Some d) (inject_Z ts) t.
Proof.
  unfold syntheticDist, seriesDist.
  destruct (Z.ltb_spec 0 ts) as [Hpos | Hle].
  - replace (Qltb 0 (inject_Z ts)) with true; [reflexivity|].
    symmetry. apply Qltb_lt. change 0 with (inject_Z 0).
    rewrite <- Zlt_Qlt. exact Hpos.
  - replace (Qltb 0 (inject_Z ts)) with false; [reflexivity|].
    symmetry. unfold Qltb. apply negb_false_iff, Qle_bool_iff.
    change 0 with (inject_Z 0). rewrite <- Zle_Qle. exact Hle.
Qed.

Lemma integer_offset_emitted (p : SeriesPoint) :
  integer_offset p -> inject_Z (emitted_offset p) == p_tSec p.
Proof.
  intros (k & Hk & Hp). unfold emitted_offset.
  rewrite (Math_round_comp _ _ Hp), Math_round_int, Hp.
  rewrite Z.max_r by exact Hk. reflexivity.
Qed.

Lemma fitRecords_offsets_within (w : Workout) (opts : WorkoutExportOpts) :
  (forall series, w_series w = Some series -> Forall integer_offset series) ->
  Forall (fun r =>
            inject_Z (r_tSec r)
            <= if hasSeries w
               then seriesTotalSecOf (totalSecondsOf w)
                      (sort_by_tSec (default [] (w_series w)))
               else inject_Z (totalSecondsOf w))
         (fitRecords w opts).
Proof.
  intros Hint. unfold fitRecords, hasSeries.
  destruct (w_series w) as [[|p0 series]|] eqn:Hser.
  1,3: unfold fitSyntheticRecords; apply Forall_map, Forall_forall;
    intros i _; simpl; rewrite <- Zle_Qle; lia.
  specialize (Hint _ eq_refl). simpl default.
  set (sorted := sort_by_tSec (p0 :: series)).
  assert (Hsorted : Forall integer_offset sorted).
  { eapply Permutation_Forall; [|exact Hint]. apply sort_by_perm. }
  assert (Hbase : Forall (fun t => inject_Z t
                            <= seriesTotalSecOf (totalSecondsOf w) sorted)
                    (map emitted_offset sorted)).
  { destruct (last sorted) as [pl|] eqn:Hlast.
    2:{ apply last_None in Hlast. rewrite Hlast. constructor. }
    pose proof (ascending_last_max p_tSec sorted pl
                  (sort_by_tSec_ascending (p0 :: series)) Hlast) as Hmax.
    apply Forall_map. rewrite Forall_forall in Hsorted.
    rewrite Forall_forall in Hmax. apply Forall_forall. intros p Hp.
    rewrite (integer_offset_emitted p (Hsorted p Hp)).
    unfold seriesTotalSecOf. rewrite Hlast.
    eapply Qle_trans; [exact (Hmax p Hp) | apply Q.le_max_r]. }
  rewrite <- (fitSeriesRecords_offsets w opts sorted) in Hbase.
  rewrite <- (fitForwardFill_tSec w opts) in Hbase.
  exact (proj1 (Forall_map r_tSec
                  (fun t => inject_Z t
                            <= seriesTotalSecOf (totalSecondsOf w) sorted) _)
           Hbase).
Qed.

Lemma encoders_same_distances `{JsBuiltins} (clk : Clock) (w : Workout)
  (opts : WorkoutExportOpts) :
  map tp_dist (tcxPoints clk w opts) = map r_dist (fitRecords w opts).
Proof.
  pose proof (encoders_same_sample clk w opts) as Hsame.
  induction Hsame as [|tp r tps rs (_ & Hs & _) _ IH]; [reflexivity|].
  simpl. rewrite Hs, IH. reflexivity.
Qed.

Lemma distances_cumulative `{JsBuiltins} (clk : Clock) (w : Workout)
  (opts : WorkoutExportOpts) (d : Q) :
  totalDistanceOf w opts = Some d -> 0 <= d ->
  let distances := map r_dist (fitRecords w opts) in
  map tp_dist (tcxPoints clk w opts) = distances /\
  Forall (fun x => 0 <= x) distances /\
  StronglySorted Qle distances /\
  ((forall series, w_series w = Some series -> Forall integer_offset series) ->
   Forall (fun x => x <= d) distances).
Proof.
  intros Hd Hpos distances.
  pose proof (fitRecords_dist_of_offset w opts) as Hdist.
  cbv zeta in Hdist. rewrite Hd in Hdist.
  set (sts := if hasSeries w
              then seriesTotalSecOf (totalSecondsOf w)
                     (sort_by_tSec (default [] (w_series w)))
              else inject_Z (totalSecondsOf w)).
  assert (Hof : Forall (fun r => r_dist r = seriesDist (Some d) sts (r_tSec r))
                  (fitRecords w opts)).
  { eapply Forall_impl; [exact Hdist|]. intros r Hr. cbv beta in Hr.
    rewrite Hr. unfold sts. destruct (hasSeries w); [reflexivity|].
    apply syntheticDist_series. }
  assert (Hmap : distances
                 = map (seriesDist (Some d) sts) (map r_tSec (fitRecords w opts))).
  { unfold distances. rewrite map_map. apply map_ext_Forall. exact Hof. }
  split; [|split; [|split]].
  - apply encoders_same_distances.
  - unfold distances.
    apply (proj2 (Forall_map r_dist (fun x => 0 <= x) _)).
    pose proof (fitRecords_offsets_nonneg w opts) as Hnn.
    rewrite Forall_forall in Hof. rewrite Forall_forall in Hnn.
    apply Forall_forall. intros r Hr. rewrite (Hof r Hr).
    apply seriesDist_nonneg; [exact Hpos | exact (Hnn r Hr)].
  - rewrite Hmap. apply (StronglySorted_map Z.le Qle).
    + intros a b Hab. apply seriesDist_mono; [exact Hpos | exact Hab].
    + apply fitRecords_offsets_ascending.
  - intros Hint. unfold distances.
    apply (proj2 (Forall_map r_dist (fun x => x <= d) _)).
    pose proof (fitRecords_offsets_within w opts Hint) as Hin.
    rewrite Forall_forall in Hof. rewrite Forall_forall in Hin.
    apply Forall_forall. intros r Hr. rewrite (Hof r Hr).
    apply seriesDist_le; [exact Hpos | exact (Hin r Hr)].
Qed.

(** X9. The distance along the track.  When the workout has a total
    distance [d >= 0] and distances are exported, the distances of the
    samples start at or above 0 and never decrease along the track, in
    both encoders; when every series offset is a non-negative integer (or
    there is no series) no sample's distance exceeds [d]. *)
Theorem distance_is_cumulative `{JsBuiltins} (clk : Clock) (w : Workout)
  (opts : WorkoutExportOpts) (d : Q) :
  totalDistanceOf w opts = Some d -> 0 <= d ->
  let distances := map r_dist (fitRecords w opts) in
  map tp_dist (tcxPoints clk w opts) = distances /\
  Forall (fun x => 0 <= x) distances /\
  StronglySorted Qle distances /\
  ((forall series, w_series w = Some series -> Forall integer_offset series) ->
   Forall (fun x => x <= d) distances).
Proof. apply distances_cumulative. Qed.

(** A workout of 1000 m with a series of two points at 10 s and 0 s. *)
Lemma distance_is_cumulative_witness :
  Forall (fun x => x <= 1000)
    (map r_dist (fitRecords sample_store_workout sample_opts)).
Proof.
  destruct (@distance_is_cumulative sample_builtins (sample_clock 0)
              sample_store_workout sample_opts 1000 eq_refl)
    as (_ & _ & _ & Hle).
  - discriminate.
  - apply Hle. intros series Hser. injection Hser as <-.
    repeat constructor.
    + exists 10%Z. split; [lia | reflexivity].
    + exists 0%Z. split; [lia | reflexivity].
Defined.

(* ------------------------------------------------------------------ *)
(** ** The sport in the two encoders *)

(** X10. The two encoders classify the activity name alike.  The TCX
    sport is Running exactly when the FIT sport is running, Biking
    exactly when it is cycling, and Other exactly when it is
    fitness_equipment or generic; the stair_climbing sub-sport only comes
    with fitness_equipment; and only an outdoor workout is ever
    generic. *)
Theorem sports_agree `{JsBuiltins} (w : Workout) :
  let tcx := pickSport (w_activityName w) in
  let fit := pickFitSport w in
  (tcx = Running <-> fst fit = sport_running) /\
  (tcx = Biking <-> fst fit = sport_cycling) /\
  (tcx = Other <->
   fst fit = sport_fitness_equipment \/ fst fit = sport_generic) /\
  (snd fit = Some stair_climbing ->
   fst fit = sport_fitness_equipment /\ tcx = Other) /\
  (fst fit = sport_generic -> w_source w = outdoor).
Proof.
  unfold pickSport, pickFitSport. cbv zeta.
  destruct (includes (String_toLowerCase (w_activityName w)) "run");
    [simpl; intuition congruence|].
  destruct (includes (String_toLowerCase (w_activityName w)) "cycle"
            || includes (String_toLowerCase (w_activityName w)) "bike"
            || includes (String_toLowerCase (w_activityName w)) "ride");
    [simpl; intuition congruence|].
  destruct (includes (String_toLowerCase (w_activityName w)) "stair"
            || includes (String_toLowerCase (w_activityName w)) "climb"
            || includes (String_toLowerCase (w_activityName w)) "floor");
    [simpl; intuition congruence|].
  destruct (w_source w); simpl; intuition congruence.
Qed.

(** A workout named [Indoor workout]: no stair sub-sport, so not
    generic either, being an indoor one. *)
Lemma sports_agree_witness :
  @pickSport sample_builtins
    (w_activityName
       (sample_workout (Ser := list SeriesPoint) (Some sample_iso) (Some 23)
          None))
  = Other.
Proof.
  destruct (@sports_agree sample_builtins
              (sample_workout (Some sample_iso) (Some 23) None))
    as (_ & _ & Hother & _).
  apply Hother. left. reflexivity.
Defined.

(* ------------------------------------------------------------------ *)
(** ** The metrics map of a raw record *)

Lemma mset_keys_in (m : Metrics) (k : string) (v : Q) (x : string) :
  In x (map fst (mset m k v)) -> In x (map fst m) \/ x = k.
Proof.
  induction m as [|[k0 v0] m IH]; simpl.
  - intros [<- | []]. right. reflexivity.
  - destruct (String.eqb_spec k k0) as [-> | Hk]; simpl.
    + intros Hin. left. exact Hin.
    + intros [<- | Hin]; [left; left; reflexivity|].
      destruct (IH Hin) as [Hm | ->]; [left; right; exact Hm | right; reflexivity].
Qed.

Lemma mset_keys_NoDup (m : Metrics) (k : string) (v : Q) :
  List.NoDup (map fst m) -> List.NoDup (map fst (mset m k v)).
Proof.
  induction m as [|[k0 v0] m IH]; simpl; intros Hnd.
  - constructor; [intros [] | constructor].
  - apply NoDup_ListNoDup in Hnd. apply NoDup_cons in Hnd as [Hk0 Hnd].
    apply NoDup_ListNoDup in Hnd.
    destruct (String.eqb_spec k k0) as [-> | Hk]; simpl.
    + constructor; [|exact Hnd]. intros Hin. apply Hk0, list_elem_of_In, Hin.
    + constructor; [|apply IH, Hnd].
      intros Hin. apply mset_keys_in in Hin as [Hin | ->].
      * apply Hk0, list_elem_of_In, Hin.
      * apply Hk. reflexivity.
Qed.

Section MetricsFacts.
Context `{JsBuiltins}.

Lemma prToMap_fold_keys_NoDup (items : list unknown) (out : Metrics) :
  List.NoDup (map fst out) ->
  List.NoDup (map fst (fold_left prToMap_step items out)).
Proof.
  revert out. induction items as [|item items IH]; intros out Hnd; simpl.
  - exact Hnd.
  - apply IH. unfold prToMap_step.
    destruct (typeof_string _); [|exact Hnd].
    destruct (safeNumber _); [|exact Hnd].
    apply mset_keys_NoDup, Hnd.
Qed.

Lemma prToMap_fold_later (post : list unknown) (out : Metrics) (k : string) :
  Forall (fun later =>
            typeof_string (prop (asRecord later) "n") = Some k ->
            safeNumber (prop (asRecord later) "v") = None) post ->
  mget (fold_left prToMap_step post out) k = mget out k.
Proof.
  intros Hpost. revert out.
  induction Hpost as [|later post Hl _ IH]; intros out; simpl.
  - reflexivity.
  - rewrite IH. unfold prToMap_step.
    destruct (typeof_string (prop (asRecord later) "n")) as [name|] eqn:En;
      [|reflexivity].
    destruct (safeNumber (prop (asRecord later) "v")) as [val|] eqn:Ev;
      [|reflexivity].
    rewrite mget_mset.
    destruct (String.eqb_spec k name) as [-> | Hk]; [|reflexivity].
    specialize (Hl eq_refl). discriminate.
Qed.

(** X11. In the metrics map of a raw record the last usable item of a
    name wins: when an item of [pr] has the string name [k] and a value
    that parses to [v], and no later item named [k] has a parsable
    value, the map holds [v] under [k].  No name is listed twice in the
    map.  The name [__proto__] is left aside: assigning a number to it
    stores nothing in a JavaScript object. *)
Theorem prToMap_last_value_wins (raw : unknown) (pre post : list unknown)
  (item : unknown) (k : string) (v : Q) :
  k <> "__proto__" ->
  prOf raw = JArr (pre ++ item :: post) ->
  typeof_string (prop (asRecord item) "n") = Some k ->
  safeNumber (prop (asRecord item) "v") = Some v ->
  Forall (fun later =>
            typeof_string (prop (asRecord later) "n") = Some k ->
            safeNumber (prop (asRecord later) "v") = None) post ->
  mget (prToMap raw) k = Some v /\ List.NoDup (map fst (prToMap raw)).
Proof.
  intros _ Hpr Hn Hv Hpost. unfold prToMap. rewrite Hpr. split.
  - rewrite fold_left_app. simpl.
    rewrite (prToMap_fold_later post _ k Hpost).
    rewrite (prToMap_step_kept _ item k v Hn Hv), mget_mset.
    rewrite String.eqb_refl. reflexivity.
  - apply prToMap_fold_keys_NoDup. constructor.
Qed.

End MetricsFacts.

(** A record with two calorie counts, 12 and then 15, followed by an
    unparsable one. *)
Lemma prToMap_last_value_wins_witness :
  mget (@prToMap sample_builtins
          (JObj [("performedData",
                  JObj [("pr",
                         JArr [JObj [("n", JStr "Calories"); ("v", JNum 12)];
                               JObj [("n", JStr "Calories"); ("v", JNum 15)];
                               JObj [("n", JStr "Calories");
                                     ("v", JStr "abc")]])])]))
       "Calories"
  = Some 15.
Proof.
  apply (@prToMap_last_value_wins sample_builtins _
           [JObj [("n", JStr "Calories"); ("v", JNum 12)]]
           [JObj [("n", JStr "Calories"); ("v", JStr "abc")]]
           (JObj [("n", JStr "Calories"); ("v", JNum 15)])
           "Calories" 15).
  - discriminate.
  - reflexivity.
  - reflexivity.
  - reflexivity.
  - repeat constructor.
Defined.

(* ------------------------------------------------------------------ *)
(** ** An indoor workout under its default options *)

Section IndoorDefaults.
Context `{JsBuiltins}.

Lemma is_some_gate {A : Type} (o : option A) :
  (if is_some o then o else None) = o.
Proof. destruct o; reflexivity. Qed.

Lemma indoor_default_distance (idx : nat) (raw : unknown) :
  let w := indoorWorkout idx raw in
  totalDistanceOf w (w_exportOpts w) = w_distanceM w.
Proof. intros w. unfold totalDistanceOf. simpl. apply is_some_gate. Qed.

Lemma indoor_default_vertical (idx : nat) (raw : unknown) :
  let w := indoorWorkout idx raw in
  totalVerticalOf w (w_exportOpts w) = w_verticalM w.
Proof. intros w. unfold totalVerticalOf. simpl. apply is_some_gate. Qed.

Lemma indoor_default_cadence (idx : nat) (raw : unknown) :
  let w := indoorWorkout idx raw in
  cadenceDefault w (w_exportOpts w) = w_cadenceSpm w.
Proof.
  intros w. unfold cadenceDefault. simpl.
  unfold pickCadenceSpm.
  destruct (mget (prToMap raw) "AvgSpm"); [reflexivity|].
  destruct (mget (prToMap raw) "Cadence"); reflexivity.
Qed.

Lemma indoor_default_watts (idx : nat) (raw : unknown) :
  let w := indoorWorkout idx raw in
  wattsDefault w (w_exportOpts w)
  = option_map Math_round (mget (w_metrics w) "AvgPower").
Proof.
  intros w. unfold wattsDefault. simpl.
  destruct (mget (prToMap raw) "AvgPower"); reflexivity.
Qed.

Lemma indoor_default_hr (idx : nat) (raw : unknown) :
  let w := indoorWorkout idx raw in
  syntheticHr (w_exportOpts w) (mget (w_metrics w) "AvgHr")
    (mget (w_metrics w) "MaxHr")
  = option_map Math_round
      (mget (w_metrics w) "AvgHr" ?? mget (w_metrics w) "MaxHr").
Proof.
  intros w. unfold syntheticHr. simpl.
  destruct (mget (prToMap raw) "AvgHr"); [reflexivity|].
  destruct (mget (prToMap raw) "MaxHr"); reflexivity.
Qed.

(** X12. An indoor workout exported with the options the normalizer
    gives it loses nothing the record has: it has no series, so its FIT
    records are the synthetic ones, and each of them carries the rounded
    average (else maximum) HR, the rounded cadence field, the rounded
    average power, and the altitude and distance pro-rated from the
    workout's vertical metres and distance, none of them withheld by an
    option; the lap has the workout's calories.  The cadence derived
    from [Move] is never used with these options. *)
Theorem indoor_defaults_export_everything (clk : Clock) (idx : nat)
  (raw : unknown) :
  let w := indoorWorkout idx raw in
  let opts := w_exportOpts w in
  let ts := totalSecondsOf w in
  fitRecords w opts
  = map (fun i =>
           let t := Z.min ts (i * 5) in
           {| r_tSec := t;
              r_hr := option_map Math_round
                        (mget (w_metrics w) "AvgHr"
                         ?? mget (w_metrics w) "MaxHr");
              r_cadence := option_map Math_round (w_cadenceSpm w);
              r_watts := option_map Math_round (mget (w_metrics w) "AvgPower");
              r_alt := syntheticAlt (w_verticalM w) ts t;
              r_dist := syntheticDist (w_distanceM w) ts t |})
        (loop_indices (syntheticCount ts)) /\
  s_total_calories (fitSummary clk w opts (fitRecords w opts))
  = option_map (fun c => Z.max 0 (Math_round c)) (w_calories w) /\
  s_total_distance (fitSummary clk w opts (fitRecords w opts))
  = default 0 (w_distanceM w) /\
  includeMetricsInNotes opts = false.
Proof.
  intros w opts ts. split; [|split; [|split]].
  - rewrite fitRecords_synthetic by reflexivity.
    pose proof (indoor_default_hr idx raw) as Hhr.
    pose proof (indoor_default_cadence idx raw) as Hcad.
    pose proof (indoor_default_watts idx raw) as Hwatts.
    pose proof (indoor_default_vertical idx raw) as Hvert.
    pose proof (indoor_default_distance idx raw) as Hdist.
    cbv zeta in Hhr, Hcad, Hwatts, Hvert, Hdist.
    subst ts opts w.
    apply map_ext. intros i. unfold fitSyntheticRecord. cbv zeta.
    rewrite Hhr, Hcad, Hwatts, Hvert, Hdist. reflexivity.
  - unfold fitSummary. simpl.
    destruct (mget (prToMap raw) "Calories"); reflexivity.
  - pose proof (indoor_default_distance idx raw) as Hdist.
    cbv zeta in Hdist. subst ts opts w.
    unfold fitSummary. cbn [s_total_distance]. rewrite Hdist. reflexivity.
  - reflexivity.
Qed.

End IndoorDefaults.

(* ------------------------------------------------------------------ *)
(** ** The outdoor normalizer *)

Section OutdoorFacts.
Context `{JsBuiltins}.

(** X13. Where the outdoor normalizer finds its records.  An array
    gives one workout per element, the i-th built from the i-th
    element, when every element's [id] (else [uuid]), start time and
    [activityName] convert to a string; when one of them does not, the
    call throws.  An object gives what its [items] array gives, or
    [activities] when [items] is missing or null, or [data] when both
    are; when none of the three is present it gives no workout.  A
    present value that is not an array is not skipped: it gives no
    workout, whatever [activities] and [data] hold. *)
Theorem outdoor_normalizer_container (fields : JsObject) (items : list unknown) :
  let wrapped := extractWorkoutsFromOutdoorJSON_call (JObj fields) in
  let bare := extractWorkoutsFromOutdoorJSON_call (JArr items) in
  (Forall (fun raw => outdoor_strings_convert raw = true) items ->
   exists workouts,
     bare = Normal workouts /\ length workouts = length items /\
     forall i raw, items !! i = Some raw ->
       workouts !! i = Some (outdoorWorkout i raw) /\
       outdoorWorkout_call i raw = Normal (outdoorWorkout i raw)) /\
  (Exists (fun raw => outdoor_strings_convert raw = false) items ->
   bare = Throw) /\
  (prop (Some fields) "items" = JArr items -> wrapped = bare) /\
  (is_nullish (prop (Some fields) "items") = true ->
   prop (Some fields) "activities" = JArr items -> wrapped = bare) /\
  (is_nullish (prop (Some fields) "items") = true ->
   is_nullish (prop (Some fields) "activities") = true ->
   prop (Some fields) "data" = JArr items -> wrapped = bare) /\
  (is_nullish (prop (Some fields) "items") = true ->
   is_nullish (prop (Some fields) "activities") = true ->
   is_nullish (prop (Some fields) "data") = true -> wrapped = Normal []) /\
  (is_nullish (prop (Some fields) "items") = false ->
   (forall l, prop (Some fields) "items" <> JArr l) -> wrapped = Normal []).
Proof.
  intros wrapped bare. unfold wrapped, bare.
  assert (Hres : extractWorkoutsFromOutdoorJSON_call (JArr items)
                 = if forallb outdoor_strings_convert items
                   then Normal (imap outdoorWorkout items) else Throw).
  { apply (extractWorkoutsFromOutdoorJSON_call_cases (JArr items)). }
  split.
  { intros Hall. exists (imap outdoorWorkout items).
    assert (Hok : forallb outdoor_strings_convert items = true).
    { apply forallb_forall. intros raw Hin.
      rewrite Forall_forall in Hall. apply Hall, list_elem_of_In, Hin. }
    split; [rewrite Hres, Hok; reflexivity|].
    split; [apply length_imap|].
    intros i raw Hi.
    split; [rewrite list_lookup_imap, Hi; reflexivity|].
    rewrite outdoorWorkout_call_cases.
    rewrite Forall_forall in Hall.
    rewrite (Hall raw (list_elem_of_lookup_2 _ _ _ Hi)). reflexivity. }
  split.
  { intros Hex. rewrite Hres.
    assert (Hno : forallb outdoor_strings_convert items = false).
    { apply not_true_is_false. intros Hok.
      apply Exists_exists in Hex as (raw & Hin & Hraw).
      rewrite forallb_forall in Hok.
      rewrite (Hok raw (proj1 (list_elem_of_In _ _) Hin)) in Hraw.
      discriminate. }
    rewrite Hno. reflexivity. }
  clear Hres.
  unfold extractWorkoutsFromOutdoorJSON_call, outdoorItems.
  change (asRecord (JObj fields)) with (Some fields). cbv iota zeta.
  split; [intros ->; reflexivity|].
  split; [intros Hi ->; rewrite (coalesce_nullish _ _ Hi); reflexivity|].
  split.
  { intros Hi Ha ->.
    rewrite (coalesce_nullish _ _ Hi), (coalesce_nullish _ _ Ha).
    reflexivity. }
  split.
  { intros Hi Ha Hd.
    rewrite (coalesce_nullish _ _ Hi), (coalesce_nullish _ _ Ha),
      (coalesce_nullish _ _ Hd).
    reflexivity. }
  intros Hi Hno. rewrite (coalesce_present _ _ Hi).
  destruct (prop (Some fields) "items"); try reflexivity.
  exfalso. eapply Hno. reflexivity.
Qed.

(** X14. On the same raw record the outdoor normalizer agrees with the
    indoor one on everything derived from the [pr] list: the metrics and
    their sorted names, the distance, the vertical metres and the
    cadence, and with them every default option but the calories one.  The
    duration and the calories additionally fall back to the record's own
    [duration]/[Duration] and [calories]/[Calories] fields, so an
    outdoor workout has a duration (calories) whenever the indoor one
    has, with the same value.  Neither has a series. *)
Theorem outdoor_agrees_with_indoor (idx : nat) (raw : unknown) :
  let o := outdoorWorkout idx raw in
  let i := indoorWorkout idx raw in
  w_source o = outdoor /\ w_source i = indoor /\
  w_raw o = raw /\ w_series o = None /\ w_series i = None /\
  w_metrics o = w_metrics i /\ w_metricKeys o = w_metricKeys i /\
  w_distanceM o = w_distanceM i /\ w_verticalM o = w_verticalM i /\
  w_cadenceSpm o = w_cadenceSpm i /\
  w_durationSec o
  = (w_durationSec i ?? safeNumber (prop (asRecord raw) "duration")
     ?? safeNumber (prop (asRecord raw) "Duration")) /\
  w_calories o
  = (w_calories i ?? safeNumber (prop (asRecord raw) "calories")
     ?? safeNumber (prop (asRecord raw) "Calories")) /\
  (forall d, w_durationSec i = Some d -> w_durationSec o = Some d) /\
  (forall c, w_calories i = Some c -> w_calories o = Some c) /\
  includeHrSeries (w_exportOpts o) = includeHrSeries (w_exportOpts i) /\
  includeCadenceSeries (w_exportOpts o)
  = includeCadenceSeries (w_exportOpts i) /\
  includePowerSeries (w_exportOpts o) = includePowerSeries (w_exportOpts i) /\
  includeDistance (w_exportOpts o) = includeDistance (w_exportOpts i) /\
  includeVerticalAsAltitude (w_exportOpts o)
  = includeVerticalAsAltitude (w_exportOpts i) /\
  includeMetricsInNotes (w_exportOpts o) = false /\
  includeCalories (w_exportOpts o) = is_some (w_calories o).
Proof.
  intros o i. unfold o, i. simpl.
  repeat (split; [reflexivity|]).
  split; [intros d ->; reflexivity|].
  split; [intros c ->; reflexivity|].
  repeat (split; [reflexivity|]). reflexivity.
Qed.

End OutdoorFacts.

(** An object whose [items] is null and whose [activities] holds two
    records. *)
Lemma outdoor_normalizer_container_witness :
  @extractWorkoutsFromOutdoorJSON_call sample_builtins
    (JObj [("items", JNull); ("activities", JArr [JNull; JNum 1])])
  = @extractWorkoutsFromOutdoorJSON_call sample_builtins (JArr [JNull; JNum 1])
  /\
  exists workouts,
    @extractWorkoutsFromOutdoorJSON_call sample_builtins (JArr [JNull; JNum 1])
    = Normal workouts /\ length workouts = 2%nat.
Proof.
  destruct (@outdoor_normalizer_container sample_builtins
              [("items", JNull); ("activities", JArr [JNull; JNum 1])]
              [JNull; JNum 1])
    as (Hret & _ & _ & Hact & _).
  split; [apply Hact; reflexivity|].
  destruct Hret as (workouts & Hres & Hlen & _); [repeat constructor|].
  exists workouts. split; [exact Hres | exact Hlen].
Defined.

(** A record with a duration of its own and none in its [pr] list. *)
Lemma outdoor_agrees_with_indoor_witness :
  w_durationSec
    (@outdoorWorkout sample_builtins 0 (JObj [("duration", JNum 60)]))
  = Some 60.
Proof.
  destruct (@outdoor_agrees_with_indoor sample_builtins 0
              (JObj [("duration", JNum 60)]))
    as (_ & _ & _ & _ & _ & _ & _ & _ & _ & _ & Hdur & _).
  rewrite Hdur. reflexivity.
Defined.

(* ------------------------------------------------------------------ *)
(** ** A series that has an HR at every point *)

Lemma hrAt_loop_at_anchor (a : HrAnchor) (rest : list HrAnchor) (last_hr t : Q)
  (x : HrAnchor) :
  anchors_ascending rest ->
  (forall b c, b ∈ rest -> c ∈ rest -> a_tSec b == a_tSec c ->
               a_hr b == a_hr c) ->
  x ∈ rest -> t == a_tSec x -> a_tSec a < t ->
  hrAt_loop a rest last_hr t == a_hr x.
Proof.
  revert a. induction rest as [|b rest IH]; intros a Hasc Hcoh Hx Ht Ha.
  - inversion Hx.
  - apply StronglySorted_inv in Hasc as [Hasc Hb]. simpl.
    destruct (Qleb t (a_tSec b)) eqn:Etb.
    + apply Qleb_le in Etb.
      assert (Hbx : a_tSec b <= a_tSec x).
      { apply elem_of_cons in Hx as [-> | Hx]; [apply Qle_refl|].
        rewrite Forall_forall in Hb. apply Hb, Hx. }
      assert (Hbt : a_tSec b == t).
      { apply Qle_antisym; [rewrite Ht; exact Hbx | exact Etb]. }
      assert (Hhr : a_hr b == a_hr x).
      { apply Hcoh; [apply elem_of_cons; left; reflexivity | exact Hx|].
        rewrite Hbt. exact Ht. }
      assert (Hspan : 0 < a_tSec b - a_tSec a).
      { rewrite Hbt. rewrite <- (Qplus_opp_r (a_tSec a)).
        apply Qplus_lt_l. exact Ha. }
      replace (Qleb (a_tSec b - a_tSec a) 0) with false
        by (symmetry; apply Qleb_gt, Hspan).
      rewrite <- Hhr, <- Hbt. field.
      intros Hz. rewrite Hz in Hspan. apply (Qlt_irrefl 0), Hspan.
    + apply Qleb_gt in Etb. apply IH.
      * exact Hasc.
      * intros c d Hc Hd. apply Hcoh; apply elem_of_cons; right; assumption.
      * apply elem_of_cons in Hx as [-> | Hx]; [|exact Hx].
        rewrite Ht in Etb. destruct (Qlt_irrefl _ Etb).
      * exact Ht.
      * exact Etb.
Qed.

Lemma hrAt_at_coherent_anchor (anchors : list HrAnchor) (t : Q) (x : HrAnchor) :
  anchors_ascending anchors ->
  (forall b c, b ∈ anchors -> c ∈ anchors -> a_tSec b == a_tSec c ->
               a_hr b == a_hr c) ->
  x ∈ anchors -> t == a_tSec x ->
  exists v, hrAt anchors t = Some v /\ v == a_hr x.
Proof.
  intros Hasc Hcoh Hx Ht. unfold hrAt.
  destruct anchors as [|a0 [|a1 rest]]; [inversion Hx| |].
  - apply list_elem_of_singleton in Hx as ->.
    exists (a_hr a0). split; reflexivity.
  - set (anchors := a0 :: a1 :: rest) in *.
    pose proof Hasc as Hasc'. unfold anchors in Hasc'.
    apply StronglySorted_inv in Hasc' as [Hrest H0].
    assert (Hin0 : a0 ∈ anchors) by (apply elem_of_cons; left; reflexivity).
    destruct (Qleb t (a_tSec a0)) eqn:E0.
    + apply Qleb_le in E0. exists (a_hr a0). split; [reflexivity|].
      apply Hcoh; [exact Hin0 | exact Hx|].
      apply Qle_antisym; [|rewrite <- Ht; exact E0].
      apply elem_of_cons in Hx as [-> | Hx]; [apply Qle_refl|].
      rewrite Forall_forall in H0. apply H0, Hx.
    + apply Qleb_gt in E0.
      set (lst := List.last anchors a0).
      assert (Hlast : last anchors = Some lst).
      { unfold lst. rewrite List_last_default.
        destruct (last anchors) eqn:El; [reflexivity|].
        apply last_None in El. discriminate. }
      pose proof (ascending_last_max a_tSec anchors lst Hasc Hlast) as Hmax.
      assert (Hinl : lst ∈ anchors) by (apply last_Some_elem_of, Hlast).
      destruct (Qleb (a_tSec lst) t) eqn:El.
      * apply Qleb_le in El. exists (a_hr lst). split; [reflexivity|].
        apply Hcoh; [exact Hinl | exact Hx|].
        apply Qle_antisym; [rewrite <- Ht; exact El|].
        rewrite Forall_forall in Hmax. apply Hmax, Hx.
      * eexists. split; [reflexivity|].
        apply hrAt_loop_at_anchor.
        -- exact Hrest.
        -- intros b c Hb Hc. apply Hcoh; apply elem_of_cons; right; assumption.
        -- apply elem_of_cons in Hx as [-> | Hx]; [|exact Hx].
           rewrite Ht in E0. destruct (Qlt_irrefl _ E0).
        -- exact Ht.
        -- exact E0.
Qed.

Lemma fitHrAnchors_elem (sortedSeries : list SeriesPoint) (a : HrAnchor) :
  a ∈ fitHrAnchors sortedSeries <->
  exists p, p ∈ sortedSeries /\ p_hr p = Some (a_hr a) /\ a_tSec a = p_tSec p.
Proof.
  unfold fitHrAnchors. rewrite list_elem_of_omap. split.
  - intros (p & Hp & Ea).
    unfold sort_by_tSec in Hp. rewrite <- (sort_by_perm p_tSec) in Hp.
    apply list_elem_of_filter in Hp as [_ Hp].
    unfold anchor_of_point in Ea. destruct (p_hr p) as [h|] eqn:Eh;
      [|discriminate].
    injection Ea as <-. exists p. simpl. auto.
  - intros (p & Hp & Eh & Et). exists p. split.
    + unfold sort_by_tSec. rewrite <- (sort_by_perm p_tSec).
      apply list_elem_of_filter. split; [|exact Hp]. rewrite Eh. reflexivity.
    + unfold anchor_of_point. rewrite Eh. destruct a as [ta ha].
      simpl in *. subst ta. reflexivity.
Qed.

Lemma fitSeriesRecord_hr_of_point (w : Workout) (opts : WorkoutExportOpts)
  (sorted : list SeriesPoint) (sts : Q) (p : SeriesPoint) (h : Q) :
  (forall q r hq hr, q ∈ sorted -> r ∈ sorted ->
     p_hr q = Some hq -> p_hr r = Some hr ->
     p_tSec q == p_tSec r -> hq == hr) ->
  p ∈ sorted -> integer_offset p -> p_hr p = Some h ->
  r_hr (fitSeriesRecord w opts (fitHrAnchors sorted) sts p)
  = if includeHrSeries opts then Some (Math_round h) else None.
Proof.
  intros Hcoh Hp Hint Hh. simpl.
  destruct (includeHrSeries opts) eqn:Hopt; [|reflexivity].
  rewrite hrAt_fit_enabled by exact Hopt.
  destruct (hrAt_at_coherent_anchor (fitHrAnchors sorted)
              (inject_Z (Z.max 0 (Math_round (p_tSec p))))
              {| a_tSec := p_tSec p; a_hr := h |})
    as (v & Hv & Hvh).
  - apply fitHrAnchors_ascending.
  - intros b c Hb Hc Hbc.
    apply fitHrAnchors_elem in Hb as (q & Hq & Hqh & Hqt).
    apply fitHrAnchors_elem in Hc as (r & Hr & Hrh & Hrt).
    apply (Hcoh q r _ _ Hq Hr Hqh Hrh). rewrite <- Hqt, <- Hrt. exact Hbc.
  - apply fitHrAnchors_elem. exists p. simpl. auto.
  - simpl. apply (integer_offset_emitted p Hint).
  - rewrite Hv. simpl. f_equal. apply Math_round_comp, Hvh.
Qed.

Lemma complete_hr_series `{JsBuiltins} (clk : Clock) (w : Workout)
  (opts : WorkoutExportOpts) (series : list SeriesPoint) :
  w_series w = Some series -> series <> [] ->
  Forall integer_offset series ->
  Forall (fun p => p_hr p <> None) series ->
  (forall q r hq hr, q ∈ series -> r ∈ series ->
     p_hr q = Some hq -> p_hr r = Some hr ->
     p_tSec q == p_tSec r -> hq == hr) ->
  let hr_of p :=
    if includeHrSeries opts then option_map Math_round (p_hr p) else None in
  map tp_hr (tcxPoints clk w opts) = map hr_of (sort_by_tSec series) /\
  map r_hr (fitRecords w opts) = map hr_of (sort_by_tSec series) /\
  fitRecords w opts = fitSeriesRecords w opts (sort_by_tSec series).
Proof.
  intros Hser Hne Hint Hall Hcoh hr_of.
  set (sorted := sort_by_tSec series).
  assert (Hsub : forall p, p ∈ sorted -> p ∈ series).
  { intros p Hp. unfold sorted, sort_by_tSec in Hp.
    rewrite <- (sort_by_perm p_tSec) in Hp. exact Hp. }
  assert (Hbase : map r_hr (fitSeriesRecords w opts sorted) = map hr_of sorted).
  { unfold fitSeriesRecords. rewrite map_map. apply map_ext_Forall.
    apply Forall_forall. intros p Hp.
    rewrite Forall_forall in Hint. rewrite Forall_forall in Hall.
    destruct (p_hr p) as [h|] eqn:Eh;
      [|destruct (Hall p (Hsub p Hp) Eh)].
    rewrite (fitSeriesRecord_hr_of_point w opts sorted _ p h).
    - unfold hr_of. rewrite Eh. reflexivity.
    - intros q r hq hr Hq Hr. apply Hcoh; apply Hsub; assumption.
    - exact Hp.
    - apply Hint, Hsub, Hp.
    - exact Eh. }
  assert (Hfit : fitRecords w opts = fitSeriesRecords w opts sorted).
  { destruct (includeHrSeries opts) eqn:Hopt.
    - apply (fitRecords_without_fill w opts series Hser Hopt).
      destruct series as [|p0 series']; [contradiction|].
      apply Forall_cons in Hall as [Hp0 _]. apply Exists_cons_hd, Hp0.
    - rewrite (fitRecords_series w opts series Hser Hne).
      unfold fitForwardFill. rewrite Hopt. reflexivity. }
  split; [|split; [rewrite Hfit; exact Hbase | exact Hfit]].
  rewrite (tcxPoints_series clk w opts series Hser Hne).
  unfold tcxSeriesPoints. rewrite map_map. apply map_ext. intros p.
  reflexivity.
Qed.

(** X15. When every point of the series has an HR that is a whole
    number, every offset is a non-negative integer and points of equal
    offset have equal HR, the interpolation of the Activity Encoder
    gives each record the HR of its own point: both encoders emit, point
    by point, the HR of the series point (or none, with the HR option
    off), and the forward-fill pass changes nothing. *)
Theorem encoders_agree_on_complete_hr `{JsBuiltins} (clk : Clock) (w : Workout)
  (opts : WorkoutExportOpts) (series : list SeriesPoint) :
  w_series w = Some series -> series <> [] ->
  Forall integer_offset series ->
  Forall (fun p => exists h, p_hr p = Some h /\ whole_number h) series ->
  (forall q r hq hr, q ∈ series -> r ∈ series ->
     p_hr q = Some hq -> p_hr r = Some hr ->
     p_tSec q == p_tSec r -> hq == hr) ->
  let hr_of p :=
    if includeHrSeries opts then option_map Math_round (p_hr p) else None in
  map tp_hr (tcxPoints clk w opts) = map hr_of (sort_by_tSec series) /\
  map r_hr (fitRecords w opts) = map hr_of (sort_by_tSec series) /\
  fitRecords w opts = fitSeriesRecords w opts (sort_by_tSec series).
Proof.
  intros Hw Hne Hint Hhr Hcoh. apply complete_hr_series; try assumption.
  eapply Forall_impl; [exact Hhr|]. intros p (h & Hp & _).
  rewrite Hp. discriminate.
Qed.

(** Two points, at 0 s with HR 120 and at 10 s with HR 140. *)
Lemma encoders_agree_on_complete_hr_witness :
  map r_hr
    (fitRecords
       (sample_workout (Some sample_iso) (Some 10)
          (Some [sample_point 10 (Some 140); sample_point 0 (Some 120)]))
       sample_opts)
  = [Some 120%Z; Some 140%Z].
Proof.
  destruct (@encoders_agree_on_complete_hr sample_builtins (sample_clock 0)
              (sample_workout (Some sample_iso) (Some 10)
                 (Some [sample_point 10 (Some 140);
                        sample_point 0 (Some 120)]))
              sample_opts
              [sample_point 10 (Some 140); sample_point 0 (Some 120)])
    as (_ & Hfit & _).
  - reflexivity.
  - discriminate.
  - repeat constructor.
    + exists 10%Z. split; [lia | reflexivity].
    + exists 0%Z. split; [lia | reflexivity].
  - repeat (apply Forall_cons; split;
            [eexists; split; [reflexivity | eexists; reflexivity]|]).
    apply Forall_nil_2.
  - intros q r hq hr Hq Hr Hqh Hrh Hqr.
    apply elem_of_cons in Hq as [-> | Hq];
      [|apply list_elem_of_singleton in Hq as ->];
      (apply elem_of_cons in Hr as [-> | Hr];
       [|apply list_elem_of_singleton in Hr as ->]);
      simpl in Hqh, Hrh, Hqr;
      injection Hqh as <-; injection Hrh as <-;
      first [reflexivity | discriminate Hqr].
  - rewrite Hfit. reflexivity.
Defined.

(* ------------------------------------------------------------------ *)
(** ** The series of a reconstructed workout *)

Section ReconstructedSeries.
Context `{JsBuiltins} `{JsRuntime}.

Lemma sample_values_frame (maps : list (Q * string) * list (Q * string))
  (vs : list Q) (idx : nat) (st : SeriesPoint * option Q) :
  p_tSec (fst (sample_values maps idx vs st)) = p_tSec (fst st) /\
  p_hr (fst (sample_values maps idx vs st)) = p_hr (fst st).
Proof.
  revert idx st. induction vs as [|v vs IH]; intros idx st; simpl.
  - split; reflexivity.
  - destruct (IH (S idx) (sample_value_step maps st idx v)) as [-> ->].
    unfold sample_value_step. destruct (truthy_string _) as [key|];
      [|split; reflexivity].
    simpl.
    destruct (String.eqb key "power" || String.eqb key "runningpower");
      destruct (String.eqb key "spm" || String.eqb key "rpm"
                || String.eqb key "cadence" || String.eqb key "runningcadence");
      destruct (String.eqb key "floors" || String.eqb key "elevation");
      split; reflexivity.
Qed.

(** What one sample adds to [series]. *)
Lemma sample_step_series (hrAnchors : list HrAnchor)
  (maps : list (Q * string) * list (Q * string))
  (st : list SeriesPoint * option Q) (s : unknown) :
  match sample_time s with
  | None => sample_step hrAnchors maps st s = st
  | Some t =>
      exists p, fst (sample_step hrAnchors maps st s) = fst st ++ [p] /\
                p_tSec p = reconstructed_offset t /\
                p_hr p = reconstructed_hr hrAnchors (p_tSec p)
  end.
Proof.
  unfold sample_time, sample_step.
  destruct (safeNumber (prop (asRecord s) "t")) as [t|]; [|reflexivity].
  eexists. split; [reflexivity|].
  set (point0 := {| p_tSec := inject_Z (Z.max 0 (Math_round t)); p_hr := None;
                    p_watts := None; p_cadence := None;
                    p_verticalM := None |}).
  destruct (sample_values_frame maps (asNumberArray (prop (asRecord s) "vs"))
              0 (point0, snd st)) as [Ht Hh].
  simpl in Ht, Hh. unfold reconstructed_hr, reconstructed_offset.
  destruct (hrAt hrAnchors _) as [hr|] eqn:Ehr; simpl.
  - rewrite Ht. split; [reflexivity|]. rewrite Ht in Ehr. rewrite Ehr.
    reflexivity.
  - rewrite Ht. split; [reflexivity|]. rewrite Ht in Ehr. rewrite Ehr.
    exact Hh.
Qed.

Lemma sample_fold_series (hrAnchors : list HrAnchor)
  (maps : list (Q * string) * list (Q * string)) (samples : list unknown)
  (st : list SeriesPoint * option Q) :
  exists added,
    fst (fold_left (sample_step hrAnchors maps) samples st) = fst st ++ added /\
    map p_tSec added = map reconstructed_offset (omap sample_time samples) /\
    Forall (fun p => p_hr p = reconstructed_hr hrAnchors (p_tSec p)) added.
Proof.
  revert st. induction samples as [|s samples IH]; intros st; simpl.
  - exists []. rewrite app_nil_r.
    split; [reflexivity|]. split; [reflexivity | constructor].
  - destruct (IH (sample_step hrAnchors maps st s)) as (added & Hadd & Ht & Hh).
    pose proof (sample_step_series hrAnchors maps st s) as Hstep.
    destruct (sample_time s) as [t|].
    + destruct Hstep as (p & Hp & Hpt & Hph).
      exists (p :: added). rewrite Hadd, Hp, <- app_assoc.
      split; [reflexivity|]. split.
      * simpl. rewrite Hpt, Ht. reflexivity.
      * constructor; assumption.
    + rewrite Hstep in Hadd |- *. exists added.
      split; [exact Hadd|]. split; [exact Ht | exact Hh].
Qed.

Lemma reconstructSeries_pushed (descriptors samples hrSamples : list unknown) :
  exists pushed,
    fst (reconstructSeries descriptors samples hrSamples) = sort_by_tSec pushed /\
    map p_tSec pushed = map reconstructed_offset (omap sample_time samples) /\
    Forall (fun p => p_hr p
                     = reconstructed_hr (reconstructHrAnchors hrSamples)
                         (p_tSec p)) pushed.
Proof.
  unfold reconstructSeries. simpl.
  destruct (sample_fold_series (reconstructHrAnchors hrSamples)
              (descriptorMaps descriptors) samples ([], None))
    as (added & Hadd & Ht & Hh).
  exists added. simpl in Hadd. rewrite Hadd.
  split; [reflexivity|]. split; [exact Ht | exact Hh].
Qed.

Lemma hrAt_None (anchors : list HrAnchor) (t : Q) :
  hrAt anchors t = None <-> anchors = [].
Proof.
  unfold hrAt. destruct anchors as [|a0 [|a1 rest]].
  - split; reflexivity.
  - split; discriminate.
  - destruct (Qleb t (a_tSec a0)); [split; discriminate|].
    destruct (Qleb _ t); split; discriminate.
Qed.

Lemma reconstructSeries_shape (descriptors samples hrSamples : list unknown) :
  let series := fst (reconstructSeries descriptors samples hrSamples) in
  let anchors := reconstructHrAnchors hrSamples in
  let times := omap sample_time samples in
  map p_tSec series
  = sort_by (fun t => t) (map reconstructed_offset times) /\
  length series = length times /\
  series_ascending series /\
  Forall integer_offset series /\
  Forall (fun p => p_hr p = reconstructed_hr anchors (p_tSec p)) series /\
  (anchors = [] -> Forall (fun p => p_hr p = None) series) /\
  (anchors <> [] -> Forall (fun p => p_hr p <> None) series).
Proof.
  intros series anchors times.
  destruct (reconstructSeries_pushed descriptors samples hrSamples)
    as (pushed & Hsorted & Ht & Hh).
  fold series in Hsorted. fold anchors in Hh. fold times in Ht.
  assert (Hoffsets : map p_tSec series
                     = sort_by (fun t => t) (map reconstructed_offset times)).
  { rewrite Hsorted, <- Ht. unfold sort_by_tSec.
    apply (sort_by_map p_tSec (fun t => t)). }
  assert (Hhr : Forall (fun p => p_hr p = reconstructed_hr anchors (p_tSec p))
                  series).
  { rewrite Hsorted. apply sorted_series_Forall, Hh. }
  split; [exact Hoffsets|].
  split.
  { rewrite Hsorted. unfold sort_by_tSec. rewrite sort_by_length.
    rewrite <- (length_map p_tSec), Ht, length_map. reflexivity. }
  split; [rewrite Hsorted; apply sort_by_tSec_ascending|].
  split.
  { apply Forall_forall. intros p Hp.
    assert (Hin : p_tSec p ∈ map reconstructed_offset times).
    { rewrite (sort_by_perm (fun t => t)), <- Hoffsets.
      apply list_elem_of_fmap_2, Hp. }
    apply list_elem_of_fmap in Hin as (t & Hpt & _).
    exists (Z.max 0 (Math_round t)). split; [lia|]. rewrite Hpt. reflexivity. }
  split; [exact Hhr|].
  split.
  - intros Hnil. eapply Forall_impl; [exact Hhr|]. intros p Hp.
    cbv beta in Hp. rewrite Hp. unfold reconstructed_hr.
    rewrite (proj2 (hrAt_None anchors (p_tSec p)) Hnil). reflexivity.
  - intros Hne. eapply Forall_impl; [exact Hhr|]. intros p Hp.
    cbv beta in Hp. rewrite Hp. unfold reconstructed_hr.
    destruct (hrAt anchors (p_tSec p)) eqn:E; [discriminate|].
    apply hrAt_None in E. contradiction.
Qed.

(** X16. The series of a reconstructed workout.  It has one point per
    sample with a usable time [t]; the offsets are the rounded sample
    times, negative ones raised to 0, in ascending order, so every
    offset is a non-negative integer.  Either every point has an HR
    (there is an HR anchor) or none has; an HR is a whole number, points
    at the same offset have the same HR, and, the anchors' values being
    whole numbers, a point at the time of an HR anchor has that anchor's
    HR. *)
Theorem reconstructed_series_shape (descriptors samples hrSamples : list unknown) :
  let series := fst (reconstructSeries descriptors samples hrSamples) in
  let anchors := reconstructHrAnchors hrSamples in
  let times := omap sample_time samples in
  map p_tSec series
  = sort_by (fun t => t) (map reconstructed_offset times) /\
  length series = length times /\
  series_ascending series /\
  Forall integer_offset series /\
  (anchors = [] -> Forall (fun p => p_hr p = None) series) /\
  (anchors <> [] -> Forall (fun p => p_hr p <> None) series) /\
  Forall (fun p => forall h, p_hr p = Some h -> whole_number h) series /\
  (forall p q, p ∈ series -> q ∈ series -> p_tSec p = p_tSec q ->
     p_hr p = p_hr q) /\
  (Forall (fun a => whole_number (a_hr a)) anchors ->
   forall p a, p ∈ series -> a ∈ anchors -> p_tSec p == a_tSec a ->
     p_hr p = Some (inject_Z (Math_round (a_hr a)))).
Proof.
  intros series anchors times.
  destruct (reconstructSeries_shape descriptors samples hrSamples)
    as (Hoff & Hlen & Hasc & Hint & Hhr & Hnone & Hsome).
  fold series anchors times in Hoff, Hlen, Hasc, Hint, Hhr, Hnone, Hsome.
  rewrite Forall_forall in Hhr.
  split; [exact Hoff|]. split; [exact Hlen|]. split; [exact Hasc|].
  split; [exact Hint|]. split; [exact Hnone|]. split; [exact Hsome|].
  split.
  { apply Forall_forall. intros p Hp h Hh. rewrite (Hhr p Hp) in Hh.
    unfold reconstructed_hr in Hh.
    destruct (hrAt anchors (p_tSec p)) as [v|]; [|discriminate].
    injection Hh as <-. exists (Math_round v). reflexivity. }
  split.
  { intros p q Hp Hq Ht. rewrite (Hhr p Hp), (Hhr q Hq), Ht. reflexivity. }
  intros _ p a Hp Ha Ht. rewrite (Hhr p Hp). unfold reconstructed_hr.
  apply list_elem_of_split in Ha as (pre & post & Heq).
  destruct (hrAt_at_anchor anchors pre post a (p_tSec p)
              (reconstructHrAnchors_strictly_ascending hrSamples) Heq Ht)
    as (v & Hv & Hva).
  rewrite Hv. simpl. do 2 f_equal. apply Math_round_comp, Hva.
Qed.

End ReconstructedSeries.

(* ------------------------------------------------------------------ *)
(** ** The metrics of a reconstructed workout *)

Lemma mget_mset_opt (m : Metrics) (k k' : string) (o : option Q) :
  mget (mset_opt m k o) k'
  = if String.eqb k' k then o ?? mget m k' else mget m k'.
Proof.
  unfold mset_opt. destruct o as [v|]; [rewrite mget_mset|];
    destruct (String.eqb k' k); reflexivity.
Qed.

Lemma nullish_None_r {A : Type} (o : option A) : (o ?? None) = o.
Proof. destruct o; reflexivity. Qed.

Ltac eval_eqb :=
  repeat match goal with
         | |- context [String.eqb ?a ?b] =>
             let r := eval vm_compute in (String.eqb a b) in
             change (String.eqb a b) with r
         end.

Ltac metrics_lookup :=
  repeat (rewrite mget_mset_opt; eval_eqb; cbv iota);
  change (mget [] ?k) with (@None Q) in *;
  rewrite ?nullish_None_r.

Section ReconstructedMetrics.
Context `{JsBuiltins} `{JsRuntime}.


(** The assignments to [metrics] up to [HDistance], one after the
    other. *)
Lemma reconstructMetrics_chain (series : list SeriesPoint)
  (sampleDistanceM : option Q) (sm : SummaryScan) :
  let max_of l := match l with v :: vs => Some (Math_max v vs) | [] => None end in
  let filled :=
    mset_opt
      (mset_opt
         (mset_opt
            (mset_opt
               (mset_opt
                  (mset_opt
                     (mset_opt
                        (mset_opt [] "Duration" (sm_durationSec sm))
                        "Move" (sm_move sm))
                     "AvgHr" (average (omap p_hr series)))
                  "MaxHr" (max_of (omap p_hr series)))
               "AvgPower" (average (omap p_watts series)))
            "AvgSpm" (average (omap p_cadence series)))
         "Floors" (max_of (omap p_verticalM series)))
      "HDistance" (sampleDistanceM ?? sm_distanceM sm) in
  reconstructMetrics series sampleDistanceM sm
  = mset_opt filled "Floors"
      (match mget filled "Floors" with
       | Some _ => None
       | None => sm_verticalM sm
       end).
Proof.
  intros max_of filled. unfold filled, max_of, reconstructMetrics. cbv zeta.
  destruct (omap p_hr series) as [|h hs];
    destruct (omap p_watts series) as [|pw pws];
    destruct (omap p_cadence series) as [|c cs];
    destruct (omap p_verticalM series) as [|v vs];
    cbn [average mset_opt];
    (destruct (sm_verticalM sm) as [sv|];
     [destruct (mget _ "Floors") | destruct (mget _ "Floors")]);
    reflexivity.
Qed.

Lemma reconstructMetrics_lookup (series : list SeriesPoint)
  (sampleDistanceM : option Q) (sm : SummaryScan) :
  let metrics := reconstructMetrics series sampleDistanceM sm in
  mget metrics "Duration" = sm_durationSec sm /\
  mget metrics "Move" = sm_move sm /\
  mget metrics "AvgHr" = average (omap p_hr series) /\
  mget metrics "MaxHr"
  = match omap p_hr series with
    | v :: vs => Some (Math_max v vs)
    | [] => None
    end /\
  mget metrics "AvgPower" = average (omap p_watts series) /\
  mget metrics "AvgSpm" = average (omap p_cadence series) /\
  mget metrics "Floors"
  = match omap p_verticalM series with
    | v :: vs => Some (Math_max v vs)
    | [] => sm_verticalM sm
    end /\
  mget metrics "HDistance" = (sampleDistanceM ?? sm_distanceM sm) /\
  mget metrics "Distance" = None /\
  mget metrics "DistanceMeters" = None /\
  mget metrics "Km" = None /\
  mget metrics "Elevation" = None /\
  mget metrics "Cadence" = None /\
  mget metrics "Calories" = None.
Proof.
  intros metrics. unfold metrics.
  rewrite reconstructMetrics_chain. cbv zeta.
  repeat split; metrics_lookup; try reflexivity.
  destruct (omap p_verticalM series) as [|v vs]; [|reflexivity].
  destruct (sm_verticalM sm); reflexivity.
Qed.

End ReconstructedMetrics.

Lemma Math_max_upper (v : Q) (vs : list Q) :
  Forall (fun x => x <= Math_max v vs) (v :: vs).
Proof.
  unfold Math_max.
  assert (Hgen : forall acc, acc <= fold_left Qmax vs acc /\
                             Forall (fun x => x <= fold_left Qmax vs acc) vs).
  { induction vs as [|x vs IH]; intros acc; simpl.
    - split; [apply Qle_refl | constructor].
    - destruct (IH (Qmax acc x)) as [Hacc Hall]. split.
      + eapply Qle_trans; [apply Q.le_max_l | exact Hacc].
      + constructor; [|exact Hall].
        eapply Qle_trans; [apply Q.le_max_r | exact Hacc]. }
  destruct (Hgen v) as [Hv Hall]. constructor; assumption.
Qed.

Lemma Math_max_within (v : Q) (vs : list Q) (P : Q -> Prop) :
  (forall x y, x == y -> P x -> P y) ->
  Forall P (v :: vs) -> P (Math_max v vs).
Proof.
  intros Hcompat Hall. unfold Math_max.
  apply Forall_cons in Hall as [Hv Hall]. revert v Hv.
  induction Hall as [|x vs Hx _ IH]; intros v Hv; simpl; [exact Hv|].
  apply IH. destruct (Q.max_spec v x) as [[_ Heq] | [_ Heq]];
    [apply (Hcompat x) | apply (Hcompat v)]; try assumption;
    symmetry; exact Heq.
Qed.

Lemma sum_upper (values : list Q) (hi acc : Q) :
  Forall (fun x => x <= hi) values ->
  fold_left Qplus values acc
  <= acc + inject_Z (Z.of_nat (length values)) * hi.
Proof.
  intros Hall. revert acc.
  induction Hall as [|x values Hhi _ IH]; intros acc.
  - simpl. ring_simplify. apply Qle_refl.
  - cbn [fold_left]. specialize (IH (acc + x)).
    replace (length (x :: values)) with (S (length values)) by reflexivity.
    rewrite Nat2Z.inj_succ. unfold Z.succ. rewrite inject_Z_plus.
    eapply Qle_trans; [exact IH|].
    assert (E : acc + (inject_Z (Z.of_nat (length values)) + inject_Z 1) * hi
                == (acc + hi) + inject_Z (Z.of_nat (length values)) * hi)
      by (change (inject_Z 1) with 1; ring).
    rewrite E. apply Qplus_le_l, Qplus_le_r, Hhi.
Qed.


Section AverageFacts.
Context `{JsBuiltins} `{JsRuntime}.

Lemma average_upper (values : list Q) (hi a : Q) :
  Forall (fun x => x <= hi) values -> average values = Some a -> a <= hi.
Proof.
  intros Hall Ha. destruct values as [|v vs]; [discriminate|].
  unfold average in Ha. injection Ha as <-.
  set (n := inject_Z (Z.of_nat (length (v :: vs)))).
  assert (Hn : 0 < n).
  { unfold n. change 0 with (inject_Z 0). rewrite <- Zlt_Qlt. simpl. lia. }
  pose proof (sum_upper (v :: vs) hi 0 Hall) as Hhi. fold n in Hhi.
  rewrite Qplus_0_l in Hhi.
  apply Qle_shift_div_r; [exact Hn|]. rewrite Qmult_comm. exact Hhi.
Qed.


End AverageFacts.

Section ReconstructedWorkout.
Context `{JsBuiltins} `{JsRuntime}.

Lemma is_some_average (values : list Q) :
  is_some (average values) = (0 <? length values)%nat.
Proof. destruct values; reflexivity. Qed.

(** X17. A reconstructed workout agrees with its own metrics map.  Its
    duration is the [Duration] metric, its distance the [HDistance]
    metric, and its vertical metres and cadence are what the fallback
    chains pick from the map; the calories are kept in the workout
    only, never in the map.  There is a [MaxHr] metric exactly when
    there is an [AvgHr] one, and then the average is not above the
    maximum.  Each default option but the notes one is on exactly when
    the workout has the data: an average HR, a cadence, an average
    power, calories, a distance, vertical metres. *)
Theorem reconstructed_fields_match_metrics (clk : Clock) (core : JsObject)
  (startedAtISO : option string) :
  let w := singlePageWorkout clk core startedAtISO in
  let metrics := w_metrics w in
  let opts := w_exportOpts w in
  w_durationSec w = mget metrics "Duration" /\
  w_distanceM w = mget metrics "HDistance" /\
  w_verticalM w = pickVerticalM metrics /\
  w_cadenceSpm w = pickCadenceSpm metrics /\
  mget metrics "Calories" = None /\
  is_some (mget metrics "MaxHr") = is_some (mget metrics "AvgHr") /\
  (forall a m, mget metrics "AvgHr" = Some a -> mget metrics "MaxHr" = Some m ->
               a <= m) /\
  includeHrSeries opts = is_some (mget metrics "AvgHr") /\
  includeCadenceSeries opts = is_some (w_cadenceSpm w) /\
  includePowerSeries opts = is_some (mget metrics "AvgPower") /\
  includeCalories opts = is_some (w_calories w) /\
  includeDistance opts = is_some (w_distanceM w) /\
  includeVerticalAsAltitude opts = is_some (w_verticalM w) /\
  includeMetricsInNotes opts = false.
Proof.
  intros w metrics opts.
  set (analytics := asRecord (prop (Some core) "analitics")).
  set (reconstructed :=
         reconstructSeries (asArray (prop analytics "descriptor"))
           (asArray (prop analytics "samples")) (asArray (prop analytics "hr"))).
  set (series := fst reconstructed).
  set (sm := reconstructSummary series (asArray (prop (Some core) "data"))).
  assert (Hm : metrics = reconstructMetrics series (snd reconstructed) sm)
    by reflexivity.
  destruct (reconstructMetrics_lookup series (snd reconstructed) sm)
    as (Hdur & _ & Havg & Hmax & Hpow & Hspm & Hfloors & Hhd & Hd & Hdm & Hkm
        & Hel & Hcad & Hcal).
  rewrite <- Hm in Hdur, Havg, Hmax, Hpow, Hspm, Hfloors, Hhd, Hd, Hdm, Hkm,
    Hel, Hcad, Hcal.
  assert (Hdist : w_distanceM w = mget metrics "HDistance").
  { change (w_distanceM w) with (pickDistanceM metrics).
    unfold pickDistanceM. rewrite Hd, Hdm, Hkm.
    destruct (mget metrics "HDistance"); reflexivity. }
  split; [rewrite Hdur; reflexivity|].
  split; [exact Hdist|].
  split.
  { unfold pickVerticalM. rewrite Hel, Hfloors. reflexivity. }
  split.
  { unfold pickCadenceSpm. rewrite Hspm, Hcad.
    change (w_cadenceSpm w) with (average (omap p_cadence series)).
    destruct (average (omap p_cadence series)); reflexivity. }
  split; [exact Hcal|].
  split.
  { rewrite Hmax, Havg. destruct (omap p_hr series); reflexivity. }
  split.
  { intros a m Ha Hmx. rewrite Havg in Ha. rewrite Hmax in Hmx.
    destruct (omap p_hr series) as [|v vs]; [discriminate|].
    injection Hmx as <-.
    apply (average_upper (v :: vs) _ a (Math_max_upper v vs) Ha). }
  split.
  { rewrite Havg, is_some_average. reflexivity. }
  split.
  { change (w_cadenceSpm w) with (average (omap p_cadence series)).
    rewrite is_some_average. reflexivity. }
  split.
  { rewrite Hpow, is_some_average. reflexivity. }
  repeat split.
Qed.

End ReconstructedWorkout.

(* ------------------------------------------------------------------ *)
(** ** Encoding a reconstructed workout *)

Lemma Forall2_map_eq {A B C : Type} (f : A -> C) (g : B -> C) (la : list A)
  (lb : list B) :
  Forall2 (fun a b => f a = g b) la lb -> map f la = map g lb.
Proof.
  intros Hab. induction Hab as [|a b la lb Hfg _ IH]; [reflexivity|].
  simpl. rewrite Hfg, IH. reflexivity.
Qed.

Lemma omap_all_None {A B : Type} (f : A -> option B) (l : list A) :
  Forall (fun a => f a = None) l -> omap f l = [].
Proof.
  intros Hall. induction Hall as [|a l Ha _ IH]; [reflexivity|].
  simpl. rewrite Ha. exact IH.
Qed.

(** A series without any HR on a workout without HR metrics: no record
    gets an HR, and the forward-fill pass has nothing to fill with. *)
Lemma no_hr_series `{JsBuiltins} (clk : Clock) (w : Workout)
  (opts : WorkoutExportOpts) (series : list SeriesPoint) :
  w_series w = Some series -> series <> [] ->
  Forall (fun p => p_hr p = None) series ->
  mget (w_metrics w) "AvgHr" = None -> mget (w_metrics w) "MaxHr" = None ->
  let hr_of p :=
    if includeHrSeries opts then option_map Math_round (p_hr p) else None in
  map tp_hr (tcxPoints clk w opts) = map hr_of (sort_by_tSec series) /\
  map r_hr (fitRecords w opts) = map hr_of (sort_by_tSec series) /\
  fitRecords w opts = fitSeriesRecords w opts (sort_by_tSec series).
Proof.
  intros Hser Hne Hnone Havg Hmax hr_of.
  set (sorted := sort_by_tSec series).
  pose proof (sorted_series_Forall _ _ Hnone) as Hsorted. fold sorted in Hsorted.
  assert (Hbase : map r_hr (fitSeriesRecords w opts sorted) = map hr_of sorted).
  { unfold fitSeriesRecords. rewrite map_map. apply map_ext_Forall.
    eapply Forall_impl; [exact Hsorted|]. intros p Hp. cbv beta in Hp.
    simpl. unfold hr_of. rewrite Hp.
    destruct (includeHrSeries opts) eqn:Hopt; [|reflexivity].
    rewrite (fitHrAnchors_empty _ Hsorted). unfold hrAt_fit. rewrite Hopt.
    reflexivity. }
  assert (Hfit : fitRecords w opts = fitSeriesRecords w opts sorted).
  { rewrite (fitRecords_series w opts series Hser Hne). fold sorted.
    unfold fitForwardFill. destruct (includeHrSeries opts) eqn:Hopt;
      [|reflexivity].
    destruct (0 <? length (fitSeriesRecords w opts sorted))%nat; [|reflexivity].
    simpl. unfold forwardFillHr.
    assert (Hunknown : Forall (fun r => r_hr r = None)
                         (fitSeriesRecords w opts sorted)).
    { apply (proj1 (Forall_map r_hr (fun h => h = None) _)).
      rewrite Hbase. apply Forall_map. eapply Forall_impl; [exact Hsorted|].
      intros p Hp. cbv beta in Hp. unfold hr_of. rewrite Hp.
      destruct (includeHrSeries opts); reflexivity. }
    rewrite (firstKnownHr_none _ Hunknown), Havg, Hmax. reflexivity. }
  split; [|split; [rewrite Hfit; exact Hbase | exact Hfit]].
  rewrite (tcxPoints_series clk w opts series Hser Hne).
  unfold tcxSeriesPoints. rewrite map_map. apply map_ext. intros p.
  reflexivity.
Qed.

Section ReconstructedEncoding.
Context `{JsBuiltins} `{JsRuntime}.

(** X18. Encoding a reconstructed workout.  Whatever the options, the
    two encoders emit the same HR at every sample.  When the series is
    not empty, sorting it again changes nothing, the forward-fill pass
    of the Activity Encoder changes no record, and the HR of the i-th
    sample is the rounded HR of the i-th series point (none with the HR
    option off). *)
Theorem reconstructed_workout_hr (clk clk' : Clock) (core : JsObject)
  (startedAtISO : option string) (opts : WorkoutExportOpts) :
  let w := singlePageWorkout clk core startedAtISO in
  let series := default [] (w_series w) in
  let hr_of p :=
    if includeHrSeries opts then option_map Math_round (p_hr p) else None in
  map tp_hr (tcxPoints clk' w opts) = map r_hr (fitRecords w opts) /\
  sort_by_tSec series = series /\
  (series <> [] ->
   fitRecords w opts = fitSeriesRecords w opts series /\
   map r_hr (fitRecords w opts) = map hr_of series).
Proof.
  intros w series hr_of.
  set (analytics := asRecord (prop (Some core) "analitics")).
  set (descriptors := asArray (prop analytics "descriptor")).
  set (samples := asArray (prop analytics "samples")).
  set (hrSamples := asArray (prop analytics "hr")).
  assert (Hser : w_series w = Some series) by reflexivity.
  assert (Hseries : series = fst (reconstructSeries descriptors samples hrSamples))
    by reflexivity.
  destruct (reconstructSeries_shape descriptors samples hrSamples)
    as (Hoff & _ & Hasc & Hint & Hhr & Hnone & Hsome).
  rewrite <- Hseries in Hoff, Hasc, Hint, Hhr, Hnone, Hsome.
  assert (Hsorted : sort_by_tSec series = series)
    by (apply sort_by_of_sorted, Hasc).
  assert (Hcases : series <> [] ->
            map tp_hr (tcxPoints clk' w opts) = map hr_of series /\
            map r_hr (fitRecords w opts) = map hr_of series /\
            fitRecords w opts = fitSeriesRecords w opts series).
  { intros Hne. rewrite <- Hsorted.
    destruct (reconstructHrAnchors hrSamples) as [|a0 anchors] eqn:Ea.
    - apply (no_hr_series clk' w opts series Hser Hne (Hnone eq_refl)).
      + destruct (reconstructMetrics_lookup series
                    (snd (reconstructSeries descriptors samples hrSamples))
                    (reconstructSummary series
                       (asArray (prop (Some core) "data"))))
          as (_ & _ & Havg & _).
        change (mget (w_metrics w) "AvgHr" = average (omap p_hr series)) in Havg.
        rewrite Havg, (omap_all_None p_hr series (Hnone eq_refl)). reflexivity.
      + destruct (reconstructMetrics_lookup series
                    (snd (reconstructSeries descriptors samples hrSamples))
                    (reconstructSummary series
                       (asArray (prop (Some core) "data"))))
          as (_ & _ & _ & Hmax & _).
        change (mget (w_metrics w) "MaxHr"
                = match omap p_hr series with
                  | v :: vs => Some (Math_max v vs)
                  | [] => None
                  end) in Hmax.
        rewrite Hmax, (omap_all_None p_hr series (Hnone eq_refl)). reflexivity.
    - apply (complete_hr_series clk' w opts series Hser Hne Hint).
      + apply Hsome. discriminate.
      + intros q r hq hr Hq Hr Hqh Hrh Hqr.
        assert (Hleib : forall p, p ∈ series ->
                          exists k, p_tSec p = inject_Z k).
        { intros p Hp.
          assert (Hin : p_tSec p ∈ map reconstructed_offset
                                     (omap sample_time samples)).
          { rewrite (sort_by_perm (fun t => t)), <- Hoff.
            apply list_elem_of_fmap_2, Hp. }
          apply list_elem_of_fmap in Hin as (t & Hpt & _).
          exists (Z.max 0 (Math_round t)). exact Hpt. }
        destruct (Hleib q Hq) as [kq Ekq]. destruct (Hleib r Hr) as [kr Ekr].
        assert (Hk : kq = kr).
        { rewrite Ekq, Ekr in Hqr. unfold Qeq in Hqr. simpl in Hqr. lia. }
        rewrite Forall_forall in Hhr.
        pose proof (Hhr q Hq) as Hq'. pose proof (Hhr r Hr) as Hr'.
        cbv beta in Hq', Hr'. rewrite Ekq, Hk, <- Ekr, <- Hr', Hrh in Hq'.
        rewrite Hqh in Hq'. injection Hq' as ->. reflexivity. }
  split; [|split; [exact Hsorted|]].
  - destruct series as [|p0 rest] eqn:Es.
    + apply Forall2_map_eq, encoders_same_synthetic_hr.
      unfold hasSeries. rewrite Hser. reflexivity.
    + destruct Hcases as (Htcx & Hfit & _); [discriminate|].
      rewrite Htcx, Hfit. reflexivity.
  - intros Hne. destruct (Hcases Hne) as (_ & Hfit & Hidle).
    split; [exact Hidle | exact Hfit].
Qed.

End ReconstructedEncoding.

(* ------------------------------------------------------------------ *)
(** ** The outcome of the reconstructor and the start time *)

Lemma split_on_nonempty (sep : ascii) (s : string) : split_on sep s <> [].
Proof.
  destruct s as [|c s]; simpl; [discriminate|].
  destruct (Ascii.eqb c sep); [discriminate|].
  destruct (split_on sep s); discriminate.
Qed.

(** Joining the parts with the separator gives the string back. *)
Lemma split_on_concat (sep : ascii) (s : string) :
  String.concat (String sep EmptyString) (split_on sep s) = s.
Proof.
  induction s as [|c s IH]; [reflexivity|]. simpl.
  pose proof (split_on_nonempty sep s) as Hne.
  destruct (Ascii.eqb_spec c sep) as [-> | Hc].
  - destruct (split_on sep s) as [|part parts]; [contradiction|].
    cbn [String.concat]. cbn [String.concat] in IH. rewrite IH. reflexivity.
  - destruct (split_on sep s) as [|part parts]; [contradiction|].
    destruct parts as [|part' parts]; cbn [String.concat] in IH |- *.
    + rewrite IH. reflexivity.
    + rewrite <- IH. reflexivity.
Qed.

Lemma digits_value_from_nonneg (s : string) (acc : Z) :
  all_digits s = true -> (0 <= acc)%Z -> (0 <= digits_value_from acc s)%Z.
Proof.
  revert acc. induction s as [|c s IH]; intros acc Hd Hacc; simpl; [exact Hacc|].
  simpl in Hd. apply andb_true_iff in Hd as [Hc Hd].
  apply IH; [exact Hd|]. unfold is_digit in Hc.
  apply andb_true_iff in Hc as [Hlo _]. apply Nat.leb_le in Hlo. lia.
Qed.

Lemma digit_group_nonneg (lo hi : nat) (s : string) :
  digit_group lo hi s = true -> (0 <=? digits_value s)%Z = true.
Proof.
  unfold digit_group. intros Hg.
  apply andb_true_iff in Hg as [Hg _]. apply andb_true_iff in Hg as [Hd _].
  apply Z.leb_le, digits_value_from_nonneg; [exact Hd | lia].
Qed.

Lemma append_empty_r (s : string) : s +++ EmptyString = s.
Proof. induction s as [|c s IH]; simpl; [reflexivity | rewrite IH; reflexivity]. Qed.

(** What the pattern accepts: [H:MM], [HH:MM], [H:MM:SS] or [HH:MM:SS]
    in ASCII digits. *)
Lemma matchClock_groups (s h m : string) (sec : option string) :
  matchClock s = Some (h, m, sec) ->
  digit_group 1 2 h = true /\ digit_group 2 2 m = true /\
  (digit_group 2 2 (default "0" sec) = true \/ sec = None) /\
  s = h +++ ":" +++ m +++ match sec with
                          | Some x => ":" +++ x
                          | None => ""
                          end.
Proof.
  unfold matchClock. intros Hm.
  pose proof (split_on_concat ":" s) as Hs.
  destruct (split_on ":" s) as [|p0 [|p1 [|p2 [|p3 rest]]]]; try discriminate.
  - destruct (digit_group 1 2 p0 && digit_group 2 2 p1) eqn:E; [|discriminate].
    injection Hm as <- <- <-. apply andb_true_iff in E as [E0 E1].
    split; [exact E0|]. split; [exact E1|]. split; [right; reflexivity|].
    rewrite <- Hs. cbn [String.concat]. rewrite append_empty_r.
    reflexivity.
  - destruct (digit_group 1 2 p0 && digit_group 2 2 p1 && digit_group 2 2 p2)
      eqn:E; [|discriminate].
    injection Hm as <- <- <-. apply andb_true_iff in E as [E E2].
    apply andb_true_iff in E as [E0 E1].
    split; [exact E0|]. split; [exact E1|]. split; [left; exact E2|].
    rewrite <- Hs. cbn [String.concat]. reflexivity.
Qed.

Section SinglePageOutcome.
Context `{JsBuiltins} `{JsRuntime}.

(** [startedAtISO] before and after the preferred start time is looked
    at. *)
Lemma singlePageStart_cases (core : JsObject) (preferredStartTime : option string) :
  let base :=
    match truthy_string (typeof_string (prop (Some core) "date")) with
    | Some s => option_map Date_toISOString (Date_parse s)
    | None => None
    end in
  let accepted :=
    match truthy_string preferredStartTime with
    | Some preferred =>
        match matchClock preferred with
        | Some (h, m, sec) =>
            let hh := digits_value h in
            let mm := digits_value m in
            let ss := digits_value (default "0" sec) in
            if (hh <? 24)%Z && (mm <? 60)%Z && (ss <? 60)%Z
            then Some (hh, mm, ss) else None
        | None => None
        end
    | None => None
    end in
  match truthy_string base, accepted with
  | Some iso, Some (hh, mm, ss) =>
      singlePageStart core preferredStartTime
      = match Date_parse iso with
        | Some ms => Normal (Some (Date_toISOString (Date_setHours ms hh mm ss)))
        | None => Throw
        end
  | _, _ => singlePageStart core preferredStartTime = Normal base
  end.
Proof.
  intros base accepted. unfold singlePageStart.
  assert (Hbase : match truthy_string (typeof_string (prop (Some core) "date")) with
                  | Some s =>
                      match Date_parse s with
                      | Some ms => Some (Date_toISOString ms)
                      | None => None
                      end
                  | None => None
                  end = base).
  { unfold base. destruct (truthy_string _) as [s|]; [|reflexivity].
    destruct (Date_parse s); reflexivity. }
  rewrite Hbase. unfold accepted.
  destruct (truthy_string base) as [iso|]; [|reflexivity].
  destruct (truthy_string preferredStartTime) as [preferred|]; [|reflexivity].
  destruct (matchClock preferred) as [[[h m] sec]|] eqn:Em; [|reflexivity].
  cbv zeta.
  destruct (matchClock_groups _ _ _ _ Em) as (Hh & Hmn & Hs & _).
  rewrite (digit_group_nonneg _ _ _ Hh), (digit_group_nonneg _ _ _ Hmn).
  assert (Hss : (0 <=? digits_value (default "0" sec))%Z = true).
  { destruct Hs as [Hs | ->]; [exact (digit_group_nonneg _ _ _ Hs)|].
    reflexivity. }
  rewrite Hss. cbn [andb].
  destruct (digits_value h <? 24)%Z; [|reflexivity].
  destruct (digits_value m <? 60)%Z; [|reflexivity].
  destruct (digits_value (default "0" sec) <? 60)%Z; reflexivity.
Qed.

(** X19. The preferred start time.  Without a usable date in the
    payload the workout has no start, whatever the preferred time.  With
    one, the start is the date's ISO form unless the preferred time is a
    non-empty string of the form [H:MM], [HH:MM], [H:MM:SS] or
    [HH:MM:SS] in ASCII digits with hours below 24 and minutes and
    seconds below 60: a missing, empty, malformed or out-of-range time
    is ignored.  An accepted time sets the hours, minutes and seconds of
    the date. *)
Theorem preferred_start_time (core : JsObject) (preferredStartTime : option string) :
  let base :=
    match truthy_string (typeof_string (prop (Some core) "date")) with
    | Some s => option_map Date_toISOString (Date_parse s)
    | None => None
    end in
  let result := singlePageStart core preferredStartTime in
  (truthy_string base = None -> result = Normal base) /\
  (truthy_string preferredStartTime = None -> result = Normal base) /\
  (forall p, truthy_string preferredStartTime = Some p ->
             matchClock p = None -> result = Normal base) /\
  (forall p h m sec, truthy_string preferredStartTime = Some p ->
     matchClock p = Some (h, m, sec) ->
     let hh := digits_value h in
     let mm := digits_value m in
     let ss := digits_value (default "0" sec) in
     p = h +++ ":" +++ m +++ match sec with
                             | Some x => ":" +++ x
                             | None => ""
                             end /\
     digit_group 1 2 h = true /\ digit_group 2 2 m = true /\
     (24 <= hh \/ 60 <= mm \/ 60 <= ss -> result = Normal base)%Z /\
     (forall iso, truthy_string base = Some iso ->
        (hh < 24 /\ mm < 60 /\ ss < 60)%Z ->
        result
        = match Date_parse iso with
          | Some ms =>
              Normal (Some (Date_toISOString (Date_setHours ms hh mm ss)))
          | None => Throw
          end)).
Proof.
  intros base result.
  pose proof (singlePageStart_cases core preferredStartTime) as Hcases.
  cbv zeta in Hcases. fold base result in Hcases.
  split.
  { intros Hb. rewrite Hb in Hcases. exact Hcases. }
  split.
  { intros Hp. rewrite Hp in Hcases.
    destruct (truthy_string base); exact Hcases. }
  split.
  { intros p Hp Hm. rewrite Hp, Hm in Hcases.
    destruct (truthy_string base); exact Hcases. }
  intros p h m sec Hp Hm hh mm ss. rewrite Hp, Hm in Hcases.
  destruct (matchClock_groups _ _ _ _ Hm) as (Hh & Hmn & _ & Hform).
  split; [exact Hform|]. split; [exact Hh|]. split; [exact Hmn|].
  fold hh mm ss in Hcases. split.
  - intros Hout.
    replace ((hh <? 24)%Z && (mm <? 60)%Z && (ss <? 60)%Z) with false in Hcases.
    + destruct (truthy_string base); exact Hcases.
    + symmetry. destruct Hout as [Hout | [Hout | Hout]].
      * replace (hh <? 24)%Z with false by (symmetry; apply Z.ltb_ge, Hout).
        reflexivity.
      * replace (mm <? 60)%Z with false by (symmetry; apply Z.ltb_ge, Hout).
        rewrite andb_false_r. reflexivity.
      * replace (ss <? 60)%Z with false by (symmetry; apply Z.ltb_ge, Hout).
        apply andb_false_r.
  - intros iso Hiso (Hhh & Hmm & Hss). rewrite Hiso in Hcases.
    replace (hh <? 24)%Z with true in Hcases by (symmetry; apply Z.ltb_lt, Hhh).
    replace (mm <? 60)%Z with true in Hcases by (symmetry; apply Z.ltb_lt, Hmm).
    replace (ss <? 60)%Z with true in Hcases by (symmetry; apply Z.ltb_lt, Hss).
    exact Hcases.
Qed.

(** X20. What the reconstructor returns.  It returns null exactly when
    the input is not an object.  A workout that it returns is the one
    built from the input's [data] when that is an object and from the
    input itself otherwise, with the start time computed from that
    object and the preferred time: an indoor workout that keeps the
    object as its raw record, has a series (possibly empty) and a uid
    made of [json-] and its id. *)
Theorem single_page_outcome (clk : Clock) (obj : unknown)
  (preferredStartTime : option string) :
  let result := extractWorkoutFromSinglePageJSON clk obj preferredStartTime in
  (asRecord obj = None <-> result = Normal None) /\
  (forall w, result = Normal (Some w) ->
     exists root startedAtISO,
       asRecord obj = Some root /\
       let core := default root (asRecord (prop (Some root) "data")) in
       singlePageStart core preferredStartTime = Normal startedAtISO /\
       w = singlePageWorkout clk core startedAtISO /\
       w_startedAtISO w = startedAtISO /\
       w_source w = indoor /\ w_raw w = JObj core /\
       (exists series, w_series w = Some series) /\
       w_uid w = "json-" +++ w_id w).
Proof.
  intros result. unfold result, extractWorkoutFromSinglePageJSON. cbv zeta.
  destruct (asRecord obj) as [root|] eqn:Eroot.
  - assert (Hcore : (asRecord (prop (Some root) "data") ?? Some root)
                    = Some (default root (asRecord (prop (Some root) "data")))).
    { destruct (asRecord (prop (Some root) "data")); reflexivity. }
    rewrite Hcore.
    set (core := default root (asRecord (prop (Some root) "data"))).
    split.
    { split; [discriminate|].
      destruct (singlePageStart core preferredStartTime); discriminate. }
    intros w Hw.
    destruct (singlePageStart core preferredStartTime) as [start|] eqn:Estart;
      [|discriminate].
    injection Hw as <-. exists root, start.
    split; [reflexivity|]. fold core.
    split; [exact Estart|].
    repeat (split; [reflexivity|]).
    split; [eexists; reflexivity | reflexivity].
  - simpl. split; [split; reflexivity|].
    intros w Hw; discriminate.
Qed.

End SinglePageOutcome.

(** A preferred time of [25:00] on a payload dated like the sample
    instant: ignored. *)
Lemma preferred_start_time_witness :
  @singlePageStart sample_builtins sample_runtime [("date", JStr sample_iso)]
    (Some "25:00")
  = Normal (Some sample_iso).
Proof.
  destruct (@preferred_start_time sample_builtins sample_runtime
              [("date", JStr sample_iso)] (Some "25:00"))
    as (_ & _ & _ & Hclock).
  destruct (Hclock "25:00" "25" "00" None eq_refl eq_refl)
    as (_ & _ & _ & Hout & _).
  apply Hout. left. vm_compute. discriminate.
Defined.

(* ------------------------------------------------------------------ *)
(** ** The values of a sample *)

Section SampleValues.
Context `{JsBuiltins} `{JsRuntime}.

Lemma asNumberArray_drops (pre post : list unknown) (bad : unknown) :
  safeNumber bad = None ->
  asNumberArray (JArr (pre ++ bad :: post)) = asNumberArray (JArr (pre ++ post)).
Proof.
  intros Hbad. unfold asNumberArray. rewrite !omap_app. simpl.
  rewrite Hbad. reflexivity.
Qed.

(** X21. The values of a sample are matched with the descriptors by
    their position among the usable values, not by their position in
    [vs]: an entry of [vs] that is not a number (and does not parse to
    one) is dropped first, so the values after it are read under the
    descriptors of the positions before theirs, and the sample gives
    exactly the point and distance of the same sample without that
    entry. *)
Theorem unparsable_values_shift_channels (hrAnchors : list HrAnchor)
  (maps : list (Q * string) * list (Q * string))
  (st : list SeriesPoint * option Q) (s1 s2 : unknown)
  (pre post : list unknown) (bad : unknown) :
  sample_time s1 = sample_time s2 ->
  prop (asRecord s1) "vs" = JArr (pre ++ bad :: post) ->
  prop (asRecord s2) "vs" = JArr (pre ++ post) ->
  safeNumber bad = None ->
  sample_step hrAnchors maps st s1 = sample_step hrAnchors maps st s2.
Proof.
  unfold sample_time. intros Ht Hv1 Hv2 Hbad. unfold sample_step.
  rewrite Ht, Hv1, Hv2, (asNumberArray_drops pre post bad Hbad). reflexivity.
Qed.

End SampleValues.

(** With power described at position 0 and cadence at position 1, the
    sample [{t: 0, vs: ["x", 90]}] has its 90 read as power. *)
Lemma unparsable_values_shift_channels_witness :
  option_map p_watts
    (last (fst (@sample_step sample_builtins sample_runtime []
                  ([(0, "power"); (1, "cadence")], [])
                  ([], None)
                  (JObj [("t", JNum 0); ("vs", JArr [JStr "x"; JNum 90])]))))
  = Some (Some 90).
Proof.
  rewrite (@unparsable_values_shift_channels sample_builtins sample_runtime []
             ([(0, "power"); (1, "cadence")], []) ([], None)
             (JObj [("t", JNum 0); ("vs", JArr [JStr "x"; JNum 90])])
             (JObj [("t", JNum 0); ("vs", JArr [JNum 90])])
             [] [JNum 90] (JStr "x") eq_refl eq_refl eq_refl eq_refl).
  reflexivity.
Defined.

(* ------------------------------------------------------------------ *)
(** ** The scan of the summary items *)

Lemma fold_left_last_update {S I V : Type} (step : S -> I -> S) (f : S -> V)
  (upd : I -> option V) (pre post : list I) (item : I) (v : V) (st : S) :
  (forall st i, f (step st i) = default (f st) (upd i)) ->
  upd item = Some v -> Forall (fun later => upd later = None) post ->
  f (fold_left step (pre ++ item :: post) st) = v.
Proof.
  intros Hstep Hitem Hpost. rewrite fold_left_app. simpl.
  generalize (fold_left step pre st). intros st'.
  assert (Hgen : forall st0, f (fold_left step post st0) = f st0).
  { induction Hpost as [|later post Hl _ IH]; intros st0; simpl; [reflexivity|].
    rewrite IH, Hstep, Hl. reflexivity. }
  rewrite Hgen, Hstep, Hitem. reflexivity.
Qed.

Lemma fold_left_no_update {S I V : Type} (step : S -> I -> S) (f : S -> V)
  (upd : I -> option V) (items : list I) (st : S) :
  (forall st i, f (step st i) = default (f st) (upd i)) ->
  Forall (fun i => upd i = None) items ->
  f (fold_left step items st) = f st.
Proof.
  intros Hstep Hall. revert st.
  induction Hall as [|i items Hi _ IH]; intros st; simpl; [reflexivity|].
  rewrite IH, Hstep, Hi. reflexivity.
Qed.

Section SummaryScanFacts.
Context `{JsBuiltins} `{JsRuntime}.

Lemma summary_step_calories (st : SummaryScan) (item : unknown) :
  sm_calories (summary_step st item)
  = default (sm_calories st)
      (if about_calories item then Some (summary_rawValue item) else None).
Proof.
  unfold summary_step, about_calories, summary_property, summary_name,
    summary_rawValue. cbn [sm_calories].
  destruct (includes _ "calories" || includes _ "calories"); reflexivity.
Qed.

Lemma summary_step_distance (st : SummaryScan) (item : unknown) :
  sm_distanceM (summary_step st item)
  = default (sm_distanceM st)
      (if about_distance item
       then option_map
              (fun r => Some (toMetersFromUnit r (Some (summary_unit item))))
              (summary_rawValue item)
       else None).
Proof.
  unfold summary_step, about_distance, summary_property, summary_name,
    summary_rawValue, summary_unit. cbn [sm_distanceM].
  destruct (includes _ "distance" || includes _ "hdistance"
            || includes _ "distance"); [|reflexivity].
  destruct (safeNumber _); reflexivity.
Qed.

(** X22. The scan of the summary items treats a missing value in two
    ways.  The calories follow the last item that is about calories,
    even when that item has no usable raw value: then the workout has no
    calories, whatever earlier items said.  The distance keeps the last
    usable raw value among the items about distance, converted to
    metres with that item's unit: a later item about distance without a
    usable value changes nothing.  With no item about them, both are
    as they were before the scan (undefined for a whole scan). *)
Theorem summary_scan_last_item (series : list SeriesPoint)
  (pre post : list unknown) (item : unknown) :
  let scan := reconstructSummary series (pre ++ item :: post) in
  (about_calories item = true ->
   Forall (fun later => about_calories later = false) post ->
   sm_calories scan = summary_rawValue item) /\
  (forall r, about_distance item = true -> summary_rawValue item = Some r ->
   Forall (fun later => about_distance later = true ->
                        summary_rawValue later = None) post ->
   sm_distanceM scan = Some (toMetersFromUnit r (Some (summary_unit item)))) /\
  (forall items,
     Forall (fun i => about_calories i = false) items ->
     sm_calories (reconstructSummary series items) = None) /\
  (forall items,
     Forall (fun i => about_distance i = true -> summary_rawValue i = None)
       items ->
     sm_distanceM (reconstructSummary series items) = None).
Proof.
  intros scan. unfold scan, reconstructSummary.
  split; [|split; [|split]].
  - intros Hitem Hpost.
    apply (fold_left_last_update summary_step sm_calories
             (fun i => if about_calories i then Some (summary_rawValue i)
                       else None)).
    + apply summary_step_calories.
    + rewrite Hitem. reflexivity.
    + eapply Forall_impl; [exact Hpost|]. intros later Hl. cbv beta in Hl.
      rewrite Hl. reflexivity.
  - intros r Hitem Hr Hpost.
    apply (fold_left_last_update summary_step sm_distanceM
             (fun i => if about_distance i
                       then option_map
                              (fun r => Some (toMetersFromUnit r
                                                (Some (summary_unit i))))
                              (summary_rawValue i)
                       else None)).
    + apply summary_step_distance.
    + rewrite Hitem, Hr. reflexivity.
    + eapply Forall_impl; [exact Hpost|]. intros later Hl. cbv beta in Hl.
      destruct (about_distance later); [|reflexivity].
      rewrite (Hl eq_refl). reflexivity.
  - intros items Hall.
    rewrite (fold_left_no_update summary_step sm_calories
               (fun i => if about_calories i then Some (summary_rawValue i)
                         else None)).
    + reflexivity.
    + apply summary_step_calories.
    + eapply Forall_impl; [exact Hall|]. intros i Hi. cbv beta in Hi.
      rewrite Hi. reflexivity.
  - intros items Hall.
    rewrite (fold_left_no_update summary_step sm_distanceM
               (fun i => if about_distance i
                         then option_map
                                (fun r => Some (toMetersFromUnit r
                                                  (Some (summary_unit i))))
                                (summary_rawValue i)
                         else None)).
    + reflexivity.
    + apply summary_step_distance.
    + eapply Forall_impl; [exact Hall|]. intros i Hi. cbv beta in Hi.
      destruct (about_distance i); [|reflexivity].
      rewrite (Hi eq_refl). reflexivity.
Qed.

End SummaryScanFacts.

(** Calories 50, then an item about calories without a value: no
    calories. *)
Lemma summary_scan_last_item_witness :
  sm_calories
    (@reconstructSummary sample_builtins sample_runtime []
       [JObj [("property", JStr "calories"); ("rawValue", JNum 50)];
        JObj [("property", JStr "calories")]])
  = None.
Proof.
  destruct (@summary_scan_last_item sample_builtins sample_runtime []
              [JObj [("property", JStr "calories"); ("rawValue", JNum 50)]]
              [] (JObj [("property", JStr "calories")]))
    as (Hcal & _).
  simpl app in Hcal. rewrite Hcal; [reflexivity | reflexivity | constructor].
Defined.

(* ------------------------------------------------------------------ *)
(** ** The average of a list of numbers *)

Section AverageBounds.
Context `{JsBuiltins} `{JsRuntime}.


End AverageBounds.


(* ------------------------------------------------------------------ *)
(** ** Changing the export options *)

Lemma spread_opts_idempotent (opts : WorkoutExportOpts) (patch : OptsPatch) :
  spread_opts (spread_opts opts patch) patch = spread_opts opts patch.
Proof.
  unfold spread_opts. simpl.
  destruct (patch_includeHrSeries patch), (patch_includeCadenceSeries patch),
    (patch_includePowerSeries patch), (patch_includeMetricsInNotes patch),
    (patch_includeCalories patch), (patch_includeDistance patch),
    (patch_includeVerticalAsAltitude patch); reflexivity.
Qed.

Lemma with_exportOpts_same (x : Workout) : with_exportOpts x (w_exportOpts x) = x.
Proof. destruct x. reflexivity. Qed.

(** X24. Changing the export options of a workout [w] keeps the list of
    workouts as it is but for the options of the workouts that have
    [w]'s uid: the length and the order are kept, a workout with another
    uid is untouched, and every workout with that uid (not only [w]
    itself) keeps all its fields and gets the patched options, in which
    an option the patch does not mention keeps its value.  A patch that
    mentions nothing changes nothing, and applying a patch twice is the
    same as applying it once.  After a patch that turns the HR option
    off, the FIT records of the workouts with that uid carry no HR. *)
Theorem updateWorkoutOpts_frame (w : Workout) (patch : OptsPatch)
  (prev : list Workout) :
  let next := updateWorkoutOpts w patch prev in
  length next = length prev /\
  Forall2 (fun x y =>
             y = with_exportOpts x (w_exportOpts y) /\
             (w_uid x <> w_uid w -> y = x) /\
             (w_uid x = w_uid w ->
              w_exportOpts y = spread_opts (w_exportOpts x) patch))
          prev next /\
  (patch = {| patch_includeHrSeries := None;
              patch_includeCadenceSeries := None;
              patch_includePowerSeries := None;
              patch_includeMetricsInNotes := None;
              patch_includeCalories := None;
              patch_includeDistance := None;
              patch_includeVerticalAsAltitude := None |} -> next = prev) /\
  updateWorkoutOpts w patch next = next /\
  (patch_includeHrSeries patch = Some false ->
   Forall (fun y => w_uid y = w_uid w ->
                    Forall (fun r => r_hr r = None)
                      (fitRecords y (w_exportOpts y))) next).
Proof.
  intros next. unfold next, updateWorkoutOpts.
  split; [apply length_map|].
  split.
  { apply Forall2_fmap_r, Forall_Forall2_diag, Forall_forall. intros x _.
    unfold compose. cbv beta.
    destruct (String.eqb_spec (w_uid x) (w_uid w)) as [Heq | Hne].
    - split; [reflexivity|]. split; [intros Hc; contradiction|].
      intros _. reflexivity.
    - split; [symmetry; apply with_exportOpts_same|].
      split; [reflexivity | intros Hc; contradiction]. }
  split.
  { intros ->. rewrite <- (map_id prev) at 2. apply map_ext. intros x.
    destruct (String.eqb (w_uid x) (w_uid w)); [|reflexivity].
    destruct x as [? ? ? ? ? ? ? ? ? ? ? opts ? ? ? ?]. destruct opts.
    reflexivity. }
  split.
  { rewrite map_map. apply map_ext. intros x.
    destruct (String.eqb (w_uid x) (w_uid w)) eqn:E.
    - cbn [with_exportOpts w_uid w_exportOpts]. rewrite E.
      unfold with_exportOpts. cbn. rewrite spread_opts_idempotent.
      reflexivity.
    - rewrite E. reflexivity. }
  intros Hoff. apply Forall_map, Forall_forall. intros x _. cbv beta.
  destruct (String.eqb_spec (w_uid x) (w_uid w)) as [Heq | Hne].
  - intros _. apply fitRecords_hr_off. cbn. rewrite Hoff. reflexivity.
  - intros Hc. contradiction.
Qed.

(** Turning the HR option of the sample workout off. *)
Lemma updateWorkoutOpts_frame_witness :
  map (fun y => includeHrSeries (w_exportOpts y))
    (updateWorkoutOpts sample_store_workout
       {| patch_includeHrSeries := Some false;
          patch_includeCadenceSeries := None;
          patch_includePowerSeries := None;
          patch_includeMetricsInNotes := None;
          patch_includeCalories := None;
          patch_includeDistance := None;
          patch_includeVerticalAsAltitude := None |}
       [sample_store_workout])
  = [false].
Proof.
  destruct (updateWorkoutOpts_frame sample_store_workout
              {| patch_includeHrSeries := Some false;
                 patch_includeCadenceSeries := None;
                 patch_includePowerSeries := None;
                 patch_includeMetricsInNotes := None;
                 patch_includeCalories := None;
                 patch_includeDistance := None;
                 patch_includeVerticalAsAltitude := None |}
              [sample_store_workout])
    as (_ & Hframe & _).
  apply Forall2_cons_inv_l in Hframe as (y & l & (_ & _ & Hy) & Hl & ->).
  apply Forall2_nil_inv_l in Hl as ->. simpl. rewrite (Hy eq_refl).
  reflexivity.
Defined.

(* ------------------------------------------------------------------ *)
(** ** The aggregates of a FIT lap *)


(* ------------------------------------------------------------------ *)
(** ** The metric names of a workout *)

Lemma insert_string_perm (s : string) (l : list string) :
  Permutation (s :: l) (insert_string s l).
Proof.
  induction l as [|x l IH]; simpl; [reflexivity|].
  destruct (String.leb s x); [reflexivity|].
  rewrite perm_swap. apply perm_skip, IH.
Qed.

Lemma sort_strings_perm (l : list string) : Permutation l (sort_strings l).
Proof.
  induction l as [|s l IH]; simpl; [reflexivity|].
  rewrite <- insert_string_perm. apply perm_skip, IH.
Qed.

Lemma insert_string_sorted (s : string) (l : list string) :
  Sorted (fun a b => String.leb a b = true) l ->
  Sorted (fun a b => String.leb a b = true) (insert_string s l).
Proof.
  intros Hs. induction Hs as [|x l Hs IH Hhd]; simpl.
  - repeat constructor.
  - destruct (String.leb s x) eqn:E.
    + constructor; [constructor; assumption|]. constructor. exact E.
    + constructor; [exact IH|].
      assert (Hxs : String.leb x s = true).
      { destruct (String.leb_total s x) as [Hc | Hc]; [congruence | exact Hc]. }
      destruct l as [|y l]; simpl; [constructor; exact Hxs|].
      destruct (String.leb s y); constructor; [exact Hxs|].
      inversion Hhd. assumption.
Qed.

Lemma sort_strings_sorted (l : list string) :
  Sorted (fun a b => String.leb a b = true) (sort_strings l).
Proof.
  induction l as [|s l IH]; simpl; [constructor|].
  apply insert_string_sorted, IH.
Qed.

Lemma metric_names_of_map (w : Workout) :
  w_metricKeys w = sort_strings (map fst (w_metrics w)) ->
  List.NoDup (map fst (w_metrics w)) -> metric_names_listed w.
Proof.
  intros Hkeys Hnd. unfold metric_names_listed. rewrite Hkeys.
  split; [apply sort_strings_sorted|].
  split; [apply sort_strings_perm|].
  eapply Permutation_NoDup; [apply sort_strings_perm | exact Hnd].
Qed.

Lemma mset_opt_keys_NoDup (m : Metrics) (k : string) (o : option Q) :
  List.NoDup (map fst m) -> List.NoDup (map fst (mset_opt m k o)).
Proof.
  intros Hnd. destruct o; [apply mset_keys_NoDup, Hnd | exact Hnd].
Qed.

Section MetricNames.
Context `{JsBuiltins} `{JsRuntime}.

Lemma prToMap_keys_NoDup (raw : unknown) : List.NoDup (map fst (prToMap raw)).
Proof.
  unfold prToMap. destruct (prOf raw); try constructor.
  apply prToMap_fold_keys_NoDup. constructor.
Qed.

Lemma reconstructMetrics_keys_NoDup (series : list SeriesPoint)
  (sampleDistanceM : option Q) (sm : SummaryScan) :
  List.NoDup (map fst (reconstructMetrics series sampleDistanceM sm)).
Proof.
  rewrite reconstructMetrics_chain. cbv zeta.
  repeat apply mset_opt_keys_NoDup. constructor.
Qed.

(** X26. Every workout the three producers build lists its metric
    names in [metricKeys] once each and in sorted order: the list is a
    duplicate-free, sorted rearrangement of the names of the metrics
    map. *)
Theorem metric_names_are_listed (clk : Clock) (idx : nat) (raw : unknown)
  (core : JsObject) (startedAtISO : option string) :
  metric_names_listed (indoorWorkout idx raw) /\
  metric_names_listed (outdoorWorkout idx raw) /\
  metric_names_listed (singlePageWorkout clk core startedAtISO).
Proof.
  split; [|split]; apply metric_names_of_map; try reflexivity.
  - apply prToMap_keys_NoDup.
  - apply prToMap_keys_NoDup.
  - apply reconstructMetrics_keys_NoDup.
Qed.

End MetricNames.

(* ------------------------------------------------------------------ *)
(** ** The uids of a batch *)

Lemma append_assoc (a b c : string) : (a +++ b) +++ c = a +++ (b +++ c).
Proof. induction a as [|x a IH]; simpl; [reflexivity | rewrite IH; reflexivity]. Qed.

Lemma split_on_app (sep : ascii) (a b : string) :
  split_on sep (a +++ String sep b) = split_on sep a ++ split_on sep b.
Proof.
  induction a as [|c a IH]; simpl.
  - rewrite Ascii.eqb_refl. reflexivity.
  - destruct (Ascii.eqb c sep); [rewrite IH; reflexivity|].
    rewrite IH. pose proof (split_on_nonempty sep a) as Hne.
    destruct (split_on sep a) as [|part parts]; [contradiction|]. reflexivity.
Qed.

Lemma split_on_digits (d : string) :
  all_digits d = true -> split_on "-" d = [d].
Proof.
  induction d as [|c d IH]; simpl; [reflexivity|]. intros Hd.
  apply andb_true_iff in Hd as [Hc Hd]. rewrite (IH Hd).
  destruct (Ascii.eqb_spec c "-") as [-> | _]; [discriminate | reflexivity].
Qed.

(** A string that ends with a dash and digits ends with them in one way
    only. *)
Lemma dash_digits_suffix (p1 p2 d1 d2 : string) :
  p1 +++ String "-" d1 = p2 +++ String "-" d2 ->
  all_digits d1 = true -> all_digits d2 = true -> d1 = d2.
Proof.
  intros Heq H1 H2.
  assert (Hlast : last (split_on "-" (p1 +++ String "-" d1))
                  = last (split_on "-" (p2 +++ String "-" d2)))
    by (rewrite Heq; reflexivity).
  rewrite !split_on_app, (split_on_digits d1 H1), (split_on_digits d2 H2),
    !last_snoc in Hlast.
  injection Hlast as ->. reflexivity.
Qed.

Lemma string_of_uint_digits (u : Decimal.uint) :
  all_digits (DecimalString.NilEmpty.string_of_uint u) = true.
Proof. induction u; simpl; try rewrite IHu; reflexivity. Qed.

Lemma decimal_digits (n : nat) : all_digits (decimal n) = true.
Proof. apply string_of_uint_digits. Qed.

Lemma decimal_injective (n m : nat) : decimal n = decimal m -> n = m.
Proof.
  unfold decimal. intros Heq. apply DecimalNat.Unsigned.to_uint_inj.
  pose proof (DecimalString.NilEmpty.usu (Nat.to_uint n)) as Hn.
  rewrite Heq, DecimalString.NilEmpty.usu in Hn. injection Hn as ->.
  reflexivity.
Qed.

Lemma decimal_builtins_print : @prints_decimal decimal_builtins.
Proof.
  intros n. unfold decimal_builtins. cbn [Number_toString].
  rewrite Qfloor_Z, Nat2Z.id. reflexivity.
Qed.

Lemma uid_shape (a s id d : string) :
  a +++ s +++ "-" +++ id +++ "-" +++ d
  = (a +++ s +++ "-" +++ id) +++ String "-" d.
Proof.
  rewrite (append_assoc a (s +++ "-" +++ id) (String "-" d)).
  rewrite (append_assoc s ("-" +++ id) (String "-" d)).
  reflexivity.
Qed.

Section BatchUids.
Context `{JsBuiltins}.

Lemma indoor_uid_index (i j : nat) (raw raw' : unknown) :
  prints_decimal ->
  w_uid (indoorWorkout i raw) = w_uid (indoorWorkout j raw') -> i = j.
Proof.
  intros Hdec Heq. unfold indoorWorkout in Heq. cbn [w_uid] in Heq.
  rewrite !Hdec, !uid_shape in Heq.
  apply decimal_injective.
  eapply dash_digits_suffix; [exact Heq | apply decimal_digits..].
Qed.

Lemma outdoor_uid_index (i j : nat) (raw raw' : unknown) :
  prints_decimal ->
  w_uid (outdoorWorkout i raw) = w_uid (outdoorWorkout j raw') -> i = j.
Proof.
  intros Hdec Heq. unfold outdoorWorkout in Heq. cbn [w_uid] in Heq.
  rewrite !Hdec, !uid_shape in Heq.
  apply decimal_injective.
  eapply dash_digits_suffix; [exact Heq | apply decimal_digits..].
Qed.

Lemma imap_NoDup {A B : Type} (f : nat -> A -> B) (l : list A) :
  (forall i j x y, f i x = f j y -> i = j) -> NoDup (imap f l).
Proof.
  intros Hf. apply NoDup_alt. intros i j b Hi Hj.
  rewrite list_lookup_imap in Hi, Hj.
  destruct (l !! i) as [x|]; [|discriminate].
  destruct (l !! j) as [y|]; [|discriminate].
  simpl in Hi, Hj. injection Hi as Hi. injection Hj as Hj.
  apply (Hf i j x y). congruence.
Qed.

(** X27. The workouts of one batch have pairwise distinct uids: on a
    runtime that prints array indices in decimal, no two workouts that
    the indoor (or the outdoor) normalizer builds from one input share
    a uid, whatever the records hold, so a change of export options
    aimed at one of them reaches that one only. *)
Theorem batch_uids_distinct (obj : unknown) :
  prints_decimal ->
  NoDup (map w_uid (extractWorkoutsFromIndoorJSON obj)) /\
  NoDup (map w_uid (extractWorkoutsFromOutdoorJSON obj)) /\
  (forall w patch,
     w ∈ extractWorkoutsFromIndoorJSON obj ->
     Forall2 (fun x y => x <> w -> y = x)
       (extractWorkoutsFromIndoorJSON obj)
       (updateWorkoutOpts w patch (extractWorkoutsFromIndoorJSON obj))).
Proof.
  intros Hdec.
  assert (Hin : NoDup (map w_uid (extractWorkoutsFromIndoorJSON obj))).
  { unfold extractWorkoutsFromIndoorJSON.
    change (map w_uid ?l) with (w_uid <$> l). rewrite fmap_imap.
    apply imap_NoDup. intros i j x y. unfold compose.
    apply (indoor_uid_index i j x y Hdec). }
  split; [exact Hin|]. split.
  { unfold extractWorkoutsFromOutdoorJSON.
    destruct (outdoorItems obj); try constructor.
    change (map w_uid ?l) with (w_uid <$> l). rewrite fmap_imap.
    apply imap_NoDup. intros i j x y. unfold compose.
    apply (outdoor_uid_index i j x y Hdec). }
  intros w patch Hw. unfold updateWorkoutOpts.
  apply Forall2_fmap_r, Forall_Forall2_diag, Forall_forall. intros x Hx.
  unfold compose. cbv beta. intros Hne.
  destruct (String.eqb_spec (w_uid x) (w_uid w)) as [Heq | _]; [|reflexivity].
  exfalso. apply Hne.
  apply list_elem_of_lookup in Hx as [i Hi]. apply list_elem_of_lookup in Hw as [j Hj].
  assert (Hij : i = j).
  { apply (NoDup_lookup _ i j (w_uid x) Hin).
    - change (map w_uid ?l) with (w_uid <$> l). rewrite list_lookup_fmap.
      exact (f_equal (fmap w_uid) Hi).
    - change (map w_uid ?l) with (w_uid <$> l). rewrite list_lookup_fmap, Heq.
      exact (f_equal (fmap w_uid) Hj). }
  subst j. congruence.
Qed.

End BatchUids.

(** Three records without start or id: uids [indoor-unknown-ind-0-0] and
    so on, all distinct. *)
Lemma batch_uids_distinct_witness :
  NoDup (map w_uid
           (@extractWorkoutsFromIndoorJSON decimal_builtins
              (JArr [JNull; JNull; JNull]))).
Proof.
  apply (@batch_uids_distinct decimal_builtins (JArr [JNull; JNull; JNull])).
  apply decimal_builtins_print.
Defined.

(* ------------------------------------------------------------------ *)
(** ** Importing a ZIP export *)

Section ZipImportFacts.
Context `{JsBuiltins} `{JsRuntime}.

(** What one activity file contributes: the workouts of the indoor
    normalizer, none when the text does not parse, or an exception. *)
Lemma zip_loop_files (targets : list (string * Outcome string))
  (acc : list Workout) :
  Forall (fun entry => is_activity_file (fst entry) = true) targets ->
  zip_loop acc targets
  = Outcome_bind
      (Outcome_all
         (map (fun entry =>
                 Outcome_bind (snd entry) (fun text =>
                 match JSON_parse text with
                 | Some obj => extractWorkoutsFromIndoorJSON_call obj
                 | None => Normal []
                 end)) targets))
      (fun parts => Normal (acc ++ concat parts)).
Proof.
  intros Hall. revert acc.
  induction Hall as [|entry targets He _ IH]; intros acc; simpl.
  - rewrite app_nil_r. reflexivity.
  - unfold zip_step. unfold is_activity_file in He.
    apply andb_true_iff in He as [Hprefix _]. rewrite Hprefix.
    destruct (snd entry) as [text|]; [|reflexivity]. simpl.
    destruct (JSON_parse text) as [obj|]; simpl.
    + destruct (extractWorkoutsFromIndoorJSON_call obj) as [ws|];
        [|reflexivity].
      simpl. rewrite IH.
      destruct (Outcome_all _); simpl; [|reflexivity].
      rewrite <- app_assoc. reflexivity.
    + rewrite IH. destruct (Outcome_all _); reflexivity.
Qed.

Lemma Outcome_all_Forall2 {A : Type} (calls : list (Outcome A)) (l : list A) :
  Outcome_all calls = Normal l -> Forall2 (fun call a => call = Normal a) calls l.
Proof.
  revert l. induction calls as [|call calls IH]; intros l; simpl.
  - intros [= <-]. constructor.
  - destruct call as [a|]; [|discriminate]. simpl.
    destruct (Outcome_all calls) as [l'|]; [|discriminate]. simpl.
    intros [= <-]. constructor; [reflexivity | apply IH; reflexivity].
Qed.

Lemma Outcome_all_Throw {A : Type} (calls : list (Outcome A)) :
  Throw ∈ calls -> Outcome_all calls = Throw.
Proof.
  induction calls as [|call calls IH]; intros Hin; [inversion Hin|].
  simpl. destruct call as [a|]; [|reflexivity]. simpl.
  rewrite IH; [reflexivity|].
  apply elem_of_cons in Hin as [Hin | Hin]; [discriminate | exact Hin].
Qed.

(** X28. The ZIP import reads the activity files only.  Its outcome is
    decided by the entries whose base name, in lower case, starts with
    [indooractivities-] and ends with [.json], taken in the order of
    the archive.  When each such file unpacks and the indoor normalizer
    returns on each one that parses, the workouts are those of the
    normalizer on these files, one file after the other, a file that
    does not parse being skipped; without such an entry, or without any
    workout in them, the outcome is the matching error.  When one such
    file does not unpack, or the normalizer throws on it, the outcome is
    the error of the handler's [catch] and no workout is imported.  Two
    archives with the same activity files give the same outcome,
    whatever their other entries hold. *)
Theorem zip_import_reads_activity_files_only
  (entries entries' : list (string * Outcome string)) :
  let targets :=
    filter (fun entry => is_activity_file (fst entry) = true) entries in
  let file := fun entry : string * Outcome string =>
    Outcome_bind (snd entry) (fun text =>
    match JSON_parse text with
    | Some obj => extractWorkoutsFromIndoorJSON_call obj
    | None => Normal []
    end) in
  zipWorkouts entries
  = match targets with
    | [] => NoActivityFile
    | _ :: _ =>
        match Outcome_all (map file targets) with
        | Throw => ReadFailed
        | Normal parts =>
            match concat parts with
            | [] => NoWorkouts
            | w :: ws => Imported (w :: ws)
            end
        end
    end /\
  (Exists (fun entry => file entry = Throw) targets ->
   zipWorkouts entries = ReadFailed) /\
  (filter (fun entry => is_activity_file (fst entry) = true) entries' = targets ->
   zipWorkouts entries' = zipWorkouts entries) /\
  (forall workouts, zipWorkouts entries = Imported workouts ->
     workouts <> [] /\
     Forall (fun w => w_source w = indoor /\ w_series w = None) workouts).
Proof.
  intros targets file.
  assert (Htargets : Forall (fun entry => is_activity_file (fst entry) = true)
                       targets).
  { apply Forall_forall. intros entry He.
    apply list_elem_of_filter in He as [He _]. exact He. }
  assert (Hres : zipWorkouts entries
    = match targets with
      | [] => NoActivityFile
      | _ :: _ =>
          match Outcome_all (map file targets) with
          | Throw => ReadFailed
          | Normal parts =>
              match concat parts with
              | [] => NoWorkouts
              | w :: ws => Imported (w :: ws)
              end
          end
      end).
  { unfold zipWorkouts. fold targets.
    rewrite (zip_loop_files targets [] Htargets). fold file.
    destruct targets; [reflexivity|]. simpl length. cbn [Nat.eqb].
    destruct (Outcome_all _) as [parts|]; [|reflexivity].
    simpl. destruct (concat parts); reflexivity. }
  split; [exact Hres|].
  split.
  { intros Hex. rewrite Hres.
    destruct targets as [|e targets']; [inversion Hex|].
    rewrite Outcome_all_Throw; [reflexivity|].
    apply Exists_exists in Hex as (entry & Hin & Hthrow).
    rewrite <- Hthrow. apply list_elem_of_fmap_2, Hin. }
  split.
  { intros Hsame. unfold zipWorkouts. fold targets. rewrite Hsame.
    reflexivity. }
  intros workouts Himp. rewrite Hres in Himp.
  destruct targets as [|e targets']; [discriminate|].
  destruct (Outcome_all (map file (e :: targets'))) as [parts|] eqn:Hparts;
    [|discriminate].
  destruct (concat parts) as [|w ws] eqn:Hcat; [discriminate|].
  injection Himp as <-. split; [discriminate|].
  rewrite <- Hcat. apply Forall_concat.
  apply Outcome_all_Forall2 in Hparts.
  apply Forall_forall. intros part Hpart.
  apply list_elem_of_lookup in Hpart as [i Hi].
  destruct (Forall2_lookup_r _ _ _ _ _ Hparts Hi) as (call & Hcall & Hret).
  apply list_lookup_fmap_Some in Hcall as (entry & -> & _).
  unfold file in Hret. destruct (snd entry) as [text|]; [|discriminate].
  simpl in Hret. destruct (JSON_parse text) as [obj|].
  - rewrite extractWorkoutsFromIndoorJSON_call_cases in Hret.
    destruct (forallb _ _); [|discriminate]. injection Hret as <-.
    unfold extractWorkoutsFromIndoorJSON.
    apply Forall_forall. intros w' Hw.
    apply list_elem_of_lookup in Hw as [j Hj].
    rewrite list_lookup_imap in Hj.
    destruct (_ !! j); [|discriminate]. injection Hj as <-.
    split; reflexivity.
  - injection Hret as <-. constructor.
Qed.

End ZipImportFacts.

(** An archive with a profile file that does not unpack and one
    activity file. *)
Lemma zip_import_reads_activity_files_only_witness :
  @zipWorkouts sample_builtins sample_runtime
    [("masterdata-1.json", Throw);
     ("export/indooractivities-1.json", Normal "[null]")]
  = @zipWorkouts sample_builtins sample_runtime
      [("export/indooractivities-1.json", Normal "[null]")].
Proof.
  destruct (@zip_import_reads_activity_files_only sample_builtins sample_runtime
              [("export/indooractivities-1.json", Normal "[null]")]
              [("masterdata-1.json", Throw);
               ("export/indooractivities-1.json", Normal "[null]")])
    as (_ & _ & Hsame & _).
  apply Hsame. reflexivity.
Defined.

(* ------------------------------------------------------------------ *)
(** ** The distance along a reconstructed workout *)

Section ReconstructedDistance.
Context `{JsBuiltins} `{JsRuntime}.

(** X29. The distance along a reconstructed workout.  When the
    workout's distance is not negative and distances are exported, the
    distances both encoders emit are the same, start at or above 0,
    never decrease along the track and never exceed the workout's
    distance: the offsets of a reconstructed series are whole seconds,
    so the bound needs no further assumption. *)
Theorem reconstructed_workout_distance (clk clk' : Clock) (core : JsObject)
  (startedAtISO : option string) (opts : WorkoutExportOpts) (d : Q) :
  let w := singlePageWorkout clk core startedAtISO in
  w_distanceM w = Some d -> 0 <= d -> includeDistance opts = true ->
  let distances := map r_dist (fitRecords w opts) in
  map tp_dist (tcxPoints clk' w opts) = distances /\
  Forall (fun x => 0 <= x <= d) distances /\
  StronglySorted Qle distances.
Proof.
  intros w Hd Hpos Hopt distances.
  assert (Htotal : totalDistanceOf w opts = Some d).
  { unfold totalDistanceOf. rewrite Hopt. exact Hd. }
  destruct (distances_cumulative clk' w opts d Htotal Hpos)
    as (Hsame & Hnn & Hsorted & Hle).
  split; [exact Hsame|]. split; [|exact Hsorted].
  assert (Hbound : Forall (fun x => x <= d) (map r_dist (fitRecords w opts))).
  { apply Hle. intros series Hser.
    set (analytics := asRecord (prop (Some core) "analitics")).
    destruct (reconstructSeries_shape (asArray (prop analytics "descriptor"))
                (asArray (prop analytics "samples"))
                (asArray (prop analytics "hr")))
      as (_ & _ & _ & Hint & _).
    change (Some (fst (reconstructSeries
                         (asArray (prop analytics "descriptor"))
                         (asArray (prop analytics "samples"))
                         (asArray (prop analytics "hr")))) = Some series)
      in Hser.
    injection Hser as <-. exact Hint. }
  fold distances in Hnn, Hbound.
  rewrite Forall_forall in Hnn. rewrite Forall_forall in Hbound.
  apply Forall_forall. intros x Hx. split; [apply Hnn | apply Hbound]; exact Hx.
Qed.

End ReconstructedDistance.

(** A payload with two samples, whose distance values are 1 km and
    then 2 km. *)
Lemma reconstructed_workout_distance_witness :
  Forall (fun x => 0 <= x <= 2000)
    (map r_dist
       (fitRecords
          (@singlePageWorkout sample_builtins sample_runtime (sample_clock 0)
             [("analitics",
               JObj [("descriptor",
                      JArr [JObj [("i", JNum 0);
                                  ("pr", JObj [("name", JStr "hdistance");
                                               ("um", JStr "km")])]]);
                     ("samples",
                      JArr [JObj [("t", JNum 0); ("vs", JArr [JNum 1])];
                            JObj [("t", JNum 12); ("vs", JArr [JNum 2])]])])]
             None)
          sample_opts)).
Proof.
  destruct (@reconstructed_workout_distance sample_builtins sample_runtime
              (sample_clock 0) (sample_clock 0)
              [("analitics",
                JObj [("descriptor",
                       JArr [JObj [("i", JNum 0);
                                   ("pr", JObj [("name", JStr "hdistance");
                                                ("um", JStr "km")])]]);
                      ("samples",
                       JArr [JObj [("t", JNum 0); ("vs", JArr [JNum 1])];
                             JObj [("t", JNum 12); ("vs", JArr [JNum 2])]])])]
              None sample_opts 2000)
    as (_ & Hin & _).
  - vm_compute. reflexivity.
  - discriminate.
  - reflexivity.
  - exact Hin.
Defined.
